(** * Grid pairing: the grid model, the greedy solver and the
      min-cost-flow solver, embedded from [gridpairing/grid.py] and
      [gridpairing/solvers.py]. *)

From Stdlib Require Import ZArith List Bool Lia Permutation Arith.
Import ListNotations.
Local Open Scope Z_scope.

(** ** Outcomes of a Python call

    A call returns a value, raises an exception, or (in the model only)
    exhausts the iteration budget given to its [while] loops. *)

Inductive exn := KeyError | IndexError | TypeError.

Inductive result (A : Type) : Type :=
| Ok (a : A)
| Raise (e : exn)
| OutOfFuel.

Arguments Ok {A} a.
Arguments Raise {A} e.
Arguments OutOfFuel {A}.

Definition bind {A B} (c : result A) (k : A -> result B) : result B :=
  match c with
  | Ok a => k a
  | Raise e => Raise e
  | OutOfFuel => OutOfFuel
  end.

Declare Scope py_scope.
Delimit Scope py_scope with py.
Notation "x <- c ;; k" := (bind c (fun x => k))
  (at level 61, c at next level, right associativity) : py_scope.
Notation "' p <- c ;; k" := (bind c (fun x => let p := x in k))
  (at level 61, p pattern, c at next level, right associativity) : py_scope.
Local Open Scope py_scope.

(** [for x in l: s = body x s], stopping at the first exception. *)
Fixpoint for_each {A S} (l : list A) (body : A -> S -> result S) (s : S)
  : result S :=
  match l with
  | [] => Ok s
  | x :: r => s' <- body x s ;; for_each r body s'
  end.

(** [range(n)] for an integer [n]: empty when [n <= 0]. *)
Definition range (n : Z) : list Z := map Z.of_nat (seq 0 (Z.to_nat n)).

(** [l[i]] on a Python list: negative indices count from the end, anything
    outside [-len, len) raises [IndexError]. *)
Definition py_index {A} (l : list A) (i : Z) : result A :=
  let len := Z.of_nat (length l) in
  let k := if i <? 0 then i + len else i in
  if (0 <=? k) && (k <? len) then
    match nth_error l (Z.to_nat k) with
    | Some x => Ok x
    | None => Raise IndexError
    end
  else Raise IndexError.

(** ** Cells, pairs and nodes *)

Definition cell : Type := Z * Z.
Definition pair : Type := cell * cell.

Definition cell_eqb (a b : cell) : bool :=
  (fst a =? fst b) && (snd a =? snd b).

Definition pair_eqb (p q : pair) : bool :=
  cell_eqb (fst p) (fst q) && cell_eqb (snd p) (snd q).

Lemma cell_eqb_spec (a b : cell) : reflect (a = b) (cell_eqb a b).
Proof.
  destruct a as [a1 a2], b as [b1 b2]; unfold cell_eqb; simpl.
  destruct (Z.eqb_spec a1 b1), (Z.eqb_spec a2 b2); simpl;
    constructor; congruence.
Qed.

Lemma pair_eqb_spec (p q : pair) : reflect (p = q) (pair_eqb p q).
Proof.
  destruct p as [p1 p2], q as [q1 q2]; unfold pair_eqb; simpl.
  destruct (cell_eqb_spec p1 q1), (cell_eqb_spec p2 q2); simpl;
    constructor; congruence.
Qed.

Definition cell_eq_dec (a b : cell) : {a = b} + {a <> b}.
Proof. decide equality; apply Z.eq_dec. Defined.

Definition pair_eq_dec (p q : pair) : {p = q} + {p <> q}.
Proof. decide equality; apply cell_eq_dec. Defined.

(** Membership test [x in s] for a set or list of cells. *)
Definition cell_in (c : cell) (s : list cell) : bool := existsb (cell_eqb c) s.

Lemma cell_in_spec c s : cell_in c s = true <-> In c s.
Proof.
  unfold cell_in. rewrite existsb_exists. split.
  - intros [x [Hx He]]. destruct (cell_eqb_spec c x); congruence.
  - intros H. exists c. split; auto. destruct (cell_eqb_spec c c); congruence.
Qed.

(** The iteration order of a Python [set] is fixed by the hashes of its
    elements; the model only relies on [list(set(l))] listing each element
    of [l] once. *)
Class SetIteration := {
  list_of_set : list pair -> list pair;
  list_of_set_perm :
    forall l, Permutation (nodup pair_eq_dec l) (list_of_set l)
}.

(** ** The grid *)

Module Grid.

Record t := mk {
  n : Z;
  m : Z;
  color : list (list Z);
  value : list (list Z)
}.

(** [Grid.__init__]: an omitted or empty colour (value) matrix is replaced
    by all-white (all-one). *)
Definition init (n m : Z) (color : option (list (list Z)))
           (value : list (list Z)) : t :=
  let color :=
    match color with
    | None | Some [] => map (fun _ => map (fun _ => 0) (range m)) (range n)
    | Some c => c
    end in
  let value :=
    match value with
    | [] => map (fun _ => map (fun _ => 1) (range m)) (range n)
    | v => v
    end in
  mk n m color value.

Definition color_at (g : t) (i j : Z) : result Z :=
  row <- py_index (color g) i ;; py_index row j.

Definition value_at (g : t) (i j : Z) : result Z :=
  row <- py_index (value g) i ;; py_index row j.

Definition is_forbidden (g : t) (i j : Z) : result bool :=
  c <- color_at g i j ;; Ok (c =? 4).

Definition non_adjacent (c1 c2 : cell) : bool :=
  if ((snd c1 =? snd c2) && (Z.abs (fst c1 - fst c2) =? 1))
     || ((fst c1 =? fst c2) && (Z.abs (snd c1 - snd c2) =? 1))
  then false else true.

(** The dictionary of lambdas; a colour outside 0..4 is a missing key. *)
Definition color_rules (k : Z) : option (Z -> bool) :=
  match k with
  | 0 => Some (fun _ => false)
  | 1 => Some (fun c => 2 <? c)
  | 2 => Some (fun c => 2 <? c)
  | 3 => Some (fun c => negb ((c =? 0) || (c =? 3)))
  | 4 => Some (fun _ => true)
  | _ => None
  end.

Definition colors_forbidden (g : t) (c1 c2 : cell) : result bool :=
  k1 <- color_at g (fst c1) (snd c1) ;;
  rule <- match color_rules k1 with
          | Some r => Ok r
          | None => Raise KeyError
          end ;;
  k2 <- color_at g (fst c2) (snd c2) ;;
  Ok (rule k2).

(** [not (a or b or c or d)], with Python's short-circuit evaluation. *)
Definition test_pair (g : t) (c1 c2 : cell) : result bool :=
  f1 <- is_forbidden g (fst c1) (snd c1) ;;
  if f1 then Ok false else
  f2 <- is_forbidden g (fst c2) (snd c2) ;;
  if f2 then Ok false else
  if non_adjacent c1 c2 then Ok false else
  cf <- colors_forbidden g c1 c2 ;;
  Ok (negb cf).

Definition cost (g : t) (p : pair) : result Z :=
  v1 <- value_at g (fst (fst p)) (snd (fst p)) ;;
  v2 <- value_at g (fst (snd p)) (snd (snd p)) ;;
  Ok (Z.abs (v1 - v2)).

(** Body of the inner loop of [all_pairs] at cell [(i, j)]. *)
Definition all_pairs_cell (g : t) (i j : Z) (pairs : list pair)
  : result (list pair) :=
  pairs <- (if j + 1 <? m g then
              b <- test_pair g (i, j) (i, j + 1) ;;
              Ok (if b then pairs ++ [((i, j), (i, j + 1))] else pairs)
            else Ok pairs) ;;
  if i + 1 <? n g then
    b <- test_pair g (i, j) (i + 1, j) ;;
    Ok (if b then pairs ++ [((i, j), (i + 1, j))] else pairs)
  else Ok pairs.

(** The list built by the two nested loops, before [list(set(...))]. *)
Definition all_pairs_scan (g : t) : result (list pair) :=
  for_each (range (n g))
    (fun i pairs => for_each (range (m g)) (all_pairs_cell g i) pairs) [].

Definition all_pairs `{SetIteration} (g : t) : result (list pair) :=
  pairs <- all_pairs_scan g ;; Ok (list_of_set pairs).

End Grid.

(** ** State-passing with exceptions

    Methods that mutate [self] are functions from the state before the call
    to an outcome and the state when the call ends; an exception leaves the
    mutations made so far in place. *)

Definition SM (S A : Type) : Type := S -> result A * S.

Definition retS {S A} (a : A) : SM S A := fun s => (Ok a, s).

Definition bindS {S A B} (c : SM S A) (k : A -> SM S B) : SM S B :=
  fun s =>
    match c s with
    | (Ok a, s') => k a s'
    | (Raise e, s') => (Raise e, s')
    | (OutOfFuel, s') => (OutOfFuel, s')
    end.

Definition liftS {S A} (r : result A) : SM S A := fun s => (r, s).
Definition getS {S} : SM S S := fun s => (Ok s, s).
Definition modifyS {S} (f : S -> S) : SM S unit := fun s => (Ok tt, f s).

(** Run a method of a sub-object stored in a field of the state. *)
Definition zoomS {S T A} (get : S -> T) (set : S -> T -> S) (c : SM T A)
  : SM S A :=
  fun s => let (r, t') := c (get s) in (r, set s t').

Notation "x <~ c ;; k" := (bindS c (fun x => k))
  (at level 61, c at next level, right associativity) : py_scope.
Notation "c ;;~ k" := (bindS c (fun _ => k))
  (at level 61, right associativity) : py_scope.

Fixpoint for_eachS {X S} (l : list X) (body : X -> SM S unit) : SM S unit :=
  match l with
  | [] => retS tt
  | x :: r => body x ;;~ for_eachS r body
  end.

(** ** Insertion-ordered dictionaries

    A Python [dict] keeps its keys in insertion order; assigning to an
    existing key keeps the key's position. *)

Class Key (K : Type) := {
  key_eqb : K -> K -> bool;
  key_eqb_spec : forall a b, reflect (a = b) (key_eqb a b)
}.

#[export] Instance cell_key : Key cell :=
  {| key_eqb := cell_eqb; key_eqb_spec := cell_eqb_spec |}.
#[export] Instance pair_key : Key pair :=
  {| key_eqb := pair_eqb; key_eqb_spec := pair_eqb_spec |}.

Module Dict.
Section Defs.
Context {K V : Type} `{Key K}.

Definition t := list (K * V).

Definition empty : t := [].

Fixpoint get (d : t) (k : K) : option V :=
  match d with
  | [] => None
  | (k', v) :: r => if key_eqb k' k then Some v else get r k
  end.

Fixpoint set (d : t) (k : K) (v : V) : t :=
  match d with
  | [] => [(k, v)]
  | (k', v') :: r =>
      if key_eqb k' k then (k', v) :: r else (k', v') :: set r k v
  end.

Definition mem (d : t) (k : K) : bool :=
  match get d k with Some _ => true | None => false end.

Definition keys (d : t) : list K := map fst d.

(** [d[k]] in an expression. *)
Definition lookup (d : t) (k : K) : result V :=
  match get d k with
  | Some v => Ok v
  | None => Raise KeyError
  end.

(** [{k: f(k) for k in ks}] *)
Definition of_keys (ks : list K) (f : K -> V) : t :=
  fold_left (fun d k => set d k (f k)) ks empty.
End Defs.
Arguments t : clear implicits.
Arguments t K V : clear implicits.
End Dict.

(** [d[u][v]] and [d[u][v] = x] on a dictionary of dictionaries. *)
Definition get2 {K V} `{Key K} (d : Dict.t K (Dict.t K V)) (u v : K)
  : result V :=
  inner <- Dict.lookup d u ;; Dict.lookup inner v.

Definition set2 {K V} `{Key K} (d : Dict.t K (Dict.t K V)) (u v : K) (x : V)
  : result (Dict.t K (Dict.t K V)) :=
  inner <- Dict.lookup d u ;; Ok (Dict.set d u (Dict.set inner v x)).

(** ** Nodes of the flow network: the two sentinels ["S"], ["T"] and the
    cells. *)

Inductive node := Source | Sink | Cell (c : cell).

Definition node_eqb (a b : node) : bool :=
  match a, b with
  | Source, Source => true
  | Sink, Sink => true
  | Cell c, Cell d => cell_eqb c d
  | _, _ => false
  end.

Lemma node_eqb_spec (a b : node) : reflect (a = b) (node_eqb a b).
Proof.
  destruct a, b; simpl; try (constructor; congruence).
  destruct (cell_eqb_spec c c0); constructor; congruence.
Qed.

#[export] Instance node_key : Key node :=
  {| key_eqb := node_eqb; key_eqb_spec := node_eqb_spec |}.

(** Distances: an integer or [float("inf")]. *)
Inductive ext := Fin (z : Z) | Inf.

Definition ext_add (a : ext) (c : Z) : ext :=
  match a with Fin x => Fin (x + c) | Inf => Inf end.

Definition ext_ltb (a b : ext) : bool :=
  match a, b with
  | Fin x, Fin y => x <? y
  | Fin _, Inf => true
  | Inf, _ => false
  end.

Definition ext_eqb (a b : ext) : bool :=
  match a, b with
  | Fin x, Fin y => x =? y
  | Inf, Inf => true
  | _, _ => false
  end.

Definition ext_min (a b : ext) : ext :=
  match a, b with
  | Fin x, Fin y => Fin (Z.min x y)
  | Fin x, Inf => Fin x
  | Inf, b => b
  end.

(** ** The flow network ([class Graph]) *)

Module Graph.

Record t := mk {
  capacity : Dict.t node (Dict.t node Z);
  cost : Dict.t node (Dict.t node Z);
  flow : Dict.t node (Dict.t node Z);
  neigh : Dict.t node (list node);
  adj_list : Dict.t node (list node)
}.

(** [Graph.__init__] *)
Definition init : t :=
  mk Dict.empty Dict.empty Dict.empty Dict.empty Dict.empty.

Definition set_flow (g : t) (f : Dict.t node (Dict.t node Z)) : t :=
  mk (capacity g) (cost g) f (neigh g) (adj_list g).

(** [s.add(v)] on a set of nodes. *)
Definition set_add (s : list node) (v : node) : list node :=
  if existsb (node_eqb v) s then s else s ++ [v].

(** Body of the loop [for node in [u, v]] of [add_edge]. *)
Definition register (x : node) : SM t unit :=
  fun g =>
    if Dict.mem (capacity g) x then (Ok tt, g)
    else (Ok tt,
          mk (Dict.set (capacity g) x Dict.empty)
             (Dict.set (cost g) x Dict.empty)
             (Dict.set (flow g) x Dict.empty)
             (Dict.set (neigh g) x [])
             (Dict.set (adj_list g) x [])).

(** The five assignments that store one directed edge [u -> v]. *)
Definition store_edge (u v : node) (cap c : Z) : SM t unit :=
  (fun g => match set2 (capacity g) u v cap with
            | Ok d => (Ok tt, mk d (cost g) (flow g) (neigh g) (adj_list g))
            | Raise e => (Raise e, g)
            | OutOfFuel => (OutOfFuel, g)
            end) ;;~
  (fun g => match set2 (cost g) u v c with
            | Ok d => (Ok tt, mk (capacity g) d (flow g) (neigh g) (adj_list g))
            | Raise e => (Raise e, g)
            | OutOfFuel => (OutOfFuel, g)
            end) ;;~
  (fun g => match set2 (flow g) u v 0 with
            | Ok d => (Ok tt, set_flow g d)
            | Raise e => (Raise e, g)
            | OutOfFuel => (OutOfFuel, g)
            end) ;;~
  (fun g => match Dict.lookup (neigh g) u with
            | Ok s => (Ok tt, mk (capacity g) (cost g) (flow g)
                                (Dict.set (neigh g) u (set_add s v))
                                (adj_list g))
            | Raise e => (Raise e, g)
            | OutOfFuel => (OutOfFuel, g)
            end) ;;~
  (fun g => match Dict.lookup (adj_list g) u with
            | Ok l => (Ok tt, mk (capacity g) (cost g) (flow g) (neigh g)
                                (Dict.set (adj_list g) u (l ++ [v])))
            | Raise e => (Raise e, g)
            | OutOfFuel => (OutOfFuel, g)
            end).

Definition add_edge (u v : node) (cap c : Z) : SM t unit :=
  for_eachS [u; v] register ;;~
  store_edge u v cap c ;;~
  store_edge v u 0 (- c).

(** *** [bellman_ford] *)

Record bf_state := mk_bf {
  dist : Dict.t node ext;
  pred : Dict.t node (option node);
  queue : list node;
  in_queue : Dict.t node bool
}.

(** Body of [for v in self.adj_list[u]]. *)
Definition relax (g : t) (u v : node) (st : bf_state) : result bf_state :=
  cap <- get2 (capacity g) u v ;;
  fl <- get2 (flow g) u v ;;
  if cap >? fl then
    du <- Dict.lookup (dist st) u ;;
    c <- get2 (cost g) u v ;;
    let new_cost := ext_add du c in
    dv <- Dict.lookup (dist st) v ;;
    if ext_ltb new_cost dv then
      let dist' := Dict.set (dist st) v new_cost in
      let pred' := Dict.set (pred st) v (Some u) in
      inq <- Dict.lookup (in_queue st) v ;;
      if negb inq then
        Ok (mk_bf dist' pred' (queue st ++ [v])
                  (Dict.set (in_queue st) v true))
      else Ok (mk_bf dist' pred' (queue st) (in_queue st))
    else Ok st
  else Ok st.

(** The [while queue] loop; [fuel] bounds the number of iterations. *)
Fixpoint bf_loop (fuel : nat) (g : t) (sink : node) (st : bf_state)
  : result (Dict.t node ext * Dict.t node (option node)) :=
  match queue st with
  | [] => Ok (dist st, pred st)
  | u :: q =>
      match fuel with
      | O => OutOfFuel
      | S fuel' =>
          let st1 := mk_bf (dist st) (pred st) q
                           (Dict.set (in_queue st) u false) in
          adj <- Dict.lookup (adj_list g) u ;;
          st2 <- for_each adj (relax g u) st1 ;;
          stop <- match queue st2 with
                  | [] => ds <- Dict.lookup (dist st2) sink ;;
                          Ok (ext_ltb ds Inf)
                  | _ :: _ => Ok false
                  end ;;
          if stop then Ok (dist st2, pred st2)
          else bf_loop fuel' g sink st2
      end
  end.

Definition bf_init (g : t) (source : node) : bf_state :=
  let nodes := Dict.keys (capacity g) in
  mk_bf (Dict.set (Dict.of_keys nodes (fun _ => Inf)) source (Fin 0))
        (Dict.of_keys nodes (fun _ => None))
        [source]
        (Dict.of_keys nodes (fun x => node_eqb x source)).

Definition bellman_ford (fuel : nat) (g : t) (source sink : node)
  : result (Dict.t node ext * Dict.t node (option node)) :=
  bf_loop fuel g sink (bf_init g source).

(** *** [min_cost_flow] *)

(** The loop [while v != source] that walks the predecessors back from the
    sink, collecting the path and its bottleneck. *)
Fixpoint walk (fuel : nat) (g : t) (pred : Dict.t node (option node))
         (source v : node) (path : list (node * node)) (fl : ext)
  : result (list (node * node) * ext) :=
  if node_eqb v source then Ok (path, fl) else
  match fuel with
  | O => OutOfFuel
  | S fuel' =>
      pu <- Dict.lookup pred v ;;
      match pu with
      | None => Ok (path, Fin 0)
      | Some u =>
          cap <- get2 (capacity g) u v ;;
          f <- get2 (flow g) u v ;;
          walk fuel' g pred source u (path ++ [(u, v)])
               (ext_min fl (Fin (cap - f)))
      end
  end.

(** Body of [for u, v in path]: the state is the graph, the running total
    is threaded as the loop's accumulator. *)
Definition push_edge (f : Z) (e : node * node) (total : Z) : SM t Z :=
  let (u, v) := e in
  fun g =>
    match (x <- get2 (flow g) u v ;; set2 (flow g) u v (x + f)) with
    | Ok d1 =>
        let g1 := set_flow g d1 in
        match (y <- get2 (flow g1) v u ;; set2 (flow g1) v u (y - f)) with
        | Ok d2 =>
            let g2 := set_flow g1 d2 in
            match get2 (cost g2) u v with
            | Ok c => (Ok (total + c * f), g2)
            | Raise e => (Raise e, g2)
            | OutOfFuel => (OutOfFuel, g2)
            end
        | Raise e => (Raise e, g1)
        | OutOfFuel => (OutOfFuel, g1)
        end
    | Raise e => (Raise e, g)
    | OutOfFuel => (OutOfFuel, g)
    end.

Fixpoint push_path (f : Z) (path : list (node * node)) (total : Z)
  : SM t Z :=
  match path with
  | [] => retS total
  | e :: r => total' <~ push_edge f e total ;; push_path f r total'
  end.

(** One iteration of [while True]: [None] is [break], [Some total] is the
    running cost after an augmentation. *)
Definition mcf_iter (fuel : nat) (source sink : node) (total : Z)
  : SM t (option Z) :=
  g <~ getS ;;
  dp <~ liftS (bellman_ford fuel g source sink) ;;
  ds <~ liftS (Dict.lookup (fst dp) sink) ;;
  if ext_eqb ds Inf then retS None else
  pf <~ liftS (walk fuel g (snd dp) source sink [] Inf) ;;
  match snd pf with
  | Fin f =>
      if f =? 0 then retS None
      else total' <~ push_path f (fst pf) total ;; retS (Some total')
  | Inf =>
      (* the walk did not enter its loop: the path is empty and the
         [for] loop has nothing to update *)
      retS (Some total)
  end.

(** The [while True] loop, cut after [iters] iterations. *)
Fixpoint mcf_loop (iters fuel : nat) (source sink : node) (total : Z)
  : SM t Z :=
  match iters with
  | O => liftS OutOfFuel
  | S iters' =>
      r <~ mcf_iter fuel source sink total ;;
      match r with
      | None => retS total
      | Some total' => mcf_loop iters' fuel source sink total'
      end
  end.

(** The final double loop that collects the unit-flow edges. *)
Definition collect_from (g : t) (source sink u : node)
           (pairs : list (node * node)) : result (list (node * node)) :=
  if node_eqb u source || node_eqb u sink then Ok pairs else
  adj <- Dict.lookup (adj_list g) u ;;
  for_each adj
    (fun v pairs =>
       if negb (node_eqb v source) && negb (node_eqb v sink) then
         f <- get2 (flow g) u v ;;
         Ok (if f =? 1 then pairs ++ [(u, v)] else pairs)
       else Ok pairs)
    pairs.

Definition collect (g : t) (source sink : node)
  : result (list (node * node)) :=
  for_each (Dict.keys (capacity g)) (collect_from g source sink) [].

Definition min_cost_flow (iters fuel : nat) (source sink : node)
  : SM t (Z * list (node * node)) :=
  total <~ mcf_loop iters fuel source sink 0 ;;
  g <~ getS ;;
  pairs <~ liftS (collect g source sink) ;;
  retS (total, pairs).

End Graph.

(** ** The solvers *)

(** [class Solver]: the base class. *)
Module Solver.

Record t := mk {
  grid : Grid.t;
  pairs : list pair
}.

(** [Solver.__init__] *)
Definition init `{SetIteration} (g : Grid.t) : result t :=
  ps <- Grid.all_pairs g ;; Ok (mk g ps).

(** The cells of a list of pairs
    ([{cell for pair in pairs for cell in pair}]). *)
Definition cells_of (ps : list pair) : list cell :=
  flat_map (fun p => [fst p; snd p]) ps.

(** Body of the inner loop of [score]. *)
Definition score_cell (g : Grid.t) (used : list cell) (i j : Z) (s : Z)
  : result Z :=
  f <- Grid.is_forbidden g i j ;;
  if negb f && negb (cell_in (i, j) used) then
    v <- Grid.value_at g i j ;; Ok (s + v)
  else Ok s.

(** [Solver.score], as a function of the grid and the current pairs. *)
Definition score_of (g : Grid.t) (ps : list pair) : result Z :=
  s <- for_each ps (fun p s => c <- Grid.cost g p ;; Ok (s + c)) 0 ;;
  let used := cells_of ps in
  for_each (range (Grid.n g))
    (fun i s => for_each (range (Grid.m g)) (score_cell g used i) s) s.

Definition score (s : t) : result Z := score_of (grid s) (pairs s).

End Solver.

(** [class SolverNaive] *)
Module SolverNaive.

(** [list.sort(key=...)] is stable: insertion keeps equal keys in their
    original order. *)
Fixpoint insert_by_key (x : Z * pair) (l : list (Z * pair))
  : list (Z * pair) :=
  match l with
  | [] => [x]
  | y :: r => if fst x <=? fst y then x :: y :: r
              else y :: insert_by_key x r
  end.

Definition sort_by_key (l : list (Z * pair)) : list (Z * pair) :=
  fold_right insert_by_key [] l.

(** The greedy selection loop: the state is [(used_cells,
    selected_pairs)]. *)
Definition select (ps : list pair) : list pair :=
  snd (fold_left
         (fun (st : list cell * list pair) p =>
            let (used, sel) := st in
            if negb (cell_in (fst p) used) && negb (cell_in (snd p) used)
            then (used ++ [fst p; snd p], sel ++ [p])
            else st)
         ps ([], [])).

Definition set_pairs (s : Solver.t) (ps : list pair) : Solver.t :=
  Solver.mk (Solver.grid s) ps.

Definition run `{SetIteration} : SM Solver.t Z :=
  s <~ getS ;;
  ps <~ liftS (Grid.all_pairs (Solver.grid s)) ;;
  modifyS (fun s => set_pairs s ps) ;;~
  keyed <~ liftS (for_each ps
                    (fun p acc => c <- Grid.cost (Solver.grid s) p ;;
                                  Ok (acc ++ [(c, p)])) []) ;;
  let sorted := map snd (sort_by_key keyed) in
  modifyS (fun s => set_pairs s sorted) ;;~
  modifyS (fun s => set_pairs s (select sorted)) ;;~
  s <~ getS ;;
  liftS (Solver.score s).

End SolverNaive.

(** [class SolverBellmanFord] *)
Module SolverBellmanFord.

Record t := mk {
  grid : Grid.t;
  pairs : list pair;
  graph : Graph.t;
  cost_cache : Dict.t pair Z;
  forbidden_cache : Dict.t cell bool
}.

Definition source : node := Source.
Definition sink : node := Sink.

Definition set_pairs (s : t) (ps : list pair) : t :=
  mk (grid s) ps (graph s) (cost_cache s) (forbidden_cache s).
Definition set_graph (s : t) (g : Graph.t) : t :=
  mk (grid s) (pairs s) g (cost_cache s) (forbidden_cache s).
Definition set_cost_cache (s : t) (c : Dict.t pair Z) : t :=
  mk (grid s) (pairs s) (graph s) c (forbidden_cache s).
Definition set_forbidden_cache (s : t) (c : Dict.t cell bool) : t :=
  mk (grid s) (pairs s) (graph s) (cost_cache s) c.

(** [SolverBellmanFord.__init__]: the base constructor runs first. *)
Definition init `{SetIteration} (g : Grid.t) : result t :=
  b <- Solver.init g ;;
  Ok (mk (Solver.grid b) [] Graph.init Dict.empty Dict.empty).

Definition is_forbidden_cached (i j : Z) : SM t bool :=
  s <~ getS ;;
  (if Dict.mem (forbidden_cache s) (i, j) then retS tt
   else b <~ liftS (Grid.is_forbidden (grid s) i j) ;;
        modifyS (fun s => set_forbidden_cache s
                            (Dict.set (forbidden_cache s) (i, j) b))) ;;~
  s <~ getS ;;
  liftS (Dict.lookup (forbidden_cache s) (i, j)).

Definition get_cost_cached (p : pair) : SM t Z :=
  s <~ getS ;;
  (if Dict.mem (cost_cache s) p then retS tt
   else c <~ liftS (Grid.cost (grid s) p) ;;
        modifyS (fun s => set_cost_cache s (Dict.set (cost_cache s) p c))) ;;~
  s <~ getS ;;
  liftS (Dict.lookup (cost_cache s) p).

Definition directions : list (Z * Z) := [(0, 1); (1, 0); (0, -1); (-1, 0)].

Definition add_edges_from (c : cell) : SM t unit :=
  let (i, j) := c in
  for_eachS directions
    (fun d =>
       let ni := i + fst d in
       let nj := j + snd d in
       s <~ getS ;;
       if (0 <=? ni) && (ni <? Grid.n (grid s))
          && (0 <=? nj) && (nj <? Grid.m (grid s)) then
         let neighbor := (ni, nj) in
         fb <~ is_forbidden_cached ni nj ;;
         if fb then retS tt else
         ok <~ liftS (Grid.test_pair (grid s) c neighbor) ;;
         if ok then
           k <~ get_cost_cached (c, neighbor) ;;
           zoomS graph set_graph
                 (Graph.add_edge (Cell c) (Cell neighbor) 1 k)
         else retS tt
       else retS tt).

(** The scan of [build_graph] that sorts the non-forbidden cells by the
    parity of [i + j]; the accumulator is
    [(valid_cells, even_cells, odd_cells)]. *)
Fixpoint classify (cells : list cell)
         (acc : list cell * list cell * list cell)
  : SM t (list cell * list cell * list cell) :=
  match cells with
  | [] => retS acc
  | (i, j) :: r =>
      fb <~ is_forbidden_cached i j ;;
      if fb then classify r acc
      else
        let '(valid, even, odd) := acc in
        if (i + j) mod 2 =? 0
        then classify r (valid ++ [(i, j)], even ++ [(i, j)], odd)
        else classify r (valid ++ [(i, j)], even, odd ++ [(i, j)])
  end.

(** The cells in the order of the two nested [range] loops. *)
Definition scan_order (g : Grid.t) : list cell :=
  flat_map (fun i => map (fun j => (i, j)) (range (Grid.m g)))
           (range (Grid.n g)).

Definition build_graph : SM t unit :=
  s <~ getS ;;
  acc <~ classify (scan_order (grid s)) ([], [], []) ;;
  let '(_, even_cells, odd_cells) := acc in
  for_eachS even_cells
    (fun c =>
       zoomS graph set_graph (Graph.add_edge source (Cell c) 1 0) ;;~
       add_edges_from c) ;;~
  for_eachS odd_cells
    (fun c => zoomS graph set_graph (Graph.add_edge (Cell c) sink 1 0)).

(** The nodes returned by [min_cost_flow] are read as cells by [score];
    the sentinels were filtered out before. *)
Definition cell_of_node (x : node) : result cell :=
  match x with
  | Cell c => Ok c
  | _ => Raise TypeError
  end.

Definition pair_of_nodes (e : node * node) : result pair :=
  a <- cell_of_node (fst e) ;; b <- cell_of_node (snd e) ;; Ok (a, b).

Fixpoint pairs_of_nodes (l : list (node * node)) : result (list pair) :=
  match l with
  | [] => Ok []
  | e :: r => p <- pair_of_nodes e ;; ps <- pairs_of_nodes r ;; Ok (p :: ps)
  end.

Definition score (s : t) : result Z :=
  Solver.score (Solver.mk (grid s) (pairs s)).

Definition run (fuel : nat) : SM t Z :=
  modifyS (fun s => set_graph s Graph.init) ;;~
  modifyS (fun s => set_cost_cache s Dict.empty) ;;~
  modifyS (fun s => set_forbidden_cache s Dict.empty) ;;~
  modifyS (fun s => set_pairs s []) ;;~
  build_graph ;;~
  r <~ zoomS graph set_graph (Graph.min_cost_flow fuel fuel source sink) ;;
  ps <~ liftS (pairs_of_nodes (snd r)) ;;
  modifyS (fun s => set_pairs s ps) ;;~
  s <~ getS ;;
  liftS (score s).

End SolverBellmanFord.

(** The order in which a set lists its elements is left open by the model;
    listing them in first-insertion order is one admissible choice. *)
Definition first_insertion_order : SetIteration.
Proof.
  refine {| list_of_set := fun l => rev (nodup pair_eq_dec (rev l)) |}.
  intros l.
  eapply Permutation_trans; [| apply Permutation_rev].
  apply NoDup_Permutation.
  - apply NoDup_nodup.
  - apply NoDup_nodup.
  - intros x. rewrite !nodup_In. apply in_rev.
Defined.

(** ** Well-formed grids and the documented colour table *)

(** The grid invariant of the data model: both matrices are [n] by [m] and
    every colour code is one of the five recognised ones. *)
Definition well_formed (g : Grid.t) : bool :=
  (Z.of_nat (length (Grid.color g)) =? Grid.n g)
  && forallb (fun row => (Z.of_nat (length row) =? Grid.m g)
                         && forallb (fun c => (0 <=? c) && (c <=? 4)) row)
             (Grid.color g)
  && (Z.of_nat (length (Grid.value g)) =? Grid.n g)
  && forallb (fun row => Z.of_nat (length row) =? Grid.m g) (Grid.value g).

Definition wf (g : Grid.t) : Prop := well_formed g = true.

Definition in_bounds (g : Grid.t) (c : cell) : Prop :=
  0 <= fst c < Grid.n g /\ 0 <= snd c < Grid.m g.

(** Colour and value of an in-bounds cell, read without the bounds checks
    of Python's indexing. *)
Definition colour_code (g : Grid.t) (c : cell) : Z :=
  nth (Z.to_nat (snd c)) (nth (Z.to_nat (fst c)) (Grid.color g) []) 0.

Definition cell_value (g : Grid.t) (c : cell) : Z :=
  nth (Z.to_nat (snd c)) (nth (Z.to_nat (fst c)) (Grid.value g) []) 0.

Inductive colour := White | Red | Blue | Green | Black.

Definition colour_of_code (k : Z) : option colour :=
  match k with
  | 0 => Some White
  | 1 => Some Red
  | 2 => Some Blue
  | 3 => Some Green
  | 4 => Some Black
  | _ => None
  end.

(** The documented table: white pairs with any non-black colour, red and
    blue with white, red and blue, green with white and green, black with
    nothing. *)
Definition may_pair_with (a b : colour) : bool :=
  match a with
  | White => match b with Black => false | _ => true end
  | Red | Blue => match b with White | Red | Blue => true | _ => false end
  | Green => match b with White | Green => true | _ => false end
  | Black => false
  end.

(** ** Facts about indexing and well-formed grids *)

Lemma py_index_nth {A} (l : list A) (i : Z) (d : A) :
  0 <= i < Z.of_nat (length l) ->
  py_index l i = Ok (nth (Z.to_nat i) l d).
Proof.
  intros Hi. unfold py_index.
  destruct (Z.ltb_spec i 0); [lia|].
  destruct (Z.leb_spec 0 i); [|lia].
  destruct (Z.ltb_spec i (Z.of_nat (length l))); [|lia]. simpl.
  destruct (nth_error l (Z.to_nat i)) eqn:E.
  - now rewrite (nth_error_nth _ _ d E).
  - apply nth_error_None in E. lia.
Qed.

Lemma wf_color_rows g : wf g -> Z.of_nat (length (Grid.color g)) = Grid.n g.
Proof.
  unfold wf, well_formed. rewrite !andb_true_iff. intros [[[H _] _] _].
  now apply Z.eqb_eq.
Qed.

Lemma wf_value_rows g : wf g -> Z.of_nat (length (Grid.value g)) = Grid.n g.
Proof.
  unfold wf, well_formed. rewrite !andb_true_iff. intros [[_ H] _].
  now apply Z.eqb_eq.
Qed.

Lemma wf_color_row g row :
  wf g -> In row (Grid.color g) ->
  Z.of_nat (length row) = Grid.m g /\ (forall c, In c row -> 0 <= c <= 4).
Proof.
  unfold wf, well_formed. rewrite !andb_true_iff. intros [[[_ H] _] _] Hin.
  rewrite forallb_forall in H. specialize (H _ Hin).
  rewrite andb_true_iff in H. destruct H as [H1 H2]. split.
  - now apply Z.eqb_eq.
  - intros c Hc. rewrite forallb_forall in H2. specialize (H2 _ Hc).
    rewrite andb_true_iff in H2. lia.
Qed.

Lemma wf_value_row g row :
  wf g -> In row (Grid.value g) -> Z.of_nat (length row) = Grid.m g.
Proof.
  unfold wf, well_formed. rewrite !andb_true_iff. intros [_ H] Hin.
  rewrite forallb_forall in H. specialize (H _ Hin). now apply Z.eqb_eq.
Qed.

Lemma color_at_wf g c :
  wf g -> in_bounds g c ->
  Grid.color_at g (fst c) (snd c) = Ok (colour_code g c)
  /\ 0 <= colour_code g c <= 4.
Proof.
  intros Hwf [Hi Hj]. unfold Grid.color_at, colour_code.
  pose proof (wf_color_rows _ Hwf) as Hn.
  rewrite (py_index_nth _ _ []) by lia. simpl.
  assert (Hrow : In (nth (Z.to_nat (fst c)) (Grid.color g) []) (Grid.color g))
    by (apply nth_In; lia).
  destruct (wf_color_row _ _ Hwf Hrow) as [Hm Hc].
  rewrite (py_index_nth _ _ 0) by lia. split; [reflexivity|].
  apply Hc, nth_In. lia.
Qed.

Lemma value_at_wf g c :
  wf g -> in_bounds g c ->
  Grid.value_at g (fst c) (snd c) = Ok (cell_value g c).
Proof.
  intros Hwf [Hi Hj]. unfold Grid.value_at, cell_value.
  pose proof (wf_value_rows _ Hwf) as Hn.
  rewrite (py_index_nth _ _ []) by lia. simpl.
  assert (Hrow : In (nth (Z.to_nat (fst c)) (Grid.value g) []) (Grid.value g))
    by (apply nth_In; lia).
  pose proof (wf_value_row _ _ Hwf Hrow) as Hm.
  now rewrite (py_index_nth _ _ 0) by lia.
Qed.

Lemma is_forbidden_wf g c :
  wf g -> in_bounds g c ->
  Grid.is_forbidden g (fst c) (snd c) = Ok (colour_code g c =? 4).
Proof.
  intros Hwf Hb. unfold Grid.is_forbidden.
  destruct (color_at_wf _ _ Hwf Hb) as [-> _]. reflexivity.
Qed.

(** [test_pair] on a well-formed grid, as a boolean expression over the
    colour codes. *)
Definition rule_forbids (k1 k2 : Z) : bool :=
  match Grid.color_rules k1 with
  | Some r => r k2
  | None => true
  end.

Definition valid_pair (g : Grid.t) (c1 c2 : cell) : bool :=
  negb (colour_code g c1 =? 4) && negb (colour_code g c2 =? 4)
  && negb (Grid.non_adjacent c1 c2)
  && negb (rule_forbids (colour_code g c1) (colour_code g c2)).

Lemma color_rules_defined k :
  0 <= k <= 4 -> exists r, Grid.color_rules k = Some r.
Proof.
  intros H.
  assert (k = 0 \/ k = 1 \/ k = 2 \/ k = 3 \/ k = 4) as
    [->|[->|[->|[->| ->]]]] by lia; simpl; eauto.
Qed.

Lemma colors_forbidden_wf g c1 c2 :
  wf g -> in_bounds g c1 -> in_bounds g c2 ->
  Grid.colors_forbidden g c1 c2
  = Ok (rule_forbids (colour_code g c1) (colour_code g c2)).
Proof.
  intros Hwf H1 H2. unfold Grid.colors_forbidden, rule_forbids.
  destruct (color_at_wf _ _ Hwf H1) as [-> Hr1].
  destruct (color_at_wf _ _ Hwf H2) as [-> _]. simpl.
  destruct (color_rules_defined _ Hr1) as [r ->]. reflexivity.
Qed.

Lemma test_pair_wf g c1 c2 :
  wf g -> in_bounds g c1 -> in_bounds g c2 ->
  Grid.test_pair g c1 c2 = Ok (valid_pair g c1 c2).
Proof.
  intros Hwf H1 H2. unfold Grid.test_pair, valid_pair.
  rewrite (is_forbidden_wf _ _ Hwf H1), (is_forbidden_wf _ _ Hwf H2). simpl.
  destruct (colour_code g c1 =? 4); [reflexivity|].
  destruct (colour_code g c2 =? 4); [reflexivity|]. simpl.
  destruct (Grid.non_adjacent c1 c2); [reflexivity|].
  rewrite (colors_forbidden_wf _ _ _ Hwf H1 H2). reflexivity.
Qed.

Lemma non_adjacent_sym c1 c2 :
  Grid.non_adjacent c1 c2 = Grid.non_adjacent c2 c1.
Proof.
  unfold Grid.non_adjacent.
  rewrite (Z.eqb_sym (snd c1)), (Z.eqb_sym (fst c1)).
  replace (Z.abs (fst c1 - fst c2)) with (Z.abs (fst c2 - fst c1)) by lia.
  replace (Z.abs (snd c1 - snd c2)) with (Z.abs (snd c2 - snd c1)) by lia.
  reflexivity.
Qed.

Lemma valid_pair_table g c1 c2 :
  0 <= colour_code g c1 <= 4 -> 0 <= colour_code g c2 <= 4 ->
  exists k1 k2,
    colour_of_code (colour_code g c1) = Some k1
    /\ colour_of_code (colour_code g c2) = Some k2
    /\ valid_pair g c1 c2 = negb (Grid.non_adjacent c1 c2) && may_pair_with k1 k2
    /\ (k1 <> Black -> k2 <> Black ->
        rule_forbids (colour_code g c1) (colour_code g c2)
        = negb (may_pair_with k1 k2)).
Proof.
  intros H1 H2. unfold valid_pair.
  destruct (Grid.non_adjacent c1 c2);
  assert (colour_code g c1 = 0 \/ colour_code g c1 = 1 \/ colour_code g c1 = 2
          \/ colour_code g c1 = 3 \/ colour_code g c1 = 4) as
    [->|[->|[->|[->| ->]]]] by lia;
  assert (colour_code g c2 = 0 \/ colour_code g c2 = 1 \/ colour_code g c2 = 2
          \/ colour_code g c2 = 3 \/ colour_code g c2 = 4) as
    [->|[->|[->|[->| ->]]]] by lia;
  simpl; do 2 eexists; (split; [reflexivity|]); (split; [reflexivity|]);
  (split; [reflexivity|]); intros; try reflexivity; congruence.
Qed.

Lemma may_pair_with_sym a b : may_pair_with a b = may_pair_with b a.
Proof. destruct a, b; reflexivity. Qed.




(** ** Loops that always succeed *)

Lemma for_each_append {A B} (f : A -> list B)
      (body : A -> list B -> result (list B)) (l : list A) :
  (forall x s, In x l -> body x s = Ok (s ++ f x)) ->
  forall s, for_each l body s = Ok (s ++ flat_map f l).
Proof.
  induction l as [|x r IH]; intros Hb s; simpl.
  - now rewrite app_nil_r.
  - rewrite Hb by (now left). simpl.
    rewrite IH by (intros; apply Hb; now right).
    now rewrite app_assoc.
Qed.

Lemma for_each_fold {A S} (f : A -> S -> S)
      (body : A -> S -> result S) (l : list A) :
  (forall x s, In x l -> body x s = Ok (f x s)) ->
  forall s, for_each l body s = Ok (fold_left (fun s x => f x s) l s).
Proof.
  induction l as [|x r IH]; intros Hb s; simpl; [reflexivity|].
  rewrite Hb by (now left). simpl.
  apply IH. intros; apply Hb; now right.
Qed.

Lemma in_range i n : In i (range n) <-> 0 <= i < n.
Proof.
  unfold range. rewrite in_map_iff. split.
  - intros [k [<- Hk]]. apply in_seq in Hk. lia.
  - intros Hi. exists (Z.to_nat i). split; [lia|]. apply in_seq. lia.
Qed.

Lemma NoDup_range n : NoDup (range n).
Proof.
  unfold range. apply Finite.Injective_map_NoDup.
  - intros a b Hab. lia.
  - apply seq_NoDup.
Qed.

Lemma NoDup_flat_map {A B} (f : A -> list B) (l : list A) :
  NoDup l ->
  (forall x, In x l -> NoDup (f x)) ->
  (forall x y z, In x l -> In y l -> In z (f x) -> In z (f y) -> x = y) ->
  NoDup (flat_map f l).
Proof.
  induction 1 as [|x r Hx Hr IH]; intros Hf Hd; simpl; [constructor|].
  apply NoDup_app.
  - apply Hf; now left.
  - apply IH.
    + intros; apply Hf; now right.
    + intros a b z Ha Hb; apply Hd; now right.
  - intros z Hz Hz'. apply in_flat_map in Hz' as [y [Hy Hzy]].
    assert (x = y) by (apply (Hd x y z); simpl; auto). subst. contradiction.
Qed.

(** ** [all_pairs] *)

(** The pairs contributed by one cell of the scan: its right neighbour,
    then the one below. *)
Definition cell_pairs (g : Grid.t) (c : cell) : list pair :=
  (if (snd c + 1 <? Grid.m g) && valid_pair g c (fst c, snd c + 1)
   then [(c, (fst c, snd c + 1))] else [])
  ++ (if (fst c + 1 <? Grid.n g) && valid_pair g c (fst c + 1, snd c)
      then [(c, (fst c + 1, snd c))] else []).

Lemma all_pairs_cell_wf g i j pairs :
  wf g -> in_bounds g (i, j) ->
  Grid.all_pairs_cell g i j pairs = Ok (pairs ++ cell_pairs g (i, j)).
Proof.
  intros Hwf Hb. unfold Grid.all_pairs_cell, cell_pairs. simpl.
  destruct Hb as [Hi Hj]; simpl in *.
  destruct (Z.ltb_spec (j + 1) (Grid.m g)) as [Hr|Hr]; simpl.
  - rewrite (test_pair_wf g (i, j) (i, j + 1)) by
      (auto; unfold in_bounds; simpl; lia). simpl.
    destruct (Z.ltb_spec (i + 1) (Grid.n g)) as [Hd|Hd]; simpl.
    + rewrite (test_pair_wf g (i, j) (i + 1, j)) by
        (auto; unfold in_bounds; simpl; lia). simpl.
      destruct (valid_pair g (i, j) (i, j + 1)),
               (valid_pair g (i, j) (i + 1, j)); simpl;
        rewrite <- ?app_assoc, ?app_nil_r; reflexivity.
    + destruct (valid_pair g (i, j) (i, j + 1)); simpl;
        rewrite ?app_nil_r; reflexivity.
  - destruct (Z.ltb_spec (i + 1) (Grid.n g)) as [Hd|Hd]; simpl.
    + rewrite (test_pair_wf g (i, j) (i + 1, j)) by
        (auto; unfold in_bounds; simpl; lia). simpl.
      destruct (valid_pair g (i, j) (i + 1, j)); simpl;
        rewrite ?app_nil_r; reflexivity.
    + now rewrite app_nil_r.
Qed.

Lemma flat_map_scan {B} (g : Grid.t) (f : cell -> list B) :
  flat_map (fun i => flat_map (fun j => f (i, j)) (range (Grid.m g)))
           (range (Grid.n g))
  = flat_map f (SolverBellmanFord.scan_order g).
Proof.
  unfold SolverBellmanFord.scan_order.
  induction (range (Grid.n g)) as [|i r IH]; simpl; [reflexivity|].
  rewrite flat_map_app, IH. f_equal. clear IH.
  induction (range (Grid.m g)) as [|j q IHq]; simpl; [reflexivity|].
  now rewrite IHq.
Qed.

Lemma in_scan_order g c : In c (SolverBellmanFord.scan_order g) <-> in_bounds g c.
Proof.
  unfold SolverBellmanFord.scan_order, in_bounds. rewrite in_flat_map. split.
  - intros [i [Hi Hc]]. apply in_map_iff in Hc as [j [<- Hj]].
    apply in_range in Hi, Hj. simpl. lia.
  - intros [Hi Hj]. exists (fst c). split; [now apply in_range|].
    apply in_map_iff. exists (snd c). split; [now destruct c|now apply in_range].
Qed.

Lemma NoDup_scan_order g : NoDup (SolverBellmanFord.scan_order g).
Proof.
  unfold SolverBellmanFord.scan_order. apply NoDup_flat_map.
  - apply NoDup_range.
  - intros i _. apply Finite.Injective_map_NoDup; [|apply NoDup_range].
    intros a b Hab. congruence.
  - intros x y z _ _ Hx Hy.
    apply in_map_iff in Hx as [a [<- _]]. apply in_map_iff in Hy as [b [E _]].
    congruence.
Qed.

Lemma all_pairs_scan_wf g :
  wf g ->
  Grid.all_pairs_scan g
  = Ok (flat_map (cell_pairs g) (SolverBellmanFord.scan_order g)).
Proof.
  intros Hwf. unfold Grid.all_pairs_scan.
  rewrite (for_each_append
             (fun i => flat_map (fun j => cell_pairs g (i, j))
                                (range (Grid.m g)))).
  - simpl. now rewrite (flat_map_scan g (cell_pairs g)).
  - intros i s Hi. apply for_each_append.
    intros j s' Hj. apply all_pairs_cell_wf; auto.
    apply in_range in Hi, Hj. split; simpl; lia.
Qed.

Lemma in_cell_pairs g c p :
  In p (cell_pairs g c) <->
  fst p = c
  /\ ((snd p = (fst c, snd c + 1) /\ snd c + 1 < Grid.m g)
      \/ (snd p = (fst c + 1, snd c) /\ fst c + 1 < Grid.n g))
  /\ valid_pair g (fst p) (snd p) = true.
Proof.
  unfold cell_pairs. rewrite in_app_iff. split.
  - intros [H|H].
    + destruct (Z.ltb_spec (snd c + 1) (Grid.m g)); simpl in H; [|easy].
      destruct (valid_pair g c (fst c, snd c + 1)) eqn:E; simpl in H; [|easy].
      destruct H as [<-|[]]. simpl. auto.
    + destruct (Z.ltb_spec (fst c + 1) (Grid.n g)); simpl in H; [|easy].
      destruct (valid_pair g c (fst c + 1, snd c)) eqn:E; simpl in H; [|easy].
      destruct H as [<-|[]]. simpl. auto.
  - destruct p as [a b]. simpl. intros [-> [[[-> Hlt]|[-> Hlt]] Hv]].
    + left. apply Z.ltb_lt in Hlt. rewrite Hlt, Hv. simpl. auto.
    + right. apply Z.ltb_lt in Hlt. rewrite Hlt, Hv. simpl. auto.
Qed.

Lemma NoDup_cell_pairs g c : NoDup (cell_pairs g c).
Proof.
  unfold cell_pairs.
  destruct (_ && _), (_ && _); simpl; repeat constructor; simpl; auto.
  intros [H|[]]. inversion H. lia.
Qed.

Lemma NoDup_all_cell_pairs g :
  NoDup (flat_map (cell_pairs g) (SolverBellmanFord.scan_order g)).
Proof.
  apply NoDup_flat_map.
  - apply NoDup_scan_order.
  - intros; apply NoDup_cell_pairs.
  - intros x y z _ _ Hx Hy.
    apply in_cell_pairs in Hx as [Hx _]. apply in_cell_pairs in Hy as [Hy _].
    congruence.
Qed.

Lemma valid_pair_sym g c1 c2 :
  wf g -> in_bounds g c1 -> in_bounds g c2 ->
  valid_pair g c1 c2 = valid_pair g c2 c1.
Proof.
  intros Hwf H1 H2.
  destruct (color_at_wf _ _ Hwf H1) as [_ Hr1].
  destruct (color_at_wf _ _ Hwf H2) as [_ Hr2].
  destruct (valid_pair_table g c1 c2 Hr1 Hr2) as (k1 & k2 & E1 & E2 & Ev & _).
  destruct (valid_pair_table g c2 c1 Hr2 Hr1) as (k2' & k1' & E2' & E1' & Ev' & _).
  assert (k2' = k2) by congruence. assert (k1' = k1) by congruence. subst.
  now rewrite Ev, Ev', non_adjacent_sym, may_pair_with_sym.
Qed.

Lemma valid_pair_adjacent g c1 c2 :
  valid_pair g c1 c2 = true ->
  (snd c1 = snd c2 /\ (fst c2 = fst c1 + 1 \/ fst c1 = fst c2 + 1))
  \/ (fst c1 = fst c2 /\ (snd c2 = snd c1 + 1 \/ snd c1 = snd c2 + 1)).
Proof.
  unfold valid_pair, Grid.non_adjacent. rewrite !andb_true_iff.
  intros [[_ H] _].
  destruct (Z.eqb_spec (snd c1) (snd c2)), (Z.eqb_spec (fst c1) (fst c2)),
    (Z.eqb_spec (Z.abs (fst c1 - fst c2)) 1),
    (Z.eqb_spec (Z.abs (snd c1 - snd c2)) 1); simpl in H; try discriminate; lia.
Qed.

Lemma valid_pair_not_black g c1 c2 :
  valid_pair g c1 c2 = true ->
  (colour_code g c1 =? 4) = false /\ (colour_code g c2 =? 4) = false.
Proof.
  unfold valid_pair. rewrite !andb_true_iff, !negb_true_iff. tauto.
Qed.

(** C5: on a well-formed grid [all_pairs] returns a duplicate-free list of
    pairs that all pass [test_pair], contain no black cell, are oriented
    from a cell to its right or lower neighbour, and list every unordered
    valid pair exactly once. *)
Theorem C5_all_pairs_sound_complete `{SetIteration} (g : Grid.t) :
  wf g ->
  exists ps,
    Grid.all_pairs g = Ok ps
    /\ (forall p, In p ps -> Grid.test_pair g (fst p) (snd p) = Ok true)
    /\ (forall p, In p ps ->
          Grid.is_forbidden g (fst (fst p)) (snd (fst p)) = Ok false
          /\ Grid.is_forbidden g (fst (snd p)) (snd (snd p)) = Ok false)
    /\ NoDup ps
    /\ (forall p, In p ps ->
          snd p = (fst (fst p), snd (fst p) + 1)
          \/ snd p = (fst (fst p) + 1, snd (fst p)))
    /\ (forall c1 c2, in_bounds g c1 -> in_bounds g c2 ->
          Grid.test_pair g c1 c2 = Ok true ->
          (count_occ pair_eq_dec ps (c1, c2)
           + count_occ pair_eq_dec ps (c2, c1) = 1)%nat).
Proof.
  intros Hwf. unfold Grid.all_pairs. rewrite (all_pairs_scan_wf g Hwf). simpl.
  set (raw := flat_map (cell_pairs g) (SolverBellmanFord.scan_order g)).
  pose proof (NoDup_all_cell_pairs g) as Hnd. fold raw in Hnd.
  pose proof (list_of_set_perm raw) as Hperm.
  rewrite (nodup_fixed_point pair_eq_dec Hnd) in Hperm.
  assert (Hin : forall p, In p (list_of_set raw) <->
                  exists c, in_bounds g c /\ In p (cell_pairs g c)).
  { intros p. split.
    - intros Hp. apply (Permutation_in _ (Permutation_sym Hperm)) in Hp.
      apply in_flat_map in Hp as [c [Hc Hp]]. exists c. split; auto.
      now apply in_scan_order.
    - intros [c [Hc Hp]]. apply (Permutation_in _ Hperm).
      apply in_flat_map. exists c. split; auto. now apply in_scan_order. }
  assert (Hbnd : forall p, In p (list_of_set raw) ->
                   in_bounds g (fst p) /\ in_bounds g (snd p)
                   /\ valid_pair g (fst p) (snd p) = true).
  { intros p Hp. apply Hin in Hp as [c [Hc Hp]].
    apply in_cell_pairs in Hp as [E [Hs Hv]]. subst c.
    split; [auto|]. split; [|auto].
    destruct Hc as [Hi Hj].
    destruct Hs as [[-> Hlt]|[-> Hlt]]; split; simpl; lia. }
  exists (list_of_set raw). split; [reflexivity|].
  split; [|split; [|split; [|split]]].
  - intros p Hp. destruct (Hbnd p Hp) as (H1 & H2 & Hv).
    now rewrite (test_pair_wf g _ _ Hwf H1 H2), Hv.
  - intros p Hp. destruct (Hbnd p Hp) as (H1 & H2 & Hv).
    apply valid_pair_not_black in Hv as [Hb1 Hb2].
    now rewrite (is_forbidden_wf g _ Hwf H1), (is_forbidden_wf g _ Hwf H2), Hb1, Hb2.
  - apply (Permutation_NoDup Hperm Hnd).
  - intros p Hp. apply Hin in Hp as [c [Hc Hp]].
    apply in_cell_pairs in Hp as [E [Hs Hv]]. subst c. tauto.
  - intros c1 c2 H1 H2 Htp.
    rewrite (test_pair_wf g _ _ Hwf H1 H2) in Htp.
    assert (Hv : valid_pair g c1 c2 = true) by congruence.
    assert (Hv' : valid_pair g c2 c1 = true)
      by (now rewrite <- (valid_pair_sym g c1 c2 Hwf H1 H2)).
    assert (Hnd' : NoDup (list_of_set raw))
      by apply (Permutation_NoDup Hperm Hnd).
    assert (Hcount : forall p, In p (list_of_set raw) ->
                       count_occ pair_eq_dec (list_of_set raw) p = 1%nat).
    { intros p Hp. apply NoDup_count_occ' with (decA := pair_eq_dec) in Hp; auto. }
    assert (Hzero : forall p, ~ In p (list_of_set raw) ->
                       count_occ pair_eq_dec (list_of_set raw) p = 0%nat).
    { intros p Hp. now apply count_occ_not_In. }
    destruct H1 as [H1i H1j], H2 as [H2i H2j].
    destruct (valid_pair_adjacent g c1 c2 Hv) as [[Hc [Hr|Hr]]|[Hr [Hc|Hc]]].
    + rewrite (Hcount (c1, c2)), (Hzero (c2, c1)); [reflexivity| |].
      * intros Hp. apply Hin in Hp as [c [_ Hp]].
        apply in_cell_pairs in Hp as [E [Hs _]]. simpl in *. subst c.
        destruct Hs as [[-> _]|[-> _]]; simpl in *; lia.
      * apply Hin. exists c1. split; [split; auto|].
        apply in_cell_pairs. simpl. split; [auto|]. split; [|auto].
        right. split; [|lia]. destruct c2; simpl in *. f_equal; lia.
    + rewrite (Hzero (c1, c2)), (Hcount (c2, c1)); [reflexivity| |].
      * apply Hin. exists c2. split; [split; auto|].
        apply in_cell_pairs. simpl. split; [auto|]. split; [|auto].
        right. split; [|lia]. destruct c1; simpl in *. f_equal; lia.
      * intros Hp. apply Hin in Hp as [c [_ Hp]].
        apply in_cell_pairs in Hp as [E [Hs _]]. simpl in *. subst c.
        destruct Hs as [[-> _]|[-> _]]; simpl in *; lia.
    + rewrite (Hcount (c1, c2)), (Hzero (c2, c1)); [reflexivity| |].
      * intros Hp. apply Hin in Hp as [c [_ Hp]].
        apply in_cell_pairs in Hp as [E [Hs _]]. simpl in *. subst c.
        destruct Hs as [[-> _]|[-> _]]; simpl in *; lia.
      * apply Hin. exists c1. split; [split; auto|].
        apply in_cell_pairs. simpl. split; [auto|]. split; [|auto].
        left. split; [|lia]. destruct c2; simpl in *. f_equal; lia.
    + rewrite (Hzero (c1, c2)), (Hcount (c2, c1)); [reflexivity| |].
      * apply Hin. exists c2. split; [split; auto|].
        apply in_cell_pairs. simpl. split; [auto|]. split; [|auto].
        left. split; [|lia]. destruct c1; simpl in *. f_equal; lia.
      * intros Hp. apply Hin in Hp as [c [_ Hp]].
        apply in_cell_pairs in Hp as [E [Hs _]]. simpl in *. subst c.
        destruct Hs as [[-> _]|[-> _]]; simpl in *; lia.
Qed.

Lemma C5_witness :
  let g := Grid.mk 2 2 [[4; 0]; [0; 0]] [[1; 5]; [5; 5]] in
  wf g /\
  exists ps,
    @Grid.all_pairs first_insertion_order g = Ok ps
    /\ (forall p, In p ps -> Grid.test_pair g (fst p) (snd p) = Ok true)
    /\ (forall p, In p ps ->
          Grid.is_forbidden g (fst (fst p)) (snd (fst p)) = Ok false
          /\ Grid.is_forbidden g (fst (snd p)) (snd (snd p)) = Ok false)
    /\ NoDup ps
    /\ (forall p, In p ps ->
          snd p = (fst (fst p), snd (fst p) + 1)
          \/ snd p = (fst (fst p) + 1, snd (fst p)))
    /\ (forall c1 c2, in_bounds g c1 -> in_bounds g c2 ->
          Grid.test_pair g c1 c2 = Ok true ->
          (count_occ pair_eq_dec ps (c1, c2)
           + count_occ pair_eq_dec ps (c2, c1) = 1)%nat).
Proof.
  intros g. split; [reflexivity|].
  apply (@C5_all_pairs_sound_complete first_insertion_order g). reflexivity.
Defined.

(** ** [score] *)

Definition zsum (l : list Z) : Z := fold_right Z.add 0 l.

(** Cost of a pair and contribution of a cell to the score, read off a
    well-formed grid. *)
Definition pair_cost (g : Grid.t) (p : pair) : Z :=
  Z.abs (cell_value g (fst p) - cell_value g (snd p)).

Definition unpaired_value (g : Grid.t) (used : list cell) (c : cell) : Z :=
  if negb (colour_code g c =? 4) && negb (cell_in c used)
  then cell_value g c else 0.

Definition score_value (g : Grid.t) (ps : list pair) : Z :=
  zsum (map (pair_cost g) ps)
  + zsum (map (unpaired_value g (Solver.cells_of ps))
              (SolverBellmanFord.scan_order g)).

Lemma zsum_app l1 l2 : zsum (l1 ++ l2) = zsum l1 + zsum l2.
Proof. induction l1; simpl; lia. Qed.

Lemma for_each_sum {A} (f : A -> Z) (body : A -> Z -> result Z) (l : list A) :
  (forall x s, In x l -> body x s = Ok (s + f x)) ->
  forall s, for_each l body s = Ok (s + zsum (map f l)).
Proof.
  induction l as [|x r IH]; intros Hb s; simpl.
  - f_equal; lia.
  - rewrite Hb by (now left). simpl.
    rewrite IH by (intros; apply Hb; now right). f_equal; lia.
Qed.

Lemma cost_wf g p :
  wf g -> in_bounds g (fst p) -> in_bounds g (snd p) ->
  Grid.cost g p = Ok (pair_cost g p).
Proof.
  intros Hwf H1 H2. unfold Grid.cost, pair_cost.
  now rewrite (value_at_wf _ _ Hwf H1), (value_at_wf _ _ Hwf H2).
Qed.

Lemma score_cell_wf g used i j s :
  wf g -> in_bounds g (i, j) ->
  Solver.score_cell g used i j s = Ok (s + unpaired_value g used (i, j)).
Proof.
  intros Hwf Hb. unfold Solver.score_cell, unpaired_value.
  pose proof (is_forbidden_wf g (i, j) Hwf Hb) as Ef.
  pose proof (value_at_wf g (i, j) Hwf Hb) as Ev. simpl in Ef, Ev.
  rewrite Ef. simpl.
  destruct (negb (colour_code g (i, j) =? 4) && negb (cell_in (i, j) used)).
  - now rewrite Ev.
  - f_equal; lia.
Qed.

Lemma zsum_flat_map_scan g (f : cell -> Z) :
  zsum (map (fun i => zsum (map (fun j => f (i, j)) (range (Grid.m g))))
            (range (Grid.n g)))
  = zsum (map f (SolverBellmanFord.scan_order g)).
Proof.
  unfold SolverBellmanFord.scan_order.
  induction (range (Grid.n g)) as [|i r IH]; simpl; [reflexivity|].
  rewrite map_app, zsum_app, IH, map_map. reflexivity.
Qed.

Lemma score_of_wf g ps :
  wf g ->
  (forall p, In p ps -> in_bounds g (fst p) /\ in_bounds g (snd p)) ->
  Solver.score_of g ps = Ok (score_value g ps).
Proof.
  intros Hwf Hps. unfold Solver.score_of, score_value.
  rewrite (for_each_sum (pair_cost g)).
  - simpl.
    rewrite (for_each_sum
               (fun i => zsum (map (fun j => unpaired_value g
                                               (Solver.cells_of ps) (i, j))
                                   (range (Grid.m g))))).
    + now rewrite (zsum_flat_map_scan g (unpaired_value g (Solver.cells_of ps))).
    + intros i s Hi. apply for_each_sum. intros j s' Hj.
      apply score_cell_wf; auto. apply in_range in Hi, Hj. split; simpl; lia.
  - intros p s Hp. destruct (Hps p Hp) as [H1 H2].
    now rewrite (cost_wf g p Hwf H1 H2).
Qed.

Lemma all_pairs_in_bounds `{SetIteration} g ps :
  wf g -> Grid.all_pairs g = Ok ps ->
  forall p, In p ps -> in_bounds g (fst p) /\ in_bounds g (snd p).
Proof.
  intros Hwf E p Hp. unfold Grid.all_pairs in E.
  rewrite (all_pairs_scan_wf g Hwf) in E. simpl in E.
  injection E as <-.
  pose proof (list_of_set_perm
                (flat_map (cell_pairs g) (SolverBellmanFord.scan_order g))) as Hperm.
  apply (Permutation_in _ (Permutation_sym Hperm)) in Hp.
  apply nodup_In in Hp. apply in_flat_map in Hp as [c [Hc Hp]].
  apply in_scan_order in Hc. apply in_cell_pairs in Hp as [E [Hs _]]. subst c.
  split; [auto|]. destruct Hc as [Hi Hj].
  destruct Hs as [[-> Hlt]|[-> Hlt]]; split; simpl; lia.
Qed.

(** C10: a freshly constructed [SolverBellmanFord] has no pairs and scores
    the total value of the non-black cells; a freshly constructed base or
    naive solver holds every valid pair, and scores the cost of all of them
    plus the values of the non-black cells that none of them covers.  The
    1x3 all-white grid shows two such pairs sharing a cell. *)
Theorem C10_score_before_run `{SetIteration} (g : Grid.t) :
  wf g ->
  (exists s,
      SolverBellmanFord.init g = Ok s
      /\ SolverBellmanFord.pairs s = []
      /\ SolverBellmanFord.score s
         = Ok (zsum (map (fun c => if colour_code g c =? 4 then 0
                                   else cell_value g c)
                         (SolverBellmanFord.scan_order g))))
  /\ (exists s ps,
         Solver.init g = Ok s
         /\ Grid.all_pairs g = Ok ps
         /\ Solver.pairs s = ps
         /\ Solver.score s
            = Ok (zsum (map (pair_cost g) ps)
                  + zsum (map (fun c =>
                                 if (colour_code g c =? 4)
                                    || cell_in c (Solver.cells_of ps)
                                 then 0 else cell_value g c)
                              (SolverBellmanFord.scan_order g))))
  /\ (exists s p q c,
         Solver.init (Grid.mk 1 3 [[0; 0; 0]] [[1; 2; 4]]) = Ok s
         /\ In p (Solver.pairs s) /\ In q (Solver.pairs s) /\ p <> q
         /\ In c [fst p; snd p] /\ In c [fst q; snd q]).
Proof.
  intros Hwf.
  destruct (Grid.all_pairs g) as [ps| |] eqn:Eps;
    try (unfold Grid.all_pairs in Eps;
         rewrite (all_pairs_scan_wf g Hwf) in Eps; discriminate).
  split; [|split].
  - unfold SolverBellmanFord.init, Solver.init. rewrite Eps. simpl.
    eexists. split; [reflexivity|]. split; [reflexivity|].
    unfold SolverBellmanFord.score, Solver.score. simpl.
    rewrite score_of_wf; [|exact Hwf|intros p []].
    unfold score_value. simpl. f_equal. f_equal.
    apply map_ext. intros c. unfold unpaired_value. simpl.
    destruct (colour_code g c =? 4); reflexivity.
  - unfold Solver.init. rewrite Eps. simpl.
    exists (Solver.mk g ps), ps. repeat split.
    unfold Solver.score. simpl.
    rewrite (score_of_wf g ps Hwf) by (apply (all_pairs_in_bounds g ps Hwf Eps)).
    unfold score_value. f_equal. f_equal. f_equal.
    apply map_ext. intros c. unfold unpaired_value.
    destruct (colour_code g c =? 4), (cell_in c (Solver.cells_of ps)); reflexivity.
  - unfold Solver.init, Grid.all_pairs.
    set (g3 := Grid.mk 1 3 [[0; 0; 0]] [[1; 2; 4]]).
    rewrite (all_pairs_scan_wf g3) by reflexivity. simpl.
    eexists. exists ((0, 0), (0, 1)), ((0, 1), (0, 2)), (0, 1).
    split; [reflexivity|]. simpl.
    set (raw := flat_map (cell_pairs g3) (SolverBellmanFord.scan_order g3)).
    pose proof (list_of_set_perm raw) as Hperm.
    repeat split; try (simpl; auto; fail).
    + apply (Permutation_in _ Hperm). apply nodup_In. vm_compute. auto.
    + apply (Permutation_in _ Hperm). apply nodup_In. vm_compute. auto.
    + intros E. inversion E.
Qed.

Lemma C10_witness :
  let g := Grid.mk 1 2 [[0; 0]] [[3; 5]] in
  wf g /\
  (exists s,
      @SolverBellmanFord.init first_insertion_order g = Ok s
      /\ SolverBellmanFord.pairs s = []
      /\ SolverBellmanFord.score s
         = Ok (zsum (map (fun c => if colour_code g c =? 4 then 0
                                   else cell_value g c)
                         (SolverBellmanFord.scan_order g)))).
Proof.
  intros g. split; [reflexivity|].
  apply (@C10_score_before_run first_insertion_order g). reflexivity.
Defined.

(** ** Frame reasoning for state-passing code

    [keeps f c]: running [c] leaves the component [f] of the state as it
    was, whatever the outcome. *)

Definition keeps {S T A} (f : S -> T) (c : SM S A) : Prop :=
  forall s, f (snd (c s)) = f s.

Lemma keeps_ret {S T A} (f : S -> T) (a : A) : keeps f (retS a).
Proof. intros s; reflexivity. Qed.

Lemma keeps_lift {S T A} (f : S -> T) (r : result A) : keeps f (liftS r).
Proof. intros s; reflexivity. Qed.

Lemma keeps_get {S T} (f : S -> T) : keeps f getS.
Proof. intros s; reflexivity. Qed.

Lemma keeps_modify {S T} (f : S -> T) (h : S -> S) :
  (forall s, f (h s) = f s) -> keeps f (modifyS h).
Proof. intros Hh s; apply Hh. Qed.

Lemma keeps_bind {S T A B} (f : S -> T) (c : SM S A) (k : A -> SM S B) :
  keeps f c -> (forall a, keeps f (k a)) -> keeps f (bindS c k).
Proof.
  intros Hc Hk s. unfold bindS. specialize (Hc s).
  destruct (c s) as [[a| |] s']; simpl in *; auto.
  rewrite Hk. exact Hc.
Qed.

Lemma keeps_for_each {S T X} (f : S -> T) (l : list X) (body : X -> SM S unit) :
  (forall x, keeps f (body x)) -> keeps f (for_eachS l body).
Proof.
  intros Hb. induction l; simpl.
  - apply keeps_ret.
  - apply keeps_bind; auto.
Qed.

Lemma keeps_zoom {S T U A} (f : S -> T) (get : S -> U) (set : S -> U -> S)
      (c : SM U A) :
  (forall s u, f (set s u) = f s) -> keeps f (zoomS get set c).
Proof.
  intros Hs s. unfold zoomS. destruct (c (get s)). simpl. apply Hs.
Qed.

Lemma keeps_if {S T A} (f : S -> T) (b : bool) (c1 c2 : SM S A) :
  keeps f c1 -> keeps f c2 -> keeps f (if b then c1 else c2).
Proof. destruct b; auto. Qed.

Create HintDb frame.
#[local] Hint Resolve keeps_ret keeps_lift keeps_get keeps_modify keeps_bind
  keeps_for_each keeps_zoom keeps_if : frame.

Lemma is_forbidden_cached_keeps_grid i j :
  keeps SolverBellmanFord.grid (SolverBellmanFord.is_forbidden_cached i j).
Proof.
  unfold SolverBellmanFord.is_forbidden_cached.
  repeat (apply keeps_bind; [|intros]); auto with frame.
Qed.

Lemma get_cost_cached_keeps_grid p :
  keeps SolverBellmanFord.grid (SolverBellmanFord.get_cost_cached p).
Proof.
  unfold SolverBellmanFord.get_cost_cached.
  repeat (apply keeps_bind; [|intros]); auto with frame.
Qed.

Lemma add_edges_from_keeps_grid c :
  keeps SolverBellmanFord.grid (SolverBellmanFord.add_edges_from c).
Proof.
  unfold SolverBellmanFord.add_edges_from. destruct c as [i j].
  apply keeps_for_each. intros d.
  apply keeps_bind; [apply keeps_get|]. intros s.
  apply keeps_if; [|apply keeps_ret].
  apply keeps_bind; [apply is_forbidden_cached_keeps_grid|]. intros fb.
  apply keeps_if; [apply keeps_ret|].
  apply keeps_bind; [apply keeps_lift|]. intros ok.
  apply keeps_if; [|apply keeps_ret].
  apply keeps_bind; [apply get_cost_cached_keeps_grid|]. intros k.
  apply keeps_zoom. reflexivity.
Qed.

Lemma classify_keeps_grid cells acc :
  keeps SolverBellmanFord.grid (SolverBellmanFord.classify cells acc).
Proof.
  revert acc. induction cells as [|[i j] r IH]; intros acc; simpl.
  - apply keeps_ret.
  - apply keeps_bind; [apply is_forbidden_cached_keeps_grid|]. intros fb.
    destruct fb; [apply IH|]. destruct acc as [[valid even] odd].
    destruct ((i + j) mod 2 =? 0); apply IH.
Qed.

Lemma build_graph_keeps_grid :
  keeps SolverBellmanFord.grid SolverBellmanFord.build_graph.
Proof.
  unfold SolverBellmanFord.build_graph.
  apply keeps_bind; [apply keeps_get|]. intros s.
  apply keeps_bind; [apply classify_keeps_grid|]. intros [[valid even] odd].
  apply keeps_bind.
  - apply keeps_for_each. intros c. apply keeps_bind.
    + apply keeps_zoom. reflexivity.
    + intros _. apply add_edges_from_keeps_grid.
  - intros _. apply keeps_for_each. intros c. apply keeps_zoom. reflexivity.
Qed.

Lemma bf_run_keeps_grid fuel :
  keeps SolverBellmanFord.grid (SolverBellmanFord.run fuel).
Proof.
  unfold SolverBellmanFord.run.
  repeat (apply keeps_bind;
          [first [apply keeps_modify; reflexivity
                 |apply build_graph_keeps_grid
                 |apply keeps_zoom; reflexivity
                 |apply keeps_lift
                 |apply keeps_get]
          |intros]).
  apply keeps_lift.
Qed.

Lemma naive_run_keeps_grid `{SetIteration} :
  keeps Solver.grid SolverNaive.run.
Proof.
  unfold SolverNaive.run.
  repeat (apply keeps_bind;
          [first [apply keeps_modify; reflexivity
                 |apply keeps_lift
                 |apply keeps_get]
          |intros]).
  apply keeps_lift.
Qed.

(** C9: however often a solver is run, and whatever the outcome of each
    run, the grid held by the solver keeps its four fields. *)
Theorem C9_solvers_leave_grid_unchanged `{SetIteration}
        (k fuel : nat) (sb : SolverBellmanFord.t) (sn : Solver.t) :
  let sb' := Nat.iter k (fun s => snd (SolverBellmanFord.run fuel s)) sb in
  let sn' := Nat.iter k (fun s => snd (SolverNaive.run s)) sn in
  (Grid.n (SolverBellmanFord.grid sb') = Grid.n (SolverBellmanFord.grid sb)
   /\ Grid.m (SolverBellmanFord.grid sb') = Grid.m (SolverBellmanFord.grid sb)
   /\ Grid.color (SolverBellmanFord.grid sb')
      = Grid.color (SolverBellmanFord.grid sb)
   /\ Grid.value (SolverBellmanFord.grid sb')
      = Grid.value (SolverBellmanFord.grid sb))
  /\ (Grid.n (Solver.grid sn') = Grid.n (Solver.grid sn)
      /\ Grid.m (Solver.grid sn') = Grid.m (Solver.grid sn)
      /\ Grid.color (Solver.grid sn') = Grid.color (Solver.grid sn)
      /\ Grid.value (Solver.grid sn') = Grid.value (Solver.grid sn)).
Proof.
  intros sb' sn'.
  assert (Eb : SolverBellmanFord.grid sb' = SolverBellmanFord.grid sb).
  { subst sb'. clear sn'. induction k; simpl; [reflexivity|].
    etransitivity; [apply (bf_run_keeps_grid fuel)|exact IHk]. }
  assert (En : Solver.grid sn' = Solver.grid sn).
  { subst sn'. clear Eb sb'. induction k; simpl; [reflexivity|].
    etransitivity; [apply naive_run_keeps_grid|exact IHk]. }
  rewrite Eb, En. repeat split.
Qed.

(** ** Idempotence of [run] *)

Lemma bf_run_from_grid fuel s s' :
  SolverBellmanFord.grid s = SolverBellmanFord.grid s' ->
  SolverBellmanFord.run fuel s = SolverBellmanFord.run fuel s'.
Proof.
  intros E. unfold SolverBellmanFord.run.
  unfold bindS at 1 2 3 4. unfold modifyS.
  unfold SolverBellmanFord.set_pairs, SolverBellmanFord.set_graph,
    SolverBellmanFord.set_cost_cache, SolverBellmanFord.set_forbidden_cache.
  simpl. rewrite E. reflexivity.
Qed.

Lemma naive_run_from_grid `{SetIteration} s s' :
  Solver.grid s = Solver.grid s' ->
  fst (SolverNaive.run s) = fst (SolverNaive.run s').
Proof.
  intros E. unfold SolverNaive.run, bindS, getS, liftS, modifyS,
              SolverNaive.set_pairs, Solver.score.
  simpl. rewrite E.
  destruct (Grid.all_pairs (Solver.grid s')) as [ps| |]; try reflexivity.
Qed.

(** C8: a second [run] on the solver left by a first [run] returns what the
    first returned, for the naive and for the flow solver: [run] starts by
    dropping the network, the caches and the pairs of the previous call and
    reads nothing but the grid. *)
Theorem C8_run_twice_same_score `{SetIteration}
        (fuel : nat) (sb : SolverBellmanFord.t) (sn : Solver.t) :
  fst (SolverBellmanFord.run fuel (snd (SolverBellmanFord.run fuel sb)))
  = fst (SolverBellmanFord.run fuel sb)
  /\ fst (SolverNaive.run (snd (SolverNaive.run sn)))
     = fst (SolverNaive.run sn).
Proof.
  split.
  - f_equal. apply bf_run_from_grid. apply bf_run_keeps_grid.
  - apply naive_run_from_grid. apply naive_run_keeps_grid.
Qed.

(** ** Dictionary facts *)

Section DictFacts.
Context {K V : Type} `{Key K}.

Lemma key_eqb_refl (k : K) : key_eqb k k = true.
Proof. destruct (key_eqb_spec k k); congruence. Qed.

Lemma key_eqb_neq (a b : K) : a <> b -> key_eqb a b = false.
Proof. intros N. destruct (key_eqb_spec a b); congruence. Qed.

Lemma dict_get_set_same (d : Dict.t K V) k v :
  Dict.get (Dict.set d k v) k = Some v.
Proof.
  induction d as [|[k' v'] r IH]; simpl.
  - now rewrite key_eqb_refl.
  - destruct (key_eqb_spec k' k) as [->|N]; simpl.
    + now rewrite key_eqb_refl.
    + now rewrite (key_eqb_neq _ _ N).
Qed.

Lemma dict_get_set_other (d : Dict.t K V) k k' v :
  k <> k' -> Dict.get (Dict.set d k v) k' = Dict.get d k'.
Proof.
  intros N. induction d as [|[k0 v0] r IH]; simpl.
  - now rewrite (key_eqb_neq _ _ N).
  - destruct (key_eqb_spec k0 k) as [->|N0]; simpl.
    + now rewrite (key_eqb_neq _ _ N).
    + now rewrite IH.
Qed.

Lemma dict_get_set (d : Dict.t K V) k k' v :
  Dict.get (Dict.set d k v) k'
  = if key_eqb k k' then Some v else Dict.get d k'.
Proof.
  destruct (key_eqb_spec k k') as [->|N].
  - apply dict_get_set_same.
  - now apply dict_get_set_other.
Qed.

Lemma dict_get_none (d : Dict.t K V) k :
  Dict.get d k = None <-> ~ In k (Dict.keys d).
Proof.
  induction d as [|[k0 v0] r IH]; simpl; [tauto|].
  destruct (key_eqb_spec k0 k) as [->|N].
  - split; [discriminate|]. intros Hn. exfalso. apply Hn. now left.
  - rewrite IH. tauto.
Qed.

Lemma dict_get_some (d : Dict.t K V) k :
  In k (Dict.keys d) <-> exists v, Dict.get d k = Some v.
Proof.
  destruct (Dict.get d k) eqn:E.
  - split; [eauto|]. intros _.
    destruct (in_dec (fun a b => reflect_dec _ _ (key_eqb_spec a b)) k
                     (Dict.keys d)) as [Hin|Hn]; auto.
    apply dict_get_none in Hn. congruence.
  - split.
    + intros Hin. apply dict_get_none in E. contradiction.
    + intros [v Hv]. discriminate.
Qed.

Lemma dict_keys_set_in (d : Dict.t K V) k v :
  In k (Dict.keys d) -> Dict.keys (Dict.set d k v) = Dict.keys d.
Proof.
  induction d as [|[k0 v0] r IH]; simpl; [tauto|].
  intros Hin. destruct (key_eqb_spec k0 k) as [->|N]; simpl; [reflexivity|].
  f_equal. apply IH. destruct Hin; congruence.
Qed.

Lemma dict_keys_set_new (d : Dict.t K V) k v :
  ~ In k (Dict.keys d) -> Dict.keys (Dict.set d k v) = Dict.keys d ++ [k].
Proof.
  induction d as [|[k0 v0] r IH]; simpl; [reflexivity|].
  intros Hn. destruct (key_eqb_spec k0 k) as [->|N]; simpl.
  - exfalso. apply Hn. now left.
  - f_equal. apply IH. tauto.
Qed.

Lemma dict_mem_in (d : Dict.t K V) k :
  Dict.mem d k = true <-> In k (Dict.keys d).
Proof.
  unfold Dict.mem. rewrite dict_get_some.
  destruct (Dict.get d k); split; intros; eauto; try discriminate.
  destruct H0; discriminate.
Qed.

Lemma dict_lookup_get (d : Dict.t K V) k v :
  Dict.lookup d k = Ok v <-> Dict.get d k = Some v.
Proof.
  unfold Dict.lookup. destruct (Dict.get d k); split; congruence.
Qed.

End DictFacts.

(** Entries of a dictionary of dictionaries, as a partial function. *)
Definition entry {V} (d : Dict.t node (Dict.t node V)) (u v : node)
  : option V :=
  match Dict.get d u with
  | Some inner => Dict.get inner v
  | None => None
  end.

Lemma get2_entry {V} (d : Dict.t node (Dict.t node V)) u v :
  get2 d u v = match entry d u v with
               | Some x => Ok x
               | None => Raise KeyError
               end.
Proof.
  unfold get2, entry, Dict.lookup.
  destruct (Dict.get d u); simpl; reflexivity.
Qed.

Lemma get2_ok {V} (d : Dict.t node (Dict.t node V)) u v x :
  get2 d u v = Ok x <-> entry d u v = Some x.
Proof.
  rewrite get2_entry. destruct (entry d u v); split; congruence.
Qed.

Lemma set2_ok {V} (d : Dict.t node (Dict.t node V)) u v (x : V) :
  In u (Dict.keys d) ->
  exists d',
    set2 d u v x = Ok d'
    /\ Dict.keys d' = Dict.keys d
    /\ forall a b, entry d' a b
                   = if node_eqb u a && node_eqb v b then Some x
                     else entry d a b.
Proof.
  intros Hin. unfold set2, Dict.lookup.
  destruct (proj1 (dict_get_some d u) Hin) as [inner E]. rewrite E. simpl.
  eexists. split; [reflexivity|]. split.
  - now apply dict_keys_set_in.
  - intros a b. unfold entry. rewrite dict_get_set.
    change (@key_eqb node node_key) with node_eqb.
    destruct (node_eqb_spec u a) as [->|N]; simpl.
    + rewrite dict_get_set. change (@key_eqb node node_key) with node_eqb.
      rewrite E. destruct (node_eqb v b); reflexivity.
    + reflexivity.
Qed.

Lemma set2_entry_defined {V} (d : Dict.t node (Dict.t node V)) u v (x y : V) :
  entry d u v = Some y ->
  exists d',
    set2 d u v x = Ok d'
    /\ Dict.keys d' = Dict.keys d
    /\ forall a b, entry d' a b
                   = if node_eqb u a && node_eqb v b then Some x
                     else entry d a b.
Proof.
  intros E. apply set2_ok. apply dict_get_some.
  unfold entry in E. destruct (Dict.get d u); [eauto|discriminate].
Qed.

(** ** What [add_edge] does to a graph *)

(** The five dictionaries of a graph built by [add_edge] have the same
    keys, in the same order. *)
Definition aligned (g : Graph.t) : Prop :=
  Dict.keys (Graph.cost g) = Dict.keys (Graph.capacity g)
  /\ Dict.keys (Graph.flow g) = Dict.keys (Graph.capacity g)
  /\ Dict.keys (Graph.neigh g) = Dict.keys (Graph.capacity g)
  /\ Dict.keys (Graph.adj_list g) = Dict.keys (Graph.capacity g).

Definition nodes (g : Graph.t) : list node := Dict.keys (Graph.capacity g).

Definition edge_upd {V} (f : node -> node -> option V) (u v : node) (x : V)
  : node -> node -> option V :=
  fun a b => if node_eqb u a && node_eqb v b then Some x else f a b.

Definition adj_reg (f : node -> option (list node)) (x : node)
  : node -> option (list node) :=
  fun a => if node_eqb x a
           then match f a with None => Some [] | Some l => Some l end
           else f a.

Definition adj_app (f : node -> option (list node)) (u v : node)
  : node -> option (list node) :=
  fun a => if node_eqb u a then option_map (fun l => l ++ [v]) (f a)
           else f a.

Definition adj (g : Graph.t) (x : node) : option (list node) :=
  Dict.get (Graph.adj_list g) x.

Lemma aligned_init : aligned Graph.init.
Proof. repeat split. Qed.

Lemma register_spec x g :
  aligned g ->
  exists g',
    Graph.register x g = (Ok tt, g')
    /\ aligned g'
    /\ In x (nodes g')
    /\ nodes g' = nodes g ++ (if Dict.mem (Graph.capacity g) x then [] else [x])
    /\ (forall a b, entry (Graph.capacity g') a b = entry (Graph.capacity g) a b)
    /\ (forall a b, entry (Graph.cost g') a b = entry (Graph.cost g) a b)
    /\ (forall a b, entry (Graph.flow g') a b = entry (Graph.flow g) a b)
    /\ (forall a, adj g' a = adj_reg (adj g) x a).
Proof.
  intros (Hc & Hf & Hn & Ha). unfold Graph.register, nodes, adj.
  destruct (Dict.mem (Graph.capacity g) x) eqn:Em.
  - exists g. rewrite app_nil_r. apply dict_mem_in in Em.
    repeat split; auto.
    intros a. unfold adj_reg. destruct (node_eqb_spec x a) as [<-|N]; auto.
    assert (Hin : In x (Dict.keys (Graph.adj_list g))) by now rewrite Ha.
    apply dict_get_some in Hin as [l ->]. reflexivity.
  - assert (Hnot : ~ In x (Dict.keys (Graph.capacity g))).
    { intros Hin. apply dict_mem_in in Hin. congruence. }
    eexists. split; [reflexivity|]. unfold aligned. simpl.
    rewrite !dict_keys_set_new by (rewrite ?Hc, ?Hf, ?Hn, ?Ha; auto).
    rewrite Hc, Hf, Hn, Ha.
    assert (Hent : forall V (d : Dict.t node (Dict.t node V)) a b,
               ~ In x (Dict.keys d) ->
               entry (Dict.set d x Dict.empty) a b = entry d a b).
    { intros V d a b Hd. unfold entry. rewrite dict_get_set.
      change (@key_eqb node node_key) with node_eqb.
      destruct (node_eqb_spec x a) as [<-|N]; auto.
      apply dict_get_none in Hd. rewrite Hd. reflexivity. }
    repeat split; auto;
      try (intros; apply Hent; rewrite ?Hc, ?Hf; auto; fail).
    + apply in_or_app. right. now left.
    + intros a. unfold adj_reg. rewrite dict_get_set.
      change (@key_eqb node node_key) with node_eqb.
      destruct (node_eqb_spec x a) as [<-|N]; auto.
      assert (Hd : ~ In x (Dict.keys (Graph.adj_list g))) by now rewrite Ha.
      apply dict_get_none in Hd. rewrite Hd. reflexivity.
Qed.

Lemma store_edge_spec u v cap c g :
  aligned g -> In u (nodes g) ->
  exists g',
    Graph.store_edge u v cap c g = (Ok tt, g')
    /\ aligned g'
    /\ nodes g' = nodes g
    /\ (forall a b, entry (Graph.capacity g') a b
                    = edge_upd (entry (Graph.capacity g)) u v cap a b)
    /\ (forall a b, entry (Graph.cost g') a b
                    = edge_upd (entry (Graph.cost g)) u v c a b)
    /\ (forall a b, entry (Graph.flow g') a b
                    = edge_upd (entry (Graph.flow g)) u v 0 a b)
    /\ (forall a, adj g' a = adj_app (adj g) u v a).
Proof.
  intros (Hc & Hf & Hn & Ha) Hu. unfold nodes in *.
  destruct (set2_ok (Graph.capacity g) u v cap Hu) as (d1 & E1 & K1 & P1).
  destruct (set2_ok (Graph.cost g) u v c) as (d2 & E2 & K2 & P2);
    [now rewrite Hc|].
  destruct (set2_ok (Graph.flow g) u v 0) as (d3 & E3 & K3 & P3);
    [now rewrite Hf|].
  assert (Hun : In u (Dict.keys (Graph.neigh g))) by now rewrite Hn.
  assert (Hua : In u (Dict.keys (Graph.adj_list g))) by now rewrite Ha.
  destruct (proj1 (dict_get_some _ _) Hun) as [s Es].
  destruct (proj1 (dict_get_some _ _) Hua) as [l El].
  unfold Graph.store_edge, bindS, Graph.set_flow. simpl.
  rewrite E1. simpl. rewrite E2. simpl. rewrite E3. simpl.
  unfold Dict.lookup at 1. rewrite Es. simpl.
  unfold Dict.lookup. rewrite El. simpl.
  eexists. split; [reflexivity|]. unfold aligned, adj. simpl.
  rewrite !dict_keys_set_in by auto.
  repeat split; try congruence; auto.
  intros a. unfold adj_app. rewrite dict_get_set.
  change (@key_eqb node node_key) with node_eqb.
  destruct (node_eqb_spec u a) as [<-|N]; auto. rewrite El. reflexivity.
Qed.

Lemma add_edge_spec u v cap c g :
  aligned g ->
  exists g',
    Graph.add_edge u v cap c g = (Ok tt, g')
    /\ aligned g'
    /\ nodes g' = (nodes g
                   ++ (if Dict.mem (Graph.capacity g) u then [] else [u]))
                  ++ (if existsb (node_eqb v) (u :: nodes g) then [] else [v])
    /\ (forall a b, entry (Graph.capacity g') a b
                    = edge_upd (edge_upd (entry (Graph.capacity g)) u v cap)
                               v u 0 a b)
    /\ (forall a b, entry (Graph.cost g') a b
                    = edge_upd (edge_upd (entry (Graph.cost g)) u v c)
                               v u (- c) a b)
    /\ (forall a b, entry (Graph.flow g') a b
                    = edge_upd (edge_upd (entry (Graph.flow g)) u v 0)
                               v u 0 a b)
    /\ (forall a, adj g' a
                  = adj_app (adj_app (adj_reg (adj_reg (adj g) u) v) u v) v u a).
Proof.
  intros Hal.
  destruct (register_spec u g Hal) as (g1 & R1 & A1 & I1 & N1 & C1 & K1 & F1 & J1).
  destruct (register_spec v g1 A1) as (g2 & R2 & A2 & I2 & N2 & C2 & K2 & F2 & J2).
  assert (Iu : In u (nodes g2)).
  { rewrite N2. apply in_or_app. now left. }
  destruct (store_edge_spec u v cap c g2 A2 Iu)
    as (g3 & R3 & A3 & N3 & C3 & K3 & F3 & J3).
  assert (Iv : In v (nodes g3)) by now rewrite N3.
  destruct (store_edge_spec v u 0 (- c) g3 A3 Iv)
    as (g4 & R4 & A4 & N4 & C4 & K4 & F4 & J4).
  exists g4. split.
  - unfold Graph.add_edge. simpl. unfold bindS at 1 2 3.
    rewrite R1, R2. unfold retS. unfold bindS. rewrite R3. exact R4.
  - split; [exact A4|]. split.
    + rewrite N4, N3, N2, N1. f_equal.
      assert (Em : Dict.mem (Graph.capacity g1) v
                   = existsb (node_eqb v) (u :: nodes g)).
      { destruct (Dict.mem (Graph.capacity g1) v) eqn:E.
        - apply dict_mem_in in E. fold (nodes g1) in E. rewrite N1 in E.
          symmetry. apply existsb_exists. exists v. split.
          + apply in_app_or in E as [E|E]; [now right|].
            destruct (Dict.mem (Graph.capacity g) u); [destruct E|].
            destruct E as [->|[]]. now left.
          + destruct (node_eqb_spec v v); congruence.
        - symmetry. apply not_true_is_false. intros Hex.
          apply existsb_exists in Hex as [y [Hy Ey]].
          destruct (node_eqb_spec v y) as [<-|]; [|discriminate].
          assert (Hin : In v (nodes g1)).
          { destruct Hy as [<-|Hy]; [exact I1|].
            rewrite N1. apply in_or_app. now left. }
          apply dict_mem_in in Hin. congruence. }
      now rewrite Em.
    + repeat split.
      * intros a b. rewrite C4. unfold edge_upd. rewrite C3. unfold edge_upd.
        now rewrite C2, C1.
      * intros a b. rewrite K4. unfold edge_upd. rewrite K3. unfold edge_upd.
        now rewrite K2, K1.
      * intros a b. rewrite F4. unfold edge_upd. rewrite F3. unfold edge_upd.
        now rewrite F2, F1.
      * intros a. rewrite J4. unfold adj_app. rewrite !J3. unfold adj_app.
        rewrite !J2. unfold adj_reg. rewrite !J1. reflexivity.
Qed.

(** ** Invariants of state-passing code

    [preserves P c]: if [P] holds before [c], it holds when [c] ends,
    whatever the outcome. *)

Definition preserves {S A} (P : S -> Prop) (c : SM S A) : Prop :=
  forall s, P s -> P (snd (c s)).

Lemma preserves_ret {S A} (P : S -> Prop) (a : A) : preserves P (retS a).
Proof. intros s H; exact H. Qed.

Lemma preserves_lift {S A} (P : S -> Prop) (r : result A) :
  preserves P (liftS r).
Proof. intros s H; exact H. Qed.


Lemma preserves_bind {S A B} (P : S -> Prop) (c : SM S A) (k : A -> SM S B) :
  preserves P c -> (forall a, preserves P (k a)) -> preserves P (bindS c k).
Proof.
  intros Hc Hk s Hs. unfold bindS. specialize (Hc s Hs).
  destruct (c s) as [[a| |] s']; simpl in *; auto.
  now apply Hk.
Qed.

(** ** Reverse edges *)

(** A sequence of [add_edge] calls, each given as [(u, v, cap, cost)]. *)
Definition add_edges (calls : list (node * node * Z * Z)) : SM Graph.t unit :=
  for_eachS calls
    (fun e => let '(u, v, cap, c) := e in Graph.add_edge u v cap c).

Definition call_src (e : node * node * Z * Z) : node := fst (fst (fst e)).
Definition call_dst (e : node * node * Z * Z) : node := snd (fst (fst e)).

(** No edge is added in both directions; in particular no self-loop. *)
Definition no_antiparallel (calls : list (node * node * Z * Z)) : Prop :=
  forall e1 e2, In e1 calls -> In e2 calls ->
                ~ (call_src e1 = call_dst e2 /\ call_dst e1 = call_src e2).

Definition flow_antisym (g : Graph.t) : Prop :=
  forall a b f, entry (Graph.flow g) a b = Some f ->
                entry (Graph.flow g) b a = Some (- f).

(** Every edge of [calls] has its reverse edge, of capacity 0 and opposite
    cost. *)
Definition reverse_edges (calls : list (node * node * Z * Z)) (g : Graph.t)
  : Prop :=
  forall e, In e calls ->
    exists k, entry (Graph.cost g) (call_src e) (call_dst e) = Some k
              /\ entry (Graph.cost g) (call_dst e) (call_src e) = Some (- k)
              /\ entry (Graph.capacity g) (call_dst e) (call_src e) = Some 0.

Lemma edge_upd_hit {V} (f : node -> node -> option V) u v (x : V) :
  edge_upd f u v x u v = Some x.
Proof.
  unfold edge_upd.
  destruct (node_eqb_spec u u), (node_eqb_spec v v); simpl; congruence.
Qed.

Lemma edge_upd_miss {V} (f : node -> node -> option V) u v (x : V) a b :
  ~ (u = a /\ v = b) -> edge_upd f u v x a b = f a b.
Proof.
  unfold edge_upd. intros N.
  destruct (node_eqb_spec u a), (node_eqb_spec v b); simpl; tauto.
Qed.

Lemma add_edge_flow_antisym u v cap c g g' :
  aligned g -> flow_antisym g ->
  Graph.add_edge u v cap c g = (Ok tt, g') -> flow_antisym g'.
Proof.
  intros Hal Hf E.
  destruct (add_edge_spec u v cap c g Hal) as (g2 & E2 & _ & _ & _ & _ & F & _).
  assert (g2 = g') by congruence. subst g2.
  intros a b f. rewrite !F. unfold edge_upd.
  destruct (node_eqb_spec v a), (node_eqb_spec u b), (node_eqb_spec u a),
    (node_eqb_spec v b); subst; simpl; intros Hab;
    try (injection Hab as <-; reflexivity); try congruence; auto.
Qed.

Lemma add_edges_reverse calls :
  forall done g,
    aligned g -> flow_antisym g -> reverse_edges done g ->
    no_antiparallel (done ++ calls) ->
    exists g',
      add_edges calls g = (Ok tt, g')
      /\ aligned g' /\ flow_antisym g' /\ reverse_edges (done ++ calls) g'.
Proof.
  induction calls as [|[[[u v] cap] c] r IH]; intros done g Hal Hf Hr Hno.
  - exists g. rewrite app_nil_r. split; [reflexivity|]. auto.
  - destruct (add_edge_spec u v cap c g Hal)
      as (g1 & E1 & A1 & _ & C1 & K1 & _ & _).
    pose proof (add_edge_flow_antisym u v cap c g g1 Hal Hf E1) as F1.
    assert (Huv : u <> v).
    { intros ->. apply (Hno (v, v, cap, c) (v, v, cap, c));
        try (apply in_or_app; right; now left). split; reflexivity. }
    assert (Hr1 : reverse_edges (done ++ [(u, v, cap, c)]) g1).
    { intros e He. apply in_app_or in He as [He|[<-|[]]].
      - destruct (Hr e He) as (k & Ek & Ek' & Ec).
        destruct e as [[[a b] cap'] c']. unfold call_src, call_dst in *.
        simpl in *.
        assert (Hab : ~ (a = v /\ b = u)).
        { intros [-> ->].
          apply (Hno (v, u, cap', c') (u, v, cap, c)).
          - apply in_or_app. now left.
          - apply in_or_app. right. now left.
          - split; reflexivity. }
        destruct (node_eqb_spec a u) as [->|Na];
          [destruct (node_eqb_spec b v) as [->|Nb]|].
        + exists c. rewrite !K1, C1.
          rewrite (edge_upd_miss _ v u (- c) u v) by tauto.
          rewrite !edge_upd_hit. auto.
        + exists k. rewrite !K1, C1.
          rewrite !edge_upd_miss by (intros [? ?]; subst; tauto). auto.
        + exists k. rewrite !K1, C1.
          rewrite !edge_upd_miss by (intros [? ?]; subst; tauto). auto.
      - unfold call_src, call_dst. simpl. exists c. rewrite !K1, C1.
        rewrite (edge_upd_miss _ v u (- c) u v) by tauto.
        rewrite !edge_upd_hit. auto. }
    destruct (IH (done ++ [(u, v, cap, c)]) g1 A1 F1 Hr1) as (g' & E' & H').
    { now rewrite <- app_assoc. }
    exists g'. split.
    + unfold add_edges in *. simpl. unfold bindS. rewrite E1. exact E'.
    + rewrite <- app_assoc in H'. exact H'.
Qed.

(** *** Augmentations keep the reverse edges *)

Definition static_part (g : Graph.t)
  : Dict.t node (Dict.t node Z) * Dict.t node (Dict.t node Z)
    * Dict.t node (list node) * Dict.t node (list node) :=
  (Graph.capacity g, Graph.cost g, Graph.neigh g, Graph.adj_list g).





(** Antisymmetric flows that are defined at least on [dom]. *)
Definition flow_ok (dom : node -> node -> Prop) (g : Graph.t) : Prop :=
  flow_antisym g
  /\ forall a b, dom a b -> entry (Graph.flow g) a b <> None.

Lemma push_edge_flow_ok dom f e total :
  preserves (flow_ok dom) (Graph.push_edge f e total).
Proof.
  intros g [Hg Hd]. unfold Graph.push_edge. destruct e as [u v].
  rewrite get2_entry.
  destruct (entry (Graph.flow g) u v) as [x|] eqn:Ex; simpl;
    [|split; assumption].
  destruct (set2_entry_defined (Graph.flow g) u v (x + f) x Ex)
    as (d1 & E1 & _ & P1).
  rewrite E1. simpl. rewrite get2_entry.
  pose proof (Hg u v x Ex) as Erev.
  assert (Ey : entry d1 v u = Some (if node_eqb u v then x + f else - x)).
  { rewrite P1. destruct (node_eqb_spec u v) as [->|N]; simpl.
    - destruct (node_eqb_spec v v); simpl; congruence.
    - rewrite Erev. destruct (node_eqb v u); simpl; [|reflexivity].
      destruct (node_eqb_spec u u); simpl; congruence. }
  rewrite Ey. simpl.
  destruct (set2_entry_defined d1 v u
              ((if node_eqb u v then x + f else - x) - f) _ Ey)
    as (d2 & E2 & _ & P2).
  rewrite E2. simpl.
  assert (Hok : flow_ok dom (Graph.set_flow (Graph.set_flow g d1) d2)).
  { split.
    - intros a b z. simpl. rewrite !P2, !P1.
      destruct (node_eqb_spec u v) as [->|N].
      + assert (x = 0) by (rewrite Ex in Erev; injection Erev; lia). subst x.
        destruct (node_eqb_spec v a), (node_eqb_spec v b); subst; simpl;
          intros Hz; try (injection Hz as <-; f_equal; lia); auto.
      + destruct (node_eqb_spec v a), (node_eqb_spec u b),
          (node_eqb_spec u a), (node_eqb_spec v b); subst; simpl; intros Hz;
          try (injection Hz as <-; f_equal; lia); try congruence; auto.
    - intros a b Hab. simpl. rewrite P2, P1. specialize (Hd a b Hab).
      destruct (node_eqb v a && node_eqb u b); [discriminate|].
      destruct (node_eqb u a && node_eqb v b); [discriminate|]. exact Hd. }
  destruct (get2 _ u v); exact Hok.
Qed.





(** *** What [add_edge] keeps for every sequence of calls *)













(** ** The flow solver against the greedy solver on a 1x4 grid *)

Lemma perm3_cases {A} (a b c : A) (l : list A) :
  Permutation [a; b; c] l ->
  l = [a; b; c] \/ l = [a; c; b] \/ l = [b; a; c]
  \/ l = [b; c; a] \/ l = [c; a; b] \/ l = [c; b; a]
  \/ ~ NoDup [a; b; c].
Proof.
  intros P.
  pose proof (Permutation_length P) as Hlen.
  destruct l as [|x [|y [|z [|w r]]]]; try discriminate.
  assert (Hin : forall t, In t [x; y; z] -> In t [a; b; c]).
  { intros t Ht. apply (Permutation_in _ (Permutation_sym P) Ht). }
  assert (Hin' : forall t, In t [a; b; c] -> In t [x; y; z]).
  { intros t Ht. apply (Permutation_in _ P Ht). }
  pose proof (Hin x (or_introl eq_refl)) as Hx.
  pose proof (Hin y (or_intror (or_introl eq_refl))) as Hy.
  pose proof (Hin z (or_intror (or_intror (or_introl eq_refl)))) as Hz.
  pose proof (Hin' a (or_introl eq_refl)) as Ha.
  pose proof (Hin' b (or_intror (or_introl eq_refl))) as Hb.
  pose proof (Hin' c (or_intror (or_intror (or_introl eq_refl)))) as Hc.
  simpl in *.
  destruct Hx as [<-|[<-|[<-|[]]]]; destruct Hy as [<-|[<-|[<-|[]]]];
    destruct Hz as [<-|[<-|[<-|[]]]]; auto 10;
    repeat right; intros Hnd;
    repeat match goal with
           | H : NoDup (_ :: _) |- _ => inversion H; clear H; subst
           end; simpl in *; intuition congruence.
Qed.

(** C1, at the grid on which it fails: on the 1x4 all-white grid with
    values 1, 100, 100, 1 the flow solver matches both outer cells and
    returns 198, while the greedy solver takes the middle pair and returns
    2, whatever order the set of pairs is listed in. *)
Theorem C1_flow_solver_scores_above_naive `{SetIteration} :
  let g := Grid.mk 1 4 [[0; 0; 0; 0]] [[1; 100; 100; 1]] in
  wf g
  /\ fst (SolverBellmanFord.run 20
            (SolverBellmanFord.mk g [] Graph.init Dict.empty Dict.empty))
     = Ok 198
  /\ fst (SolverNaive.run (Solver.mk g [])) = Ok 2.
Proof.
  intros g. split; [reflexivity|]. split; [vm_compute; reflexivity|].
  unfold SolverNaive.run, bindS, getS, liftS, modifyS, Grid.all_pairs.
  simpl Solver.grid.
  assert (Escan : Grid.all_pairs_scan g
                  = Ok [((0, 0), (0, 1)); ((0, 1), (0, 2)); ((0, 2), (0, 3))])
    by reflexivity.
  rewrite Escan. simpl bind.
  pose proof (list_of_set_perm
                [((0, 0), (0, 1)); ((0, 1), (0, 2)); ((0, 2), (0, 3))]) as P.
  change (nodup pair_eq_dec
                [((0, 0), (0, 1)); ((0, 1), (0, 2)); ((0, 2), (0, 3))])
    with [((0, 0), (0, 1)); ((0, 1), (0, 2)); ((0, 2), (0, 3))] in P.
  apply perm3_cases in P.
  destruct P as [E|[E|[E|[E|[E|[E|N]]]]]]; try (rewrite E; vm_compute; reflexivity).
  exfalso. apply N. repeat constructor; simpl; intuition discriminate.
Qed.

(** C2, at the grids on which it fails: on a 1x1 grid no odd cell exists,
    so the sink is never added to the network and [bellman_ford] looks it
    up in vain; on an all-black grid the network is empty and the source is
    missing too.  In both cases [run] ends with [KeyError]. *)
Theorem C2_degenerate_grids_raise (fuel : nat) :
  let g1 := Grid.mk 1 1 [[0]] [[7]] in
  let gk := Grid.mk 2 2 [[4; 4]; [4; 4]] [[1; 5]; [5; 5]] in
  wf g1 /\ wf gk
  /\ fst (SolverBellmanFord.run (S (S fuel))
            (SolverBellmanFord.mk g1 [] Graph.init Dict.empty Dict.empty))
     = Raise KeyError
  /\ fst (SolverBellmanFord.run (S fuel)
            (SolverBellmanFord.mk gk [] Graph.init Dict.empty Dict.empty))
     = Raise KeyError.
Proof.
  intros g1 gk. split; [reflexivity|]. split; [reflexivity|].
  split; reflexivity.
Qed.

(** ** Networks

    The structure shared by every graph that [build_graph] produces, and
    kept by the augmentations: nodes are layered (source, even cells, odd
    cells, sink), every edge of capacity 1 goes one layer up and has a
    reverse edge of capacity 0 and opposite cost. *)

Definition lvl (x : node) : Z :=
  match x with
  | Source => 0
  | Cell c => if (fst c + snd c) mod 2 =? 0 then 1 else 2
  | Sink => 3
  end.

Definition cap (g : Graph.t) := entry (Graph.capacity g).
Definition cst (g : Graph.t) := entry (Graph.cost g).
Definition flw (g : Graph.t) := entry (Graph.flow g).

Record net (g : Graph.t) : Prop := {
  net_nodes_nodup : NoDup (nodes g);
  net_adj_dom : forall x, In x (nodes g) <-> adj g x <> None;
  net_adj_nodup : forall x l, adj g x = Some l -> NoDup l;
  net_adj_iff : forall x l y, adj g x = Some l ->
                              (In y l <-> cap g x y <> None);
  net_cap_nodes : forall x y, cap g x y <> None ->
                              In x (nodes g) /\ In y (nodes g);
  net_cap_sym : forall x y, cap g x y <> None -> cap g y x <> None;
  net_cost_dom : forall x y, cap g x y <> None -> cst g x y <> None;
  net_cost_anti : forall x y k, cst g x y = Some k -> cst g y x = Some (- k);
  net_layer : forall x y k, cap g x y = Some k ->
      (k = 1 /\ lvl y = lvl x + 1 /\ exists c, cst g x y = Some c /\ 0 <= c)
      \/ (k = 0 /\ lvl x = lvl y + 1)
}.

Arguments net_nodes_nodup {g}.
Arguments net_adj_dom {g}.
Arguments net_adj_nodup {g}.
Arguments net_adj_iff {g}.
Arguments net_cap_nodes {g}.
Arguments net_cap_sym {g}.
Arguments net_cost_dom {g}.
Arguments net_cost_anti {g}.
Arguments net_layer {g}.

(** The value of a flow entry, 0 where there is none. *)
Definition flow_val (g : Graph.t) (x y : node) : Z :=
  match flw g x y with Some f => f | None => 0 end.

(** Net flow leaving a node. *)
Definition net_out (g : Graph.t) (x : node) : Z :=
  match adj g x with
  | Some l => zsum (map (flow_val g x) l)
  | None => 0
  end.

Record flow_inv (g : Graph.t) : Prop := {
  fi_dom : forall x y, cap g x y <> None -> flw g x y <> None;
  fi_anti : flow_antisym g;
  fi_cap : forall x y f k, flw g x y = Some f -> cap g x y = Some k -> f <= k;
  fi_cons : forall c, net_out g (Cell c) = 0
}.

Arguments fi_dom {g}.
Arguments fi_anti {g}.
Arguments fi_cap {g}.
Arguments fi_cons {g}.

(** [u -> v] is an edge with spare capacity. *)
Definition residual (g : Graph.t) (u v : node) : Prop :=
  exists k f, cap g u v = Some k /\ flw g u v = Some f /\ f < k.

(** A potential on the nodes that the source reaches makes every reduced
    cost of a residual edge non-negative. *)
Definition feasible (g : Graph.t) (source : node) (pot : node -> option Z)
  : Prop :=
  pot source <> None
  /\ forall u v pu c, pot u = Some pu -> residual g u v -> cst g u v = Some c ->
       exists pv, pot v = Some pv /\ 0 <= c + pu - pv.

Lemma net_static g g' :
  static_part g = static_part g' -> net g -> net g'.
Proof.
  unfold static_part. intros E N.
  assert (Ec : Graph.capacity g = Graph.capacity g') by congruence.
  assert (Ek : Graph.cost g = Graph.cost g') by congruence.
  assert (Ea : Graph.adj_list g = Graph.adj_list g') by congruence.
  destruct N. constructor; unfold nodes, adj, cap, cst in *;
    rewrite <- ?Ec, <- ?Ek, <- ?Ea; assumption.
Qed.

Lemma net_no_loop g x : net g -> cap g x x = None.
Proof.
  intros N. destruct (cap g x x) as [k|] eqn:E; [|reflexivity].
  destruct (net_layer N x x k E) as [(_ & H & _)|(_ & H)]; lia.
Qed.

Lemma net_adj_some g x : net g -> In x (nodes g) -> exists l, adj g x = Some l.
Proof.
  intros N Hx. apply (net_adj_dom N) in Hx.
  destruct (adj g x); [eauto|congruence].
Qed.

(** ** Dictionary comprehensions *)

Lemma of_keys_get {V} (ks : list node) (f : node -> V) (x : node) :
  Dict.get (Dict.of_keys ks f) x
  = if existsb (node_eqb x) ks then Some (f x) else None.
Proof.
  unfold Dict.of_keys.
  assert (H : forall d,
             Dict.get (fold_left (fun d k => Dict.set d k (f k)) ks d) x
             = if existsb (node_eqb x) ks then Some (f x) else Dict.get d x).
  { induction ks as [|k r IH]; intros d; simpl; [reflexivity|].
    rewrite IH. destruct (existsb (node_eqb x) r); simpl.
    - now rewrite orb_true_r.
    - rewrite orb_false_r. rewrite dict_get_set.
      change (@key_eqb node node_key) with node_eqb.
      destruct (node_eqb_spec k x) as [->|N].
      + destruct (node_eqb_spec x x); congruence.
      + destruct (node_eqb_spec x k); congruence. }
  rewrite H. reflexivity.
Qed.

Lemma existsb_node_in (x : node) (l : list node) :
  existsb (node_eqb x) l = true <-> In x l.
Proof.
  rewrite existsb_exists. split.
  - intros [y [Hy E]]. destruct (node_eqb_spec x y); congruence.
  - intros H. exists x. split; auto. destruct (node_eqb_spec x x); congruence.
Qed.

Lemma node_eq_dec (a b : node) : {a = b} + {a <> b}.
Proof. destruct (node_eqb_spec a b); auto. Qed.

(** ** The shortest-path search *)

Lemma node_get_set {V} (d : Dict.t node V) (k k' : node) (v : V) :
  Dict.get (Dict.set d k v) k'
  = if node_eqb k k' then Some v else Dict.get d k'.
Proof. exact (dict_get_set d k k' v). Qed.

(** Follow the predecessor map [n] steps back from [v]. *)
Fixpoint chain (pred : Dict.t node (option node)) (n : nat) (v : node)
  : option node :=
  match n with
  | O => Some v
  | S n' => match Dict.get pred v with
            | Some (Some u) => chain pred n' u
            | _ => None
            end
  end.

(** *** Predecessor chains *)

Lemma chain_set_avoid pred v p n : forall x,
  (forall i, (i <= n)%nat -> chain pred i x <> Some v) ->
  chain (Dict.set pred v p) n x = chain pred n x.
Proof.
  induction n as [|n IH]; intros x Hav; simpl; [reflexivity|].
  assert (Hx : x <> v).
  { intros ->. apply (Hav 0%nat); [lia|reflexivity]. }
  rewrite dict_get_set_other by congruence.
  destruct (Dict.get pred x) as [[u|]|] eqn:E; try reflexivity.
  apply IH. intros i Hi. specialize (Hav (S i) ltac:(lia)).
  simpl in Hav. now rewrite E in Hav.
Qed.

Lemma chain_reroute pred v p source m :
  chain (Dict.set pred v p) m v = Some source ->
  forall n x, chain pred n x = Some source ->
              exists n', chain (Dict.set pred v p) n' x = Some source.
Proof.
  intros Hv. induction n as [|n IH]; intros x Hx.
  - simpl in Hx. injection Hx as ->. exists 0%nat. reflexivity.
  - destruct (node_eq_dec x v) as [->|N]; [eauto|].
    simpl in Hx. destruct (Dict.get pred x) as [[y|]|] eqn:E; try discriminate.
    destruct (IH y Hx) as [n' Hn']. exists (S n'). simpl.
    rewrite dict_get_set_other by congruence. now rewrite E.
Qed.

(** *** Sums over the nodes *)

Lemma zsum_update (F F' : node -> Z) (l : list node) (v : node) :
  NoDup l -> In v l -> (forall x, x <> v -> F' x = F x) ->
  zsum (map F' l) = zsum (map F l) + F' v - F v.
Proof.
  intros Hnd Hin Hext. induction l as [|a r IH]; [destruct Hin|].
  inversion Hnd as [|? ? Ha Hr]; subst. simpl.
  destruct Hin as [->|Hin].
  - assert (E : map F' r = map F r).
    { apply map_ext_in. intros x Hx. apply Hext. intros ->. contradiction. }
    rewrite E. lia.
  - rewrite (IH Hr Hin). rewrite (Hext a) by (intros ->; contradiction). lia.
Qed.

Lemma zsum_nonneg (l : list Z) : (forall x, In x l -> 0 <= x) -> 0 <= zsum l.
Proof.
  induction l as [|a r IH]; simpl; intros H; [lia|].
  assert (0 <= a) by (apply H; now left).
  assert (0 <= zsum r) by (apply IH; intros; apply H; now right). lia.
Qed.

Section BellmanFord.

Variable g : Graph.t.
Variable source : node.
Variable pot : node -> option Z.

Hypothesis Hnet : net g.
Hypothesis Hdom : forall x y, cap g x y <> None -> flw g x y <> None.
Hypothesis Hsrc : In source (nodes g).
Hypothesis Hpot : feasible g source pot.

Definition dist_of (st : Graph.bf_state) (x : node) : option ext :=
  Dict.get (Graph.dist st) x.

Definition pred_of (st : Graph.bf_state) (x : node) : option (option node) :=
  Dict.get (Graph.pred st) x.

(** The edge [x -> v] cannot improve the distance of [v]. *)
Definition relaxed (st : Graph.bf_state) (x v : node) : Prop :=
  exists dx dv c,
    dist_of st x = Some (Fin dx) /\ dist_of st v = Some (Fin dv)
    /\ cst g x v = Some c /\ dv <= dx + c.

(** Edges of the node being processed that the inner loop has not reached
    yet. *)
Definition pending (cur : option (node * list node)) (x v : node) : Prop :=
  match cur with
  | Some (u, todo) => x = u /\ In v todo
  | None => False
  end.

Record bf_inv (cur : option (node * list node)) (st : Graph.bf_state)
  : Prop := {
  bi_dom : forall x, In x (nodes g) ->
      (exists d, dist_of st x = Some d)
      /\ (exists p, pred_of st x = Some p)
      /\ (exists b, Dict.get (Graph.in_queue st) x = Some b);
  bi_src : dist_of st source = Some (Fin 0) /\ pred_of st source = Some None;
  bi_lb : forall v dv, dist_of st v = Some (Fin dv) ->
      In v (nodes g)
      /\ exists pv ps, pot v = Some pv /\ pot source = Some ps /\ pv - ps <= dv;
  bi_pred : forall v u, pred_of st v = Some (Some u) ->
      exists du dv c,
        dist_of st u = Some (Fin du) /\ dist_of st v = Some (Fin dv)
        /\ residual g u v /\ cst g u v = Some c /\ du + c <= dv;
  bi_chain : forall v dv, dist_of st v = Some (Fin dv) ->
      exists n, chain (Graph.pred st) n v = Some source;
  bi_settled : forall x dx v, dist_of st x = Some (Fin dx) ->
      ~ In x (Graph.queue st) -> residual g x v ->
      pending cur x v \/ relaxed st x v;
  bi_queue_nodup : NoDup (Graph.queue st);
  bi_queue_fin : forall x, In x (Graph.queue st) ->
      exists d, dist_of st x = Some (Fin d);
  bi_in_queue : forall x, In x (nodes g) ->
      (Dict.get (Graph.in_queue st) x = Some true <-> In x (Graph.queue st));
  bi_cur : forall u todo, cur = Some (u, todo) ->
      ~ In u (Graph.queue st) /\ exists du, dist_of st u = Some (Fin du)
}.

Arguments bi_dom {cur st}.
Arguments bi_src {cur st}.
Arguments bi_lb {cur st}.
Arguments bi_pred {cur st}.
Arguments bi_chain {cur st}.
Arguments bi_settled {cur st}.
Arguments bi_queue_nodup {cur st}.
Arguments bi_queue_fin {cur st}.
Arguments bi_in_queue {cur st}.
Arguments bi_cur {cur st}.

(** *** One relaxation *)

Definition relax_update (u v : node) (new_cost : ext) (inq : bool)
           (st : Graph.bf_state) : Graph.bf_state :=
  Graph.mk_bf (Dict.set (Graph.dist st) v new_cost)
              (Dict.set (Graph.pred st) v (Some u))
              (if inq then Graph.queue st else Graph.queue st ++ [v])
              (if inq then Graph.in_queue st
               else Dict.set (Graph.in_queue st) v true).

Lemma relax_spec u v st k f c du dv inq :
  cap g u v = Some k -> flw g u v = Some f -> cst g u v = Some c ->
  dist_of st u = Some du -> dist_of st v = Some dv ->
  Dict.get (Graph.in_queue st) v = Some inq ->
  Graph.relax g u v st
  = Ok (if (k >? f) && ext_ltb (ext_add du c) dv
        then relax_update u v (ext_add du c) inq st else st).
Proof.
  intros Ek Ef Ec Edu Edv Einq. unfold Graph.relax.
  apply get2_ok in Ek, Ef, Ec. rewrite Ek. simpl. rewrite Ef. simpl.
  destruct (k >? f); simpl; [|reflexivity].
  unfold dist_of in *. unfold Dict.lookup. rewrite Edu. simpl.
  rewrite Ec. simpl. rewrite Edv. simpl.
  destruct (ext_ltb (ext_add du c) dv); [|reflexivity].
  rewrite Einq. simpl. unfold relax_update. destruct inq; reflexivity.
Qed.

(** *** Progress measure *)

Definition is_inf (d : option ext) : Z :=
  match d with Some (Fin _) => 0 | _ => 1 end.

Definition inf_count (st : Graph.bf_state) : Z :=
  zsum (map (fun x => is_inf (dist_of st x)) (nodes g)).

Definition slack_at (st : Graph.bf_state) (x : node) : Z :=
  match dist_of st x, pot x, pot source with
  | Some (Fin d), Some p, Some ps => d - p + ps
  | _, _, _ => 0
  end.

Definition slack (st : Graph.bf_state) : Z :=
  zsum (map (slack_at st) (nodes g)).

Definition bf_progress (st st' : Graph.bf_state) : Prop :=
  inf_count st' < inf_count st
  \/ (inf_count st' = inf_count st /\ slack st' < slack st).

Lemma inf_count_nonneg st : 0 <= inf_count st.
Proof.
  apply zsum_nonneg. intros x Hx. apply in_map_iff in Hx as [y [<- _]].
  unfold is_inf. destruct (dist_of st y) as [[|]|]; lia.
Qed.

Lemma slack_nonneg cur st : bf_inv cur st -> 0 <= slack st.
Proof.
  intros I. apply zsum_nonneg. intros x Hx.
  apply in_map_iff in Hx as [y [<- _]]. unfold slack_at.
  destruct (dist_of st y) as [[d|]|] eqn:E; try lia.
  destruct (bi_lb I y d E) as (_ & pv & ps & -> & -> & H). lia.
Qed.

Lemma bf_progress_trans a b c :
  bf_progress a b -> bf_progress b c -> bf_progress a c.
Proof. unfold bf_progress. intros [H|[H1 H2]] [H'|[H1' H2']]; lia. Qed.

(** Along a predecessor chain the distance above the potential can only
    grow. *)
Lemma chain_slack cur st n : bf_inv cur st ->
  forall x y dx, chain (Graph.pred st) n x = Some y ->
    dist_of st x = Some (Fin dx) ->
    exists dy px py, dist_of st y = Some (Fin dy)
                     /\ pot x = Some px /\ pot y = Some py
                     /\ dy - py <= dx - px.
Proof.
  intros I. induction n as [|n IH]; intros x y dx Hc Hx.
  - simpl in Hc. injection Hc as <-.
    destruct (bi_lb I x dx Hx) as (_ & px & ps & Hp & _ & _).
    exists dx, px, px. repeat split; auto. lia.
  - simpl in Hc. destruct (Dict.get (Graph.pred st) x) as [[u|]|] eqn:E;
      try discriminate.
    destruct (bi_pred I x u E) as (du & dx' & c & Hu & Hx' & Hres & Hc' & Hle).
    assert (dx' = dx) by congruence. subst dx'.
    destruct (IH u y du Hc Hu) as (dy & pu & py & Hy & Hpu & Hpy & Hle').
    destruct (proj2 Hpot u x pu c Hpu Hres Hc') as (px & Hpx & Hred).
    exists dy, px, py. repeat split; auto. lia.
Qed.

Lemma relax_inv u v todo st :
  bf_inv (Some (u, v :: todo)) st -> cap g u v <> None ->
  exists st',
    Graph.relax g u v st = Ok st'
    /\ bf_inv (Some (u, todo)) st'
    /\ (st' = st \/ bf_progress st st').
Proof.
  intros I Huv.
  destruct (bi_cur I u (v :: todo) eq_refl) as [Hunq [du Hdu]].
  destruct (cap g u v) as [k|] eqn:Ek; [clear Huv|congruence].
  assert (Hcapuv : cap g u v <> None) by congruence.
  destruct (flw g u v) as [f|] eqn:Ef; [|exfalso; now apply (Hdom u v)].
  destruct (cst g u v) as [c|] eqn:Ec;
    [|exfalso; now apply (net_cost_dom Hnet u v)].
  destruct (net_cap_nodes Hnet u v Hcapuv) as [Hun Hvn].
  destruct (bi_dom I v Hvn) as ([dv Hdv] & [pv0 Hpv0] & [inq Hinq]).
  assert (Huv : u <> v).
  { intros ->. rewrite (net_no_loop g v Hnet) in Ek. discriminate. }
  rewrite (relax_spec u v st k f c (Fin du) dv inq Ek Ef Ec Hdu Hdv Hinq).
  simpl ext_add.
  destruct ((k >? f) && ext_ltb (Fin (du + c)) dv) eqn:Eupd.
  - (* the distance of [v] improves *)
    apply andb_true_iff in Eupd as [Hkf Hlt]. apply Z.gtb_lt in Hkf.
    assert (Hres : residual g u v) by (exists k, f; auto).
    destruct (bi_lb I u du Hdu) as (_ & pu & ps & Hpu & Hps & Hlbu).
    destruct (proj2 Hpot u v pu c Hpu Hres Ec) as (pv & Hpv & Hred).
    assert (Hvs : v <> source).
    { intros ->. destruct (bi_src I) as [Hs _].
      assert (dv = Fin 0) by congruence. subst dv. simpl in Hlt.
      apply Z.ltb_lt in Hlt. assert (pv = ps) by congruence. lia. }
    assert (Hvq : inq = true <-> In v (Graph.queue st)).
    { rewrite <- (bi_in_queue I v Hvn), Hinq. split; congruence. }
    set (st' := relax_update u v (Fin (du + c)) inq st).
    assert (Hd' : forall x, dist_of st' x
                            = if node_eqb v x then Some (Fin (du + c))
                              else dist_of st x).
    { intros x. unfold dist_of, st', relax_update. simpl.
      apply node_get_set. }
    assert (Hp' : forall x, pred_of st' x
                            = if node_eqb v x then Some (Some u)
                              else pred_of st x).
    { intros x. unfold pred_of, st', relax_update. simpl.
      apply node_get_set. }
    assert (Hdvv : dist_of st' v = Some (Fin (du + c))).
    { rewrite Hd'. destruct (node_eqb_spec v v); congruence. }
    assert (Hdother : forall x, x <> v -> dist_of st' x = dist_of st x).
    { intros x Hx. rewrite Hd'. destruct (node_eqb_spec v x); congruence. }
    assert (Hdle : forall x dx, dist_of st x = Some (Fin dx) ->
                     exists dx', dist_of st' x = Some (Fin dx') /\ dx' <= dx).
    { intros x dx Hx. destruct (node_eq_dec x v) as [->|N].
      - exists (du + c). split; auto.
        assert (dv = Fin dx) by congruence. subst dv. simpl in Hlt.
        apply Z.ltb_lt in Hlt. lia.
      - exists dx. rewrite (Hdother x N). split; auto. lia. }
    assert (Hq' : forall x, In x (Graph.queue st) -> In x (Graph.queue st')).
    { intros x Hx. unfold st', relax_update. simpl.
      destruct inq; auto. apply in_or_app. now left. }
    assert (Hvq' : In v (Graph.queue st')).
    { unfold st', relax_update. simpl. destruct inq.
      - now apply Hvq.
      - apply in_or_app. right. now left. }
    assert (Hq'' : forall x, In x (Graph.queue st') ->
                             In x (Graph.queue st) \/ x = v).
    { intros x. unfold st', relax_update. simpl. destruct inq; auto.
      intros Hx. apply in_app_or in Hx as [Hx|[->|[]]]; auto. }
    (* the chain of [u] does not pass through [v] *)
    destruct (bi_chain I u du Hdu) as [n Hn].
    assert (Hav : forall i, (i <= n)%nat ->
                            chain (Graph.pred st) i u <> Some v).
    { intros i _ Hi.
      destruct (chain_slack _ st i I u v du Hi Hdu)
        as (dv' & pu' & pv' & Hdv' & Hpu' & Hpv' & Hle).
      assert (dv = Fin dv') by congruence. subst dv. simpl in Hlt.
      apply Z.ltb_lt in Hlt.
      assert (pu' = pu) by congruence. assert (pv' = pv) by congruence. lia. }
    assert (Hchv : chain (Graph.pred st') (S n) v = Some source).
    { unfold st', relax_update. simpl. rewrite node_get_set.
      destruct (node_eqb_spec v v); [|congruence].
      rewrite (chain_set_avoid _ v (Some u) n u Hav). exact Hn. }
    exists st'. split; [reflexivity|]. split; [|right].
    + constructor.
      * intros x Hx. destruct (bi_dom I x Hx) as ([d Hd] & [p Hp] & [b Hb]).
        split; [|split].
        -- rewrite Hd'. destruct (node_eqb v x); eauto.
        -- rewrite Hp'. destruct (node_eqb v x); eauto.
        -- unfold st', relax_update. simpl. destruct inq; eauto.
           rewrite node_get_set. destruct (node_eqb v x); eauto.
      * destruct (bi_src I) as [Hs1 Hs2]. split.
        -- now rewrite Hdother by congruence.
        -- rewrite Hp'. destruct (node_eqb_spec v source); congruence.
      * intros x dx Hx. rewrite Hd' in Hx.
        destruct (node_eqb_spec v x) as [<-|N].
        -- injection Hx as <-. split; auto. exists pv, ps. repeat split; auto.
           lia.
        -- now apply (bi_lb I).
      * intros x y Hxy. rewrite Hp' in Hxy.
        destruct (node_eqb_spec v x) as [<-|N].
        -- injection Hxy as <-. exists du, (du + c), c.
           rewrite (Hdother u Huv). repeat split; auto. lia.
        -- destruct (bi_pred I x y Hxy) as (dy & dx & c' & Hy & Hx & Hr & Hc & Hle).
           destruct (Hdle y dy Hy) as (dy' & Hy' & Hle').
           exists dy', dx, c'. rewrite (Hdother x) by congruence.
           repeat split; auto. lia.
      * intros x dx Hx.
        destruct (node_eq_dec x v) as [->|N]; [eauto|].
        rewrite (Hdother x N) in Hx.
        destruct (bi_chain I x dx Hx) as [m Hm].
        unfold st', relax_update. simpl.
        apply (chain_reroute (Graph.pred st) v (Some u) source (S n) Hchv m x Hm).
      * intros x dx w Hx Hxq Hres'.
        assert (Hxv : x <> v) by (intros ->; contradiction).
        rewrite (Hdother x Hxv) in Hx.
        assert (Hxq0 : ~ In x (Graph.queue st)) by (intros H; apply Hxq; auto).
        destruct (bi_settled I x dx w Hx Hxq0 Hres') as [[-> [->|Hw]]|Hrel].
        -- right. exists du, (du + c), c. rewrite (Hdother u Huv).
           repeat split; auto. lia.
        -- left. simpl. auto.
        -- right. destruct Hrel as (dx0 & dw & c' & Hx0 & Hw & Hc & Hle).
           destruct (Hdle w dw Hw) as (dw' & Hw' & Hle').
           exists dx0, dw', c'. rewrite (Hdother x Hxv).
           repeat split; auto. lia.
      * unfold st', relax_update. simpl. destruct inq eqn:Ei.
        -- apply (bi_queue_nodup I).
        -- apply NoDup_app; [apply (bi_queue_nodup I)|repeat constructor; auto|].
           intros a Ha [<-|[]].
           assert (true = false) by (symmetry; now apply Hvq). discriminate.
      * intros x Hx. destruct (Hq'' x Hx) as [Hx0| ->]; [|eauto].
        destruct (bi_queue_fin I x Hx0) as [d Hd].
        destruct (Hdle x d Hd) as (d' & Hd'' & _). eauto.
      * intros x Hx. unfold st', relax_update. simpl. destruct inq eqn:Ei.
        -- apply (bi_in_queue I x Hx).
        -- rewrite node_get_set.
           destruct (node_eqb_spec v x) as [<-|N].
           ++ split; [intros _; apply in_or_app; right; now left|auto].
           ++ rewrite (bi_in_queue I x Hx). split.
              ** intros H. apply in_or_app. now left.
              ** intros H. apply in_app_or in H as [H|[E|[]]]; congruence.
      * intros u0 todo0 E. injection E as <- <-. split.
        -- intros H. destruct (Hq'' u H) as [H0|H0]; auto.
        -- exists du. now rewrite (Hdother u Huv).
    + (* progress of the measure *)
      unfold bf_progress, inf_count, slack.
      rewrite (zsum_update (fun x => is_inf (dist_of st x))
                           (fun x => is_inf (dist_of st' x)) (nodes g) v
                           (net_nodes_nodup Hnet) Hvn)
        by (intros x Hx; now rewrite (Hdother x Hx)).
      rewrite (zsum_update (slack_at st) (slack_at st') (nodes g) v
                           (net_nodes_nodup Hnet) Hvn)
        by (intros x Hx; unfold slack_at; now rewrite (Hdother x Hx)).
      unfold slack_at. rewrite Hdvv, Hdv, Hpv, Hps. simpl.
      destruct dv as [dv0|]; simpl.
      * right. simpl in Hlt. apply Z.ltb_lt in Hlt. lia.
      * left. lia.
  - (* nothing changes *)
    exists st. split; [reflexivity|]. split; [|now left].
    destruct I. constructor; auto.
    + intros x dx w Hx Hxq Hres.
      destruct (bi_settled0 x dx w Hx Hxq Hres) as [[-> [->|Hw]]|Hrel]; auto.
      * right. destruct Hres as (k' & f' & Hk' & Hf' & Hlt').
        assert (k' = k) by congruence. assert (f' = f) by congruence. subst.
        assert (Hgt : (k >? f) = true) by (apply Z.gtb_lt; lia).
        rewrite Hgt in Eupd. simpl in Eupd.
        destruct dv as [dv0|]; simpl in Eupd; [|discriminate].
        apply Z.ltb_ge in Eupd. exists du, dv0, c. auto.
      * left. simpl. auto.
    + intros u0 todo0 E. injection E as <- <-. eauto.
Qed.

(** *** The inner and the outer loop *)

Lemma relax_all_inv u : forall todo st,
  bf_inv (Some (u, todo)) st -> (forall v, In v todo -> cap g u v <> None) ->
  exists st',
    for_each todo (Graph.relax g u) st = Ok st'
    /\ bf_inv (Some (u, [])) st'
    /\ (st' = st \/ bf_progress st st').
Proof.
  induction todo as [|v r IH]; intros st I Hcap.
  - exists st. simpl. auto.
  - destruct (relax_inv u v r st I (Hcap v (or_introl eq_refl)))
      as (st1 & E1 & I1 & R1).
    destruct (IH st1 I1) as (st2 & E2 & I2 & R2).
    { intros w Hw. apply Hcap. now right. }
    exists st2. simpl. rewrite E1. simpl. split; [exact E2|]. split; [exact I2|].
    destruct R1 as [->|R1], R2 as [->|R2]; auto.
    right. eapply bf_progress_trans; eauto.
Qed.

Variable sink : node.

(** What a run of the search may end with: distances and predecessors of a
    state in which the queue is empty, or an exception. *)
Definition bf_outcome
           (r : result (Dict.t node ext * Dict.t node (option node))) : Prop :=
  match r with
  | Ok (d, p) => exists st, bf_inv None st /\ Graph.queue st = []
                            /\ d = Graph.dist st /\ p = Graph.pred st
  | Raise _ => True
  | OutOfFuel => False
  end.

Lemma bf_pop_inv st u q :
  bf_inv None st -> Graph.queue st = u :: q ->
  exists l,
    adj g u = Some l
    /\ bf_inv (Some (u, l))
              (Graph.mk_bf (Graph.dist st) (Graph.pred st) q
                           (Dict.set (Graph.in_queue st) u false)).
Proof.
  intros I Eq.
  pose proof (bi_queue_nodup I) as Hnd. rewrite Eq in Hnd.
  inversion Hnd as [|? ? Huq Hq]; subst.
  destruct (bi_queue_fin I u) as [du Hdu]; [rewrite Eq; now left|].
  destruct (bi_lb I u du Hdu) as [Hun _].
  destruct (net_adj_some g u Hnet Hun) as [l El].
  exists l. split; [exact El|].
  destruct I. constructor; simpl; auto.
  - intros x Hx. destruct (bi_dom0 x Hx) as (Hd & Hp & [b Hb]).
    split; [auto|]. split; [auto|].
    rewrite node_get_set. destruct (node_eqb u x); eauto.
  - intros x dx v Hx Hxq Hres.
    destruct (node_eq_dec x u) as [->|N].
    + left. simpl. split; auto. apply (net_adj_iff Hnet u l v El).
      destruct Hres as (k & _ & Hk & _). congruence.
    + right. destruct (bi_settled0 x dx v Hx) as [[]|H]; auto.
      rewrite Eq. intros [E|E]; [congruence|contradiction].
  - intros x Hx. apply bi_queue_fin0. rewrite Eq. now right.
  - intros x Hx. rewrite node_get_set.
    destruct (node_eqb_spec u x) as [<-|N].
    + split; [discriminate|contradiction].
    + rewrite (bi_in_queue0 x Hx), Eq. simpl. split; auto.
      intros [E|E]; [congruence|auto].
  - intros u0 todo0 E. injection E as <- <-. split; eauto.
Qed.

Lemma bf_inv_done u st : bf_inv (Some (u, [])) st -> bf_inv None st.
Proof.
  intros I. destruct I. constructor; auto.
  - intros x dx v Hx Hxq Hres.
    destruct (bi_settled0 x dx v Hx Hxq Hres) as [[_ []]|H]; auto.
  - discriminate.
Qed.

Lemma bf_loop_terminates_aux : forall a b c st,
  bf_inv None st ->
  Z.to_nat (inf_count st) = a -> Z.to_nat (slack st) = b ->
  length (Graph.queue st) = c ->
  exists fuel, forall fuel', (fuel <= fuel')%nat ->
                             bf_outcome (Graph.bf_loop fuel' g sink st).
Proof.
  induction a as [a IHa] using lt_wf_ind.
  induction b as [b IHb] using lt_wf_ind.
  induction c as [c IHc] using lt_wf_ind.
  intros st I Ea Eb Ec.
  destruct (Graph.queue st) as [|u q] eqn:Eq.
  - exists 0%nat. intros fuel' _.
    destruct fuel'; simpl; rewrite Eq; simpl; exists st; auto.
  - destruct (bf_pop_inv st u q I Eq) as (l & El & I1).
    set (st1 := Graph.mk_bf (Graph.dist st) (Graph.pred st) q
                            (Dict.set (Graph.in_queue st) u false)) in *.
    destruct (relax_all_inv u l st1 I1) as (st2 & E2 & I2 & R2).
    { intros v Hv. now apply (net_adj_iff Hnet u l v El). }
    apply bf_inv_done in I2.
    assert (Hrec : exists fuel, forall fuel', (fuel <= fuel')%nat ->
                     bf_outcome (Graph.bf_loop fuel' g sink st2)).
    { assert (Ei1 : inf_count st1 = inf_count st) by reflexivity.
      assert (Es1 : slack st1 = slack st) by reflexivity.
      destruct R2 as [->|[Hlt|[Heq Hlt]]].
      - apply (IHc (length q)); auto. simpl in Ec. lia.
      - pose proof (inf_count_nonneg st2).
        apply (IHa (Z.to_nat (inf_count st2))) with
          (b := Z.to_nat (slack st2)) (c := length (Graph.queue st2)); auto.
        lia.
      - pose proof (slack_nonneg _ _ I2).
        apply (IHb (Z.to_nat (slack st2))) with
          (c := length (Graph.queue st2)); auto; lia. }
    destruct Hrec as [fuel Hfuel]. exists (S fuel). intros fuel' Hle.
    destruct fuel' as [|fuel']; [lia|]. simpl. rewrite Eq.
    unfold adj in El. unfold Dict.lookup at 1. rewrite El. simpl.
    fold st1. rewrite E2. simpl.
    destruct (Graph.queue st2) as [|w r] eqn:Eq2.
    + unfold Dict.lookup. destruct (Dict.get (Graph.dist st2) sink) as [ds|];
        simpl; [|exact Logic.I].
      destruct (ext_ltb ds Inf).
      * exists st2. auto.
      * apply Hfuel. lia.
    + simpl. apply Hfuel. lia.
Qed.

Lemma bf_loop_terminates st :
  bf_inv None st ->
  exists fuel, forall fuel', (fuel <= fuel')%nat ->
                             bf_outcome (Graph.bf_loop fuel' g sink st).
Proof.
  intros I. eapply bf_loop_terminates_aux; eauto.
Qed.

(** *** The whole search *)

Lemma bf_init_inv : bf_inv None (Graph.bf_init g source).
Proof.
  assert (Hd : forall x, dist_of (Graph.bf_init g source) x
                         = if node_eqb source x then Some (Fin 0)
                           else if existsb (node_eqb x) (nodes g)
                                then Some Inf else None).
  { intros x. unfold dist_of, Graph.bf_init. simpl.
    rewrite node_get_set, of_keys_get. reflexivity. }
  assert (Hp : forall x, pred_of (Graph.bf_init g source) x
                         = if existsb (node_eqb x) (nodes g)
                           then Some None else None).
  { intros x. unfold pred_of, Graph.bf_init. simpl.
    apply (of_keys_get (nodes g) (fun _ => @None node) x). }
  assert (Hq : forall x, Dict.get (Graph.in_queue (Graph.bf_init g source)) x
                         = if existsb (node_eqb x) (nodes g)
                           then Some (node_eqb x source) else None).
  { intros x. unfold Graph.bf_init. simpl.
    apply (of_keys_get (nodes g) (fun y => node_eqb y source) x). }
  assert (Hfin : forall v dv, dist_of (Graph.bf_init g source) v
                              = Some (Fin dv) -> v = source /\ dv = 0).
  { intros v dv. rewrite Hd. destruct (node_eqb_spec source v) as [->|N].
    - intros E. injection E as <-. auto.
    - destruct (existsb (node_eqb v) (nodes g)); discriminate. }
  constructor.
  - intros x Hx. apply existsb_node_in in Hx.
    rewrite Hd, Hp, Hq, Hx. destruct (node_eqb source x); repeat split; eauto.
  - rewrite Hd, Hp. apply existsb_node_in in Hsrc. rewrite Hsrc.
    destruct (node_eqb_spec source source); [auto|congruence].
  - intros v dv Hv. destruct (Hfin v dv Hv) as [-> ->]. split; [exact Hsrc|].
    destruct Hpot as [Hps _]. destruct (pot source) as [ps|]; [|congruence].
    exists ps, ps. repeat split; auto. lia.
  - intros v u. rewrite Hp.
    destruct (existsb (node_eqb v) (nodes g)); discriminate.
  - intros v dv Hv. destruct (Hfin v dv Hv) as [-> ->]. exists 0%nat.
    reflexivity.
  - intros x dx v Hx Hn. destruct (Hfin x dx Hx) as [-> ->].
    exfalso. apply Hn. simpl. auto.
  - simpl. repeat constructor. simpl. tauto.
  - intros x [<-|[]]. exists 0. rewrite Hd.
    destruct (node_eqb_spec source source); congruence.
  - intros x Hx. rewrite Hq. apply existsb_node_in in Hx. rewrite Hx. simpl.
    destruct (node_eqb_spec x source) as [->|N]; split; auto; try congruence.
    intros [E|[]]. congruence.
  - discriminate.
Qed.

Lemma bellman_ford_terminates :
  exists fuel, forall fuel', (fuel <= fuel')%nat ->
    bf_outcome (Graph.bellman_ford fuel' g source sink).
Proof. apply bf_loop_terminates, bf_init_inv. Qed.

(** *** What the search returns *)

Definition dist_potential (dist : Dict.t node ext) (x : node) : option Z :=
  match Dict.get dist x with
  | Some (Fin d) => Some d
  | _ => None
  end.

Lemma bf_final_relaxed st x dx v :
  bf_inv None st -> Graph.queue st = [] ->
  dist_of st x = Some (Fin dx) -> residual g x v -> relaxed st x v.
Proof.
  intros I Eq Hx Hres.
  destruct (bi_settled I x dx v Hx) as [[]|H]; auto.
  rewrite Eq. intros [].
Qed.

Lemma bf_final_feasible st :
  bf_inv None st -> Graph.queue st = [] ->
  feasible g source (dist_potential (Graph.dist st)).
Proof.
  intros I Eq. split.
  - unfold dist_potential. destruct (bi_src I) as [Hs _].
    unfold dist_of in Hs. rewrite Hs. discriminate.
  - intros u v pu c Hu Hres Hc. unfold dist_potential in *.
    destruct (Dict.get (Graph.dist st) u) as [[du|]|] eqn:Eu; try discriminate.
    injection Hu as <-.
    destruct (bf_final_relaxed st u du v I Eq Eu Hres)
      as (du' & dv & c' & Hu' & Hv & Hc' & Hle).
    unfold dist_of in *. rewrite Hv.
    assert (du' = du) by congruence. assert (c' = c) by congruence. subst.
    exists dv. split; auto. lia.
Qed.

Lemma bf_final_tight st v u :
  bf_inv None st -> Graph.queue st = [] ->
  pred_of st v = Some (Some u) ->
  exists du dv c,
    dist_of st u = Some (Fin du) /\ dist_of st v = Some (Fin dv)
    /\ residual g u v /\ cst g u v = Some c /\ dv = du + c.
Proof.
  intros I Eq Hp.
  destruct (bi_pred I v u Hp) as (du & dv & c & Hu & Hv & Hres & Hc & Hle).
  destruct (bf_final_relaxed st u du v I Eq Hu Hres)
    as (du' & dv' & c' & Hu' & Hv' & Hc' & Hle').
  assert (du' = du) by congruence. assert (dv' = dv) by congruence.
  assert (c' = c) by congruence. subst.
  exists du, dv, c. repeat split; auto. lia.
Qed.

End BellmanFord.

Arguments bi_dom {g source pot cur st}.
Arguments bi_src {g source pot cur st}.
Arguments bi_lb {g source pot cur st}.
Arguments bi_pred {g source pot cur st}.
Arguments bi_chain {g source pot cur st}.
Arguments bi_settled {g source pot cur st}.
Arguments bi_queue_nodup {g source pot cur st}.
Arguments bi_queue_fin {g source pot cur st}.
Arguments bi_in_queue {g source pot cur st}.
Arguments bi_cur {g source pot cur st}.

(** ** The augmenting path *)

(** The edges met when following the predecessors [n] steps back from
    [v], in the order in which [walk] appends them. *)
Fixpoint chain_edges (pred : Dict.t node (option node)) (n : nat) (v : node)
  : list (node * node) :=
  match n with
  | O => []
  | S n' => match Dict.get pred v with
            | Some (Some u) => (u, v) :: chain_edges pred n' u
            | _ => []
            end
  end.

(** Spare capacity of an edge. *)
Definition resid (g : Graph.t) (e : node * node) : Z :=
  match cap g (fst e) (snd e), flw g (fst e) (snd e) with
  | Some k, Some f => k - f
  | _, _ => 0
  end.

Definition bottleneck (g : Graph.t) (edges : list (node * node)) (fl : ext)
  : ext :=
  fold_left (fun fl e => ext_min fl (Fin (resid g e))) edges fl.

Lemma chain_source_stop pred source n :
  Dict.get pred source = Some None ->
  chain pred n source = Some source -> n = 0%nat.
Proof.
  intros Hs. destruct n; simpl; [reflexivity|]. now rewrite Hs.
Qed.

Lemma chain_unique pred source n : forall m v,
  Dict.get pred source = Some None ->
  chain pred n v = Some source -> chain pred m v = Some source -> n = m.
Proof.
  induction n as [|n IH]; intros m v Hs Hn Hm.
  - simpl in Hn. injection Hn as ->. symmetry.
    now apply (chain_source_stop pred source m).
  - simpl in Hn. destruct (Dict.get pred v) as [[u|]|] eqn:E; try discriminate.
    destruct m as [|m].
    + simpl in Hm. injection Hm as ->. congruence.
    + simpl in Hm. rewrite E in Hm. f_equal. now apply (IH m u).
Qed.

Lemma chain_add pred i : forall j v w,
  chain pred i v = Some w -> chain pred (i + j) v = chain pred j w.
Proof.
  induction i as [|i IH]; intros j v w Hi; simpl in *.
  - now injection Hi as ->.
  - destruct (Dict.get pred v) as [[u|]|]; try discriminate. now apply IH.
Qed.

Lemma chain_edges_snd pred n : forall v w,
  In w (map snd (chain_edges pred n v)) ->
  exists i, (i < n)%nat /\ chain pred i v = Some w.
Proof.
  induction n as [|n IH]; intros v w Hw; simpl in Hw; [destruct Hw|].
  destruct (Dict.get pred v) as [[u|]|] eqn:E; try destruct Hw.
  - subst. exists 0%nat. split; [lia|reflexivity].
  - destruct (IH u w H) as (i & Hi & Hc). exists (S i). split; [lia|].
    simpl. now rewrite E.
Qed.

Lemma chain_edges_pred pred n : forall v a b,
  In (a, b) (chain_edges pred n v) -> Dict.get pred b = Some (Some a).
Proof.
  induction n as [|n IH]; intros v a b H; simpl in H; [destruct H|].
  destruct (Dict.get pred v) as [[u|]|] eqn:E; try destruct H.
  - now injection H as <- <-.
  - now apply (IH u).
Qed.

Lemma chain_edges_nodup pred source n : forall v,
  Dict.get pred source = Some None ->
  chain pred n v = Some source ->
  NoDup (map snd (chain_edges pred n v)).
Proof.
  induction n as [|n IH]; intros v Hs Hc; simpl; [constructor|].
  simpl in Hc. destruct (Dict.get pred v) as [[u|]|] eqn:E; try discriminate.
  simpl. constructor; [|now apply IH].
  intros Hin. apply chain_edges_snd in Hin as (i & Hi & Hv).
  assert (Hrest : chain pred (i + S n) u = Some source).
  { rewrite (chain_add pred i (S n) u v Hv). simpl. now rewrite E. }
  pose proof (chain_unique pred source n (i + S n) u Hs Hc Hrest). lia.
Qed.

Lemma walk_chain g pred source n : forall fuel v path fl,
  Dict.get pred source = Some None ->
  chain pred n v = Some source -> (n <= fuel)%nat ->
  (forall e, In e (chain_edges pred n v) ->
             cap g (fst e) (snd e) <> None /\ flw g (fst e) (snd e) <> None) ->
  Graph.walk fuel g pred source v path fl
  = Ok (path ++ chain_edges pred n v,
        bottleneck g (chain_edges pred n v) fl).
Proof.
  induction n as [|n IH]; intros fuel v path fl Hs Hc Hle Hdef.
  - simpl in Hc. injection Hc as ->.
    destruct fuel; simpl; destruct (node_eqb_spec source source);
      try congruence; now rewrite app_nil_r.
  - destruct fuel as [|fuel]; [lia|]. simpl.
    destruct (node_eqb_spec v source) as [->|N].
    + apply (chain_source_stop pred source (S n) Hs) in Hc. discriminate.
    + simpl in Hc, Hdef. unfold Dict.lookup.
      destruct (Dict.get pred v) as [[u|]|] eqn:E; try discriminate. simpl.
      destruct (Hdef (u, v) (or_introl eq_refl)) as [Hk Hf]. simpl in Hk, Hf.
      rewrite !get2_entry. unfold cap, flw in Hk, Hf.
      destruct (entry (Graph.capacity g) u v) as [k|] eqn:Ek; [|congruence].
      destruct (entry (Graph.flow g) u v) as [f|] eqn:Ef; [|congruence].
      simpl. rewrite (IH fuel u (path ++ [(u, v)])
                         (ext_min fl (Fin (k - f))) Hs Hc ltac:(lia)).
      * rewrite <- app_assoc. simpl. unfold bottleneck. simpl.
        unfold resid, cap, flw. simpl. now rewrite Ek, Ef.
      * intros e He. apply Hdef. now right.
Qed.

Lemma bottleneck_le g edges : forall fl f,
  bottleneck g edges fl = Fin f ->
  (forall e, In e edges -> f <= resid g e)
  /\ (forall x, fl = Fin x -> f <= x).
Proof.
  induction edges as [|e r IH]; intros fl f H; simpl in H.
  - subst fl. split; [intros e []|]. intros x E. injection E as <-. lia.
  - unfold bottleneck in H. simpl in H. fold (bottleneck g r) in H.
    destruct (IH _ _ H) as [Hr Hfl]. split.
    + intros e' [<-|He]; [|now apply Hr].
      destruct fl as [x|]; simpl in Hfl.
      * specialize (Hfl _ eq_refl). lia.
      * specialize (Hfl _ eq_refl). lia.
    + intros x ->. simpl in Hfl. specialize (Hfl _ eq_refl). lia.
Qed.

Lemma bottleneck_pos g edges : forall fl,
  (forall e, In e edges -> 1 <= resid g e) ->
  ((fl = Inf /\ edges <> []) \/ exists x, fl = Fin x /\ 1 <= x) ->
  exists f, bottleneck g edges fl = Fin f /\ 1 <= f.
Proof.
  induction edges as [|e r IH]; intros fl Hres Hne.
  - destruct Hne as [[_ Hne]|(x & -> & Hx)]; [congruence|]. exists x. auto.
  - unfold bottleneck. simpl. fold (bottleneck g r).
    apply IH.
    + intros e' He'. apply Hres. now right.
    + right. specialize (Hres e (or_introl eq_refl)).
      destruct Hne as [[-> _]|(x & -> & Hx)]; simpl.
      * exists (resid g e). auto.
      * exists (Z.min x (resid g e)). split; auto. lia.
Qed.

(** ** Pushing flow along a path *)

(** 1 when [e] is the edge [a -> b], else 0. *)
Definition hit (e : node * node) (a b : node) : Z :=
  if node_eqb (fst e) a && node_eqb (snd e) b then 1 else 0.

(** Number of occurrences of [a -> b] in a path. *)
Definition cnt (path : list (node * node)) (a b : node) : Z :=
  zsum (map (fun e => hit e a b) path).

Lemma hit_range e a b : 0 <= hit e a b <= 1.
Proof. unfold hit. destruct (_ && _); lia. Qed.

Lemma cnt_nonneg path a b : 0 <= cnt path a b.
Proof.
  unfold cnt. apply zsum_nonneg. intros x Hx.
  apply in_map_iff in Hx as [e [<- _]]. apply hit_range.
Qed.

Lemma cnt_pos_in path a b : 1 <= cnt path a b -> In (a, b) path.
Proof.
  unfold cnt. induction path as [|e r IH]; simpl; [lia|].
  unfold hit at 1. destruct (node_eqb_spec (fst e) a) as [<-|N]; simpl.
  - destruct (node_eqb_spec (snd e) b) as [<-|N']; simpl.
    + intros _. left. now destruct e.
    + intros H. right. apply IH. lia.
  - intros H. right. apply IH. lia.
Qed.

Lemma push_edge_spec f u v total g x c :
  flow_antisym g -> flw g u v = Some x -> cst g u v = Some c ->
  exists g',
    Graph.push_edge f (u, v) total g = (Ok (total + c * f), g')
    /\ static_part g' = static_part g
    /\ forall a b, flw g' a b
                   = option_map (fun y => y + f * (hit (u, v) a b
                                                   - hit (u, v) b a))
                                (flw g a b).
Proof.
  intros Hg Ex Ec. unfold flw, cst in *. unfold Graph.push_edge.
  rewrite get2_entry, Ex. simpl.
  destruct (set2_entry_defined (Graph.flow g) u v (x + f) x Ex)
    as (d1 & E1 & _ & P1).
  rewrite E1. simpl. rewrite get2_entry.
  pose proof (Hg u v x Ex) as Erev.
  assert (Ey : entry d1 v u = Some (if node_eqb u v then x + f else - x)).
  { rewrite P1. destruct (node_eqb_spec u v) as [->|N]; simpl.
    - destruct (node_eqb_spec v v); simpl; congruence.
    - rewrite Erev. destruct (node_eqb v u); simpl; [|reflexivity].
      destruct (node_eqb_spec u u); simpl; congruence. }
  rewrite Ey. simpl.
  destruct (set2_entry_defined d1 v u
              ((if node_eqb u v then x + f else - x) - f) _ Ey)
    as (d2 & E2 & _ & P2).
  rewrite E2. simpl. rewrite get2_entry, Ec.
  eexists. split; [reflexivity|]. split; [reflexivity|].
  intros a b. simpl. rewrite P2, P1. unfold hit. simpl.
  destruct (node_eqb_spec u v) as [->|N].
  - assert (x = 0) by (rewrite Ex in Erev; injection Erev; lia). subst x.
    destruct (node_eqb_spec v a), (node_eqb_spec v b); subst; simpl;
      rewrite ?Ex; simpl;
      first [ f_equal; lia
            | match goal with
              | |- context [entry (Graph.flow g) ?a ?b] =>
                  destruct (entry (Graph.flow g) a b); simpl; f_equal; lia
              end ].
  - destruct (node_eqb_spec v a), (node_eqb_spec u b), (node_eqb_spec u a),
      (node_eqb_spec v b); subst; simpl; try congruence;
      rewrite ?Ex, ?Erev; simpl;
      first [ f_equal; lia
            | match goal with
              | |- context [entry (Graph.flow g) ?a ?b] =>
                  destruct (entry (Graph.flow g) a b); simpl; f_equal; lia
              end ].
Qed.

Lemma push_path_spec f path : forall total g,
  flow_antisym g ->
  (forall e, In e path -> flw g (fst e) (snd e) <> None
                          /\ cst g (fst e) (snd e) <> None) ->
  exists total' g',
    Graph.push_path f path total g = (Ok total', g')
    /\ static_part g' = static_part g
    /\ forall a b, flw g' a b
                   = option_map (fun y => y + f * (cnt path a b - cnt path b a))
                                (flw g a b).
Proof.
  induction path as [|[u v] r IH]; intros total g Hg Hdef.
  - exists total, g. split; [reflexivity|]. split; [reflexivity|].
    intros a b. unfold cnt. simpl.
    destruct (flw g a b); simpl; f_equal; lia.
  - destruct (Hdef (u, v) (or_introl eq_refl)) as [Hf Hc]. simpl in Hf, Hc.
    destruct (flw g u v) as [x|] eqn:Ex; [|congruence].
    destruct (cst g u v) as [c|] eqn:Ec; [|congruence].
    destruct (push_edge_spec f u v total g x c Hg Ex Ec) as (g1 & E1 & S1 & F1).
    assert (Hg1 : flow_antisym g1).
    { assert (H0 : flow_ok (fun _ _ => False) g)
        by (split; [exact Hg|intros a b []]).
      pose proof (push_edge_flow_ok (fun _ _ => False) f (u, v) total g H0)
        as H.
      rewrite E1 in H. apply H. }
    destruct (IH (total + c * f) g1 Hg1) as (total' & g2 & E2 & S2 & F2).
    { intros e He. destruct (Hdef e (or_intror He)) as [Hf' Hc']. split.
      - rewrite F1. destruct (flw g (fst e) (snd e)); simpl; congruence.
      - unfold cst in *. unfold static_part in S1.
        assert (Graph.cost g1 = Graph.cost g) by congruence. congruence. }
    exists total', g2. split.
    + change (Graph.push_path f ((u, v) :: r) total g)
        with (bindS (Graph.push_edge f (u, v) total)
                    (fun t => Graph.push_path f r t) g).
      unfold bindS. rewrite E1. exact E2.
    + split; [congruence|]. intros a b. rewrite F2, F1.
      unfold cnt. simpl. destruct (flw g a b); simpl; f_equal. lia.
Qed.

(** ** Counting the edges of a path at a node *)

Definition ind (b : bool) : Z := if b then 1 else 0.

(** Edges of the path that leave [x], and edges that enter [x]. *)
Definition count_fst (x : node) (path : list (node * node)) : Z :=
  zsum (map (fun e => ind (node_eqb (fst e) x)) path).

Definition count_snd (x : node) (path : list (node * node)) : Z :=
  zsum (map (fun e => ind (node_eqb (snd e) x)) path).

Lemma zsum_map_add {A} (F G : A -> Z) (l : list A) :
  zsum (map (fun x => F x + G x) l) = zsum (map F l) + zsum (map G l).
Proof. induction l; simpl; lia. Qed.

Lemma zsum_map_scale {A} (k : Z) (F : A -> Z) (l : list A) :
  zsum (map (fun x => k * F x) l) = k * zsum (map F l).
Proof. induction l; simpl; lia. Qed.

Lemma zsum_map_zero {A} (F : A -> Z) (l : list A) :
  (forall x, In x l -> F x = 0) -> zsum (map F l) = 0.
Proof.
  induction l as [|a r IH]; intros H; simpl; [reflexivity|].
  rewrite (H a) by (now left). rewrite IH; [lia|].
  intros; apply H; now right.
Qed.

Lemma zsum_indicator (y : node) (l : list node) :
  NoDup l -> zsum (map (fun z => ind (node_eqb y z)) l)
             = ind (existsb (node_eqb y) l).
Proof.
  induction 1 as [|a r Ha Hr IH]; simpl; [reflexivity|].
  rewrite IH. destruct (node_eqb_spec y a) as [->|N]; simpl; [|lia].
  destruct (existsb (node_eqb a) r) eqn:E; simpl; [|lia].
  apply existsb_node_in in E. contradiction.
Qed.

Lemma sum_cnt_fst (path : list (node * node)) (x : node) (l : list node) :
  NoDup l ->
  (forall e, In e path -> fst e = x -> In (snd e) l) ->
  zsum (map (cnt path x) l) = count_fst x path.
Proof.
  intros Hnd. induction path as [|e r IH]; intros Hin.
  - unfold cnt, count_fst. simpl. now apply zsum_map_zero.
  - unfold cnt, count_fst in *. simpl.
    rewrite zsum_map_add, IH by (intros; apply Hin; auto; now right).
    f_equal. unfold hit.
    destruct (node_eqb_spec (fst e) x) as [E|N]; simpl.
    + pose proof (zsum_indicator (snd e) l Hnd) as Hz.
      assert (Hl : In (snd e) l) by (apply Hin; auto; now left).
      apply existsb_node_in in Hl. rewrite Hl in Hz. exact Hz.
    + now apply zsum_map_zero.
Qed.

Lemma sum_cnt_snd (path : list (node * node)) (x : node) (l : list node) :
  NoDup l ->
  (forall e, In e path -> snd e = x -> In (fst e) l) ->
  zsum (map (fun y => cnt path y x) l) = count_snd x path.
Proof.
  intros Hnd. induction path as [|e r IH]; intros Hin.
  - unfold cnt, count_snd. simpl. now apply zsum_map_zero.
  - unfold cnt, count_snd in *. simpl.
    rewrite zsum_map_add, IH by (intros; apply Hin; auto; now right).
    f_equal. unfold hit.
    destruct (node_eqb_spec (snd e) x) as [E|N]; simpl.
    + assert (Hl : In (fst e) l) by (apply Hin; auto; now left).
      apply existsb_node_in in Hl.
      pose proof (zsum_indicator (fst e) l Hnd) as Hz. rewrite Hl in Hz.
      etransitivity; [|exact Hz]. f_equal. apply map_ext. intros a.
      now rewrite andb_true_r.
    + apply zsum_map_zero. intros a _. now rewrite andb_false_r.
Qed.

Lemma cnt_le_count_snd path x y : cnt path x y <= count_snd y path.
Proof.
  unfold cnt, count_snd. induction path as [|e r IH]; simpl; [lia|].
  unfold hit at 1. unfold ind at 1.
  destruct (node_eqb (fst e) x), (node_eqb (snd e) y); cbn [andb]; lia.
Qed.

Lemma count_snd_nodup path y : NoDup (map snd path) -> count_snd y path <= 1.
Proof.
  unfold count_snd. induction path as [|e r IH]; simpl; intros Hnd; [lia|].
  inversion Hnd as [|? ? Hn Hr]; subst. specialize (IH Hr).
  destruct (node_eqb_spec (snd e) y) as [<-|N]; cbn [ind]; [|lia].
  assert (zsum (map (fun e0 => ind (node_eqb (snd e0) (snd e))) r) = 0);
    [|lia].
  apply zsum_map_zero. intros a Ha.
  destruct (node_eqb_spec (snd a) (snd e)) as [E|]; [|reflexivity].
  exfalso. apply Hn. rewrite <- E. now apply in_map.
Qed.

Lemma chain_count pred n : forall v s x,
  chain pred n v = Some s ->
  count_fst x (chain_edges pred n v) + ind (node_eqb v x)
  = count_snd x (chain_edges pred n v) + ind (node_eqb s x).
Proof.
  induction n as [|n IH]; intros v s x Hc; simpl in *.
  - injection Hc as ->. unfold count_fst, count_snd. simpl. lia.
  - destruct (Dict.get pred v) as [[u|]|] eqn:E; try discriminate.
    specialize (IH u s x Hc). unfold count_fst, count_snd in *. simpl. lia.
Qed.

Lemma chain_edges_length pred n : forall v s,
  chain pred n v = Some s -> length (chain_edges pred n v) = n.
Proof.
  induction n as [|n IH]; intros v s Hc; simpl in *; [reflexivity|].
  destruct (Dict.get pred v) as [[u|]|] eqn:E; try discriminate.
  simpl. f_equal. now apply (IH u s).
Qed.

(** ** One augmentation *)

Lemma zsum_map_sub {A} (F G : A -> Z) (l : list A) :
  zsum (map (fun x => F x - G x) l) = zsum (map F l) - zsum (map G l).
Proof. induction l; simpl; lia. Qed.

Section Augment.

Variable g g' : Graph.t.
Variable pot : node -> option Z.
Variable st : Graph.bf_state.
Variable n : nat.
Variable f : Z.

Let path := chain_edges (Graph.pred st) n Sink.

Hypothesis Hnet : net g.
Hypothesis Hflow : flow_inv g.
Hypothesis Hinv : bf_inv g Source pot None st.
Hypothesis Hqueue : Graph.queue st = [].
Hypothesis Hchain : chain (Graph.pred st) n Sink = Some Source.
Hypothesis Hf : 1 <= f.
Hypothesis Hbottle : forall e, In e path -> f <= resid g e.
Hypothesis Hstatic : static_part g' = static_part g.
Hypothesis Hpush : forall a b,
    flw g' a b = option_map (fun y => y + f * (cnt path a b - cnt path b a))
                            (flw g a b).

Lemma path_edge_residual a b :
  In (a, b) path -> residual g a b /\ pred_of st b = Some (Some a).
Proof.
  intros Hin. apply chain_edges_pred in Hin.
  destruct (bi_pred Hinv b a Hin) as (_ & _ & _ & _ & _ & Hres & _).
  auto.
Qed.

Lemma path_edge_cap a b : In (a, b) path -> cap g a b <> None.
Proof.
  intros Hin. destruct (path_edge_residual a b Hin) as [(k & _ & Hk & _) _].
  congruence.
Qed.

Lemma path_cnt_le_one a b : cnt path a b <= 1.
Proof.
  pose proof (cnt_le_count_snd path a b).
  assert (count_snd b path <= 1); [|lia].
  apply count_snd_nodup. apply (chain_edges_nodup _ Source); auto.
  apply (bi_src Hinv).
Qed.

Lemma static_cap a b : cap g' a b = cap g a b.
Proof.
  unfold cap, static_part in *.
  assert (Graph.capacity g' = Graph.capacity g) by congruence. congruence.
Qed.

Lemma static_cst a b : cst g' a b = cst g a b.
Proof.
  unfold cst, static_part in *.
  assert (Graph.cost g' = Graph.cost g) by congruence. congruence.
Qed.

Lemma static_adj x : adj g' x = adj g x.
Proof.
  unfold adj, static_part in *.
  assert (Graph.adj_list g' = Graph.adj_list g) by congruence. congruence.
Qed.

Lemma augment_net_out x :
  net_out g' x = net_out g x + f * (count_fst x path - count_snd x path).
Proof.
  unfold net_out. rewrite static_adj.
  destruct (adj g x) as [l|] eqn:El.
  - assert (E : map (flow_val g' x) l
                = map (fun y => flow_val g x y
                                + f * (cnt path x y - cnt path y x)) l).
    { apply map_ext_in. intros y Hy. unfold flow_val. rewrite Hpush.
      apply (net_adj_iff Hnet x l y El) in Hy. apply (fi_dom Hflow) in Hy.
      destruct (flw g x y); [reflexivity|congruence]. }
    rewrite E, zsum_map_add. f_equal.
    rewrite zsum_map_scale. f_equal.
    rewrite zsum_map_sub.
    rewrite (sum_cnt_fst path x l), (sum_cnt_snd path x l); auto.
    + apply (net_adj_nodup Hnet x l El).
    + intros [a b] He Hb. simpl in *. subst b.
      apply (net_adj_iff Hnet x l a El).
      apply (net_cap_sym Hnet). now apply path_edge_cap.
    + apply (net_adj_nodup Hnet x l El).
    + intros [a b] He Ha. simpl in *. subst a.
      apply (net_adj_iff Hnet x l b El). now apply path_edge_cap.
  - assert (Hx : ~ In x (nodes g)).
    { intros Hx. apply (net_adj_dom Hnet) in Hx. congruence. }
    assert (E1 : count_fst x path = 0).
    { apply zsum_map_zero. intros [a b] He. simpl.
      destruct (node_eqb_spec a x) as [->|]; [|reflexivity].
      exfalso. apply Hx. now apply (net_cap_nodes Hnet x b), path_edge_cap. }
    assert (E2 : count_snd x path = 0).
    { apply zsum_map_zero. intros [a b] He. simpl.
      destruct (node_eqb_spec b x) as [->|]; [|reflexivity].
      exfalso. apply Hx. now apply (net_cap_nodes Hnet a x), path_edge_cap. }
    rewrite E1, E2. lia.
Qed.

Lemma augment_flow_inv : flow_inv g'.
Proof.
  constructor.
  - intros x y Hc. rewrite static_cap in Hc. rewrite Hpush.
    apply (fi_dom Hflow) in Hc. destruct (flw g x y); simpl; congruence.
  - intros a b z. unfold flow_antisym. fold (flw g' a b) (flw g' b a).
    rewrite !Hpush. destruct (flw g a b) as [y|] eqn:E; simpl; [|discriminate].
    intros Hz. injection Hz as <-.
    pose proof (fi_anti Hflow a b y E) as E'. fold (flw g b a) in E'.
    rewrite E'. simpl. f_equal. lia.
  - intros x y z k Hz Hk. rewrite static_cap in Hk. rewrite Hpush in Hz.
    destruct (flw g x y) as [y0|] eqn:E; simpl in Hz; [|discriminate].
    injection Hz as <-.
    pose proof (fi_cap Hflow x y y0 k E Hk) as Hle.
    pose proof (cnt_nonneg path x y). pose proof (cnt_nonneg path y x).
    pose proof (path_cnt_le_one x y).
    destruct (Z.eq_dec (cnt path x y) 0) as [E0|N0].
    + rewrite E0. nia.
    + assert (Hin : In (x, y) path) by (apply cnt_pos_in; lia).
      specialize (Hbottle (x, y) Hin). unfold resid in Hbottle.
      simpl in Hbottle. rewrite Hk, E in Hbottle.
      assert (cnt path x y = 1) by lia. nia.
  - intros c. rewrite augment_net_out.
    pose proof (chain_count (Graph.pred st) n Sink Source (Cell c) Hchain) as H.
    fold path in H. simpl in H. rewrite (fi_cons Hflow c). lia.
Qed.

Lemma augment_source_out : net_out g' Source = net_out g Source + f.
Proof.
  rewrite augment_net_out.
  pose proof (chain_count (Graph.pred st) n Sink Source Source Hchain) as H.
  fold path in H. simpl in H. lia.
Qed.

Lemma augment_sink_out : net_out g' Sink = net_out g Sink - f.
Proof.
  rewrite augment_net_out.
  pose proof (chain_count (Graph.pred st) n Sink Source Sink Hchain) as H.
  fold path in H. simpl in H. lia.
Qed.

Lemma augment_feasible :
  feasible g' Source (dist_potential (Graph.dist st)).
Proof.
  split.
  - unfold dist_potential. destruct (bi_src Hinv) as [Hs _].
    unfold dist_of in Hs. rewrite Hs. discriminate.
  - intros u v pu c Hu (k & z & Hk & Hz & Hlt) Hc.
    rewrite static_cap in Hk. rewrite static_cst in Hc. rewrite Hpush in Hz.
    destruct (flw g u v) as [y0|] eqn:E; simpl in Hz; [|discriminate].
    injection Hz as <-.
    unfold dist_potential in Hu.
    destruct (Dict.get (Graph.dist st) u) as [[du|]|] eqn:Eu; try discriminate.
    injection Hu as <-.
    destruct (Z_lt_le_dec y0 k) as [Hres|Hsat].
    + assert (Hr : residual g u v) by (exists k, y0; auto).
      destruct (bf_final_relaxed g Source pot st u du v Hinv Hqueue Eu Hr)
        as (du' & dv & c' & Hu' & Hv & Hc' & Hle).
      unfold dist_of in *.
      assert (du' = du) by congruence. assert (c' = c) by congruence. subst.
      exists dv. unfold dist_potential. rewrite Hv. split; auto. lia.
    + pose proof (cnt_nonneg path u v).
      assert (Hin : In (v, u) path) by (apply cnt_pos_in; nia).
      destruct (path_edge_residual v u Hin) as [_ Hp].
      destruct (bf_final_tight g Source pot st u v Hinv Hqueue Hp)
        as (dv & du' & c' & Hv & Hu' & _ & Hc' & Heq).
      unfold dist_of in *. assert (du' = du) by congruence. subst du'.
      pose proof (net_cost_anti Hnet v u c' Hc') as Hanti.
      assert (c = - c') by congruence.
      exists dv. unfold dist_potential. rewrite Hv. split; auto. lia.
Qed.

End Augment.

(** ** A larger budget does not change an outcome *)

Lemma bf_loop_mono g sink fuel : forall st fuel',
  (fuel <= fuel')%nat ->
  Graph.bf_loop fuel g sink st <> OutOfFuel ->
  Graph.bf_loop fuel' g sink st = Graph.bf_loop fuel g sink st.
Proof.
  induction fuel as [|fuel IH]; intros st fuel' Hle Hne.
  - simpl in *. destruct (Graph.queue st) eqn:Eq; [|congruence].
    destruct fuel'; simpl; rewrite Eq; reflexivity.
  - destruct fuel' as [|fuel']; [lia|]. simpl in *.
    destruct (Graph.queue st) as [|u q]; [reflexivity|].
    destruct (Dict.lookup (Graph.adj_list g) u) as [l| |]; simpl in *;
      try reflexivity.
    destruct (for_each l (Graph.relax g u) _) as [st2| |]; simpl in *;
      try reflexivity.
    destruct (match Graph.queue st2 with
              | [] => ds <- Dict.lookup (Graph.dist st2) sink ;;
                      Ok (ext_ltb ds Inf)
              | _ :: _ => Ok false
              end) as [[|]| |]; simpl in *; try reflexivity.
    apply IH; [lia|exact Hne].
Qed.

Lemma walk_mono g pred source fuel : forall v path fl fuel',
  (fuel <= fuel')%nat ->
  Graph.walk fuel g pred source v path fl <> OutOfFuel ->
  Graph.walk fuel' g pred source v path fl
  = Graph.walk fuel g pred source v path fl.
Proof.
  induction fuel as [|fuel IH]; intros v path fl fuel' Hle Hne.
  - simpl in *. destruct (node_eqb v source) eqn:E; [|congruence].
    destruct fuel'; simpl; rewrite E; reflexivity.
  - destruct fuel' as [|fuel']; [lia|]. simpl in *.
    destruct (node_eqb v source); [reflexivity|].
    destruct (Dict.lookup pred v) as [[u|]| |]; simpl in *; try reflexivity.
    destruct (get2 (Graph.capacity g) u v) as [k| |]; simpl in *;
      try reflexivity.
    destruct (get2 (Graph.flow g) u v) as [x| |]; simpl in *;
      try reflexivity.
    apply IH; [lia|exact Hne].
Qed.

Lemma mcf_iter_mono fuel fuel' source sink total g :
  (fuel <= fuel')%nat ->
  fst (Graph.mcf_iter fuel source sink total g) <> OutOfFuel ->
  Graph.mcf_iter fuel' source sink total g
  = Graph.mcf_iter fuel source sink total g.
Proof.
  intros Hle. unfold Graph.mcf_iter, bindS, getS, liftS, Graph.bellman_ford.
  intros Hne.
  destruct (Graph.bf_loop fuel g sink (Graph.bf_init g source))
    as [[dist pred]| |] eqn:Ebf; simpl in Hne; try congruence.
  - rewrite (bf_loop_mono g sink fuel _ fuel' Hle) by congruence.
    rewrite Ebf. simpl.
    destruct (Dict.lookup dist sink) as [ds| |]; simpl in *; try reflexivity.
    destruct (ext_eqb ds Inf); [reflexivity|].
    destruct (Graph.walk fuel g pred source sink [] Inf)
      as [pf| |] eqn:Ew; simpl in Hne; try congruence.
    + rewrite (walk_mono g pred source fuel _ _ _ fuel' Hle) by congruence.
      rewrite Ew. reflexivity.
    + rewrite (walk_mono g pred source fuel _ _ _ fuel' Hle) by congruence.
      rewrite Ew. reflexivity.
  - rewrite (bf_loop_mono g sink fuel _ fuel' Hle) by congruence.
    rewrite Ebf. reflexivity.
Qed.

(** ** The augmentation loop *)

(** What one iteration of [while True] may end with, started on [g]: it
    stops and leaves the graph as it is, or it has pushed at least one unit
    of flow out of the source and kept the invariants. *)
Definition iter_outcome (g : Graph.t) (rs : result (option Z) * Graph.t)
  : Prop :=
  match fst rs with
  | Ok None => snd rs = g
  | Ok (Some _) =>
      static_part (snd rs) = static_part g
      /\ flow_inv (snd rs)
      /\ (exists pot', feasible (snd rs) Source pot')
      /\ (exists f, 1 <= f
                    /\ net_out (snd rs) Source = net_out g Source + f
                    /\ net_out (snd rs) Sink = net_out g Sink - f)
  | Raise _ => snd rs = g
  | OutOfFuel => False
  end.

Lemma chain_length_bound g pot st n v :
  net g -> bf_inv g Source pot None st ->
  chain (Graph.pred st) n v = Some Source ->
  (n <= length (nodes g))%nat.
Proof.
  intros Hnet I Hc.
  rewrite <- (chain_edges_length _ n v Source Hc).
  rewrite <- (length_map snd).
  apply NoDup_incl_length.
  - apply (chain_edges_nodup _ Source); auto. apply (bi_src I).
  - intros w Hw. apply in_map_iff in Hw as [[a b] [<- He]]. simpl.
    apply chain_edges_pred in He.
    destruct (bi_pred I b a He) as (_ & db & _ & _ & Hb & _).
    now destruct (bi_lb I b db Hb).
Qed.

Lemma mcf_iter_spec g pot :
  net g -> flow_inv g -> feasible g Source pot -> In Source (nodes g) ->
  exists fuel, forall fuel', (fuel <= fuel')%nat -> forall total,
    iter_outcome g (Graph.mcf_iter fuel' Source Sink total g).
Proof.
  intros Hnet Hflow Hpot Hsrc.
  destruct (bellman_ford_terminates g Source pot Hnet (fi_dom Hflow) Hsrc
                                    Hpot Sink) as [fuel0 H0].
  exists (Nat.max fuel0 (length (nodes g))). intros fuel' Hle total.
  specialize (H0 fuel' ltac:(lia)).
  unfold Graph.mcf_iter, bindS, getS, liftS, iter_outcome.
  destruct (Graph.bellman_ford fuel' g Source Sink) as [[dist pred]| |];
    simpl in *; auto.
  destruct H0 as (st & I & Eq & -> & ->).
  unfold Dict.lookup.
  destruct (Dict.get (Graph.dist st) Sink) as [[d|]|] eqn:Ed; simpl; auto.
  destruct (bi_chain I Sink d Ed) as [n Hn].
  pose proof (chain_length_bound g pot st n Sink Hnet I Hn) as Hlen.
  assert (Hedge : forall e, In e (chain_edges (Graph.pred st) n Sink) ->
                            residual g (fst e) (snd e)).
  { intros [a b] He. simpl. apply chain_edges_pred in He.
    now destruct (bi_pred I b a He) as (_ & _ & _ & _ & _ & Hres & _). }
  rewrite (walk_chain g (Graph.pred st) Source n fuel' Sink [] Inf).
  - simpl.
    destruct (bottleneck_pos g (chain_edges (Graph.pred st) n Sink) Inf)
      as (f & Ef & Hf).
    + intros e He. destruct (Hedge e He) as (k & x & Hk & Hx & Hlt).
      unfold resid. rewrite Hk, Hx. lia.
    + left. split; [reflexivity|].
      destruct n as [|n]; [simpl in Hn; discriminate|].
      simpl in *. destruct (Dict.get (Graph.pred st) Sink) as [[u|]|];
        discriminate.
    + rewrite Ef. destruct (Z.eqb_spec f 0) as [->|Hf0]; [lia|].
      destruct (push_path_spec f (chain_edges (Graph.pred st) n Sink) total g
                               (fi_anti Hflow))
        as (total' & g' & Ep & Hst & Hfl).
      { intros e He. destruct (Hedge e He) as (k & x & Hk & Hx & _). split.
        - congruence.
        - apply (net_cost_dom Hnet). congruence. }
      rewrite Ep. simpl.
      destruct (bottleneck_le g _ _ _ Ef) as [Hbot _].
      split; [exact Hst|]. split; [|split].
      * apply (augment_flow_inv g g' pot st n f); auto.
      * exists (dist_potential (Graph.dist st)).
        apply (augment_feasible g g' pot st n f); auto.
      * exists f. split; [exact Hf|]. split.
        -- apply (augment_source_out g g' pot st n f); auto.
        -- apply (augment_sink_out g g' pot st n f); auto.
  - apply (bi_src I).
  - exact Hn.
  - lia.
  - intros e He. destruct (Hedge e He) as (k & x & Hk & Hx & _).
    split; congruence.
Qed.

Lemma mcf_iter_no_source g fuel sink total :
  net g -> ~ In Source (nodes g) ->
  Graph.mcf_iter (S fuel) Source sink total g = (Raise KeyError, g).
Proof.
  intros Hnet Hs. unfold Graph.mcf_iter, bindS, getS, liftS.
  unfold Graph.bellman_ford. simpl.
  assert (E : Dict.get (Graph.adj_list g) Source = None).
  { destruct (Dict.get (Graph.adj_list g) Source) eqn:E; [|reflexivity].
    exfalso. apply Hs. apply (net_adj_dom Hnet). unfold adj. congruence. }
  unfold Dict.lookup at 1. rewrite E. reflexivity.
Qed.

(** The flow out of the source cannot exceed the number of its
    neighbours. *)
Definition source_degree (g : Graph.t) : nat :=
  match adj g Source with Some l => length l | None => 0 end.

Lemma net_out_bound g :
  net g -> flow_inv g -> net_out g Source <= Z.of_nat (source_degree g).
Proof.
  intros Hnet Hflow. unfold net_out, source_degree.
  destruct (adj g Source) as [l|] eqn:El; [|simpl; lia].
  assert (H : forall y, In y l -> flow_val g Source y <= 1).
  { intros y Hy. apply (net_adj_iff Hnet Source l y El) in Hy.
    unfold flow_val. destruct (flw g Source y) as [x|] eqn:Ex; [|lia].
    destruct (cap g Source y) as [k|] eqn:Ek; [|congruence].
    pose proof (fi_cap Hflow Source y x k Ex Ek).
    destruct (net_layer Hnet Source y k Ek) as [[-> _]|[-> _]]; lia. }
  clear El. induction l as [|a r IH]; simpl; [lia|].
  assert (flow_val g Source a <= 1) by (apply H; now left).
  assert (zsum (map (flow_val g Source) r) <= Z.of_nat (length r))
    by (apply IH; intros; apply H; now right).
  lia.
Qed.

Lemma source_degree_static g g' :
  static_part g' = static_part g -> source_degree g' = source_degree g.
Proof.
  unfold static_part, source_degree, adj. intros E.
  assert (H : Graph.adj_list g' = Graph.adj_list g) by congruence.
  now rewrite H.
Qed.

Lemma nodes_static g g' :
  static_part g' = static_part g -> nodes g' = nodes g.
Proof.
  unfold static_part, nodes. intros E.
  assert (H : Graph.capacity g' = Graph.capacity g) by congruence.
  now rewrite H.
Qed.

Lemma mcf_loop_terminates : forall (k : nat) g total,
  net g -> flow_inv g -> (exists pot, feasible g Source pot) ->
  Z.of_nat (source_degree g) - net_out g Source <= Z.of_nat k ->
  exists fuel, forall fuel' iters, (fuel <= fuel')%nat -> (k < iters)%nat ->
    fst (Graph.mcf_loop iters fuel' Source Sink total g) <> OutOfFuel.
Proof.
  induction k as [|k IH]; intros g total Hnet Hflow [pot Hpot] Hk.
  - destruct (in_dec node_eq_dec Source (nodes g)) as [Hs|Hs].
    + destruct (mcf_iter_spec g pot Hnet Hflow Hpot Hs) as [fuel H].
      exists fuel. intros fuel' iters Hle Hit.
      destruct iters as [|iters]; [lia|]. simpl. unfold bindS.
      specialize (H fuel' Hle total). unfold iter_outcome in H.
      destruct (Graph.mcf_iter fuel' Source Sink total g) as [[[t|]| |] g'];
        simpl in *; try discriminate; try contradiction.
      destruct H as (Hst & Hfl' & _ & (f & Hf & Hout & _)).
      pose proof (net_out_bound g' (net_static g g' (eq_sym Hst) Hnet) Hfl').
      rewrite (source_degree_static g g' Hst) in *. lia.
    + exists 1%nat. intros fuel' iters Hle Hit.
      destruct iters as [|iters]; [lia|]. destruct fuel' as [|fuel']; [lia|].
      simpl. unfold bindS. rewrite (mcf_iter_no_source g fuel' Sink total Hnet Hs).
      discriminate.
  - destruct (in_dec node_eq_dec Source (nodes g)) as [Hs|Hs].
    + destruct (mcf_iter_spec g pot Hnet Hflow Hpot Hs) as [fuel H].
      pose proof (H fuel (Nat.le_refl _) total) as H1.
      unfold iter_outcome in H1.
      destruct (Graph.mcf_iter fuel Source Sink total g) as [r g'] eqn:E.
      simpl in H1.
      assert (Hmono : forall fuel', (fuel <= fuel')%nat ->
                 Graph.mcf_iter fuel' Source Sink total g = (r, g')).
      { intros fuel' Hle. rewrite <- E. apply mcf_iter_mono; auto.
        rewrite E. simpl. destruct r as [[t|]| |]; try discriminate.
        contradiction. }
      destruct r as [[t|]| |]; try contradiction.
      * destruct H1 as (Hst & Hfl' & Hpot' & (f & Hf & Hout & _)).
        destruct (IH g' t (net_static g g' (eq_sym Hst) Hnet) Hfl' Hpot')
          as [fuel1 H2].
        { rewrite (source_degree_static g g' Hst). lia. }
        exists (Nat.max fuel fuel1). intros fuel' iters Hle Hit.
        destruct iters as [|iters]; [lia|]. simpl. unfold bindS.
        rewrite (Hmono fuel') by lia. apply H2; lia.
      * exists fuel. intros fuel' iters Hle Hit.
        destruct iters as [|iters]; [lia|]. simpl. unfold bindS.
        rewrite (Hmono fuel') by lia. discriminate.
      * exists fuel. intros fuel' iters Hle Hit.
        destruct iters as [|iters]; [lia|]. simpl. unfold bindS.
        rewrite (Hmono fuel') by lia. discriminate.
    + exists 1%nat. intros fuel' iters Hle Hit.
      destruct iters as [|iters]; [lia|]. destruct fuel' as [|fuel']; [lia|].
      simpl. unfold bindS. rewrite (mcf_iter_no_source g fuel' Sink total Hnet Hs).
      discriminate.
Qed.

(** ** Networks built by [add_edge] *)

Definition call : Type := node * node * Z * Z.

Definition has_call (calls : list call) (a b : node) : Prop :=
  exists k c, In (a, b, k, c) calls.

(** A call that adds a unit edge of non-negative cost one layer up. *)
Definition good_call (e : call) : Prop :=
  snd (fst e) = 1 /\ 0 <= snd e /\ lvl (call_dst e) = lvl (call_src e) + 1.

(** Number of calls that touch [x]. *)
Definition deg (calls : list call) (x : node) : Z :=
  zsum (map (fun e => ind (node_eqb (call_src e) x)
                      + ind (node_eqb (call_dst e) x)) calls).

Definition adj_length (g : Graph.t) (x : node) : Z :=
  match adj g x with Some l => Z.of_nat (length l) | None => 0 end.

Record built (calls : list call) (g : Graph.t) : Prop := {
  b_aligned : aligned g;
  b_net : net g;
  b_flow_zero : forall a b, cap g a b <> None -> flw g a b = Some 0;
  b_flow_dom : forall a b, flw g a b <> None -> cap g a b <> None;
  b_cap_call : forall a b, cap g a b <> None ->
                           has_call calls a b \/ has_call calls b a;
  b_cap_one : forall a b, cap g a b = Some 1 -> has_call calls a b;
  b_call_cap : forall a b, has_call calls a b -> cap g a b = Some 1;
  b_deg : forall x, adj_length g x = deg calls x
}.

Arguments b_aligned {calls g}.
Arguments b_net {calls g}.
Arguments b_flow_zero {calls g}.
Arguments b_flow_dom {calls g}.
Arguments b_cap_call {calls g}.
Arguments b_cap_one {calls g}.
Arguments b_call_cap {calls g}.
Arguments b_deg {calls g}.

Lemma built_init : built [] Graph.init.
Proof.
  constructor; try (intros a b H; exfalso; apply H; reflexivity);
    try discriminate.
  - apply aligned_init.
  - constructor; try (intros x y H; exfalso; apply H; reflexivity);
      try discriminate.
    + constructor.
    + intros x. split; [intros []|]. intros H. now apply H.
  - intros a b (k & c & []).
  - reflexivity.
Qed.

Lemma adj_step_same (h : node -> option (list node)) u v :
  u <> v ->
  adj_app (adj_app (adj_reg (adj_reg h u) v) u v) v u u
  = Some (match h u with Some l => l | None => [] end ++ [v]).
Proof.
  intros N. unfold adj_app, adj_reg.
  destruct (node_eqb_spec v u); [congruence|].
  destruct (node_eqb_spec u u); [|congruence].
  destruct (h u); reflexivity.
Qed.

Lemma adj_step_other (h : node -> option (list node)) u v :
  u <> v ->
  adj_app (adj_app (adj_reg (adj_reg h u) v) u v) v u v
  = Some (match h v with Some l => l | None => [] end ++ [u]).
Proof.
  intros N. unfold adj_app, adj_reg.
  destruct (node_eqb_spec v v); [|congruence].
  destruct (node_eqb_spec u v); [congruence|].
  destruct (h v); reflexivity.
Qed.

Lemma adj_step_far (h : node -> option (list node)) u v x :
  x <> u -> x <> v ->
  adj_app (adj_app (adj_reg (adj_reg h u) v) u v) v u x = h x.
Proof.
  intros N1 N2. unfold adj_app, adj_reg.
  destruct (node_eqb_spec v x); [congruence|].
  destruct (node_eqb_spec u x); [congruence|]. reflexivity.
Qed.

Lemma edge_step {V} (h : node -> node -> option V) u v (x y : V) a b :
  u <> v ->
  edge_upd (edge_upd h u v x) v u y a b
  = if node_eqb u a && node_eqb v b then Some x
    else if node_eqb v a && node_eqb u b then Some y
    else h a b.
Proof.
  intros N. unfold edge_upd.
  destruct (node_eqb_spec v a), (node_eqb_spec u b), (node_eqb_spec u a),
    (node_eqb_spec v b); subst; simpl; congruence.
Qed.

Lemma in_snoc_if {A} (l : list A) (x y : A) (b : bool) :
  In y (l ++ (if b then [] else [x])) <-> In y l \/ (b = false /\ y = x).
Proof.
  rewrite in_app_iff. destruct b; simpl; intuition congruence.
Qed.

Lemma nodup_snoc_if {A} (l : list A) (x : A) (b : bool) :
  NoDup l -> (b = true <-> In x l) -> NoDup (l ++ (if b then [] else [x])).
Proof.
  intros Hnd Hb. destruct b.
  - now rewrite app_nil_r.
  - apply NoDup_app; auto.
    + repeat constructor. intros [].
    + intros a Ha [<-|[]]. apply Hb in Ha. discriminate.
Qed.

Lemma deg_snoc calls e x :
  deg (calls ++ [e]) x
  = deg calls x + ind (node_eqb (call_src e) x) + ind (node_eqb (call_dst e) x).
Proof.
  unfold deg. rewrite map_app, zsum_app. cbn [map].
  unfold zsum at 2. cbn [fold_right].
  rewrite Z.add_0_r, Z.add_assoc. reflexivity.
Qed.

Lemma built_step calls g u v k c g' :
  built calls g -> good_call (u, v, k, c) -> ~ has_call calls u v ->
  Graph.add_edge u v k c g = (Ok tt, g') ->
  built (calls ++ [(u, v, k, c)]) g'.
Proof.
  intros B (Hk & Hc & Hl) Hfresh E.
  unfold call_src, call_dst in Hl. simpl in Hk, Hc, Hl. subst k.
  pose proof (b_net B) as Hnet.
  assert (Huv : u <> v) by (intros ->; lia).
  assert (Hvu : ~ has_call calls v u).
  { intros H. apply (b_call_cap B) in H.
    destruct (net_layer Hnet v u 1 H) as [(_ & H' & _)|(H' & _)]; lia. }
  assert (Hcuv : cap g u v = None).
  { destruct (cap g u v) eqn:Ec; [|reflexivity].
    destruct (b_cap_call B u v) as [H|H]; try congruence; contradiction. }
  assert (Hcvu : cap g v u = None).
  { destruct (cap g v u) eqn:Ec; [|reflexivity].
    destruct (b_cap_call B v u) as [H|H]; try congruence; contradiction. }
  destruct (add_edge_spec u v 1 c g (b_aligned B))
    as (g2 & E2 & A2 & N2 & C2 & K2 & F2 & J2).
  assert (g2 = g') by congruence. subst g2. clear E2.
  assert (Hcap : forall a b, cap g' a b
                   = if node_eqb u a && node_eqb v b then Some 1
                     else if node_eqb v a && node_eqb u b then Some 0
                     else cap g a b).
  { intros a b. unfold cap. rewrite C2. now apply edge_step. }
  assert (Hcst : forall a b, cst g' a b
                   = if node_eqb u a && node_eqb v b then Some c
                     else if node_eqb v a && node_eqb u b then Some (- c)
                     else cst g a b).
  { intros a b. unfold cst. rewrite K2. now apply edge_step. }
  assert (Hflw : forall a b, flw g' a b
                   = if node_eqb u a && node_eqb v b then Some 0
                     else if node_eqb v a && node_eqb u b then Some 0
                     else flw g a b).
  { intros a b. unfold flw. rewrite F2. now apply edge_step. }
  set (lu := match adj g u with Some l => l | None => [] end).
  set (lv := match adj g v with Some l => l | None => [] end).
  assert (Hau : adj g' u = Some (lu ++ [v])).
  { rewrite J2. now apply adj_step_same. }
  assert (Hav : adj g' v = Some (lv ++ [u])).
  { rewrite J2. now apply adj_step_other. }
  assert (Hax : forall x, x <> u -> x <> v -> adj g' x = adj g x).
  { intros x H1 H2. rewrite J2. now apply adj_step_far. }
  assert (Hlist : forall x, In x (nodes g) ->
            adj g x = Some (match adj g x with Some l => l | None => [] end)).
  { intros x Hx. destruct (net_adj_some g x Hnet Hx) as [l ->]. reflexivity. }
  assert (Hl0 : forall x y,
            In y (match adj g x with Some l => l | None => [] end)
            <-> cap g x y <> None).
  { intros x y. destruct (adj g x) as [l|] eqn:El.
    - apply (net_adj_iff Hnet x l y El).
    - split; [intros []|]. intros H.
      apply (net_cap_nodes Hnet) in H as [H _].
      apply (net_adj_dom Hnet) in H. congruence. }
  assert (Hnd0 : forall x,
            NoDup (match adj g x with Some l => l | None => [] end)).
  { intros x. destruct (adj g x) as [l|] eqn:El; [|constructor].
    apply (net_adj_nodup Hnet x l El). }
  assert (Hnodes : forall x, In x (nodes g') <-> In x (nodes g) \/ x = u \/ x = v).
  { intros x. rewrite N2, !in_snoc_if. split.
    - intros [[H|[_ H]]|[_ H]]; auto.
    - intros [H|[->| ->]]; auto.
      + destruct (Dict.mem (Graph.capacity g) u) eqn:Em; auto.
        apply dict_mem_in in Em. auto.
      + destruct (existsb (node_eqb v) (u :: nodes g)) eqn:Ex; auto.
        apply existsb_node_in in Ex as [Ex|Ex]; [congruence|auto]. }
  assert (Hnd' : NoDup (nodes g')).
  { rewrite N2. apply nodup_snoc_if.
    - apply nodup_snoc_if; [apply (net_nodes_nodup Hnet)|].
      apply dict_mem_in.
    - rewrite existsb_node_in, in_snoc_if. simpl. split.
      + intros [H|H]; [congruence|auto].
      + intros [H|[_ H]]; [auto|congruence]. }
  constructor.
  - exact A2.
  - constructor.
    + exact Hnd'.
    + intros x. rewrite Hnodes.
      destruct (node_eq_dec x u) as [->|Nu];
        [rewrite Hau; split; [discriminate|auto]|].
      destruct (node_eq_dec x v) as [->|Nv];
        [rewrite Hav; split; [discriminate|auto]|].
      rewrite (Hax x Nu Nv), <- (net_adj_dom Hnet). tauto.
    + intros x l Hxl.
      destruct (node_eq_dec x u) as [->|Nu].
      { rewrite Hau in Hxl. injection Hxl as <-.
        apply NoDup_app; [apply Hnd0|repeat constructor; intros []|].
        intros a Ha [<-|[]]. apply Hl0 in Ha. congruence. }
      destruct (node_eq_dec x v) as [->|Nv].
      { rewrite Hav in Hxl. injection Hxl as <-.
        apply NoDup_app; [apply Hnd0|repeat constructor; intros []|].
        intros a Ha [<-|[]]. apply Hl0 in Ha. congruence. }
      rewrite (Hax x Nu Nv) in Hxl. apply (net_adj_nodup Hnet x l Hxl).
    + intros x l y Hxl. rewrite Hcap.
      destruct (node_eq_dec x u) as [->|Nu].
      { rewrite Hau in Hxl. injection Hxl as <-.
        rewrite in_app_iff. unfold lu. rewrite (Hl0 u y). simpl.
        destruct (node_eqb_spec u u); [|congruence].
        destruct (node_eqb_spec v u); [congruence|]. simpl.
        destruct (node_eqb_spec v y) as [<-|Ny]; split; try discriminate;
          intuition congruence. }
      destruct (node_eq_dec x v) as [->|Nv].
      { rewrite Hav in Hxl. injection Hxl as <-.
        rewrite in_app_iff. unfold lv. rewrite (Hl0 v y). simpl.
        destruct (node_eqb_spec u v); [congruence|].
        destruct (node_eqb_spec v v); [|congruence]. simpl.
        destruct (node_eqb_spec u y) as [<-|Ny]; split; try discriminate;
          intuition congruence. }
      rewrite (Hax x Nu Nv) in Hxl.
      destruct (node_eqb_spec u x); [congruence|].
      destruct (node_eqb_spec v x); [congruence|]. simpl.
      apply (net_adj_iff Hnet x l y Hxl).
    + intros x y. rewrite Hcap, !Hnodes.
      destruct (node_eqb_spec u x), (node_eqb_spec v y),
        (node_eqb_spec v x), (node_eqb_spec u y); subst; simpl; auto;
        intros H; apply (net_cap_nodes Hnet) in H; tauto.
    + intros x y. rewrite !Hcap.
      destruct (node_eqb_spec u x), (node_eqb_spec v y),
        (node_eqb_spec v x), (node_eqb_spec u y); subst; simpl;
        try discriminate; try congruence; apply (net_cap_sym Hnet).
    + intros x y. rewrite Hcap, Hcst.
      destruct (node_eqb u x && node_eqb v y); [discriminate|].
      destruct (node_eqb v x && node_eqb u y); [discriminate|].
      apply (net_cost_dom Hnet).
    + intros x y k'. rewrite !Hcst.
      destruct (node_eqb_spec u x), (node_eqb_spec v y),
        (node_eqb_spec v x), (node_eqb_spec u y); subst; simpl;
        try congruence; try apply (net_cost_anti Hnet);
        intros H; injection H as <-; f_equal; lia.
    + intros x y k'. rewrite Hcap, Hcst.
      destruct (node_eqb_spec u x), (node_eqb_spec v y),
        (node_eqb_spec v x), (node_eqb_spec u y); subst; simpl;
        try congruence;
        try (intros H; injection H as <-; left; repeat split; eauto; fail);
        try (intros H; injection H as <-; right; split; auto; fail);
        apply (net_layer Hnet).
  - intros a b. rewrite Hcap, Hflw.
    destruct (node_eqb u a && node_eqb v b); [reflexivity|].
    destruct (node_eqb v a && node_eqb u b); [reflexivity|].
    apply (b_flow_zero B).
  - intros a b. rewrite Hcap, Hflw.
    destruct (node_eqb u a && node_eqb v b); [discriminate|].
    destruct (node_eqb v a && node_eqb u b); [discriminate|].
    apply (b_flow_dom B).
  - intros a b. rewrite Hcap.
    assert (Hnew : has_call (calls ++ [(u, v, 1, c)]) u v).
    { exists 1, c. apply in_or_app. right. now left. }
    destruct (node_eqb_spec u a), (node_eqb_spec v b),
      (node_eqb_spec v a), (node_eqb_spec u b); subst; simpl; auto;
      intros H; apply (b_cap_call B) in H;
      (destruct H as [(k' & c' & H)|(k' & c' & H)]; [left|right];
       exists k', c'; apply in_or_app; now left).
  - intros a b. rewrite Hcap.
    destruct (node_eqb u a && node_eqb v b) eqn:E1.
    + apply andb_true_iff in E1 as [Ea Eb].
      destruct (node_eqb_spec u a), (node_eqb_spec v b); try discriminate.
      subst a b. intros _. exists 1, c. apply in_or_app. right. now left.
    + destruct (node_eqb v a && node_eqb u b); [discriminate|].
      intros H. apply (b_cap_one B) in H as (k' & c' & H).
      exists k', c'. apply in_or_app. now left.
  - intros a b (k' & c' & H). rewrite Hcap.
    apply in_app_or in H as [H|[H|[]]].
    + assert (Hab : has_call calls a b) by (exists k', c'; exact H).
      destruct (node_eqb_spec u a), (node_eqb_spec v b),
        (node_eqb_spec v a), (node_eqb_spec u b); subst; simpl;
        try reflexivity; try contradiction; now apply (b_call_cap B).
    + injection H as <- <- _ _.
      destruct (node_eqb_spec u u), (node_eqb_spec v v); simpl; congruence.
  - intros x. rewrite deg_snoc. unfold call_src, call_dst. simpl.
    rewrite <- (b_deg B x). unfold adj_length.
    destruct (node_eq_dec x u) as [->|Nu].
    { rewrite Hau. rewrite length_app. simpl. fold lu.
      destruct (node_eqb_spec u u); [|congruence].
      destruct (node_eqb_spec v u); [congruence|]. simpl.
      unfold lu. destruct (adj g u); simpl; lia. }
    destruct (node_eq_dec x v) as [->|Nv].
    { rewrite Hav. rewrite length_app. simpl.
      destruct (node_eqb_spec u v); [congruence|].
      destruct (node_eqb_spec v v); [|congruence]. simpl.
      unfold lv. destruct (adj g v); simpl; lia. }
    rewrite (Hax x Nu Nv).
    destruct (node_eqb_spec u x); [congruence|].
    destruct (node_eqb_spec v x); [congruence|]. simpl. lia.
Qed.

Definition endpoints (e : call) : node * node := (call_src e, call_dst e).

Lemma has_call_endpoints calls a b :
  has_call calls a b <-> In (a, b) (map endpoints calls).
Proof.
  unfold has_call. rewrite in_map_iff. split.
  - intros (k & c & H). exists (a, b, k, c). auto.
  - intros ([[[a' b'] k] c] & E & H). unfold endpoints, call_src, call_dst in E.
    simpl in E. injection E as -> ->. eauto.
Qed.

Lemma add_edges_app l1 l2 g g1 g2 :
  add_edges l1 g = (Ok tt, g1) -> add_edges l2 g1 = (Ok tt, g2) ->
  add_edges (l1 ++ l2) g = (Ok tt, g2).
Proof.
  revert g. induction l1 as [|[[[u v] k] c] r IH]; intros g E1 E2.
  - unfold add_edges in E1. simpl in E1. injection E1 as ->. exact E2.
  - unfold add_edges in *. simpl in *. unfold bindS in *.
    destruct (Graph.add_edge u v k c g) as [[[]| |] g']; try discriminate.
    now apply IH.
Qed.

Lemma add_edges_built calls : forall done g,
  built done g -> Forall good_call calls ->
  NoDup (map endpoints (done ++ calls)) ->
  exists g', add_edges calls g = (Ok tt, g') /\ built (done ++ calls) g'.
Proof.
  induction calls as [|[[[u v] k] c] r IH]; intros done g B Hgood Hnd.
  - exists g. rewrite app_nil_r. split; [reflexivity|exact B].
  - inversion Hgood as [|? ? Hg Hr]; subst.
    destruct (add_edge_spec u v k c g (b_aligned B)) as (g1 & E1 & _).
    assert (Hfresh : ~ has_call done u v).
    { rewrite has_call_endpoints. rewrite map_app in Hnd. simpl in Hnd.
      apply NoDup_remove_2 in Hnd. intros H. apply Hnd.
      apply in_or_app. now left. }
    pose proof (built_step done g u v k c g1 B Hg Hfresh E1) as B1.
    destruct (IH (done ++ [(u, v, k, c)]) g1 B1 Hr) as (g' & E' & B').
    { now rewrite <- app_assoc. }
    exists g'. split.
    + unfold add_edges in *. simpl. unfold bindS. rewrite E1. exact E'.
    + now rewrite <- app_assoc in B'.
Qed.

Lemma built_flow_inv calls g : built calls g -> flow_inv g.
Proof.
  intros B. pose proof (b_net B) as Hnet.
  assert (Hzero : forall a b f, flw g a b = Some f -> f = 0).
  { intros a b f H.
    assert (Hc : cap g a b <> None) by (apply (b_flow_dom B); congruence).
    rewrite (b_flow_zero B a b Hc) in H. congruence. }
  constructor.
  - intros x y H. rewrite (b_flow_zero B x y H). discriminate.
  - intros a b f H. fold (flw g a b) in H. fold (flw g b a).
    rewrite (Hzero a b f H).
    assert (Hc : cap g a b <> None) by (apply (b_flow_dom B); congruence).
    apply (net_cap_sym Hnet) in Hc. now rewrite (b_flow_zero B b a Hc).
  - intros x y f k Hf Hk. rewrite (Hzero x y f Hf).
    destruct (net_layer Hnet x y k Hk) as [[-> _]|[-> _]]; lia.
  - intros c. unfold net_out. destruct (adj g (Cell c)); [|reflexivity].
    apply zsum_map_zero. intros y _. unfold flow_val.
    destruct (flw g (Cell c) y) eqn:E; [|reflexivity]. now apply (Hzero _ _ _ E).
Qed.

Lemma built_feasible calls g :
  built calls g -> feasible g Source (fun _ => Some 0).
Proof.
  intros B. split; [discriminate|].
  intros u v pu c Hu (k & f & Hk & Hf & Hlt) Hc. injection Hu as <-.
  exists 0. split; [reflexivity|].
  assert (Hcap : cap g u v <> None) by congruence.
  rewrite (b_flow_zero B u v Hcap) in Hf. injection Hf as <-.
  destruct (net_layer (b_net B) u v k Hk) as [(_ & _ & c' & Hc' & Hpos)|[-> _]];
    [|lia].
  assert (c' = c) by congruence. lia.
Qed.

Lemma built_net_out_zero calls g x : built calls g -> net_out g x = 0.
Proof.
  intros B. unfold net_out. destruct (adj g x); [|reflexivity].
  apply zsum_map_zero. intros y _. unfold flow_val.
  destruct (flw g x y) as [f|] eqn:E; [|reflexivity].
  assert (Hc : cap g x y <> None) by (apply (b_flow_dom B); congruence).
  rewrite (b_flow_zero B x y Hc) in E. congruence.
Qed.

Lemma lvl_nonneg x : 0 <= lvl x.
Proof.
  destruct x as [| |c]; simpl; try lia. destruct (_ =? 0); lia.
Qed.

Lemma built_source_degree calls g :
  built calls g -> Forall good_call calls ->
  Z.of_nat (source_degree g)
  = zsum (map (fun e => ind (node_eqb (call_src e) Source)) calls).
Proof.
  intros B Hgood. pose proof (b_deg B Source) as H.
  unfold adj_length, source_degree in *.
  assert (E : deg calls Source
              = zsum (map (fun e => ind (node_eqb (call_src e) Source)) calls)).
  { unfold deg. clear H B. induction Hgood as [|e r He Hr IH]; [reflexivity|].
    cbn [map]. unfold zsum in *. cbn [fold_right]. rewrite IH.
    destruct He as (_ & _ & Hl).
    destruct (node_eqb_spec (call_dst e) Source) as [Ed|Nd].
    - rewrite Ed in Hl. pose proof (lvl_nonneg (call_src e)). simpl in Hl. lia.
    - simpl. lia. }
  rewrite <- E, <- H. destruct (adj g Source); reflexivity.
Qed.

(** ** The network of a grid *)

Definition black (gr : Grid.t) (c : cell) : bool := colour_code gr c =? 4.

Definition is_even (c : cell) : bool := (fst c + snd c) mod 2 =? 0.

Definition even_cells (gr : Grid.t) : list cell :=
  filter (fun c => negb (black gr c) && is_even c)
         (SolverBellmanFord.scan_order gr).

Definition odd_cells (gr : Grid.t) : list cell :=
  filter (fun c => negb (black gr c) && negb (is_even c))
         (SolverBellmanFord.scan_order gr).

(** The edge that [add_edges_from] adds for the direction [d], if any. *)
Definition dir_call (gr : Grid.t) (c : cell) (d : Z * Z) : list call :=
  let nb := (fst c + fst d, snd c + snd d) in
  if (0 <=? fst nb) && (fst nb <? Grid.n gr)
     && (0 <=? snd nb) && (snd nb <? Grid.m gr)
     && negb (black gr nb) && valid_pair gr c nb
  then [(Cell c, Cell nb, 1, pair_cost gr (c, nb))] else [].

Definition nbr_calls (gr : Grid.t) (c : cell) : list call :=
  flat_map (dir_call gr c) SolverBellmanFord.directions.

(** The [add_edge] calls of [build_graph], in order. *)
Definition network_calls (gr : Grid.t) : list call :=
  flat_map (fun c => (Source, Cell c, 1, 0) :: nbr_calls gr c) (even_cells gr)
  ++ map (fun c => (Cell c, Sink, 1, 0)) (odd_cells gr).

(** The caches agree with the grid. *)
Definition coherent (gr : Grid.t) (s : SolverBellmanFord.t) : Prop :=
  SolverBellmanFord.grid s = gr
  /\ (forall c b, Dict.get (SolverBellmanFord.forbidden_cache s) c = Some b ->
                  b = black gr c)
  /\ (forall p k, Dict.get (SolverBellmanFord.cost_cache s) p = Some k ->
                  k = pair_cost gr p).

Lemma is_forbidden_cached_spec gr s i j :
  wf gr -> coherent gr s -> in_bounds gr (i, j) ->
  exists s',
    SolverBellmanFord.is_forbidden_cached i j s = (Ok (black gr (i, j)), s')
    /\ coherent gr s'
    /\ SolverBellmanFord.graph s' = SolverBellmanFord.graph s
    /\ SolverBellmanFord.pairs s' = SolverBellmanFord.pairs s.
Proof.
  intros Hwf (Hg & Hfc & Hcc) Hb.
  unfold SolverBellmanFord.is_forbidden_cached, bindS, getS, retS, liftS,
    modifyS.
  unfold Dict.mem.
  destruct (Dict.get (SolverBellmanFord.forbidden_cache s) (i, j)) as [b|] eqn:E.
  - exists s. unfold Dict.lookup. rewrite E. rewrite (Hfc _ _ E).
    repeat split; auto.
  - rewrite Hg. pose proof (is_forbidden_wf gr (i, j) Hwf Hb) as Ef.
    simpl in Ef. rewrite Ef. simpl. unfold Dict.lookup.
    rewrite dict_get_set_same. eexists. split; [reflexivity|].
    repeat split; auto. simpl. intros c b Hc.
    destruct (cell_eq_dec (i, j) c) as [<-|N].
    + rewrite dict_get_set_same in Hc. injection Hc as <-. reflexivity.
    + rewrite dict_get_set_other in Hc by exact N. now apply Hfc.
Qed.

Lemma get_cost_cached_spec gr s p :
  wf gr -> coherent gr s -> in_bounds gr (fst p) -> in_bounds gr (snd p) ->
  exists s',
    SolverBellmanFord.get_cost_cached p s = (Ok (pair_cost gr p), s')
    /\ coherent gr s'
    /\ SolverBellmanFord.graph s' = SolverBellmanFord.graph s
    /\ SolverBellmanFord.pairs s' = SolverBellmanFord.pairs s.
Proof.
  intros Hwf (Hg & Hfc & Hcc) H1 H2.
  unfold SolverBellmanFord.get_cost_cached, bindS, getS, retS, liftS, modifyS.
  unfold Dict.mem.
  destruct (Dict.get (SolverBellmanFord.cost_cache s) p) as [k|] eqn:E.
  - exists s. unfold Dict.lookup. rewrite E. rewrite (Hcc _ _ E).
    repeat split; auto.
  - rewrite Hg. rewrite (cost_wf gr p Hwf H1 H2). simpl. unfold Dict.lookup.
    rewrite dict_get_set_same. eexists. split; [reflexivity|].
    repeat split; auto. simpl. intros q k Hq.
    destruct (pair_eq_dec p q) as [<-|N].
    + rewrite dict_get_set_same in Hq. injection Hq as <-. reflexivity.
    + rewrite dict_get_set_other in Hq by exact N. now apply Hcc.
Qed.

Lemma add_edges_aligned calls : forall g,
  aligned g -> exists g', add_edges calls g = (Ok tt, g') /\ aligned g'.
Proof.
  induction calls as [|[[[u v] k] c] r IH]; intros g Hal.
  - exists g. split; [reflexivity|exact Hal].
  - destruct (add_edge_spec u v k c g Hal) as (g1 & E1 & A1 & _).
    destruct (IH g1 A1) as (g' & E' & A'). exists g'. split; [|exact A'].
    unfold add_edges in *. simpl. unfold bindS. rewrite E1. exact E'.
Qed.

(** The state reached from [s] by running the calls [cs] on its graph and
    filling the caches. *)
Definition steps_to (gr : Grid.t) (cs : list call)
           (s s' : SolverBellmanFord.t) : Prop :=
  coherent gr s'
  /\ aligned (SolverBellmanFord.graph s')
  /\ add_edges cs (SolverBellmanFord.graph s)
     = (Ok tt, SolverBellmanFord.graph s')
  /\ SolverBellmanFord.pairs s' = SolverBellmanFord.pairs s.

Lemma steps_to_app gr cs1 cs2 s s1 s2 :
  steps_to gr cs1 s s1 -> steps_to gr cs2 s1 s2 ->
  steps_to gr (cs1 ++ cs2) s s2.
Proof.
  intros (_ & _ & E1 & P1) (C2 & A2 & E2 & P2).
  split; [exact C2|]. split; [exact A2|]. split; [|congruence].
  now apply (add_edges_app cs1 cs2 _ _ _ E1 E2).
Qed.

Lemma steps_to_refl gr s :
  coherent gr s -> aligned (SolverBellmanFord.graph s) -> steps_to gr [] s s.
Proof. intros C A. split; [exact C|]. split; [exact A|]. split; reflexivity. Qed.

Lemma steps_to_same_graph gr s s' :
  coherent gr s' -> aligned (SolverBellmanFord.graph s) ->
  SolverBellmanFord.graph s' = SolverBellmanFord.graph s ->
  SolverBellmanFord.pairs s' = SolverBellmanFord.pairs s ->
  steps_to gr [] s s'.
Proof.
  intros C A G P. split; [exact C|]. split; [now rewrite G|].
  split; [now rewrite G|exact P].
Qed.

Lemma dir_step gr c d s :
  wf gr -> coherent gr s -> in_bounds gr c ->
  aligned (SolverBellmanFord.graph s) ->
  exists s',
    (let ni := fst c + fst d in
     let nj := snd c + snd d in
     s0 <~ getS ;;
     if (0 <=? ni) && (ni <? Grid.n (SolverBellmanFord.grid s0))
        && (0 <=? nj) && (nj <? Grid.m (SolverBellmanFord.grid s0)) then
       let neighbor := (ni, nj) in
       fb <~ SolverBellmanFord.is_forbidden_cached ni nj ;;
       if fb then retS tt else
       ok <~ liftS (Grid.test_pair (SolverBellmanFord.grid s0) c neighbor) ;;
       if ok then
         k <~ SolverBellmanFord.get_cost_cached (c, neighbor) ;;
         zoomS SolverBellmanFord.graph SolverBellmanFord.set_graph
               (Graph.add_edge (Cell c) (Cell neighbor) 1 k)
       else retS tt
     else retS tt) s = (Ok tt, s')
    /\ steps_to gr (dir_call gr c d) s s'.
Proof.
  intros Hwf Hco Hc Hal. pose proof Hco as (Hg & _).
  cbv zeta. unfold bindS at 1. unfold getS. rewrite Hg.
  unfold dir_call. cbv zeta. simpl fst. simpl snd.
  set (ni := fst c + fst d). set (nj := snd c + snd d).
  destruct ((0 <=? ni) && (ni <? Grid.n gr) && (0 <=? nj) && (nj <? Grid.m gr))
    eqn:Einb; simpl.
  - assert (Hnb : in_bounds gr (ni, nj)).
    { rewrite !andb_true_iff in Einb. unfold in_bounds. simpl. lia. }
    destruct (is_forbidden_cached_spec gr s ni nj Hwf Hco Hnb)
      as (s1 & E1 & C1 & G1 & P1).
    unfold bindS at 1. rewrite E1.
    destruct (black gr (ni, nj)) eqn:Eb; simpl.
    + exists s1. split; [reflexivity|]. now apply steps_to_same_graph.
    + unfold bindS at 1. unfold liftS.
      rewrite (test_pair_wf gr c (ni, nj) Hwf Hc Hnb).
      destruct (valid_pair gr c (ni, nj)) eqn:Ev.
      * destruct (get_cost_cached_spec gr s1 (c, (ni, nj)) Hwf C1 Hc Hnb)
          as (s2 & E2 & C2 & G2 & P2).
        unfold bindS. rewrite E2. unfold zoomS.
        assert (Hal2 : aligned (SolverBellmanFord.graph s2)) by congruence.
        destruct (add_edge_spec (Cell c) (Cell (ni, nj)) 1
                                (pair_cost gr (c, (ni, nj)))
                                (SolverBellmanFord.graph s2) Hal2)
          as (g3 & E3 & A3 & _).
        rewrite E3. eexists. split; [reflexivity|].
        split; [exact C2|]. split; [exact A3|]. split; [|simpl; congruence].
        unfold add_edges. simpl. unfold bindS.
        rewrite <- G1, <- G2, E3. reflexivity.
      * exists s1. split; [reflexivity|]. now apply steps_to_same_graph.
  - exists s. split; [reflexivity|]. now apply steps_to_refl.
Qed.

Lemma add_edges_from_spec gr c s :
  wf gr -> coherent gr s -> in_bounds gr c ->
  aligned (SolverBellmanFord.graph s) ->
  exists s',
    SolverBellmanFord.add_edges_from c s = (Ok tt, s')
    /\ steps_to gr (nbr_calls gr c) s s'.
Proof.
  intros Hwf Hco Hc Hal. destruct c as [i j].
  unfold SolverBellmanFord.add_edges_from, nbr_calls.
  generalize SolverBellmanFord.directions. intros ds. revert s Hco Hal.
  induction ds as [|d r IH]; intros s Hco Hal.
  - exists s. split; [reflexivity|]. now apply steps_to_refl.
  - destruct (dir_step gr (i, j) d s Hwf Hco Hc Hal) as (s1 & E1 & T1).
    cbv zeta in E1. simpl fst in E1. simpl snd in E1.
    destruct (IH s1 (proj1 T1) (proj1 (proj2 T1))) as (s2 & E2 & T2).
    exists s2. split.
    + cbn [for_eachS]. unfold bindS at 1. cbv zeta. rewrite E1. exact E2.
    + cbn [flat_map]. now apply (steps_to_app gr _ _ s s1 s2).
Qed.

Lemma classify_spec gr cells : forall acc s,
  wf gr -> coherent gr s -> (forall c, In c cells -> in_bounds gr c) ->
  exists s',
    SolverBellmanFord.classify cells acc s
    = (Ok (fst (fst acc) ++ filter (fun c => negb (black gr c)) cells,
           snd (fst acc)
           ++ filter (fun c => negb (black gr c) && is_even c) cells,
           snd acc
           ++ filter (fun c => negb (black gr c) && negb (is_even c)) cells),
       s')
    /\ coherent gr s'
    /\ SolverBellmanFord.graph s' = SolverBellmanFord.graph s
    /\ SolverBellmanFord.pairs s' = SolverBellmanFord.pairs s.
Proof.
  induction cells as [|[i j] r IH]; intros [[valid even] odd] s Hwf Hco Hin.
  - exists s. simpl. rewrite !app_nil_r. auto.
  - destruct (is_forbidden_cached_spec gr s i j Hwf Hco)
      as (s1 & E1 & C1 & G1 & P1); [apply Hin; now left|].
    cbn [SolverBellmanFord.classify]. unfold bindS at 1. rewrite E1.
    cbn [filter fst snd].
    change (is_even (i, j)) with ((i + j) mod 2 =? 0).
    destruct (black gr (i, j)); cbn [negb andb].
    + destruct (IH (valid, even, odd) s1 Hwf C1) as (s2 & E2 & C2 & G2 & P2).
      { intros c Hc. apply Hin. now right. }
      exists s2. cbn [fst snd] in E2. rewrite E2.
      repeat split; try apply C2; congruence.
    + destruct ((i + j) mod 2 =? 0); cbn [negb].
      * destruct (IH (valid ++ [(i, j)], even ++ [(i, j)], odd) s1 Hwf C1)
          as (s2 & E2 & C2 & G2 & P2).
        { intros c Hc. apply Hin. now right. }
        exists s2. cbn [fst snd] in E2. rewrite E2, <- !app_assoc.
        repeat split; try apply C2; try congruence.
      * destruct (IH (valid ++ [(i, j)], even, odd ++ [(i, j)]) s1 Hwf C1)
          as (s2 & E2 & C2 & G2 & P2).
        { intros c Hc. apply Hin. now right. }
        exists s2. cbn [fst snd] in E2. rewrite E2, <- !app_assoc.
        repeat split; try apply C2; congruence.
Qed.

Lemma even_loop_spec gr cells : forall s,
  wf gr -> coherent gr s -> (forall c, In c cells -> in_bounds gr c) ->
  aligned (SolverBellmanFord.graph s) ->
  exists s',
    for_eachS cells
      (fun c =>
         zoomS SolverBellmanFord.graph SolverBellmanFord.set_graph
               (Graph.add_edge SolverBellmanFord.source (Cell c) 1 0) ;;~
         SolverBellmanFord.add_edges_from c) s = (Ok tt, s')
    /\ steps_to gr
         (flat_map (fun c => (Source, Cell c, 1, 0) :: nbr_calls gr c) cells)
         s s'.
Proof.
  induction cells as [|c r IH]; intros s Hwf Hco Hin Hal.
  - exists s. split; [reflexivity|]. now apply steps_to_refl.
  - destruct (add_edge_spec Source (Cell c) 1 0 (SolverBellmanFord.graph s) Hal)
      as (g1 & E1 & A1 & _).
    set (s1 := SolverBellmanFord.set_graph s g1).
    assert (T1 : steps_to gr [(Source, Cell c, 1, 0)] s s1).
    { split; [exact Hco|]. split; [exact A1|]. split; [|reflexivity].
      unfold add_edges. simpl. unfold bindS. rewrite E1. reflexivity. }
    destruct (add_edges_from_spec gr c s1 Hwf (proj1 T1)
                                  (Hin c (or_introl eq_refl)) A1)
      as (s2 & E2 & T2).
    destruct (IH s2 Hwf (proj1 T2)) as (s3 & E3 & T3).
    { intros c' Hc'. apply Hin. now right. }
    { apply (proj1 (proj2 T2)). }
    exists s3. split.
    + cbn [for_eachS]. unfold bindS at 1. unfold bindS at 1. unfold zoomS.
      unfold SolverBellmanFord.source. rewrite E1. fold s1. rewrite E2.
      exact E3.
    + cbn [flat_map].
      change ((Source, Cell c, 1, 0) :: nbr_calls gr c ++ _)
        with (([(Source, Cell c, 1, 0)] ++ nbr_calls gr c)
              ++ flat_map (fun c0 => (Source, Cell c0, 1, 0) :: nbr_calls gr c0) r).
      apply (steps_to_app gr _ _ s s2 s3); [|exact T3].
      exact (steps_to_app gr [(Source, Cell c, 1, 0)] (nbr_calls gr c)
                          s s1 s2 T1 T2).
Qed.

Lemma odd_loop_spec gr cells : forall s,
  coherent gr s -> aligned (SolverBellmanFord.graph s) ->
  exists s',
    for_eachS cells
      (fun c =>
         zoomS SolverBellmanFord.graph SolverBellmanFord.set_graph
               (Graph.add_edge (Cell c) SolverBellmanFord.sink 1 0)) s
    = (Ok tt, s')
    /\ steps_to gr (map (fun c => (Cell c, Sink, 1, 0)) cells) s s'.
Proof.
  induction cells as [|c r IH]; intros s Hco Hal.
  - exists s. split; [reflexivity|]. now apply steps_to_refl.
  - destruct (add_edge_spec (Cell c) Sink 1 0 (SolverBellmanFord.graph s) Hal)
      as (g1 & E1 & A1 & _).
    set (s1 := SolverBellmanFord.set_graph s g1).
    assert (T1 : steps_to gr [(Cell c, Sink, 1, 0)] s s1).
    { split; [exact Hco|]. split; [exact A1|]. split; [|reflexivity].
      unfold add_edges. simpl. unfold bindS. rewrite E1. reflexivity. }
    destruct (IH s1 (proj1 T1) A1) as (s2 & E2 & T2).
    exists s2. split.
    + cbn [for_eachS]. unfold bindS at 1. unfold zoomS.
      unfold SolverBellmanFord.sink. rewrite E1. fold s1. exact E2.
    + cbn [map].
      change ((Cell c, Sink, 1, 0) :: map _ r)
        with ([(Cell c, Sink, 1, 0)] ++ map (fun c0 => (Cell c0, Sink, 1, 0)) r).
      exact (steps_to_app gr [(Cell c, Sink, 1, 0)] _ s s1 s2 T1 T2).
Qed.

Lemma build_graph_spec gr s :
  wf gr -> coherent gr s -> aligned (SolverBellmanFord.graph s) ->
  exists s',
    SolverBellmanFord.build_graph s = (Ok tt, s')
    /\ steps_to gr (network_calls gr) s s'.
Proof.
  intros Hwf Hco Hal. pose proof Hco as (Hg & _).
  unfold SolverBellmanFord.build_graph. unfold bindS at 1. unfold getS.
  rewrite Hg.
  destruct (classify_spec gr (SolverBellmanFord.scan_order gr) ([], [], []) s
                          Hwf Hco) as (s1 & E1 & C1 & G1 & P1).
  { intros c. apply in_scan_order. }
  unfold bindS at 1. rewrite E1. cbn [fst snd app].
  fold (even_cells gr) (odd_cells gr).
  assert (Hal1 : aligned (SolverBellmanFord.graph s1)) by now rewrite G1.
  destruct (even_loop_spec gr (even_cells gr) s1 Hwf C1) as (s2 & E2 & T2);
    auto.
  { intros c Hc. apply filter_In in Hc as [Hc _]. now apply in_scan_order. }
  destruct (odd_loop_spec gr (odd_cells gr) s2 (proj1 T2) (proj1 (proj2 T2)))
    as (s3 & E3 & T3).
  exists s3. split.
  - unfold bindS at 1. rewrite E2. exact E3.
  - unfold network_calls.
    pose proof (steps_to_app gr _ _ s1 s2 s3 T2 T3) as (C & A & E & P).
    split; [exact C|]. split; [exact A|]. split; [|congruence].
    now rewrite <- G1.
Qed.

(** *** The calls of [build_graph] form a layered network *)

Lemma parity_flip x d :
  d = 1 \/ d = -1 -> ((x + d) mod 2 =? 0) = negb (x mod 2 =? 0).
Proof.
  intros Hd.
  pose proof (Z.mod_pos_bound x 2 ltac:(lia)).
  pose proof (Z.mod_pos_bound (x + d) 2 ltac:(lia)).
  pose proof (Z.div_mod x 2 ltac:(lia)).
  pose proof (Z.div_mod (x + d) 2 ltac:(lia)).
  destruct (Z.eqb_spec ((x + d) mod 2) 0), (Z.eqb_spec (x mod 2) 0);
    simpl; auto; lia.
Qed.

Lemma neighbour_parity c d :
  In d SolverBellmanFord.directions ->
  is_even (fst c + fst d, snd c + snd d) = negb (is_even c).
Proof.
  intros Hd. unfold is_even. simpl.
  replace (fst c + fst d + (snd c + snd d))
    with ((fst c + snd c) + (fst d + snd d)) by lia.
  apply parity_flip.
  simpl in Hd. destruct Hd as [<-|[<-|[<-|[<-|[]]]]]; simpl; auto.
Qed.

Lemma in_dir_call gr c d e :
  In e (dir_call gr c d) ->
  e = (Cell c, Cell (fst c + fst d, snd c + snd d), 1,
       pair_cost gr (c, (fst c + fst d, snd c + snd d)))
  /\ in_bounds gr (fst c + fst d, snd c + snd d)
  /\ valid_pair gr c (fst c + fst d, snd c + snd d) = true.
Proof.
  unfold dir_call. cbv zeta. simpl fst. simpl snd.
  destruct (_ && _) eqn:E; [|intros []].
  intros [<-|[]]. rewrite !andb_true_iff in E. split; [reflexivity|].
  split; [|tauto]. unfold in_bounds. simpl. lia.
Qed.

Lemma in_nbr_calls gr c e :
  In e (nbr_calls gr c) ->
  exists d, In d SolverBellmanFord.directions /\ In e (dir_call gr c d).
Proof. unfold nbr_calls. intros H. now apply in_flat_map in H. Qed.

Lemma in_even_cells gr c :
  In c (even_cells gr) <->
  in_bounds gr c /\ black gr c = false /\ is_even c = true.
Proof.
  unfold even_cells. rewrite filter_In, in_scan_order, andb_true_iff,
    negb_true_iff. tauto.
Qed.

Lemma in_odd_cells gr c :
  In c (odd_cells gr) <->
  in_bounds gr c /\ black gr c = false /\ is_even c = false.
Proof.
  unfold odd_cells. rewrite filter_In, in_scan_order, andb_true_iff,
    !negb_true_iff. tauto.
Qed.

Lemma lvl_cell c : lvl (Cell c) = if is_even c then 1 else 2.
Proof. reflexivity. Qed.

Lemma in_network_calls gr e :
  In e (network_calls gr) ->
  (exists c, In c (even_cells gr) /\ e = (Source, Cell c, 1, 0))
  \/ (exists c d, In c (even_cells gr) /\ In d SolverBellmanFord.directions
                  /\ In e (dir_call gr c d))
  \/ (exists c, In c (odd_cells gr) /\ e = (Cell c, Sink, 1, 0)).
Proof.
  unfold network_calls. rewrite in_app_iff, in_flat_map, in_map_iff.
  intros [(c & Hc & [<-|He])|(c & <- & Hc)].
  - left. eauto.
  - right. left. apply in_nbr_calls in He as (d & Hd & He). eauto.
  - right. right. eauto.
Qed.

Lemma network_calls_good gr : Forall good_call (network_calls gr).
Proof.
  apply Forall_forall. intros e He.
  apply in_network_calls in He
    as [(c & Hc & ->)|[(c & d & Hc & Hd & He)|(c & Hc & ->)]].
  - apply in_even_cells in Hc as (_ & _ & Hev).
    unfold good_call, call_src, call_dst. simpl fst. simpl snd.
    rewrite lvl_cell, Hev. simpl. lia.
  - apply in_even_cells in Hc as (_ & _ & Hev).
    apply in_dir_call in He as (-> & _ & _).
    unfold good_call, call_src, call_dst. simpl fst. simpl snd.
    rewrite !lvl_cell, (neighbour_parity c d Hd), Hev. simpl.
    unfold pair_cost. lia.
  - apply in_odd_cells in Hc as (_ & _ & Hev).
    unfold good_call, call_src, call_dst. simpl fst. simpl snd.
    rewrite lvl_cell, Hev. simpl. lia.
Qed.

Lemma NoDup_directions : NoDup SolverBellmanFord.directions.
Proof.
  unfold SolverBellmanFord.directions.
  repeat constructor; simpl; intuition discriminate.
Qed.

Lemma nbr_calls_nodup gr c : NoDup (map endpoints (nbr_calls gr c)).
Proof.
  unfold nbr_calls. rewrite flat_map_concat_map, concat_map, map_map.
  rewrite <- flat_map_concat_map.
  apply NoDup_flat_map.
  - apply NoDup_directions.
  - intros d _. unfold dir_call. cbv zeta. destruct (_ && _); simpl;
      repeat constructor; intros [].
  - intros d d' z _ _ Hz Hz'.
    apply in_map_iff in Hz as (e & <- & He).
    apply in_map_iff in Hz' as (e' & E & He').
    apply in_dir_call in He as (-> & _). apply in_dir_call in He' as (-> & _).
    unfold endpoints, call_src, call_dst in E. simpl in E.
    injection E as E1 E2. destruct d, d'. simpl in *. f_equal; lia.
Qed.

Lemma network_calls_nodup gr : NoDup (map endpoints (network_calls gr)).
Proof.
  unfold network_calls. rewrite map_app. apply NoDup_app.
  - rewrite flat_map_concat_map, concat_map, map_map.
    rewrite <- flat_map_concat_map.
    apply NoDup_flat_map.
    + unfold even_cells. apply NoDup_filter, NoDup_scan_order.
    + intros c _. cbn [map]. constructor; [|apply nbr_calls_nodup].
      intros H. apply in_map_iff in H as (e & E & He).
      apply in_nbr_calls in He as (d & _ & He).
      apply in_dir_call in He as (-> & _). discriminate.
    + intros c c' z _ _ Hz Hz'. cbn [map] in Hz, Hz'.
      assert (Hc : forall x, In z (endpoints (Source, Cell x, 1, 0)
                                   :: map endpoints (nbr_calls gr x)) ->
                             z = (Source, Cell x) \/ fst z = Cell x).
      { intros x [<-|H]; [now left|]. right.
        apply in_map_iff in H as (e & <- & He).
        apply in_nbr_calls in He as (d & _ & He).
        apply in_dir_call in He as (-> & _). reflexivity. }
      destruct (Hc c Hz) as [E|E], (Hc c' Hz') as [E'|E']; subst;
        simpl in *; congruence.
  - rewrite map_map. apply Finite.Injective_map_NoDup.
    + intros a b E. unfold endpoints, call_src, call_dst in E. simpl in E.
      congruence.
    + unfold odd_cells. apply NoDup_filter, NoDup_scan_order.
  - intros z Hz Hz'.
    apply in_map_iff in Hz' as (e' & <- & He').
    apply in_map_iff in He' as (c' & <- & _).
    apply in_map_iff in Hz as (e & E & He).
    apply in_flat_map in He as (c & _ & [<-|He]); [discriminate|].
    apply in_nbr_calls in He as (d & _ & He).
    apply in_dir_call in He as (-> & _). discriminate.
Qed.

Lemma build_graph_built gr s :
  wf gr -> coherent gr s -> SolverBellmanFord.graph s = Graph.init ->
  exists s',
    SolverBellmanFord.build_graph s = (Ok tt, s')
    /\ coherent gr s'
    /\ SolverBellmanFord.pairs s' = SolverBellmanFord.pairs s
    /\ built (network_calls gr) (SolverBellmanFord.graph s').
Proof.
  intros Hwf Hco Hg.
  destruct (build_graph_spec gr s Hwf Hco) as (s' & E & C & A & Ea & P).
  { rewrite Hg. apply aligned_init. }
  exists s'. split; [exact E|]. split; [exact C|]. split; [exact P|].
  destruct (add_edges_built (network_calls gr) [] Graph.init built_init
                            (network_calls_good gr) (network_calls_nodup gr))
    as (g' & Eg & B).
  rewrite Hg in Ea. simpl in B. congruence.
Qed.

(** ** The loop keeps the invariants in every outcome *)

Lemma get2_not_out_of_fuel {V} (d : Dict.t node (Dict.t node V)) u v :
  get2 d u v <> OutOfFuel.
Proof. rewrite get2_entry. destruct (entry d u v); discriminate. Qed.

Lemma set2_not_out_of_fuel {V} (d : Dict.t node (Dict.t node V)) u v (x : V) :
  set2 d u v x <> OutOfFuel.
Proof.
  unfold set2, Dict.lookup. destruct (Dict.get d u); discriminate.
Qed.

Lemma push_edge_not_out_of_fuel f e total g :
  fst (Graph.push_edge f e total g) <> OutOfFuel.
Proof.
  unfold Graph.push_edge. destruct e as [u v].
  destruct (get2 (Graph.flow g) u v) as [x| |] eqn:E1; simpl;
    try discriminate; [|now apply get2_not_out_of_fuel in E1].
  destruct (set2 (Graph.flow g) u v (x + f)) as [d1| |] eqn:E2; simpl;
    try discriminate; [|now apply set2_not_out_of_fuel in E2].
  destruct (get2 d1 v u) as [y| |] eqn:E3; simpl;
    try discriminate; [|now apply get2_not_out_of_fuel in E3].
  destruct (set2 d1 v u (y - f)) as [d2| |] eqn:E4; simpl;
    try discriminate; [|now apply set2_not_out_of_fuel in E4].
  destruct (get2 (Graph.cost g) u v) as [c| |] eqn:E5; simpl;
    try discriminate. now apply get2_not_out_of_fuel in E5.
Qed.

Lemma push_path_not_out_of_fuel f path : forall total g,
  fst (Graph.push_path f path total g) <> OutOfFuel.
Proof.
  induction path as [|e r IH]; intros total g; simpl; [discriminate|].
  unfold bindS. pose proof (push_edge_not_out_of_fuel f e total g) as H.
  destruct (Graph.push_edge f e total g) as [[t| |] g1]; simpl in *;
    try discriminate; [apply IH|congruence].
Qed.

Lemma mcf_iter_out_of_fuel fuel source sink total g :
  fst (Graph.mcf_iter fuel source sink total g) = OutOfFuel ->
  snd (Graph.mcf_iter fuel source sink total g) = g.
Proof.
  unfold Graph.mcf_iter, bindS, getS, liftS, retS.
  destruct (Graph.bellman_ford fuel g source sink) as [[dist pred]| |];
    simpl; auto.
  destruct (Dict.lookup dist sink) as [ds| |]; simpl; auto.
  destruct (ext_eqb ds Inf); simpl; auto.
  destruct (Graph.walk fuel g pred source sink [] Inf) as [[path fl]| |];
    simpl; auto.
  destruct fl as [f|]; simpl; auto.
  destruct (f =? 0); simpl; auto.
  pose proof (push_path_not_out_of_fuel f path total g) as H.
  destruct (Graph.push_path f path total g) as [[t| |] g1]; simpl in *;
    try discriminate. congruence.
Qed.

Lemma mcf_iter_outcome_any g pot fuel total :
  net g -> flow_inv g -> feasible g Source pot ->
  fst (Graph.mcf_iter fuel Source Sink total g) <> OutOfFuel ->
  iter_outcome g (Graph.mcf_iter fuel Source Sink total g).
Proof.
  intros Hnet Hflow Hpot Hne.
  destruct (in_dec node_eq_dec Source (nodes g)) as [Hs|Hs].
  - destruct (mcf_iter_spec g pot Hnet Hflow Hpot Hs) as [fuel0 H].
    specialize (H (Nat.max fuel fuel0) ltac:(lia) total).
    rewrite (mcf_iter_mono fuel (Nat.max fuel fuel0)) in H by (auto; lia).
    exact H.
  - destruct fuel as [|fuel].
    + exfalso. apply Hne. unfold Graph.mcf_iter, bindS, getS, liftS.
      reflexivity.
    + rewrite (mcf_iter_no_source g fuel Sink total Hnet Hs).
      unfold iter_outcome. reflexivity.
Qed.

(** The invariants of the augmentation loop. *)
Definition mcf_inv (g0 g : Graph.t) : Prop :=
  static_part g = static_part g0 /\ flow_inv g
  /\ exists pot, feasible g Source pot.

Lemma mcf_iter_inv g0 fuel total :
  net g0 ->
  preserves (mcf_inv g0) (Graph.mcf_iter fuel Source Sink total).
Proof.
  intros Hnet g (Hst & Hflow & pot & Hpot).
  pose proof (net_static g0 g (eq_sym Hst) Hnet) as Hnet'.
  destruct (fst (Graph.mcf_iter fuel Source Sink total g)) as [r| |] eqn:E.
  - assert (Hne : fst (Graph.mcf_iter fuel Source Sink total g) <> OutOfFuel)
      by congruence.
    pose proof (mcf_iter_outcome_any g pot fuel total Hnet' Hflow Hpot Hne) as H.
    unfold iter_outcome in H. rewrite E in H. destruct r as [t|].
    + destruct H as (Hst' & Hfl' & Hpot' & _).
      split; [congruence|]. split; assumption.
    + rewrite H. split; [exact Hst|]. split; eauto.
  - assert (Hne : fst (Graph.mcf_iter fuel Source Sink total g) <> OutOfFuel)
      by congruence.
    pose proof (mcf_iter_outcome_any g pot fuel total Hnet' Hflow Hpot Hne) as H.
    unfold iter_outcome in H. rewrite E in H.
    rewrite H. split; [exact Hst|]. split; eauto.
  - rewrite (mcf_iter_out_of_fuel _ _ _ _ _ E). split; [exact Hst|].
    split; eauto.
Qed.

Lemma mcf_loop_inv g0 iters fuel : forall total,
  net g0 ->
  preserves (mcf_inv g0) (Graph.mcf_loop iters fuel Source Sink total).
Proof.
  induction iters as [|k IH]; intros total Hnet; simpl.
  - apply preserves_lift.
  - apply preserves_bind; [now apply mcf_iter_inv|]. intros [t|].
    + now apply IH.
    + apply preserves_ret.
Qed.

(** ** The edges that carry one unit of flow *)

Definition adj_or_nil (g : Graph.t) (u : node) : list node :=
  match adj g u with Some l => l | None => [] end.

Definition unit_edge (g : Graph.t) (source sink u v : node)
  : list (node * node) :=
  if negb (node_eqb v source) && negb (node_eqb v sink)
     && match flw g u v with Some f => f =? 1 | None => false end
  then [(u, v)] else [].

Definition unit_edges_from (g : Graph.t) (source sink u : node)
  : list (node * node) :=
  if node_eqb u source || node_eqb u sink then []
  else flat_map (unit_edge g source sink u) (adj_or_nil g u).

(** The non-sentinel edges of the network with flow 1, in the order of the
    final double loop of [min_cost_flow]. *)
Definition unit_flow_edges (g : Graph.t) (source sink : node)
  : list (node * node) :=
  flat_map (unit_edges_from g source sink) (nodes g).

Lemma collect_spec g source sink :
  net g -> flow_inv g ->
  Graph.collect g source sink = Ok (unit_flow_edges g source sink).
Proof.
  intros Hnet Hflow. unfold Graph.collect, unit_flow_edges.
  fold (nodes g).
  rewrite (for_each_append (unit_edges_from g source sink)); [reflexivity|].
  intros u pairs Hu. unfold Graph.collect_from, unit_edges_from.
  destruct (node_eqb u source || node_eqb u sink); [now rewrite app_nil_r|].
  destruct (net_adj_some g u Hnet Hu) as [l El].
  unfold adj_or_nil. rewrite El. unfold adj in El. unfold Dict.lookup.
  rewrite El. simpl.
  apply for_each_append. intros v ps Hv. unfold unit_edge.
  destruct (negb (node_eqb v source) && negb (node_eqb v sink));
    simpl; [|now rewrite app_nil_r].
  assert (Hc : cap g u v <> None) by now apply (net_adj_iff Hnet u l v El).
  apply (fi_dom Hflow) in Hc. rewrite get2_entry. unfold flw in *.
  destruct (entry (Graph.flow g) u v) as [f|]; [|congruence]. simpl.
  destruct (f =? 1); [reflexivity|now rewrite app_nil_r].
Qed.

Lemma in_unit_flow_edges g source sink u v :
  In (u, v) (unit_flow_edges g source sink) <->
  In u (nodes g) /\ u <> source /\ u <> sink
  /\ In v (adj_or_nil g u) /\ v <> source /\ v <> sink
  /\ flw g u v = Some 1.
Proof.
  unfold unit_flow_edges. rewrite in_flat_map. split.
  - intros (x & Hx & H). unfold unit_edges_from in H.
    destruct (node_eqb_spec x source) as [|Ns]; simpl in H; [destruct H|].
    destruct (node_eqb_spec x sink) as [|Nt]; simpl in H; [destruct H|].
    apply in_flat_map in H as (y & Hy & H). unfold unit_edge in H.
    destruct (node_eqb_spec y source) as [|Ns']; simpl in H; [destruct H|].
    destruct (node_eqb_spec y sink) as [|Nt']; simpl in H; [destruct H|].
    destruct (flw g x y) as [f|] eqn:Ef; [|destruct H].
    destruct (Z.eqb_spec f 1) as [->|]; [|destruct H].
    destruct H as [H|[]]. injection H as <- <-. auto 10.
  - intros (Hu & Ns & Nt & Hv & Ns' & Nt' & Hf). exists u. split; [exact Hu|].
    unfold unit_edges_from.
    destruct (node_eqb_spec u source); [congruence|].
    destruct (node_eqb_spec u sink); [congruence|]. simpl.
    apply in_flat_map. exists v. split; [exact Hv|]. unfold unit_edge.
    destruct (node_eqb_spec v source); [congruence|].
    destruct (node_eqb_spec v sink); [congruence|]. simpl.
    rewrite Hf. simpl. now left.
Qed.

Lemma NoDup_unit_flow_edges g source sink :
  net g -> NoDup (unit_flow_edges g source sink).
Proof.
  intros Hnet. unfold unit_flow_edges. apply NoDup_flat_map.
  - apply (net_nodes_nodup Hnet).
  - intros u _. unfold unit_edges_from.
    destruct (_ || _); [constructor|].
    apply NoDup_flat_map.
    + unfold adj_or_nil. destruct (adj g u) as [l|] eqn:El; [|constructor].
      apply (net_adj_nodup Hnet u l El).
    + intros v _. unfold unit_edge. destruct (_ && _); repeat constructor.
      intros [].
    + intros v v' z _ _ Hz Hz'. unfold unit_edge in *.
      destruct (_ && _) in Hz; [|destruct Hz].
      destruct (_ && _) in Hz'; [|destruct Hz'].
      destruct Hz as [<-|[]], Hz' as [E|[]]. congruence.
  - intros u u' z _ _ Hz Hz'.
    assert (H : forall x, In z (unit_edges_from g source sink x) -> fst z = x).
    { intros x Hx. unfold unit_edges_from in Hx.
      destruct (_ || _); [destruct Hx|].
      apply in_flat_map in Hx as (y & _ & Hy). unfold unit_edge in Hy.
      destruct (_ && _); [|destruct Hy]. destruct Hy as [<-|[]]. reflexivity. }
    rewrite <- (H u Hz), <- (H u' Hz'). reflexivity.
Qed.

(** *** Each cell carries at most one unit *)

Lemma zsum_le {A} (F G : A -> Z) (l : list A) :
  (forall y, In y l -> G y <= F y) -> zsum (map G l) <= zsum (map F l).
Proof.
  induction l as [|a r IH]; intros H; simpl; [lia|].
  assert (G a <= F a) by (apply H; now left).
  assert (zsum (map G r) <= zsum (map F r))
    by (apply IH; intros; apply H; now right).
  lia.
Qed.

Lemma zsum_map_opp {A} (F : A -> Z) (l : list A) :
  zsum (map (fun x => - F x) l) = - zsum (map F l).
Proof. induction l; simpl; lia. Qed.

Lemma zsum_two_ones (F : node -> Z) (l : list node) (s b b' : node) :
  NoDup l -> In b l -> In b' l -> b <> b' -> b <> s -> b' <> s ->
  F b = 1 -> F b' = 1 ->
  (forall y, In y l -> y <> s -> 0 <= F y) ->
  (In s l -> -1 <= F s) ->
  1 <= zsum (map F l).
Proof.
  intros Hnd Hb Hb' Hbb Hbs Hbs' Fb Fb' Hpos Hs.
  set (G := fun y => ind (node_eqb b y) + ind (node_eqb b' y)
                     + - ind (node_eqb s y)).
  assert (HG : zsum (map G l) <= zsum (map F l)).
  { apply zsum_le. intros y Hy. unfold G.
    destruct (node_eqb_spec b y) as [<-|N1].
    - destruct (node_eqb_spec b' b); [congruence|].
      destruct (node_eqb_spec s b); [congruence|]. simpl. lia.
    - destruct (node_eqb_spec b' y) as [<-|N2].
      + destruct (node_eqb_spec s b'); [congruence|]. simpl. lia.
      + destruct (node_eqb_spec s y) as [<-|N3]; simpl.
        * specialize (Hs Hy). lia.
        * specialize (Hpos y Hy ltac:(congruence)). lia. }
  assert (EG : zsum (map G l)
               = ind (existsb (node_eqb b) l) + ind (existsb (node_eqb b') l)
                 + - ind (existsb (node_eqb s) l)).
  { unfold G. rewrite !zsum_map_add, zsum_map_opp.
    rewrite !(zsum_indicator _ l Hnd). reflexivity. }
  apply existsb_node_in in Hb, Hb'. rewrite Hb, Hb' in EG. simpl in EG.
  destruct (existsb (node_eqb s) l); simpl in EG; lia.
Qed.

Lemma lvl_zero x : lvl x = 0 -> x = Source.
Proof.
  destruct x as [| |c]; simpl; try lia; auto. destruct (_ =? 0); lia.
Qed.

Lemma lvl_three x : lvl x = 3 -> x = Sink.
Proof.
  destruct x as [| |c]; simpl; try lia; auto. destruct (_ =? 0); lia.
Qed.

Section UnitFlow.

Variable g : Graph.t.
Hypothesis Hnet : net g.
Hypothesis Hflow : flow_inv g.

(** An edge with flow 1 is a forward edge. *)
Lemma unit_flow_forward x y :
  cap g x y <> None -> flw g x y = Some 1 ->
  cap g x y = Some 1 /\ lvl y = lvl x + 1.
Proof.
  intros Hc Hf. destruct (cap g x y) as [k|] eqn:Ek; [|congruence].
  pose proof (fi_cap Hflow x y 1 k Hf Ek).
  destruct (net_layer Hnet x y k Ek) as [(-> & Hl & _)|(-> & _)]; [auto|lia].
Qed.

Lemma flow_val_bounds x y :
  cap g x y <> None ->
  (lvl y = lvl x + 1 /\ 0 <= flow_val g x y <= 1)
  \/ (lvl x = lvl y + 1 /\ -1 <= flow_val g x y <= 0).
Proof.
  intros Hc. unfold flow_val.
  destruct (flw g x y) as [f|] eqn:Ef; [|now apply (fi_dom Hflow) in Hc].
  pose proof (fi_anti Hflow x y f Ef) as Er. fold (flw g y x) in Er.
  pose proof (net_cap_sym Hnet x y Hc) as Hc'.
  destruct (cap g x y) as [k|] eqn:Ek; [|congruence].
  destruct (cap g y x) as [k'|] eqn:Ek'; [|congruence].
  pose proof (fi_cap Hflow x y f k Ef Ek).
  pose proof (fi_cap Hflow y x (- f) k' Er Ek').
  destruct (net_layer Hnet x y k Ek) as [(-> & Hl & _)|(-> & Hl)];
    destruct (net_layer Hnet y x k' Ek') as [(-> & Hl' & _)|(-> & Hl')];
    lia.
Qed.

Lemma even_cell_one_out a b b' :
  is_even a = true ->
  cap g (Cell a) b <> None -> cap g (Cell a) b' <> None ->
  flw g (Cell a) b = Some 1 -> flw g (Cell a) b' = Some 1 -> b = b'.
Proof.
  intros Hev Hc Hc' Hf Hf'.
  destruct (node_eq_dec b b') as [|N]; [assumption|exfalso].
  assert (Hla : lvl (Cell a) = 1) by (rewrite lvl_cell, Hev; reflexivity).
  destruct (unit_flow_forward _ _ Hc Hf) as [_ Hl].
  destruct (unit_flow_forward _ _ Hc' Hf') as [_ Hl'].
  rewrite Hla in Hl, Hl'.
  assert (Hin : In (Cell a) (nodes g)) by apply (net_cap_nodes Hnet _ _ Hc).
  destruct (net_adj_some g _ Hnet Hin) as [l El].
  pose proof (fi_cons Hflow a) as Hcons. unfold net_out in Hcons.
  rewrite El in Hcons.
  assert (1 <= zsum (map (flow_val g (Cell a)) l)); [|lia].
  apply (zsum_two_ones _ l Source b b').
  - apply (net_adj_nodup Hnet _ l El).
  - now apply (net_adj_iff Hnet _ l b El).
  - now apply (net_adj_iff Hnet _ l b' El).
  - exact N.
  - intros ->. simpl in Hl. lia.
  - intros ->. simpl in Hl'. lia.
  - unfold flow_val. now rewrite Hf.
  - unfold flow_val. now rewrite Hf'.
  - intros y Hy Hys. apply (net_adj_iff Hnet _ l y El) in Hy.
    destruct (flow_val_bounds _ _ Hy) as [[_ H]|[H _]]; [lia|].
    exfalso. apply Hys. apply lvl_zero. lia.
  - intros Hs. apply (net_adj_iff Hnet _ l Source El) in Hs.
    destruct (flow_val_bounds _ _ Hs) as [[_ H]|[_ H]]; lia.
Qed.

Lemma odd_cell_one_in b a a' :
  is_even b = false ->
  cap g a (Cell b) <> None -> cap g a' (Cell b) <> None ->
  flw g a (Cell b) = Some 1 -> flw g a' (Cell b) = Some 1 -> a = a'.
Proof.
  intros Hev Hc Hc' Hf Hf'.
  destruct (node_eq_dec a a') as [|N]; [assumption|exfalso].
  assert (Hlb : lvl (Cell b) = 2) by (rewrite lvl_cell, Hev; reflexivity).
  destruct (unit_flow_forward _ _ Hc Hf) as [_ Hl].
  destruct (unit_flow_forward _ _ Hc' Hf') as [_ Hl'].
  rewrite Hlb in Hl, Hl'.
  assert (Hin : In (Cell b) (nodes g)) by apply (net_cap_nodes Hnet _ _ Hc).
  destruct (net_adj_some g _ Hnet Hin) as [l El].
  pose proof (fi_cons Hflow b) as Hcons. unfold net_out in Hcons.
  rewrite El in Hcons.
  assert (Hneg : zsum (map (fun y => - flow_val g (Cell b) y) l) = 0).
  { rewrite zsum_map_opp, Hcons. reflexivity. }
  assert (1 <= zsum (map (fun y => - flow_val g (Cell b) y) l)); [|lia].
  apply (zsum_two_ones _ l Sink a a').
  - apply (net_adj_nodup Hnet _ l El).
  - apply (net_adj_iff Hnet _ l a El). now apply (net_cap_sym Hnet).
  - apply (net_adj_iff Hnet _ l a' El). now apply (net_cap_sym Hnet).
  - exact N.
  - intros ->. simpl in Hl. lia.
  - intros ->. simpl in Hl'. lia.
  - unfold flow_val. pose proof (fi_anti Hflow _ _ _ Hf) as E.
    fold (flw g (Cell b) a) in E. rewrite E. reflexivity.
  - unfold flow_val. pose proof (fi_anti Hflow _ _ _ Hf') as E.
    fold (flw g (Cell b) a') in E. rewrite E. reflexivity.
  - intros y Hy Hys. apply (net_adj_iff Hnet _ l y El) in Hy.
    destruct (flow_val_bounds _ _ Hy) as [[H _]|[_ H]]; [|lia].
    exfalso. apply Hys. apply lvl_three. lia.
  - intros Hs. apply (net_adj_iff Hnet _ l Sink El) in Hs.
    destruct (flow_val_bounds _ _ Hs) as [[_ H]|[_ H]]; lia.
Qed.

End UnitFlow.

(** ** The pairing produced by the flow solver *)

Definition node_pair (p : pair) : node * node := (Cell (fst p), Cell (snd p)).

Definition cell_disjoint (p q : pair) : Prop :=
  fst p <> fst q /\ fst p <> snd q /\ snd p <> fst q /\ snd p <> snd q.

Lemma node_pair_inj p q : node_pair p = node_pair q -> p = q.
Proof.
  destruct p, q. unfold node_pair. simpl. intros E. now injection E as -> ->.
Qed.

Lemma pairs_of_nodes_ok (l : list (node * node)) :
  (forall u v, In (u, v) l ->
               u <> Source /\ u <> Sink /\ v <> Source /\ v <> Sink) ->
  exists ps, SolverBellmanFord.pairs_of_nodes l = Ok ps
             /\ map node_pair ps = l.
Proof.
  induction l as [|[u v] r IH]; intros H.
  - exists []. split; reflexivity.
  - destruct IH as (ps & E & M); [intros; apply H; now right|].
    destruct (H u v (or_introl eq_refl)) as (? & ? & ? & ?).
    destruct u as [| |a]; try congruence.
    destruct v as [| |b]; try congruence.
    exists ((a, b) :: ps). simpl. rewrite E. simpl.
    split; [reflexivity|]. now rewrite M.
Qed.

Lemma network_cell_call gr a b :
  has_call (network_calls gr) (Cell a) (Cell b) ->
  in_bounds gr a /\ in_bounds gr b /\ valid_pair gr a b = true.
Proof.
  intros (k & c & H).
  apply in_network_calls in H
    as [(x & _ & E)|[(x & d & Hx & _ & Hd)|(x & _ & E)]]; try discriminate.
  apply in_dir_call in Hd as (E & Hb & Hv).
  injection E as Ea Eb _ _. subst a b.
  apply in_even_cells in Hx as (Hin & _ & _). auto.
Qed.

Lemma cap_static g g' x y :
  static_part g' = static_part g -> cap g' x y = cap g x y.
Proof.
  unfold static_part, cap. intros E. injection E as -> _ _ _. reflexivity.
Qed.

Lemma adj_static g g' x :
  static_part g' = static_part g -> adj g' x = adj g x.
Proof.
  unfold static_part, adj. intros E. injection E as _ _ _ ->. reflexivity.
Qed.

Section FlowPairs.

Variable gr : Grid.t.
Variables g1 g2 : Graph.t.
Hypothesis Hbuilt : built (network_calls gr) g1.
Hypothesis Hinv : mcf_inv g1 g2.

Lemma flow_pairs_net : net g2.
Proof.
  destruct Hinv as (Hs & _). apply (net_static g1 g2); [now symmetry|].
  apply (b_net Hbuilt).
Qed.

Lemma unit_edge_facts a b :
  In (Cell a, Cell b) (unit_flow_edges g2 Source Sink) ->
  cap g2 (Cell a) (Cell b) <> None /\ flw g2 (Cell a) (Cell b) = Some 1
  /\ is_even a = true /\ is_even b = false
  /\ in_bounds gr a /\ in_bounds gr b /\ valid_pair gr a b = true.
Proof.
  intros H. pose proof flow_pairs_net as Hnet.
  destruct Hinv as (Hs & Hflow & _).
  apply in_unit_flow_edges in H as (_ & _ & _ & Hv & _ & _ & Hf).
  assert (Hc : cap g2 (Cell a) (Cell b) <> None).
  { unfold adj_or_nil in Hv.
    destruct (adj g2 (Cell a)) as [l|] eqn:El; [|destruct Hv].
    now apply (net_adj_iff Hnet _ l _ El). }
  destruct (unit_flow_forward g2 Hnet Hflow _ _ Hc Hf) as [Hk Hl].
  rewrite !lvl_cell in Hl.
  rewrite (cap_static g1 g2 _ _ Hs) in Hk.
  apply (b_cap_one Hbuilt) in Hk. apply network_cell_call in Hk.
  split; [exact Hc|]. split; [exact Hf|].
  destruct (is_even a), (is_even b); try lia. tauto.
Qed.

Lemma flow_pairs_valid ps :
  map node_pair ps = unit_flow_edges g2 Source Sink ->
  NoDup ps
  /\ (forall p q, In p ps -> In q ps -> p <> q -> cell_disjoint p q)
  /\ (forall p, In p ps ->
        fst p <> snd p /\ in_bounds gr (fst p) /\ in_bounds gr (snd p)
        /\ valid_pair gr (fst p) (snd p) = true).
Proof.
  intros M. pose proof flow_pairs_net as Hnet.
  assert (Hflow : flow_inv g2) by apply Hinv.
  assert (F : forall p, In p ps ->
                In (Cell (fst p), Cell (snd p))
                   (unit_flow_edges g2 Source Sink)).
  { intros p Hp. rewrite <- M. apply (in_map node_pair _ _ Hp). }
  split; [|split].
  - apply (NoDup_map_inv node_pair). rewrite M.
    now apply NoDup_unit_flow_edges.
  - intros [a b] [a' b'] Hp Hq N. unfold cell_disjoint.
    apply F, unit_edge_facts in Hp as (Hc & Hf & Ha & Hb & _).
    apply F, unit_edge_facts in Hq as (Hc' & Hf' & Ha' & Hb' & _).
    simpl in *. repeat split.
    + intros <-.
      pose proof (even_cell_one_out g2 Hnet Hflow a _ _ Ha Hc Hc' Hf Hf').
      congruence.
    + intros <-. congruence.
    + intros <-. congruence.
    + intros <-.
      pose proof (odd_cell_one_in g2 Hnet Hflow b _ _ Hb Hc Hc' Hf Hf').
      congruence.
  - intros [a b] Hp.
    apply F, unit_edge_facts in Hp as (_ & _ & Ha & Hb & H). simpl in *.
    split; [|exact H]. intros <-. congruence.
Qed.

End FlowPairs.

(** *** What [run] does, step by step *)

(** The solver as [run] resets it. *)
Definition reset (s : SolverBellmanFord.t) : SolverBellmanFord.t :=
  SolverBellmanFord.mk (SolverBellmanFord.grid s) [] Graph.init
                       Dict.empty Dict.empty.

Lemma reset_coherent s : coherent (SolverBellmanFord.grid s) (reset s).
Proof. split; [reflexivity|]. split; intros ? ? E; discriminate E. Qed.

Lemma run_outcome fuel s :
  wf (SolverBellmanFord.grid s) ->
  let gr := SolverBellmanFord.grid s in
  exists s1,
    SolverBellmanFord.build_graph (reset s) = (Ok tt, s1)
    /\ built (network_calls gr) (SolverBellmanFord.graph s1)
    /\ SolverBellmanFord.grid s1 = gr
    /\ let rg := Graph.mcf_loop fuel fuel Source Sink 0
                                (SolverBellmanFord.graph s1) in
       mcf_inv (SolverBellmanFord.graph s1) (snd rg)
       /\ match fst rg with
          | Ok _ =>
              exists ps,
                map node_pair ps = unit_flow_edges (snd rg) Source Sink
                /\ SolverBellmanFord.run fuel s
                   = (Ok (score_value gr ps),
                      SolverBellmanFord.set_pairs
                        (SolverBellmanFord.set_graph s1 (snd rg)) ps)
          | Raise e =>
              SolverBellmanFord.run fuel s
              = (Raise e, SolverBellmanFord.set_graph s1 (snd rg))
          | OutOfFuel =>
              SolverBellmanFord.run fuel s
              = (OutOfFuel, SolverBellmanFord.set_graph s1 (snd rg))
          end.
Proof.
  intros Hwf gr.
  destruct (build_graph_built gr (reset s) Hwf (reset_coherent s) eq_refl)
    as (s1 & Eb & Hco & _ & Hbuilt).
  exists s1. split; [exact Eb|]. split; [exact Hbuilt|].
  split; [apply Hco|]. intros rg.
  assert (Hinv0 : mcf_inv (SolverBellmanFord.graph s1)
                          (SolverBellmanFord.graph s1)).
  { split; [reflexivity|]. split; [apply (built_flow_inv _ _ Hbuilt)|].
    eexists. apply (built_feasible _ _ Hbuilt). }
  pose proof (mcf_loop_inv (SolverBellmanFord.graph s1) fuel fuel 0
                (b_net Hbuilt) _ Hinv0) as Hinv.
  fold rg in Hinv. split; [exact Hinv|].
  assert (Erun : SolverBellmanFord.run fuel s
                 = (SolverBellmanFord.build_graph ;;~
                    r <~ zoomS SolverBellmanFord.graph
                           SolverBellmanFord.set_graph
                           (Graph.min_cost_flow fuel fuel Source Sink) ;;
                    ps <~ liftS (SolverBellmanFord.pairs_of_nodes (snd r)) ;;
                    modifyS (fun s => SolverBellmanFord.set_pairs s ps) ;;~
                    s <~ getS ;; liftS (SolverBellmanFord.score s))%py
                     (reset s)) by reflexivity.
  assert (Erun' : SolverBellmanFord.run fuel s
                  = match Graph.min_cost_flow fuel fuel Source Sink
                            (SolverBellmanFord.graph s1) with
                    | (Ok r, g2) =>
                        (ps <~ liftS (SolverBellmanFord.pairs_of_nodes (snd r)) ;;
                         modifyS (fun s => SolverBellmanFord.set_pairs s ps) ;;~
                         s <~ getS ;; liftS (SolverBellmanFord.score s))%py
                          (SolverBellmanFord.set_graph s1 g2)
                    | (Raise e, g2) =>
                        (Raise e, SolverBellmanFord.set_graph s1 g2)
                    | (OutOfFuel, g2) =>
                        (OutOfFuel, SolverBellmanFord.set_graph s1 g2)
                    end).
  { rewrite Erun. unfold bindS at 1. rewrite Eb.
    unfold bindS at 1. unfold zoomS.
    destruct (Graph.min_cost_flow fuel fuel Source Sink
                (SolverBellmanFord.graph s1)) as [[r| |] g2]; reflexivity. }
  clear Erun. unfold Graph.min_cost_flow in Erun'.
  unfold bindS at 1 in Erun'. fold rg in Erun'.
  destruct rg as [[total| |] g2] eqn:Erg; clear Erg; cbn [fst snd] in *;
    try exact Erun'.
  assert (Hnet : net g2).
  { apply (net_static (SolverBellmanFord.graph s1)); [|apply (b_net Hbuilt)].
    symmetry. apply Hinv. }
  assert (Hflow : flow_inv g2) by apply Hinv.
  destruct (pairs_of_nodes_ok (unit_flow_edges g2 Source Sink))
    as (ps & Eps & M).
  { intros u v Huv. apply in_unit_flow_edges in Huv. tauto. }
  exists ps. split; [exact M|]. rewrite Erun'.
  unfold bindS, getS, liftS, retS, modifyS.
  rewrite (collect_spec g2 Source Sink Hnet Hflow). simpl.
  rewrite Eps. unfold SolverBellmanFord.score, Solver.score. simpl.
  assert (Eg : SolverBellmanFord.grid s1 = gr) by apply Hco.
  rewrite Eg. rewrite score_of_wf; [reflexivity|exact Hwf|].
  intros p Hp.
  destruct (flow_pairs_valid gr _ g2 Hbuilt Hinv ps M) as (_ & _ & H).
  destruct (H p Hp) as (_ & ? & ? & _). auto.
Qed.

(** When [SolverBellmanFord.run] returns on a well-formed grid, the
    pairs it leaves in [self.pairs] form a valid pairing: the list has no
    repetition, two different pairs share no cell and no pair repeats a
    cell, every pair passes [Grid.test_pair], and the pairs are exactly the
    edges [(u, v)] of the network held by the solver after [min_cost_flow],
    with neither end a sentinel, whose flow [flow[u][v]] is 1 (listed in the
    order of the final double loop).  The returned score is the score of
    that pairing. *)
Lemma run_ok_pairing
        (fuel : nat) (s s' : SolverBellmanFord.t) (sc : Z) :
  wf (SolverBellmanFord.grid s) ->
  SolverBellmanFord.run fuel s = (Ok sc, s') ->
  let gr := SolverBellmanFord.grid s in
  let ps := SolverBellmanFord.pairs s' in
  let g := SolverBellmanFord.graph s' in
  NoDup ps
  /\ (forall p q, In p ps -> In q ps -> p <> q -> cell_disjoint p q)
  /\ (forall p, In p ps -> fst p <> snd p)
  /\ (forall p, In p ps -> Grid.test_pair gr (fst p) (snd p) = Ok true)
  /\ (forall u v,
        In (u, v) (map node_pair ps) <->
        u <> Source /\ u <> Sink /\ v <> Source /\ v <> Sink
        /\ (exists l, Dict.get (Graph.adj_list g) u = Some l /\ In v l)
        /\ get2 (Graph.flow g) u v = Ok 1)
  /\ map node_pair ps = unit_flow_edges g Source Sink
  /\ sc = score_value gr ps.
Proof.
  intros Hwf Hrun gr ps g.
  destruct (run_outcome fuel s Hwf) as (s1 & _ & Hbuilt & _ & Hinv & Hm).
  cbv zeta in Hinv, Hm. fold gr in Hbuilt, Hm.
  destruct (fst (Graph.mcf_loop fuel fuel Source Sink 0
                   (SolverBellmanFord.graph s1))) as [total|e|];
    [|rewrite Hm in Hrun; discriminate Hrun..].
  destruct Hm as (ps' & M & Erun). rewrite Erun in Hrun.
  injection Hrun as Esc Es'. subst ps g. rewrite <- Es'. simpl.
  set (g2 := snd (Graph.mcf_loop fuel fuel Source Sink 0
                    (SolverBellmanFord.graph s1))) in *.
  pose proof (flow_pairs_net gr _ g2 Hbuilt Hinv) as Hnet.
  destruct (flow_pairs_valid gr _ g2 Hbuilt Hinv ps' M) as (Hnd & Hdis & Hv).
  split; [exact Hnd|]. split; [exact Hdis|].
  split; [intros p Hp; apply (Hv p Hp)|].
  split.
  { intros p Hp. destruct (Hv p Hp) as (_ & H1 & H2 & H3).
    rewrite (test_pair_wf gr _ _ Hwf H1 H2), H3. reflexivity. }
  split; [|split; [exact M|now symmetry]].
  intros u v. rewrite M, in_unit_flow_edges, get2_entry.
  fold (flw g2 u v). unfold adj_or_nil. fold (adj g2 u). split.
  - intros (_ & ? & ? & Hin & ? & ? & Hf). rewrite Hf.
    repeat (split; [assumption|]). split; [|reflexivity].
    destruct (adj g2 u) as [l|]; [|destruct Hin]. now exists l.
  - intros (? & ? & ? & ? & (l & El & Hin) & Hf).
    split; [apply (net_adj_dom Hnet); congruence|].
    repeat (split; [assumption|]). rewrite El. split; [exact Hin|].
    repeat (split; [assumption|]).
    destruct (flw g2 u v); [congruence|discriminate Hf].
Qed.

(** ** Termination of the augmentation loop *)

Lemma network_source_calls gr :
  zsum (map (fun e => ind (node_eqb (call_src e) Source)) (network_calls gr))
  = Z.of_nat (length (even_cells gr)).
Proof.
  unfold network_calls. rewrite map_app, zsum_app.
  rewrite (zsum_map_zero _ (map _ (odd_cells gr))).
  2:{ intros e He. apply in_map_iff in He as (c & <- & _). reflexivity. }
  rewrite Z.add_0_r.
  induction (even_cells gr) as [|c r IH]; [reflexivity|].
  cbn [flat_map]. rewrite map_app, zsum_app, IH.
  cbn [map zsum fold_right length]. fold (zsum (map
    (fun e => ind (node_eqb (call_src e) Source)) (nbr_calls gr c))).
  rewrite (zsum_map_zero _ (nbr_calls gr c)).
  2:{ intros e He. apply in_nbr_calls in He as (d & _ & Hd).
      apply in_dir_call in Hd as (-> & _). reflexivity. }
  change (call_src (Source, Cell c, 1, 0)) with Source.
  change (ind (node_eqb Source Source)) with 1. lia.
Qed.

Lemma built_even_degree gr g :
  built (network_calls gr) g -> source_degree g = length (even_cells gr).
Proof.
  intros Hb. apply Nat2Z.inj.
  rewrite (built_source_degree _ _ Hb (network_calls_good gr)).
  apply network_source_calls.
Qed.

(** C6: on the network that [build_graph] builds for a well-formed grid
    (from the empty graph, with caches that agree with the grid, as [run]
    sets them up), the [while True] loop of [min_cost_flow] terminates.
    With [I gk] the loop invariant [mcf_inv g gk] (same edges as the built
    network [g], a flow within the capacities that is conserved at the
    cells, no negative residual cycle):
    - [I] holds of the built network and every iteration keeps it;
    - under [I], an iteration either stops and leaves the graph as it is
      ([break], or [KeyError] when a sentinel is missing from the network),
      or pushes [f >= 1] units: the flow out of the source grows by [f] and
      the flow out of the sink decreases by [f];
    - under [I], the flow out of the source is at most the number of even
      non-black cells, and it is 0 at the start;
    - so the loop ends within that many augmentations: cut after any larger
      number of iterations, it has already ended;
    - and [run] itself ends, with a result or an exception. *)
Theorem C6_augmentation_terminates (gr : Grid.t) (s : SolverBellmanFord.t) :
  wf gr -> coherent gr s -> SolverBellmanFord.graph s = Graph.init ->
  exists s1,
    SolverBellmanFord.build_graph s = (Ok tt, s1)
    /\ let g := SolverBellmanFord.graph s1 in
       let evens := length (even_cells gr) in
       mcf_inv g g
       /\ (forall gk fuel total,
             mcf_inv g gk ->
             mcf_inv g (snd (Graph.mcf_iter fuel Source Sink total gk)))
       /\ (forall gk,
             mcf_inv g gk ->
             exists fuel, forall fuel' total, (fuel <= fuel')%nat ->
               iter_outcome gk (Graph.mcf_iter fuel' Source Sink total gk))
       /\ net_out g Source = 0
       /\ (forall gk, mcf_inv g gk -> net_out gk Source <= Z.of_nat evens)
       /\ (forall total, exists fuel, forall fuel' iters,
             (fuel <= fuel')%nat -> (evens < iters)%nat ->
             fst (Graph.mcf_loop iters fuel' Source Sink total g)
             <> OutOfFuel)
       /\ (exists fuel, forall fuel', (fuel <= fuel')%nat ->
             fst (SolverBellmanFord.run fuel' s) <> OutOfFuel).
Proof.
  intros Hwf Hco Hinit.
  destruct (build_graph_built gr s Hwf Hco Hinit)
    as (s1 & Eb & Hco1 & _ & Hbuilt).
  exists s1. split; [exact Eb|]. intros g evens.
  pose proof (b_net Hbuilt) as Hnet.
  pose proof (built_flow_inv _ _ Hbuilt) as Hflow.
  pose proof (built_feasible _ _ Hbuilt) as Hfeas.
  pose proof (built_even_degree gr g Hbuilt) as Hdeg.
  pose proof (built_net_out_zero _ _ Source Hbuilt) as Hzero.
  fold g in Hnet, Hflow, Hfeas, Hzero.
  assert (Hterm : forall total, exists fuel, forall fuel' iters,
             (fuel <= fuel')%nat -> (evens < iters)%nat ->
             fst (Graph.mcf_loop iters fuel' Source Sink total g)
             <> OutOfFuel).
  { intros total. apply mcf_loop_terminates; try assumption.
    - eexists; exact Hfeas.
    - rewrite Hdeg, Hzero. fold evens. lia. }
  split; [split; [reflexivity|split; [exact Hflow|eexists; exact Hfeas]]|].
  split; [intros gk fuel total; apply (mcf_iter_inv g fuel total Hnet)|].
  split.
  { intros gk (Hs & Hfl & pot & Hp).
    assert (Hnk : net gk) by (apply (net_static g gk); [now symmetry|exact Hnet]).
    destruct (in_dec node_eq_dec Source (nodes gk)) as [Hin|Hout].
    - destruct (mcf_iter_spec gk pot Hnk Hfl Hp Hin) as (fuel & H).
      exists fuel. intros fuel' total Hle. now apply H.
    - exists 1%nat. intros fuel' total Hle.
      destruct fuel' as [|n]; [lia|].
      rewrite (mcf_iter_no_source gk n Sink total Hnk Hout). reflexivity. }
  split; [exact Hzero|].
  split.
  { intros gk (Hs & Hfl & _).
    assert (Hnk : net gk) by (apply (net_static g gk); [now symmetry|exact Hnet]).
    pose proof (net_out_bound gk Hnk Hfl) as H.
    rewrite (source_degree_static g gk Hs), Hdeg in H. exact H. }
  split; [exact Hterm|].
  destruct Hco as (Egr & _). subst gr.
  destruct (run_outcome 0 s Hwf) as (s2 & Eb2 & Hbuilt2 & _).
  cbv zeta in Hbuilt2.
  set (g2 := SolverBellmanFord.graph s2) in *.
  destruct (mcf_loop_terminates (length (even_cells (SolverBellmanFord.grid s)))
              g2 0 (b_net Hbuilt2) (built_flow_inv _ _ Hbuilt2)
              (ex_intro _ _ (built_feasible _ _ Hbuilt2)))
    as (fuel & Hfuel).
  { rewrite (built_even_degree _ g2 Hbuilt2),
      (built_net_out_zero _ _ Source Hbuilt2). lia. }
  exists (Nat.max fuel (S (length (even_cells (SolverBellmanFord.grid s))))).
  intros fuel' Hle.
  destruct (run_outcome fuel' s Hwf) as (s3 & Eb3 & _ & _ & _ & Hm).
  rewrite Eb2 in Eb3. injection Eb3 as <-. cbv zeta in Hm. fold g2 in Hm.
  specialize (Hfuel fuel' fuel' ltac:(lia) ltac:(lia)).
  destruct (fst (Graph.mcf_loop fuel' fuel' Source Sink 0 g2)) as [t|e|].
  - destruct Hm as (ps & _ & ->). discriminate.
  - rewrite Hm. discriminate.
  - congruence.
Qed.

Lemma C6_witness :
  let gr := Grid.mk 2 3 [[0; 1; 2]; [3; 0; 4]] [[1; 5; 7]; [5; 5; 2]] in
  let s := SolverBellmanFord.mk gr [] Graph.init Dict.empty Dict.empty in
  wf gr /\ coherent gr s /\ SolverBellmanFord.graph s = Graph.init
  /\ exists s1,
    SolverBellmanFord.build_graph s = (Ok tt, s1)
    /\ let g := SolverBellmanFord.graph s1 in
       let evens := length (even_cells gr) in
       mcf_inv g g
       /\ (forall gk fuel total,
             mcf_inv g gk ->
             mcf_inv g (snd (Graph.mcf_iter fuel Source Sink total gk)))
       /\ (forall gk,
             mcf_inv g gk ->
             exists fuel, forall fuel' total, (fuel <= fuel')%nat ->
               iter_outcome gk (Graph.mcf_iter fuel' Source Sink total gk))
       /\ net_out g Source = 0
       /\ (forall gk, mcf_inv g gk -> net_out gk Source <= Z.of_nat evens)
       /\ (forall total, exists fuel, forall fuel' iters,
             (fuel <= fuel')%nat -> (evens < iters)%nat ->
             fst (Graph.mcf_loop iters fuel' Source Sink total g)
             <> OutOfFuel)
       /\ (exists fuel, forall fuel', (fuel <= fuel')%nat ->
             fst (SolverBellmanFord.run fuel' s) <> OutOfFuel).
Proof.
  intros gr s.
  assert (Hwf : wf gr) by reflexivity.
  assert (Hco : coherent gr s) by exact (reset_coherent s).
  split; [exact Hwf|]. split; [exact Hco|]. split; [reflexivity|].
  apply (C6_augmentation_terminates gr s Hwf Hco eq_refl).
Defined.

(** * Further properties of the code

    ** Indexing, the default grid and the pairing rules *)

Lemma length_range n : Z.of_nat (length (range n)) = Z.max 0 n.
Proof. unfold range. rewrite length_map, length_seq. lia. Qed.

Lemma nth_const_map {A B} (v : B) (d : B) (l : list A) : forall k,
  (k < length l)%nat -> nth k (map (fun _ => v) l) d = v.
Proof.
  induction l as [|a r IH]; intros [|k] Hk; simpl in *; try lia; auto.
  apply IH. lia.
Qed.

(** Python's indexing in one equation: an index in [[-len, len)] reads the
    element at [i mod len], any other index raises [IndexError]. *)
Lemma py_index_spec {A} (l : list A) (i : Z) (d : A) :
  py_index l i
  = if (- Z.of_nat (length l) <=? i) && (i <? Z.of_nat (length l))
    then Ok (nth (Z.to_nat (i mod Z.of_nat (length l))) l d)
    else Raise IndexError.
Proof.
  unfold py_index. set (len := Z.of_nat (length l)).
  destruct (Z.ltb_spec i 0) as [Hneg|Hpos].
  - destruct (Z.leb_spec (- len) i) as [Hlo|Hlo].
    + assert (Hmod : i mod len = i + len).
      { symmetry. apply (Z.mod_unique i len (-1)); lia. }
      destruct (Z.leb_spec 0 (i + len)); [|lia].
      destruct (Z.ltb_spec (i + len) len); [|lia].
      destruct (Z.ltb_spec i len); [|lia]. simpl. rewrite Hmod.
      destruct (nth_error l (Z.to_nat (i + len))) eqn:E.
      * now rewrite (nth_error_nth _ _ d E).
      * apply nth_error_None in E. lia.
    + destruct (Z.leb_spec 0 (i + len)); [lia|]. reflexivity.
  - destruct (Z.leb_spec 0 i); [|lia].
    destruct (Z.leb_spec (- len) i); [|lia].
    destruct (Z.ltb_spec i len) as [Hlt|Hge]; simpl; [|reflexivity].
    rewrite (Z.mod_small i len) by lia.
    destruct (nth_error l (Z.to_nat i)) eqn:E.
    + now rewrite (nth_error_nth _ _ d E).
    + apply nth_error_None in E. lia.
Qed.

Lemma py_index_raises {A} (l : list A) (i : Z) (e : exn) :
  py_index l i = Raise e -> e = IndexError.
Proof.
  unfold py_index. destruct (_ && _); [|congruence].
  destruct (nth_error _ _); congruence.
Qed.

(** X1: [Grid(n, m)] with the colours left out (or given as the empty list)
    and the values left out is, for [n, m >= 0], a well-formed [n] by [m]
    grid in which every cell is white and has value 1: no cell is
    forbidden, two cells pass [test_pair] exactly when they are adjacent, and
    every pair costs 0. *)
Theorem X1_default_grid (n m : Z) (color : option (list (list Z))) :
  0 <= n -> 0 <= m -> color = None \/ color = Some [] ->
  let g := Grid.init n m color [] in
  wf g /\ Grid.n g = n /\ Grid.m g = m
  /\ (forall c, in_bounds g c ->
        Grid.color_at g (fst c) (snd c) = Ok 0
        /\ Grid.value_at g (fst c) (snd c) = Ok 1
        /\ Grid.is_forbidden g (fst c) (snd c) = Ok false)
  /\ (forall c1 c2, in_bounds g c1 -> in_bounds g c2 ->
        Grid.test_pair g c1 c2 = Ok (negb (Grid.non_adjacent c1 c2))
        /\ Grid.cost g (c1, c2) = Ok 0).
Proof.
  intros Hn Hm Hc g.
  assert (Eg : g = Grid.mk n m
                     (map (fun _ => map (fun _ => 0) (range m)) (range n))
                     (map (fun _ => map (fun _ => 1) (range m)) (range n))).
  { subst g. destruct Hc as [-> | ->]; reflexivity. }
  assert (Hwf : wf g).
  { rewrite Eg. unfold wf, well_formed. simpl.
    rewrite !length_map. pose proof (length_range n) as Ln.
    pose proof (length_range m) as Lm.
    rewrite !andb_true_iff. repeat split.
    - apply Z.eqb_eq. lia.
    - apply forallb_forall. intros row Hrow.
      apply in_map_iff in Hrow as (_ & <- & _). rewrite length_map.
      apply andb_true_iff. split; [apply Z.eqb_eq; lia|].
      apply forallb_forall. intros c Hc'.
      apply in_map_iff in Hc' as (_ & <- & _). reflexivity.
    - apply Z.eqb_eq. lia.
    - apply forallb_forall. intros row Hrow.
      apply in_map_iff in Hrow as (_ & <- & _). rewrite length_map.
      apply Z.eqb_eq. lia. }
  assert (En : Grid.n g = n) by (rewrite Eg; reflexivity).
  assert (Em : Grid.m g = m) by (rewrite Eg; reflexivity).
  assert (Hcode : forall c, in_bounds g c -> colour_code g c = 0).
  { intros c [Hi Hj]. rewrite En in Hi. rewrite Em in Hj.
    unfold colour_code. rewrite Eg. simpl.
    pose proof (length_range n). pose proof (length_range m).
    rewrite (nth_const_map _ [] (range n)) by lia.
    apply nth_const_map. lia. }
  assert (Hval : forall c, in_bounds g c -> cell_value g c = 1).
  { intros c [Hi Hj]. rewrite En in Hi. rewrite Em in Hj.
    unfold cell_value. rewrite Eg. simpl.
    pose proof (length_range n). pose proof (length_range m).
    rewrite (nth_const_map _ [] (range n)) by lia.
    apply nth_const_map. lia. }
  split; [exact Hwf|]. split; [exact En|]. split; [exact Em|]. split.
  - intros c Hb. destruct (color_at_wf g c Hwf Hb) as [E _].
    rewrite E, (value_at_wf g c Hwf Hb), (is_forbidden_wf g c Hwf Hb).
    rewrite (Hcode c Hb), (Hval c Hb). auto.
  - intros c1 c2 H1 H2.
    rewrite (test_pair_wf g c1 c2 Hwf H1 H2).
    rewrite (cost_wf g (c1, c2) Hwf H1 H2).
    unfold valid_pair, pair_cost, rule_forbids. simpl.
    rewrite (Hcode c1 H1), (Hcode c2 H2), (Hval c1 H1), (Hval c2 H2).
    simpl. rewrite andb_true_r. auto.
Qed.

Lemma X1_witness :
  let g := Grid.init 2 3 None [] in
  (0 <= 2 /\ 0 <= 3)
  /\ wf g /\ Grid.n g = 2 /\ Grid.m g = 3
  /\ (forall c, in_bounds g c ->
        Grid.color_at g (fst c) (snd c) = Ok 0
        /\ Grid.value_at g (fst c) (snd c) = Ok 1
        /\ Grid.is_forbidden g (fst c) (snd c) = Ok false)
  /\ (forall c1 c2, in_bounds g c1 -> in_bounds g c2 ->
        Grid.test_pair g c1 c2 = Ok (negb (Grid.non_adjacent c1 c2))
        /\ Grid.cost g (c1, c2) = Ok 0).
Proof.
  intros g. split; [lia|].
  apply (X1_default_grid 2 3 None); [lia|lia|now left].
Defined.

(** X2: on a well-formed grid [is_forbidden(i, j)] follows Python's list
    indexing: for [-n <= i < n] and [-m <= j < m] it answers for the cell
    [(i mod n, j mod m)], so negative indices read from the far edge; for
    any other index it raises [IndexError]. *)
Theorem X2_is_forbidden_index (g : Grid.t) (i j : Z) :
  wf g ->
  Grid.is_forbidden g i j
  = if (- Grid.n g <=? i) && (i <? Grid.n g)
       && (- Grid.m g <=? j) && (j <? Grid.m g)
    then Ok (colour_code g (i mod Grid.n g, j mod Grid.m g) =? 4)
    else Raise IndexError.
Proof.
  intros Hwf. unfold Grid.is_forbidden, Grid.color_at.
  rewrite (py_index_spec (Grid.color g) i []).
  rewrite (wf_color_rows g Hwf).
  destruct (Z.leb_spec (- Grid.n g) i) as [Hlo|]; [|reflexivity].
  destruct (Z.ltb_spec i (Grid.n g)) as [Hhi|]; [|reflexivity]. simpl.
  set (row := nth (Z.to_nat (i mod Grid.n g)) (Grid.color g) []).
  assert (Hrow : In row (Grid.color g)).
  { apply nth_In. pose proof (wf_color_rows g Hwf).
    pose proof (Z.mod_pos_bound i (Grid.n g)). lia. }
  destruct (wf_color_row g row Hwf Hrow) as [Hlen _].
  rewrite (py_index_spec row j 0), Hlen.
  destruct ((- Grid.m g <=? j) && (j <? Grid.m g)); reflexivity.
Qed.

Lemma X2_witness :
  let g := Grid.mk 2 2 [[0; 1]; [2; 4]] [[1; 1]; [1; 1]] in
  wf g
  /\ Grid.is_forbidden g (-1) (-1) = Ok true
  /\ Grid.is_forbidden g 0 (-2) = Ok false
  /\ Grid.is_forbidden g 2 0 = Raise IndexError
  /\ Grid.is_forbidden g 0 (-3) = Raise IndexError.
Proof.
  intros g.
  assert (Hwf : wf g) by reflexivity.
  split; [exact Hwf|].
  rewrite (X2_is_forbidden_index g (-1) (-1) Hwf),
    (X2_is_forbidden_index g 0 (-2) Hwf),
    (X2_is_forbidden_index g 2 0 Hwf),
    (X2_is_forbidden_index g 0 (-3) Hwf).
  repeat split.
Defined.

(** X3: [non_adjacent(c1, c2)] is [False] exactly when the two cells are at
    Manhattan distance 1; it is symmetric, and a cell is not adjacent to
    itself. *)
Theorem X3_non_adjacent_manhattan (c1 c2 : cell) :
  (Grid.non_adjacent c1 c2 = false
   <-> Z.abs (fst c1 - fst c2) + Z.abs (snd c1 - snd c2) = 1)
  /\ Grid.non_adjacent c1 c2 = Grid.non_adjacent c2 c1
  /\ Grid.non_adjacent c1 c1 = true.
Proof.
  assert (H : forall a b : cell,
             Grid.non_adjacent a b = false
             <-> Z.abs (fst a - fst b) + Z.abs (snd a - snd b) = 1).
  { intros a b. unfold Grid.non_adjacent.
    destruct (Z.eqb_spec (snd a) (snd b)), (Z.eqb_spec (fst a) (fst b)),
      (Z.eqb_spec (Z.abs (fst a - fst b)) 1),
      (Z.eqb_spec (Z.abs (snd a - snd b)) 1); simpl; split; intros;
      try discriminate; try reflexivity; lia. }
  split; [apply H|]. split.
  - destruct (Grid.non_adjacent c1 c2) eqn:E1,
      (Grid.non_adjacent c2 c1) eqn:E2; try reflexivity.
    + apply H in E2. apply not_false_iff_true in E1. exfalso. apply E1.
      apply H. lia.
    + apply H in E1. apply not_false_iff_true in E2. exfalso. apply E2.
      apply H. lia.
  - apply not_false_iff_true. rewrite H. lia.
Qed.

(** The colour matrix has [n] rows of [m] entries; the codes are not
    checked. *)
Definition rectangular (g : Grid.t) : bool :=
  (Z.of_nat (length (Grid.color g)) =? Grid.n g)
  && forallb (fun row => Z.of_nat (length row) =? Grid.m g) (Grid.color g).

Lemma color_at_rectangular g c :
  rectangular g = true -> in_bounds g c ->
  Grid.color_at g (fst c) (snd c) = Ok (colour_code g c).
Proof.
  unfold rectangular. rewrite andb_true_iff. intros [Hn Hrows] [Hi Hj].
  apply Z.eqb_eq in Hn. rewrite forallb_forall in Hrows.
  unfold Grid.color_at, colour_code.
  rewrite (py_index_nth _ _ []) by lia. simpl.
  assert (Hrow : In (nth (Z.to_nat (fst c)) (Grid.color g) []) (Grid.color g))
    by (apply nth_In; lia).
  apply Hrows, Z.eqb_eq in Hrow.
  now rewrite (py_index_nth _ _ 0) by lia.
Qed.

Lemma color_rules_none k :
  Grid.color_rules k = None <-> ~ 0 <= k <= 4.
Proof.
  split.
  - intros E H. destruct (color_rules_defined k H) as [r Hr]. congruence.
  - intros H. destruct k as [|p|p]; [lia| |reflexivity].
    destruct p as [[p|p|]|[p|[p|p|]|]|]; try reflexivity; lia.
Qed.

(** X4: the colour rules are looked up by the code of the first cell only.
    On a grid whose colour matrix is [n] by [m], for two cells in bounds:
    [colors_forbidden] raises [KeyError] exactly when the code of the first
    cell is outside 0..4, whatever the code of the second; [test_pair]
    raises [KeyError] exactly when, besides, both codes differ from 4 and the
    cells are adjacent (the earlier tests of the [or] chain did not already
    decide); and a white first cell pairs with an adjacent cell of any code
    other than 4, recognised or not. *)
Theorem X4_colour_rule_key_error (g : Grid.t) (c1 c2 : cell) :
  rectangular g = true -> in_bounds g c1 -> in_bounds g c2 ->
  (Grid.colors_forbidden g c1 c2 = Raise KeyError
   <-> ~ 0 <= colour_code g c1 <= 4)
  /\ (0 <= colour_code g c1 <= 4 ->
      Grid.colors_forbidden g c1 c2
      = Ok (rule_forbids (colour_code g c1) (colour_code g c2)))
  /\ (Grid.test_pair g c1 c2 = Raise KeyError
      <-> colour_code g c1 <> 4 /\ colour_code g c2 <> 4
          /\ Grid.non_adjacent c1 c2 = false
          /\ ~ 0 <= colour_code g c1 <= 4)
  /\ (colour_code g c1 = 0 -> colour_code g c2 <> 4 ->
      Grid.non_adjacent c1 c2 = false -> Grid.test_pair g c1 c2 = Ok true).
Proof.
  intros Hr H1 H2.
  assert (Hcf : Grid.colors_forbidden g c1 c2
                = match Grid.color_rules (colour_code g c1) with
                  | Some r => Ok (r (colour_code g c2))
                  | None => Raise KeyError
                  end).
  { unfold Grid.colors_forbidden.
    rewrite (color_at_rectangular g c1 Hr H1),
      (color_at_rectangular g c2 Hr H2). simpl.
    destruct (Grid.color_rules (colour_code g c1)); reflexivity. }
  assert (Htp : Grid.test_pair g c1 c2
                = if colour_code g c1 =? 4 then Ok false
                  else if colour_code g c2 =? 4 then Ok false
                  else if Grid.non_adjacent c1 c2 then Ok false
                  else match Grid.color_rules (colour_code g c1) with
                       | Some r => Ok (negb (r (colour_code g c2)))
                       | None => Raise KeyError
                       end).
  { unfold Grid.test_pair, Grid.is_forbidden.
    rewrite (color_at_rectangular g c1 Hr H1),
      (color_at_rectangular g c2 Hr H2). simpl.
    destruct (colour_code g c1 =? 4); [reflexivity|].
    destruct (colour_code g c2 =? 4); [reflexivity|].
    destruct (Grid.non_adjacent c1 c2); [reflexivity|].
    rewrite Hcf. destruct (Grid.color_rules (colour_code g c1)); reflexivity. }
  split; [|split; [|split]].
  - rewrite Hcf, <- color_rules_none.
    destruct (Grid.color_rules (colour_code g c1)); split; congruence.
  - intros Hk. rewrite Hcf. unfold rule_forbids.
    destruct (color_rules_defined _ Hk) as [r ->]. reflexivity.
  - rewrite Htp, <- color_rules_none.
    destruct (Z.eqb_spec (colour_code g c1) 4);
      [split; [discriminate|tauto]|].
    destruct (Z.eqb_spec (colour_code g c2) 4);
      [split; [discriminate|tauto]|].
    destruct (Grid.non_adjacent c1 c2);
      [split; [discriminate|intros (_ & _ & ? & _); discriminate]|].
    destruct (Grid.color_rules (colour_code g c1));
      split; try discriminate; try tauto.
    intros (_ & _ & _ & ?). discriminate.
  - intros E0 N4 Hadj. rewrite Htp, E0, Hadj. simpl.
    destruct (Z.eqb_spec (colour_code g c2) 4); [contradiction|reflexivity].
Qed.

Lemma X4_witness :
  let g := Grid.mk 1 2 [[0; 7]] [[1; 1]] in
  let c1 := (0, 0) in
  let c2 := (0, 1) in
  Grid.test_pair g c1 c2 = Ok true
  /\ Grid.test_pair g c2 c1 = Raise KeyError
  /\ (Grid.colors_forbidden g c2 c1 = Raise KeyError
      <-> ~ 0 <= colour_code g c2 <= 4).
Proof.
  intros g c1 c2.
  assert (Hr : rectangular g = true) by reflexivity.
  assert (H1 : in_bounds g c1) by (unfold in_bounds; simpl; lia).
  assert (H2 : in_bounds g c2) by (unfold in_bounds; simpl; lia).
  split; [reflexivity|]. split; [reflexivity|].
  exact (proj1 (X4_colour_rule_key_error g c2 c1 Hr H2 H1)).
Defined.

Lemma value_at_raises g i j e :
  Grid.value_at g i j = Raise e -> e = IndexError.
Proof.
  unfold Grid.value_at. destruct (py_index (Grid.value g) i) as [row| |] eqn:E;
    simpl; intros H.
  - now apply py_index_raises in H.
  - injection H as <-. now apply py_index_raises in E.
  - discriminate.
Qed.

Lemma value_at_fuel g i j : Grid.value_at g i j <> OutOfFuel.
Proof.
  unfold Grid.value_at, py_index.
  destruct (_ && _); simpl; [|discriminate].
  destruct (nth_error _ _) as [row|]; simpl; [|discriminate].
  destruct (_ && _); [|discriminate]. destruct (nth_error _ _); discriminate.
Qed.

(** X5: the cost of a pair does not depend on the order of its two cells,
    also when it fails (the only exception is [IndexError]); a cost that is
    returned is non-negative, and it is 0 exactly when the two values are
    equal. *)
Theorem X5_cost_symmetric (g : Grid.t) (a b : cell) :
  Grid.cost g (a, b) = Grid.cost g (b, a)
  /\ (forall e, Grid.cost g (a, b) = Raise e -> e = IndexError)
  /\ (forall c, Grid.cost g (a, b) = Ok c ->
        0 <= c
        /\ exists va vb,
             Grid.value_at g (fst a) (snd a) = Ok va
             /\ Grid.value_at g (fst b) (snd b) = Ok vb
             /\ c = Z.abs (va - vb) /\ (c = 0 <-> va = vb)).
Proof.
  unfold Grid.cost. simpl.
  pose proof (value_at_raises g (fst a) (snd a)) as Ra.
  pose proof (value_at_raises g (fst b) (snd b)) as Rb.
  pose proof (value_at_fuel g (fst a) (snd a)) as Fa.
  pose proof (value_at_fuel g (fst b) (snd b)) as Fb.
  destruct (Grid.value_at g (fst a) (snd a)) as [va|ea|];
    destruct (Grid.value_at g (fst b) (snd b)) as [vb|eb|];
    simpl; try congruence.
  - split; [f_equal; lia|]. split; [discriminate|].
    intros c E. injection E as <-. split; [lia|].
    exists va, vb. repeat split; lia.
  - split; [reflexivity|]. split; [|discriminate].
    intros e E. injection E as <-. now apply Rb.
  - split; [reflexivity|]. split; [|discriminate].
    intros e E. injection E as <-. now apply Ra.
  - rewrite (Ra ea eq_refl), (Rb eb eq_refl).
    split; [reflexivity|]. split; [|discriminate].
    intros e E. now injection E as <-.
Qed.

(** ** Reading a grid from a file ([Grid.grid_from_file])

    A text file is modelled by the list of its lines, a line by the list of
    its whitespace-separated tokens, and a token by the integer that [int]
    reads from it, or [None] when [int] raises [ValueError].  Reading past
    the end of the file gives the empty line.  Opening the file is outside
    the model. *)
Module GridFile.

(** [ValueError] (from [int] or from unpacking [n, m]) and the two
    [Exception]s raised by the method itself. *)
Inductive error := ValueError | InvalidFormat | InvalidColor.

Inductive outcome (A : Type) : Type :=
| Loaded (a : A)
| Failed (e : error).

Arguments Loaded {A} a.
Arguments Failed {A} e.

Definition token : Type := option Z.
Definition line : Type := list token.
Definition file : Type := list line.

(** [file.readline().split()] *)
Definition readline (f : file) : line * file :=
  match f with
  | [] => ([], [])
  | l :: r => (l, r)
  end.

(** [list(map(int, tokens))] *)
Fixpoint ints (l : line) : outcome (list Z) :=
  match l with
  | [] => Loaded []
  | None :: _ => Failed ValueError
  | Some z :: r =>
      match ints r with
      | Loaded zs => Loaded (z :: zs)
      | Failed e => Failed e
      end
  end.

(** Body of the loop over the colour lines ([colors = true]) or over the
    value lines: read, check the length and, for colours, the codes. *)
Definition read_row (m : Z) (colors : bool) (f : file)
  : outcome (list Z * file) :=
  let (toks, f') := readline f in
  match ints toks with
  | Failed e => Failed e
  | Loaded row =>
      if negb (Z.of_nat (length row) =? m) then Failed InvalidFormat
      else if colors && negb (forallb (fun c => (0 <=? c) && (c <? 5)) row)
           then Failed InvalidColor
           else Loaded (row, f')
  end.

(** [for i_line in range(n)], with [k] the number of iterations. *)
Fixpoint read_rows (k : nat) (m : Z) (colors : bool) (f : file)
  : outcome (list (list Z) * file) :=
  match k with
  | O => Loaded ([], f)
  | S k' =>
      match read_row m colors f with
      | Failed e => Failed e
      | Loaded (row, f1) =>
          match read_rows k' m colors f1 with
          | Failed e => Failed e
          | Loaded (rows, f2) => Loaded (row :: rows, f2)
          end
      end
  end.

Definition grid_from_file (f : file) (read_values : bool)
  : outcome Grid.t :=
  let (hd, f1) := readline f in
  match ints hd with
  | Failed e => Failed e
  | Loaded [n; m] =>
      match read_rows (Z.to_nat n) m true f1 with
      | Failed e => Failed e
      | Loaded (color, f2) =>
          if read_values then
            match read_rows (Z.to_nat n) m false f2 with
            | Failed e => Failed e
            | Loaded (value, _) => Loaded (Grid.init n m (Some color) value)
            end
          else Loaded (Grid.init n m (Some color) [])
      end
  | Loaded _ => Failed ValueError
  end.

End GridFile.

(** The lines that describe a grid: the header, the colour rows and the
    value rows. *)
Definition color_lines (g : Grid.t) : GridFile.file :=
  map (map (@Some Z)) (Grid.color g).

Definition value_lines (g : Grid.t) : GridFile.file :=
  map (map (@Some Z)) (Grid.value g).

Definition header_line (g : Grid.t) : GridFile.line :=
  [Some (Grid.n g); Some (Grid.m g)].

Definition row_ok (m : Z) (colors : bool) (row : list Z) : Prop :=
  Z.of_nat (length row) = m
  /\ (colors = true -> forall c, In c row -> 0 <= c <= 4).

Lemma ints_some row : GridFile.ints (map (@Some Z) row) = GridFile.Loaded row.
Proof. induction row as [|z r IH]; simpl; [reflexivity|now rewrite IH]. Qed.

Lemma read_row_loaded m colors f row f' :
  GridFile.read_row m colors f = GridFile.Loaded (row, f') ->
  row_ok m colors row.
Proof.
  unfold GridFile.read_row. destruct (GridFile.readline f) as [toks f1].
  destruct (GridFile.ints toks) as [r|e]; [|discriminate].
  destruct (Z.eqb_spec (Z.of_nat (length r)) m) as [El|]; [|discriminate].
  simpl. destruct colors; simpl.
  - destruct (forallb _ r) eqn:Ef; [|discriminate]. simpl.
    intros E. injection E as <- _. split; [exact El|]. intros _ c Hc.
    rewrite forallb_forall in Ef. specialize (Ef c Hc).
    apply andb_true_iff in Ef. lia.
  - intros E. injection E as <- _. split; [exact El|discriminate].
Qed.

Lemma read_rows_loaded m colors : forall k f rows f',
  GridFile.read_rows k m colors f = GridFile.Loaded (rows, f') ->
  length rows = k /\ forall row, In row rows -> row_ok m colors row.
Proof.
  induction k as [|k IH]; intros f rows f'; simpl.
  - intros E. injection E as <- _. split; [reflexivity|intros ? []].
  - destruct (GridFile.read_row m colors f) as [[row f1]|e] eqn:Er;
      [|discriminate].
    destruct (GridFile.read_rows k m colors f1) as [[rs f2]|e] eqn:Ers;
      [|discriminate].
    intros E. injection E as <- _.
    destruct (IH f1 rs f2 Ers) as [Hl Hrows].
    split; [simpl; now rewrite Hl|].
    intros r [<-|Hr]; [now apply (read_row_loaded m colors f _ f1)|auto].
Qed.

Lemma read_rows_lines m colors rest : forall rows,
  (forall row, In row rows -> row_ok m colors row) ->
  GridFile.read_rows (length rows) m colors (map (map (@Some Z)) rows ++ rest)
  = GridFile.Loaded (rows, rest).
Proof.
  induction rows as [|row rs IH]; intros H; [reflexivity|].
  simpl. unfold GridFile.read_row. simpl. rewrite ints_some.
  destruct (H row (or_introl eq_refl)) as [Hl Hc].
  rewrite <- Hl, Z.eqb_refl. simpl.
  assert (Ec : (colors && negb (forallb (fun c => (0 <=? c) && (c <? 5)) row))
               = false).
  { destruct colors; [|reflexivity]. simpl. apply negb_false_iff.
    apply forallb_forall. intros c Hin. specialize (Hc eq_refl c Hin).
    apply andb_true_iff. split; [apply Z.leb_le|apply Z.ltb_lt]; lia. }
  rewrite Ec. rewrite Hl. rewrite IH by (intros; apply H; now right).
  reflexivity.
Qed.

Lemma wf_rows g :
  wf g <->
  (Z.of_nat (length (Grid.color g)) = Grid.n g
   /\ (forall row, In row (Grid.color g) -> row_ok (Grid.m g) true row))
  /\ Z.of_nat (length (Grid.value g)) = Grid.n g
  /\ (forall row, In row (Grid.value g) -> row_ok (Grid.m g) false row).
Proof.
  split.
  - intros Hwf. split; [split|split].
    + now apply wf_color_rows.
    + intros row Hrow. destruct (wf_color_row g row Hwf Hrow) as [Hl Hk].
      split; [exact Hl|intros _; exact Hk].
    + now apply wf_value_rows.
    + intros row Hrow. split; [now apply (wf_value_row g row Hwf)|].
      discriminate.
  - intros ((Hc & Hcr) & Hv & Hvr). unfold wf, well_formed.
    rewrite !andb_true_iff. repeat split.
    + now apply Z.eqb_eq.
    + apply forallb_forall. intros row Hrow.
      destruct (Hcr row Hrow) as [Hl Hk]. apply andb_true_iff. split.
      * now apply Z.eqb_eq.
      * apply forallb_forall. intros c Hcin. specialize (Hk eq_refl c Hcin).
        apply andb_true_iff. split; [apply Z.leb_le|apply Z.leb_le]; lia.
    + now apply Z.eqb_eq.
    + apply forallb_forall. intros row Hrow.
      destruct (Hvr row Hrow) as [Hl _]. now apply Z.eqb_eq.
Qed.

(** X6: a grid that [grid_from_file] returns, with [n >= 0] in the header,
    is well formed: both matrices have [n] rows of [m] entries and every
    colour code is in 0..4.  With [read_values = False] every value is 1.
    With a negative [n] no line is read and both matrices are empty. *)
Theorem X6_loaded_grid_well_formed
        (f : GridFile.file) (read_values : bool) (g : Grid.t) :
  GridFile.grid_from_file f read_values = GridFile.Loaded g ->
  (0 <= Grid.n g -> wf g)
  /\ (read_values = false ->
      forall c, in_bounds g c -> Grid.value_at g (fst c) (snd c) = Ok 1)
  /\ (Grid.n g < 0 -> Grid.color g = [] /\ Grid.value g = []).
Proof.
  unfold GridFile.grid_from_file.
  destruct (GridFile.readline f) as [hd f1].
  destruct (GridFile.ints hd) as [[|n [|m [|]]]|e]; try discriminate.
  destruct (GridFile.read_rows (Z.to_nat n) m true f1) as [[color f2]|e]
    eqn:Ec; [|discriminate].
  destruct (read_rows_loaded m true _ f1 color f2 Ec) as [Lc Hc].
  assert (Hones : forall k, 0 <= k ->
            (k = 0 \/ 0 <= m) ->
            Z.of_nat (length (map (fun _ : Z => map (fun _ : Z => 1) (range m))
                                  (range k))) = k
            /\ forall row,
                 In row (map (fun _ : Z => map (fun _ : Z => 1) (range m))
                             (range k)) ->
                 row_ok m false row).
  { intros k Hk Hm. rewrite length_map. pose proof (length_range k).
    split; [lia|]. intros row Hrow.
    apply in_map_iff in Hrow as (i & <- & Hi). apply in_range in Hi.
    split; [|discriminate]. rewrite length_map.
    pose proof (length_range m). lia. }
  assert (Hm : 0 < n -> 0 <= m).
  { intros Hn. destruct color as [|row rs]; [simpl in Lc; lia|].
    destruct (Hc row (or_introl eq_refl)) as [Hl _]. lia. }
  assert (Hcol : forall value, 0 <= n ->
            Z.of_nat (length (Grid.color (Grid.init n m (Some color) value)))
            = n
            /\ forall row,
                 In row (Grid.color (Grid.init n m (Some color) value)) ->
                 row_ok m true row).
  { intros value Hn. destruct color as [|row rs].
    - simpl in Lc. assert (n = 0) by lia. subst n. simpl.
      split; [reflexivity|intros ? []].
    - cbn [Grid.init Grid.color]. split; [lia|exact Hc]. }
  destruct read_values.
  - destruct (GridFile.read_rows (Z.to_nat n) m false f2) as [[value f3]|e]
      eqn:Ev; [|discriminate].
    destruct (read_rows_loaded m false _ f2 value f3 Ev) as [Lv Hv].
    intros E. injection E as <-.
    split; [|split; [discriminate|]].
    + intros Hn. assert (Hn' : 0 <= n) by (destruct color, value; exact Hn).
      apply wf_rows.
      replace (Grid.n (Grid.init n m (Some color) value)) with n
        by (destruct color, value; reflexivity).
      replace (Grid.m (Grid.init n m (Some color) value)) with m
        by (destruct color, value; reflexivity).
      split; [exact (Hcol value Hn')|].
      destruct value as [|row rs].
      * simpl in Lv. assert (n = 0) by lia. subst n.
        destruct color; simpl; (split; [reflexivity|intros ? []]).
      * replace (Grid.value (Grid.init n m (Some color) (row :: rs)))
          with (row :: rs) by (destruct color; reflexivity).
        split; [lia|exact Hv].
    + intros Hn. assert (Hn' : n < 0) by (destruct color, value; exact Hn).
      assert (Z.to_nat n = 0%nat) by lia.
      destruct color; [|simpl in Lc; lia].
      destruct value; [|simpl in Lv; lia].
      simpl. unfold range. replace (Z.to_nat n) with 0%nat by lia. auto.
  - intros E. injection E as <-.
    assert (En : Grid.n (Grid.init n m (Some color) []) = n)
      by (destruct color; reflexivity).
    assert (Em : Grid.m (Grid.init n m (Some color) []) = m)
      by (destruct color; reflexivity).
    assert (Eval : Grid.value (Grid.init n m (Some color) [])
                   = map (fun _ : Z => map (fun _ : Z => 1) (range m))
                         (range n))
      by (destruct color; reflexivity).
    assert (Hwf : 0 <= n -> wf (Grid.init n m (Some color) [])).
    { intros Hn. apply wf_rows. rewrite En, Em, Eval.
      split; [exact (Hcol [] Hn)|]. apply Hones; [exact Hn|]. lia. }
    rewrite En. split; [exact Hwf|]. split.
    + intros _ c Hb. assert (Hn : 0 <= n).
      { destruct Hb as [Hi _]. rewrite En in Hi. lia. }
      rewrite (value_at_wf _ c (Hwf Hn) Hb). f_equal.
      unfold cell_value. rewrite Eval.
      destruct Hb as [Hi Hj]. rewrite En in Hi. rewrite Em in Hj.
      pose proof (length_range n). pose proof (length_range m).
      rewrite (nth_const_map _ [] (range n)) by lia.
      apply nth_const_map. lia.
    + intros Hn. assert (Z.to_nat n = 0%nat) by lia.
      destruct color; [|simpl in Lc; lia]. simpl.
      unfold range. replace (Z.to_nat n) with 0%nat by lia. auto.
Qed.

Lemma X6_witness :
  let f := [[Some 1; Some 2]; [Some 0; Some 4]; [Some 7; Some 9]] in
  let g := Grid.mk 1 2 [[0; 4]] [[7; 9]] in
  GridFile.grid_from_file f true = GridFile.Loaded g
  /\ (0 <= Grid.n g -> wf g)
  /\ (true = false ->
      forall c, in_bounds g c -> Grid.value_at g (fst c) (snd c) = Ok 1)
  /\ (Grid.n g < 0 -> Grid.color g = [] /\ Grid.value g = []).
Proof.
  intros f g. split; [reflexivity|].
  apply (X6_loaded_grid_well_formed f true g). reflexivity.
Defined.

(** X7: reading back the lines of a grid.  For a well-formed grid, a file
    that holds the header [n m], the colour rows and the value rows, followed
    by anything, loads to that very grid; a file with the header and the
    colour rows only, read with [read_values = False], loads to the grid
    with the same colours and every value 1. *)
Theorem X7_grid_file_round_trip (g : Grid.t) (rest : GridFile.file) :
  wf g ->
  GridFile.grid_from_file
    (header_line g :: color_lines g ++ value_lines g ++ rest) true
  = GridFile.Loaded g
  /\ GridFile.grid_from_file (header_line g :: color_lines g ++ rest) false
     = GridFile.Loaded
         (Grid.mk (Grid.n g) (Grid.m g) (Grid.color g)
                  (map (fun _ => map (fun _ => 1) (range (Grid.m g)))
                       (range (Grid.n g)))).
Proof.
  intros Hwf. apply wf_rows in Hwf as ((Lc & Hc) & Lv & Hv).
  assert (Ec : Z.to_nat (Grid.n g) = length (Grid.color g)) by lia.
  assert (Ev : Z.to_nat (Grid.n g) = length (Grid.value g)) by lia.
  unfold GridFile.grid_from_file, header_line, color_lines, value_lines.
  cbn [GridFile.readline GridFile.ints].
  split.
  - rewrite Ec at 1. rewrite (read_rows_lines _ true _ _ Hc).
    rewrite Ev. rewrite (read_rows_lines _ false _ _ Hv).
    f_equal. destruct g as [n m color value]. simpl in *.
    unfold Grid.init.
    destruct color as [|c cs], value as [|v vs]; try reflexivity;
      simpl in *; try lia.
    assert (n = 0) by lia. subst n. reflexivity.
  - rewrite Ec at 1. rewrite (read_rows_lines _ true _ _ Hc).
    f_equal. unfold Grid.init.
    destruct (Grid.color g) as [|c cs] eqn:E; [|reflexivity].
    simpl in Lc. rewrite <- Lc. reflexivity.
Qed.

Lemma X7_witness :
  let g := Grid.mk 2 2 [[0; 1]; [2; 4]] [[3; 5]; [8; 13]] in
  wf g
  /\ GridFile.grid_from_file
       (header_line g :: color_lines g ++ value_lines g ++ [[None]]) true
     = GridFile.Loaded g
  /\ GridFile.grid_from_file (header_line g :: color_lines g ++ [[None]]) false
     = GridFile.Loaded
         (Grid.mk (Grid.n g) (Grid.m g) (Grid.color g)
                  (map (fun _ => map (fun _ => 1) (range (Grid.m g)))
                       (range (Grid.n g)))).
Proof.
  intros g. assert (Hwf : wf g) by reflexivity.
  split; [exact Hwf|].
  apply (X7_grid_file_round_trip g [[None]] Hwf).
Defined.

(** ** The score of a list of pairs ([Solver.score]) *)

Lemma zsum_perm (l l' : list Z) : Permutation l l' -> zsum l = zsum l'.
Proof. induction 1; simpl; lia. Qed.

Lemma forallb_perm {A} (f : A -> bool) (l l' : list A) :
  Permutation l l' -> forallb f l = forallb f l'.
Proof.
  induction 1; simpl; try congruence.
  destruct (f x), (f y); reflexivity.
Qed.

Lemma for_each_ext {A S} (b1 b2 : A -> S -> result S) (l : list A) :
  (forall x s, In x l -> b1 x s = b2 x s) ->
  forall s, for_each l b1 s = for_each l b2 s.
Proof.
  induction l as [|a r IH]; intros H s; simpl; [reflexivity|].
  rewrite (H a s (or_introl eq_refl)).
  destruct (b2 a s); simpl; try reflexivity.
  apply IH. intros; apply H; now right.
Qed.

Definition cost_ok (g : Grid.t) (p : pair) : bool :=
  match Grid.cost g p with Ok _ => true | _ => false end.

Definition cost_or_zero (g : Grid.t) (p : pair) : Z :=
  match Grid.cost g p with Ok c => c | _ => 0 end.

Lemma cost_outcome g p :
  Grid.cost g p = Ok (cost_or_zero g p) /\ cost_ok g p = true
  \/ Grid.cost g p = Raise IndexError /\ cost_ok g p = false.
Proof.
  unfold cost_ok, cost_or_zero, Grid.cost.
  pose proof (value_at_raises g (fst (fst p)) (snd (fst p))) as Ra.
  pose proof (value_at_raises g (fst (snd p)) (snd (snd p))) as Rb.
  pose proof (value_at_fuel g (fst (fst p)) (snd (fst p))) as Fa.
  pose proof (value_at_fuel g (fst (snd p)) (snd (snd p))) as Fb.
  destruct (Grid.value_at g (fst (fst p)) (snd (fst p))) as [va|ea|];
    [|rewrite (Ra ea eq_refl); auto|congruence].
  destruct (Grid.value_at g (fst (snd p)) (snd (snd p))) as [vb|eb|];
    [auto|rewrite (Rb eb eq_refl); auto|congruence].
Qed.

(** The first loop of [score]: the sum of the costs, or [IndexError] as
    soon as one pair has a cell outside the value matrix. *)
Lemma cost_loop g (ps : list pair) : forall s,
  for_each ps (fun p s => c <- Grid.cost g p ;; Ok (s + c)) s
  = if forallb (cost_ok g) ps
    then Ok (s + zsum (map (cost_or_zero g) ps))
    else Raise IndexError.
Proof.
  induction ps as [|p r IH]; intros s; simpl.
  - f_equal. lia.
  - destruct (cost_outcome g p) as [[E Hok]|[E Hok]]; rewrite E, Hok; simpl.
    + rewrite IH. destruct (forallb (cost_ok g) r); [f_equal; lia|reflexivity].
    + reflexivity.
Qed.

Lemma cell_in_perm c (l l' : list cell) :
  Permutation l l' -> cell_in c l = cell_in c l'.
Proof.
  intros HP. destruct (cell_in c l) eqn:E1, (cell_in c l') eqn:E2;
    try reflexivity.
  - apply cell_in_spec in E1. apply (Permutation_in _ HP) in E1.
    apply cell_in_spec in E1. congruence.
  - apply cell_in_spec in E2.
    apply (Permutation_in _ (Permutation_sym HP)) in E2.
    apply cell_in_spec in E2. congruence.
Qed.

(** X8: the score does not depend on the order in which the pairs are
    listed, whether it is returned or fails: permuting [self.pairs] leaves
    the outcome of [score] unchanged, on any grid. *)
Theorem X8_score_order_independent (g : Grid.t) (ps ps' : list pair) :
  Permutation ps ps' ->
  Solver.score (Solver.mk g ps) = Solver.score (Solver.mk g ps').
Proof.
  intros HP. unfold Solver.score, Solver.score_of. simpl.
  rewrite !cost_loop.
  rewrite (forallb_perm (cost_ok g) ps ps' HP).
  rewrite (zsum_perm (map (cost_or_zero g) ps) (map (cost_or_zero g) ps'))
    by now apply Permutation_map.
  destruct (forallb (cost_ok g) ps'); simpl; [|reflexivity].
  apply for_each_ext. intros i s _. apply for_each_ext. intros j s' _.
  unfold Solver.score_cell.
  rewrite (cell_in_perm (i, j) (Solver.cells_of ps) (Solver.cells_of ps'));
    [reflexivity|].
  unfold Solver.cells_of. now apply Permutation_flat_map.
Qed.

Lemma X8_witness :
  let g := Grid.mk 1 4 [[0; 0; 0; 0]] [[1; 100; 100; 1]] in
  let p := ((0, 0), (0, 1)) in
  let q := ((0, 2), (0, 3)) in
  Permutation [p; q] [q; p]
  /\ Solver.score (Solver.mk g [p; q]) = Solver.score (Solver.mk g [q; p])
  /\ Solver.score (Solver.mk g [p; q]) = Ok 198.
Proof.
  intros g p q. split; [apply perm_swap|].
  split; [|reflexivity].
  apply (X8_score_order_independent g [p; q] [q; p]). apply perm_swap.
Defined.

(** The score when nothing is paired: the values of the non-black cells. *)
Definition unpaired_total (g : Grid.t) : Z :=
  zsum (map (fun c => if colour_code g c =? 4 then 0 else cell_value g c)
            (SolverBellmanFord.scan_order g)).

Lemma zsum_update_at {A} (F F' : A -> Z) (l : list A) (v : A) :
  NoDup l -> In v l -> (forall x, x <> v -> F' x = F x) ->
  zsum (map F' l) = zsum (map F l) + F' v - F v.
Proof.
  induction l as [|a r IH]; intros Hnd Hin Hext; [destruct Hin|].
  inversion Hnd as [|? ? Ha Hr]; subst. simpl.
  destruct Hin as [->|Hin].
  - assert (E : map F' r = map F r).
    { apply map_ext_in. intros x Hx. apply Hext. congruence. }
    rewrite E. lia.
  - rewrite (IH Hr Hin Hext).
    rewrite (Hext a) by congruence. lia.
Qed.

Lemma unpaired_sum g (used : list cell) :
  NoDup used ->
  (forall c, In c used -> in_bounds g c /\ (colour_code g c =? 4) = false) ->
  zsum (map (unpaired_value g used) (SolverBellmanFord.scan_order g))
  = unpaired_total g - zsum (map (cell_value g) used).
Proof.
  induction used as [|c r IH]; intros Hnd Hu.
  - simpl. unfold unpaired_total. rewrite Z.sub_0_r. f_equal.
    apply map_ext. intros x. unfold unpaired_value. simpl.
    destruct (colour_code g x =? 4); reflexivity.
  - inversion Hnd as [|? ? Hc Hr]; subst.
    destruct (Hu c (or_introl eq_refl)) as [Hb Hk].
    rewrite (zsum_update_at (unpaired_value g r) (unpaired_value g (c :: r))
                            _ c).
    + rewrite IH; [|exact Hr|intros; apply Hu; now right].
      unfold unpaired_value. simpl.
      destruct (cell_eqb_spec c c); [|congruence].
      assert (Er : cell_in c r = false).
      { apply not_true_is_false. intros E. now apply cell_in_spec in E. }
      rewrite Er, Hk. cbn [negb orb andb]. lia.
    + apply NoDup_scan_order.
    + now apply in_scan_order.
    + intros x Nx. unfold unpaired_value. simpl.
      destruct (cell_eqb_spec x c); [congruence|]. reflexivity.
Qed.

(** X9: the score of a pairing.  On a well-formed grid, for pairs of
    in-bounds non-black cells in which no cell occurs twice, [score] returns
    the total value of the non-black cells minus, for each pair, twice the
    smaller of its two values; so with non-negative values no such pairing
    scores more than the empty one. *)
Theorem X9_score_of_pairing (g : Grid.t) (ps : list pair) :
  wf g ->
  NoDup (Solver.cells_of ps) ->
  (forall c, In c (Solver.cells_of ps) ->
             in_bounds g c /\ Grid.is_forbidden g (fst c) (snd c) = Ok false) ->
  Solver.score (Solver.mk g ps)
  = Ok (unpaired_total g
        - 2 * zsum (map (fun p => Z.min (cell_value g (fst p))
                                        (cell_value g (snd p))) ps))
  /\ Solver.score (Solver.mk g []) = Ok (unpaired_total g)
  /\ ((forall c, in_bounds g c -> 0 <= cell_value g c) ->
      exists s, Solver.score (Solver.mk g ps) = Ok s /\ s <= unpaired_total g).
Proof.
  intros Hwf Hnd Hcells.
  assert (Hu : forall c, In c (Solver.cells_of ps) ->
                 in_bounds g c /\ (colour_code g c =? 4) = false).
  { intros c Hc. destruct (Hcells c Hc) as [Hb Hf]. split; [exact Hb|].
    rewrite (is_forbidden_wf g c Hwf Hb) in Hf. congruence. }
  assert (Hin : forall p, In p ps ->
                  in_bounds g (fst p) /\ in_bounds g (snd p)).
  { intros p Hp. split; apply Hu; unfold Solver.cells_of; apply in_flat_map;
      exists p; simpl; auto. }
  assert (Hsum : zsum (map (cell_value g) (Solver.cells_of ps))
                 = zsum (map (fun p => cell_value g (fst p)
                                       + cell_value g (snd p)) ps)).
  { clear. induction ps as [|p r IH]; simpl; [reflexivity|]. rewrite IH. lia. }
  assert (Hscore : Solver.score (Solver.mk g ps)
                   = Ok (unpaired_total g
                         - 2 * zsum (map (fun p =>
                                            Z.min (cell_value g (fst p))
                                                  (cell_value g (snd p))) ps))).
  { unfold Solver.score. cbn [Solver.grid Solver.pairs].
    rewrite (score_of_wf g ps Hwf Hin).
    f_equal. unfold score_value. rewrite (unpaired_sum g _ Hnd Hu), Hsum.
    assert (E : zsum (map (pair_cost g) ps)
                - zsum (map (fun p => cell_value g (fst p)
                                      + cell_value g (snd p)) ps)
                = - (2 * zsum (map (fun p => Z.min (cell_value g (fst p))
                                                  (cell_value g (snd p))) ps))).
    { clear. induction ps as [|p r IH]; [reflexivity|].
      cbn [map]. unfold zsum in *. cbn [fold_right].
      unfold pair_cost in *. lia. }
    lia. }
  split; [exact Hscore|]. split.
  - unfold Solver.score. cbn [Solver.grid Solver.pairs].
    rewrite score_of_wf; [|exact Hwf|intros ? []].
    unfold score_value, unpaired_total. cbn [map]. unfold zsum at 1.
    cbn [fold_right]. rewrite Z.add_0_l. do 2 f_equal.
    apply map_ext. intros c.
    unfold unpaired_value. simpl. destruct (colour_code g c =? 4); reflexivity.
  - intros Hpos. eexists. split; [exact Hscore|].
    assert (0 <= zsum (map (fun p => Z.min (cell_value g (fst p))
                                           (cell_value g (snd p))) ps)); [|lia].
    apply zsum_nonneg. intros x Hx. apply in_map_iff in Hx as (p & <- & Hp).
    destruct (Hin p Hp) as [H1 H2].
    pose proof (Hpos _ H1). pose proof (Hpos _ H2). lia.
Qed.

Lemma X9_witness :
  let g := Grid.mk 1 4 [[0; 0; 0; 0]] [[1; 100; 100; 1]] in
  let ps := [((0, 1), (0, 2))] in
  wf g
  /\ NoDup (Solver.cells_of ps)
  /\ Solver.score (Solver.mk g ps)
     = Ok (unpaired_total g
           - 2 * zsum (map (fun p => Z.min (cell_value g (fst p))
                                           (cell_value g (snd p))) ps))
  /\ Solver.score (Solver.mk g []) = Ok (unpaired_total g)
  /\ ((forall c, in_bounds g c -> 0 <= cell_value g c) ->
      exists s, Solver.score (Solver.mk g ps) = Ok s /\ s <= unpaired_total g).
Proof.
  intros g ps.
  assert (Hwf : wf g) by reflexivity.
  assert (Hnd : NoDup (Solver.cells_of ps)).
  { simpl. repeat constructor; simpl; intuition congruence. }
  split; [exact Hwf|]. split; [exact Hnd|].
  apply (X9_score_of_pairing g ps Hwf Hnd).
  intros c [<-|[<-|[]]]; (split; [unfold in_bounds; simpl; lia|reflexivity]).
Defined.

(** ** The greedy solver ([SolverNaive.run]) *)

(** [pair[0] not in used_cells and pair[1] not in used_cells] *)
Definition free (p : pair) (used : list cell) : bool :=
  negb (cell_in (fst p) used) && negb (cell_in (snd p) used).

(** The selection loop as a recursion on the pairs still to visit:
    [used_cells] always holds the cells of the pairs selected so far. *)
Fixpoint greedy (sel : list pair) (ps : list pair) : list pair :=
  match ps with
  | [] => sel
  | p :: r => if free p (Solver.cells_of sel) then greedy (sel ++ [p]) r
              else greedy sel r
  end.

Lemma cells_of_app l1 l2 :
  Solver.cells_of (l1 ++ l2) = Solver.cells_of l1 ++ Solver.cells_of l2.
Proof. unfold Solver.cells_of. apply flat_map_app. Qed.

(** Body of the selection loop. *)
Definition select_step (st : list cell * list pair) (p : pair)
  : list cell * list pair :=
  let (used, sel) := st in
  if negb (cell_in (fst p) used) && negb (cell_in (snd p) used)
  then (used ++ [fst p; snd p], sel ++ [p])
  else st.

Lemma select_fold ps : forall sel,
  snd (fold_left select_step ps (Solver.cells_of sel, sel)) = greedy sel ps.
Proof.
  induction ps as [|p r IH]; intros sel; [reflexivity|].
  cbn [fold_left greedy]. unfold select_step at 2.
  fold (free p (Solver.cells_of sel)).
  destruct (free p (Solver.cells_of sel)).
  - rewrite <- IH. rewrite cells_of_app. reflexivity.
  - apply IH.
Qed.

Lemma select_greedy ps : SolverNaive.select ps = greedy [] ps.
Proof. exact (select_fold ps []). Qed.

Lemma greedy_keeps ps : forall sel p, In p sel -> In p (greedy sel ps).
Proof.
  induction ps as [|q r IH]; intros sel p Hp; simpl; [exact Hp|].
  destruct (free q (Solver.cells_of sel)); apply IH; [|exact Hp].
  apply in_or_app. now left.
Qed.

Lemma greedy_incl ps : forall sel p,
  In p (greedy sel ps) -> In p sel \/ In p ps.
Proof.
  induction ps as [|q r IH]; intros sel p Hp; simpl in *; [now left|].
  destruct (free q (Solver.cells_of sel)).
  - apply IH in Hp as [Hp|Hp]; [|auto].
    apply in_app_or in Hp as [Hp|[<-|[]]]; auto.
  - apply IH in Hp as [Hp|Hp]; auto.
Qed.

Lemma greedy_cells_keep ps sel c :
  In c (Solver.cells_of sel) -> In c (Solver.cells_of (greedy sel ps)).
Proof.
  unfold Solver.cells_of. rewrite !in_flat_map.
  intros (p & Hp & Hc). exists p. split; [now apply greedy_keeps|exact Hc].
Qed.

Lemma free_spec p used :
  free p used = true <-> ~ In (fst p) used /\ ~ In (snd p) used.
Proof.
  unfold free. rewrite andb_true_iff, !negb_true_iff.
  rewrite <- !not_true_iff_false, !cell_in_spec. tauto.
Qed.

Lemma greedy_nodup ps : forall sel,
  NoDup (Solver.cells_of sel) -> (forall p, In p ps -> fst p <> snd p) ->
  NoDup (Solver.cells_of (greedy sel ps)).
Proof.
  induction ps as [|q r IH]; intros sel Hnd Hne; simpl; [exact Hnd|].
  destruct (free q (Solver.cells_of sel)) eqn:Ef.
  - apply IH; [|intros; apply Hne; now right].
    apply free_spec in Ef as [H1 H2]. rewrite cells_of_app.
    apply NoDup_app; [exact Hnd| |].
    + simpl. constructor; [|repeat constructor; intros []].
      intros [E|[]]. apply (Hne q (or_introl eq_refl)). congruence.
    + intros c Hc [<-|[<-|[]]]; contradiction.
  - apply IH; [exact Hnd|intros; apply Hne; now right].
Qed.

(** Every pair visited ends with one of its cells used. *)
Lemma greedy_maximal ps : forall sel p,
  In p ps ->
  In (fst p) (Solver.cells_of (greedy sel ps))
  \/ In (snd p) (Solver.cells_of (greedy sel ps)).
Proof.
  induction ps as [|q r IH]; intros sel p Hp; [destruct Hp|]. simpl.
  destruct Hp as [->|Hp].
  - destruct (free p (Solver.cells_of sel)) eqn:Ef.
    + left. apply greedy_cells_keep. rewrite cells_of_app.
      apply in_or_app. right. simpl. now left.
    + assert (H : In (fst p) (Solver.cells_of sel)
                  \/ In (snd p) (Solver.cells_of sel)).
      { unfold free in Ef. apply andb_false_iff in Ef.
        rewrite !negb_false_iff, !cell_in_spec in Ef. exact Ef. }
      destruct H; [left|right]; now apply greedy_cells_keep.
  - destruct (free q (Solver.cells_of sel)); now apply IH.
Qed.

(** Keys in non-decreasing order. *)
Fixpoint ascending {A} (key : A -> Z) (l : list A) : Prop :=
  match l with
  | [] => True
  | x :: r => (forall y, In y r -> key x <= key y) /\ ascending key r
  end.

Lemma ascending_app_inv {A} (key : A -> Z) (l1 : list A) x l2 :
  ascending key (l1 ++ x :: l2) -> ascending key (l1 ++ l2).
Proof.
  induction l1 as [|a r IH]; simpl.
  - tauto.
  - intros [Ha Hr]. split; [|now apply IH].
    intros y Hy. apply Ha. apply in_app_or in Hy as [Hy|Hy];
      apply in_or_app; [now left|right; now right].
Qed.

Lemma greedy_ascending (key : pair -> Z) ps : forall sel,
  ascending key (sel ++ ps) -> ascending key (greedy sel ps).
Proof.
  induction ps as [|q r IH]; intros sel Ha; simpl.
  - now rewrite app_nil_r in Ha.
  - destruct (free q (Solver.cells_of sel)).
    + apply IH. now rewrite <- app_assoc.
    + apply IH. now apply ascending_app_inv in Ha.
Qed.

Lemma greedy_head p r : exists rest, greedy [] (p :: r) = p :: rest.
Proof.
  simpl.
  assert (H : forall ps sel, exists rest, greedy (p :: sel) ps = p :: rest).
  { induction ps as [|q ps IH]; intros sel; simpl; [eauto|].
    destruct (free q _); [apply (IH (sel ++ [q]))|apply IH]. }
  apply (H r []).
Qed.

(** *** The sort *)

Lemma insert_by_key_perm x l :
  Permutation (SolverNaive.insert_by_key x l) (x :: l).
Proof.
  induction l as [|y r IH]; simpl; [reflexivity|].
  destruct (fst x <=? fst y); [reflexivity|].
  rewrite IH. apply perm_swap.
Qed.

Lemma sort_by_key_perm l : Permutation (SolverNaive.sort_by_key l) l.
Proof.
  induction l as [|x r IH]; simpl; [reflexivity|].
  rewrite insert_by_key_perm. now constructor.
Qed.

Lemma insert_by_key_ascending x l :
  ascending fst l -> ascending fst (SolverNaive.insert_by_key x l).
Proof.
  induction l as [|y r IH]; simpl; [tauto|].
  intros [Hy Hr]. destruct (Z.leb_spec (fst x) (fst y)).
  - simpl. split; [|tauto].
    intros z [<-|Hz]; [lia|]. specialize (Hy z Hz). lia.
  - simpl. split; [|now apply IH].
    intros z Hz. apply (Permutation_in _ (insert_by_key_perm x r)) in Hz.
    destruct Hz as [<-|Hz]; [lia|now apply Hy].
Qed.

Lemma sort_by_key_ascending l : ascending fst (SolverNaive.sort_by_key l).
Proof.
  induction l as [|x r IH]; simpl; [exact I|].
  now apply insert_by_key_ascending.
Qed.

Lemma ascending_map_snd (key : pair -> Z) (l : list (Z * pair)) :
  (forall x, In x l -> fst x = key (snd x)) ->
  ascending fst l -> ascending key (map snd l).
Proof.
  induction l as [|x r IH]; intros Hk Ha; simpl; [exact I|].
  destruct Ha as [Hx Hr]. split.
  - intros y Hy. apply in_map_iff in Hy as (z & <- & Hz).
    rewrite <- (Hk x (or_introl eq_refl)), <- (Hk z (or_intror Hz)).
    now apply Hx.
  - apply IH; [|exact Hr]. intros z Hz. apply Hk. now right.
Qed.

(** *** The pairs of a grid *)

Lemma all_pairs_mem `{SetIteration} g ps :
  wf g -> Grid.all_pairs g = Ok ps ->
  NoDup ps
  /\ forall p, In p ps <-> exists c, in_bounds g c /\ In p (cell_pairs g c).
Proof.
  intros Hwf E. unfold Grid.all_pairs in E.
  rewrite (all_pairs_scan_wf g Hwf) in E. simpl in E. injection E as <-.
  set (raw := flat_map (cell_pairs g) (SolverBellmanFord.scan_order g)).
  pose proof (NoDup_all_cell_pairs g) as Hnd. fold raw in Hnd.
  pose proof (list_of_set_perm raw) as Hperm.
  rewrite (nodup_fixed_point pair_eq_dec Hnd) in Hperm.
  split; [apply (Permutation_NoDup Hperm Hnd)|].
  intros p. split.
  - intros Hp. apply (Permutation_in _ (Permutation_sym Hperm)) in Hp.
    apply in_flat_map in Hp as [c [Hc Hp]]. exists c. split; auto.
    now apply in_scan_order.
  - intros [c [Hc Hp]]. apply (Permutation_in _ Hperm).
    apply in_flat_map. exists c. split; auto. now apply in_scan_order.
Qed.

Lemma all_pairs_valid `{SetIteration} g ps p :
  wf g -> Grid.all_pairs g = Ok ps -> In p ps ->
  in_bounds g (fst p) /\ in_bounds g (snd p)
  /\ valid_pair g (fst p) (snd p) = true /\ fst p <> snd p.
Proof.
  intros Hwf E Hp. destruct (all_pairs_mem g ps Hwf E) as [_ Hin].
  apply Hin in Hp as (c & Hc & Hp).
  apply in_cell_pairs in Hp as (Ec & Hs & Hv). subst c.
  destruct Hc as [Hi Hj].
  assert (Hb2 : in_bounds g (snd p)).
  { destruct Hs as [[-> Hlt]|[-> Hlt]]; split; simpl; lia. }
  split; [split; assumption|]. split; [exact Hb2|]. split; [exact Hv|].
  intros Eq. rewrite <- Eq in Hs.
  destruct (fst p) as [i j]; simpl in Hs.
  destruct Hs as [[E1 _]|[E1 _]]; injection E1; lia.
Qed.

Lemma valid_pair_listed `{SetIteration} g ps c1 c2 :
  wf g -> Grid.all_pairs g = Ok ps ->
  in_bounds g c1 -> in_bounds g c2 -> valid_pair g c1 c2 = true ->
  In (c1, c2) ps \/ In (c2, c1) ps.
Proof.
  intros Hwf E H1 H2 Hv. destruct (all_pairs_mem g ps Hwf E) as [_ Hin].
  assert (Hv' : valid_pair g c2 c1 = true)
    by (now rewrite <- (valid_pair_sym g c1 c2 Hwf H1 H2)).
  destruct H1 as [H1i H1j], H2 as [H2i H2j].
  destruct (valid_pair_adjacent g c1 c2 Hv) as [[Hc [Hr|Hr]]|[Hr [Hc|Hc]]].
  - left. apply Hin. exists c1. split; [split; auto|].
    apply in_cell_pairs. simpl. split; [auto|]. split; [|auto].
    right. split; [|lia]. destruct c2; simpl in *. f_equal; lia.
  - right. apply Hin. exists c2. split; [split; auto|].
    apply in_cell_pairs. simpl. split; [auto|]. split; [|auto].
    right. split; [|lia]. destruct c1; simpl in *. f_equal; lia.
  - left. apply Hin. exists c1. split; [split; auto|].
    apply in_cell_pairs. simpl. split; [auto|]. split; [|auto].
    left. split; [|lia]. destruct c2; simpl in *. f_equal; lia.
  - right. apply Hin. exists c2. split; [split; auto|].
    apply in_cell_pairs. simpl. split; [auto|]. split; [|auto].
    left. split; [|lia]. destruct c1; simpl in *. f_equal; lia.
Qed.

(** *** [run], step by step *)

Lemma flat_map_single {A B} (f : A -> B) (l : list A) :
  flat_map (fun x => [f x]) l = map f l.
Proof. induction l; simpl; congruence. Qed.

Lemma naive_run_spec `{SetIteration} (s : Solver.t) :
  wf (Solver.grid s) ->
  let g := Solver.grid s in
  exists ps sorted,
    Grid.all_pairs g = Ok ps
    /\ Permutation sorted ps
    /\ ascending (pair_cost g) sorted
    /\ SolverNaive.run s
       = (Ok (score_value g (greedy [] sorted)),
          Solver.mk g (greedy [] sorted)).
Proof.
  intros Hwf g.
  destruct (Grid.all_pairs g) as [ps| |] eqn:Eps;
    try (unfold Grid.all_pairs in Eps;
         rewrite (all_pairs_scan_wf g Hwf) in Eps; discriminate).
  set (keyed := map (fun p => (pair_cost g p, p)) ps).
  assert (Ekeyed : for_each ps
                     (fun p acc => c <- Grid.cost g p ;; Ok (acc ++ [(c, p)]))
                     [] = Ok keyed).
  { rewrite (for_each_append (fun p => [(pair_cost g p, p)])).
    - simpl. now rewrite flat_map_single.
    - intros p acc Hp.
      destruct (all_pairs_valid g ps p Hwf Eps Hp) as (H1 & H2 & _).
      now rewrite (cost_wf g p Hwf H1 H2). }
  set (sorted := map snd (SolverNaive.sort_by_key keyed)).
  assert (Hperm : Permutation sorted ps).
  { unfold sorted.
    rewrite (Permutation_map snd (sort_by_key_perm keyed)).
    unfold keyed. rewrite map_map. simpl. now rewrite map_id. }
  assert (Hkeys : forall x, In x (SolverNaive.sort_by_key keyed) ->
                            fst x = pair_cost g (snd x)).
  { intros x Hx. apply (Permutation_in _ (sort_by_key_perm keyed)) in Hx.
    unfold keyed in Hx. apply in_map_iff in Hx as (p & <- & _). reflexivity. }
  assert (Hasc : ascending (pair_cost g) sorted).
  { unfold sorted. apply ascending_map_snd; [exact Hkeys|].
    apply sort_by_key_ascending. }
  exists ps, sorted. split; [reflexivity|]. split; [exact Hperm|].
  split; [exact Hasc|].
  unfold SolverNaive.run, bindS, getS, liftS, modifyS, SolverNaive.set_pairs.
  fold g. rewrite Eps. simpl. rewrite Ekeyed. fold sorted.
  rewrite select_greedy. unfold Solver.score. simpl.
  rewrite score_of_wf; [reflexivity|exact Hwf|].
  intros p Hp. apply greedy_incl in Hp as [[]|Hp].
  apply (Permutation_in _ Hperm) in Hp.
  destruct (all_pairs_valid g ps p Hwf Eps Hp) as (H1 & H2 & _). auto.
Qed.

(** X10: on a well-formed grid [SolverNaive.run] returns normally; the pairs
    it leaves in [self.pairs] are pairs of [all_pairs], each passes
    [test_pair], no cell occurs in two of them (or twice in one), and the
    value returned is the score of these pairs. *)
Theorem X10_naive_pairing_valid `{SetIteration} (s : Solver.t) :
  wf (Solver.grid s) ->
  let g := Solver.grid s in
  let s' := snd (SolverNaive.run s) in
  Solver.grid s' = g
  /\ (exists z, fst (SolverNaive.run s) = Ok z /\ Solver.score s' = Ok z)
  /\ NoDup (Solver.cells_of (Solver.pairs s'))
  /\ (forall p, In p (Solver.pairs s') ->
        Grid.test_pair g (fst p) (snd p) = Ok true)
  /\ (exists ps, Grid.all_pairs g = Ok ps
                 /\ forall p, In p (Solver.pairs s') -> In p ps).
Proof.
  intros Hwf g s'.
  destruct (naive_run_spec s Hwf) as (ps & sorted & Eps & Hperm & _ & Erun).
  fold g in Eps, Erun. subst s'. rewrite Erun. simpl.
  assert (Hsub : forall p, In p (greedy [] sorted) -> In p ps).
  { intros p Hp. apply greedy_incl in Hp as [[]|Hp].
    now apply (Permutation_in _ Hperm). }
  split; [reflexivity|]. split; [|split; [|split]].
  - eexists. split; [reflexivity|]. unfold Solver.score. simpl.
    apply score_of_wf; [exact Hwf|]. intros p Hp.
    destruct (all_pairs_valid g ps p Hwf Eps (Hsub p Hp)) as (H1 & H2 & _).
    auto.
  - apply greedy_nodup; [constructor|]. intros p Hp.
    apply (Permutation_in _ Hperm) in Hp.
    now destruct (all_pairs_valid g ps p Hwf Eps Hp) as (_ & _ & _ & Hne).
  - intros p Hp.
    destruct (all_pairs_valid g ps p Hwf Eps (Hsub p Hp)) as (H1 & H2 & Hv & _).
    now rewrite (test_pair_wf g _ _ Hwf H1 H2), Hv.
  - exists ps. split; [exact Eps|exact Hsub].
Qed.

Lemma X10_witness :
  let s := Solver.mk (Grid.mk 1 4 [[0; 0; 0; 0]] [[1; 100; 100; 1]]) [] in
  let g := Solver.grid s in
  let s' := snd (@SolverNaive.run first_insertion_order s) in
  wf g
  /\ Solver.grid s' = g
  /\ (exists z, fst (@SolverNaive.run first_insertion_order s) = Ok z
                /\ Solver.score s' = Ok z)
  /\ NoDup (Solver.cells_of (Solver.pairs s'))
  /\ (forall p, In p (Solver.pairs s') ->
        Grid.test_pair g (fst p) (snd p) = Ok true)
  /\ (exists ps, @Grid.all_pairs first_insertion_order g = Ok ps
                 /\ forall p, In p (Solver.pairs s') -> In p ps).
Proof.
  intros s g s'. split; [reflexivity|].
  apply (@X10_naive_pairing_valid first_insertion_order s). reflexivity.
Defined.

(** X11: the greedy solver visits the pairs by non-decreasing cost and
    stops only when nothing can be added.  On a well-formed grid, after
    [run]: the costs of the selected pairs are in non-decreasing order; the
    first selected pair is a cheapest pair of the grid; and the pairing is
    maximal: of any two in-bounds cells that pass [test_pair], at least one
    is used by a selected pair. *)
Theorem X11_naive_greedy_maximal `{SetIteration} (s : Solver.t) :
  wf (Solver.grid s) ->
  let g := Solver.grid s in
  let sel := Solver.pairs (snd (SolverNaive.run s)) in
  ascending (pair_cost g) sel
  /\ (forall ps, Grid.all_pairs g = Ok ps ->
        (ps <> [] -> sel <> [])
        /\ forall p0 rest q, sel = p0 :: rest -> In q ps ->
             Grid.cost g p0 = Ok (pair_cost g p0)
             /\ Grid.cost g q = Ok (pair_cost g q)
             /\ pair_cost g p0 <= pair_cost g q)
  /\ (forall c1 c2, in_bounds g c1 -> in_bounds g c2 ->
        Grid.test_pair g c1 c2 = Ok true ->
        In c1 (Solver.cells_of sel) \/ In c2 (Solver.cells_of sel)).
Proof.
  intros Hwf g sel.
  destruct (naive_run_spec s Hwf) as (ps & sorted & Eps & Hperm & Hasc & Erun).
  fold g in Eps, Erun, Hasc. subst sel. rewrite Erun. simpl.
  split; [|split].
  - apply greedy_ascending. exact Hasc.
  - intros ps' Eps'. assert (ps' = ps) by congruence. subst ps'.
    split.
    + intros Hne Hsel. destruct sorted as [|p r].
      * apply Permutation_nil in Hperm. congruence.
      * destruct (greedy_head p r) as [rest Er]. congruence.
    + intros p0 rest q Hsel Hq.
      destruct sorted as [|p r]; [discriminate Hsel|].
      destruct (greedy_head p r) as [rest' Er]. rewrite Er in Hsel.
      injection Hsel as <- _.
      assert (Hp : In p ps) by (apply (Permutation_in _ Hperm); now left).
      destruct (all_pairs_valid g ps p Hwf Eps Hp) as (H1 & H2 & _).
      destruct (all_pairs_valid g ps q Hwf Eps Hq) as (H3 & H4 & _).
      split; [now apply cost_wf|]. split; [now apply cost_wf|].
      apply (Permutation_in _ (Permutation_sym Hperm)) in Hq.
      destruct Hq as [<-|Hq]; [lia|]. now apply (proj1 Hasc).
  - intros c1 c2 H1 H2 Htp.
    rewrite (test_pair_wf g _ _ Hwf H1 H2) in Htp.
    assert (Hv : valid_pair g c1 c2 = true) by congruence.
    destruct (valid_pair_listed g ps c1 c2 Hwf Eps H1 H2 Hv) as [Hp|Hp];
      apply (Permutation_in _ (Permutation_sym Hperm)) in Hp;
      destruct (greedy_maximal sorted [] _ Hp) as [Hc|Hc]; simpl in Hc; auto.
Qed.

Lemma X11_witness :
  let s := Solver.mk (Grid.mk 1 4 [[0; 0; 0; 0]] [[1; 100; 100; 1]]) [] in
  let g := Solver.grid s in
  let sel := Solver.pairs (snd (@SolverNaive.run first_insertion_order s)) in
  wf g
  /\ sel = [((0, 1), (0, 2))]
  /\ ascending (pair_cost g) sel
  /\ (forall ps, @Grid.all_pairs first_insertion_order g = Ok ps ->
        (ps <> [] -> sel <> [])
        /\ forall p0 rest q, sel = p0 :: rest -> In q ps ->
             Grid.cost g p0 = Ok (pair_cost g p0)
             /\ Grid.cost g q = Ok (pair_cost g q)
             /\ pair_cost g p0 <= pair_cost g q)
  /\ (forall c1 c2, in_bounds g c1 -> in_bounds g c2 ->
        Grid.test_pair g c1 c2 = Ok true ->
        In c1 (Solver.cells_of sel) \/ In c2 (Solver.cells_of sel)).
Proof.
  intros s g sel. split; [reflexivity|]. split; [reflexivity|].
  apply (@X11_naive_greedy_maximal first_insertion_order s). reflexivity.
Defined.

(** ** Adding edges ([Graph.add_edge]) *)

Lemma add_edges_total calls : forall g,
  aligned g -> exists g', add_edges calls g = (Ok tt, g') /\ aligned g'.
Proof.
  induction calls as [|[[[u v] k] c] r IH]; intros g Hal.
  - exists g. split; [reflexivity|exact Hal].
  - destruct (add_edge_spec u v k c g Hal) as (g1 & E1 & A1 & _).
    destruct (IH g1 A1) as (g2 & E2 & A2). exists g2. split; [|exact A2].
    unfold add_edges in *. simpl. unfold bindS at 1. rewrite E1. exact E2.
Qed.

Lemma lookup_adj g a :
  Dict.lookup (Graph.adj_list g) a
  = match adj g a with Some l => Ok l | None => Raise KeyError end.
Proof. reflexivity. Qed.

Lemma node_eqb_refl x : node_eqb x x = true.
Proof. destruct (node_eqb_spec x x); congruence. Qed.

Lemma node_eqb_neq x y : x <> y -> node_eqb x y = false.
Proof. destruct (node_eqb_spec x y); congruence. Qed.

Lemma edge_upd_twice {V} (f : node -> node -> option V) u v (x y : V) a b :
  edge_upd (edge_upd f u v x) v u y a b
  = if node_eqb v a && node_eqb u b then Some y
    else if node_eqb u a && node_eqb v b then Some x
         else f a b.
Proof. reflexivity. Qed.

(** X12: what [add_edge(u, v, cap, cost)] does to a graph built by any
    sequence of [add_edge] calls.  It never raises.  Afterwards the reverse
    entries are [capacity[v][u] = 0] and [cost[v][u] = -cost] and both flows
    of the edge are 0, whatever they were before: adding an edge again
    overwrites its capacity and cost and resets its flow.  For [u <> v] the
    forward entries are [cap] and [cost], and [v] is appended to
    [adj_list[u]] and [u] to [adj_list[v]], also when they are listed there
    already.  For a self-loop [u = v] the reverse assignments win (capacity
    0, cost [-cost]) and [u] is appended twice to its own list.  The entries
    of all other edges and the lists of all other nodes stay as they are. *)
Theorem X12_add_edge_round_trip
        (calls : list (node * node * Z * Z)) (u v : node) (cap c : Z) :
  exists g g',
    add_edges calls Graph.init = (Ok tt, g)
    /\ Graph.add_edge u v cap c g = (Ok tt, g')
    /\ get2 (Graph.capacity g') v u = Ok 0
    /\ get2 (Graph.cost g') v u = Ok (- c)
    /\ get2 (Graph.flow g') u v = Ok 0
    /\ get2 (Graph.flow g') v u = Ok 0
    /\ (u <> v ->
        get2 (Graph.capacity g') u v = Ok cap
        /\ get2 (Graph.cost g') u v = Ok c
        /\ Dict.lookup (Graph.adj_list g') u = Ok (adj_or_nil g u ++ [v])
        /\ Dict.lookup (Graph.adj_list g') v = Ok (adj_or_nil g v ++ [u]))
    /\ (u = v ->
        Dict.lookup (Graph.adj_list g') u = Ok (adj_or_nil g u ++ [u; u]))
    /\ (forall a b, (a, b) <> (u, v) -> (a, b) <> (v, u) ->
          get2 (Graph.capacity g') a b = get2 (Graph.capacity g) a b
          /\ get2 (Graph.cost g') a b = get2 (Graph.cost g) a b
          /\ get2 (Graph.flow g') a b = get2 (Graph.flow g) a b)
    /\ (forall a, a <> u -> a <> v ->
          Dict.lookup (Graph.adj_list g') a = Dict.lookup (Graph.adj_list g) a).
Proof.
  destruct (add_edges_total calls Graph.init aligned_init) as (g & Eg & Hal).
  destruct (add_edge_spec u v cap c g Hal)
    as (g' & E & _ & _ & Hcap & Hcost & Hflow & Hadj).
  exists g, g'. split; [exact Eg|]. split; [exact E|].
  rewrite !get2_entry, Hcap, Hcost, !Hflow, !edge_upd_twice.
  rewrite !node_eqb_refl. cbn [andb].
  split; [reflexivity|]. split; [reflexivity|]. split.
  { destruct (node_eqb v u && node_eqb u v); reflexivity. }
  split; [reflexivity|]. split; [|split; [|split]].
  - intros N. rewrite ?get2_entry, ?Hcap, ?Hcost, ?edge_upd_twice.
    rewrite (node_eqb_neq v u) by congruence. rewrite !node_eqb_refl.
    cbn [andb]. split; [reflexivity|]. split; [reflexivity|].
    rewrite !lookup_adj, !Hadj. unfold adj_app, adj_reg, adj_or_nil.
    rewrite ?node_eqb_refl, ?(node_eqb_neq v u), ?(node_eqb_neq u v)
      by congruence.
    destruct (adj g u), (adj g v); auto.
  - intros <-. rewrite lookup_adj, Hadj. unfold adj_app, adj_reg, adj_or_nil.
    rewrite !node_eqb_refl.
    destruct (adj g u); simpl; [rewrite <- app_assoc|]; reflexivity.
  - intros a b N1 N2. rewrite !get2_entry, Hcap, Hcost, Hflow, !edge_upd_twice.
    assert (E1 : node_eqb v a && node_eqb u b = false).
    { destruct (node_eqb_spec v a), (node_eqb_spec u b); simpl; congruence. }
    assert (E2 : node_eqb u a && node_eqb v b = false).
    { destruct (node_eqb_spec u a), (node_eqb_spec v b); simpl; congruence. }
    rewrite E1, E2. auto.
  - intros a Nu Nv. rewrite !lookup_adj, Hadj. unfold adj_app, adj_reg.
    rewrite (node_eqb_neq v a), (node_eqb_neq u a) by congruence.
    reflexivity.
Qed.

(** ** The network of a grid ([SolverBellmanFord.build_graph]) *)

(** A solver as [run] resets it, and the network [build_graph] then
    builds. *)
Definition fresh (gr : Grid.t) : SolverBellmanFord.t :=
  SolverBellmanFord.mk gr [] Graph.init Dict.empty Dict.empty.

Definition network (gr : Grid.t) : Graph.t :=
  SolverBellmanFord.graph (snd (SolverBellmanFord.build_graph (fresh gr))).

Lemma network_built gr :
  wf gr ->
  fst (SolverBellmanFord.build_graph (fresh gr)) = Ok tt
  /\ built (network_calls gr) (network gr)
  /\ add_edges (network_calls gr) Graph.init = (Ok tt, network gr).
Proof.
  intros Hwf.
  destruct (build_graph_spec gr (fresh gr) Hwf (reset_coherent (fresh gr))
                             aligned_init) as (s' & E & _ & _ & Ea & _).
  destruct (build_graph_built gr (fresh gr) Hwf (reset_coherent (fresh gr))
                              eq_refl) as (s'' & E' & _ & _ & B).
  unfold network. rewrite E in *. injection E' as <-. simpl.
  split; [reflexivity|]. split; [exact B|exact Ea].
Qed.

Lemma add_edges_nodes calls : forall g g',
  aligned g -> add_edges calls g = (Ok tt, g') ->
  forall x, In x (nodes g') <->
            In x (nodes g)
            \/ exists e, In e calls /\ (x = call_src e \/ x = call_dst e).
Proof.
  induction calls as [|[[[u v] k] c] r IH]; intros g g' Hal E x.
  - unfold add_edges in E. simpl in E. injection E as <-.
    split; [auto|]. intros [H|(e & [] & _)]. exact H.
  - destruct (add_edge_spec u v k c g Hal) as (g1 & E1 & A1 & N1 & _).
    unfold add_edges in E. simpl in E. unfold bindS at 1 in E.
    rewrite E1 in E. fold (add_edges r g1) in E.
    rewrite (IH g1 g' A1 E x).
    assert (H1 : In x (nodes g1) <-> In x (nodes g) \/ x = u \/ x = v).
    { rewrite N1, !in_app_iff. split.
      - intros [[H|H]|H]; auto.
        + destruct (Dict.mem (Graph.capacity g) u); [destruct H|].
          destruct H as [<-|[]]. auto.
        + destruct (existsb (node_eqb v) (u :: nodes g)); [destruct H|].
          destruct H as [<-|[]]. auto.
      - intros [H|[-> | ->]]; auto.
        + destruct (Dict.mem (Graph.capacity g) u) eqn:Em.
          * apply dict_mem_in in Em. auto.
          * left. right. now left.
        + destruct (existsb (node_eqb v) (u :: nodes g)) eqn:Ex.
          * apply existsb_node_in in Ex. destruct Ex as [->|Hv]; auto.
            destruct (Dict.mem (Graph.capacity g) v) eqn:Em.
            -- apply dict_mem_in in Em. auto.
            -- left. right. now left.
          * right. now left. }
    rewrite H1. split.
    + intros [[H|[-> | ->]]|(e & He & Hx)]; auto.
      * right. exists (u, v, k, c). split; [now left|now left].
      * right. exists (u, v, k, c). split; [now left|now right].
      * right. exists e. split; [now right|exact Hx].
    + intros [H|(e & [<-|He] & Hx)]; auto.
      right. exists e. auto.
Qed.

Lemma add_edges_cost_keep calls : forall g g' a b,
  aligned g -> add_edges calls g = (Ok tt, g') ->
  (forall e, In e calls ->
             endpoints e <> (a, b) /\ endpoints e <> (b, a)) ->
  cst g' a b = cst g a b.
Proof.
  induction calls as [|[[[u v] k] c] r IH]; intros g g' a b Hal E Hne.
  - unfold add_edges in E. simpl in E. now injection E as <-.
  - destruct (add_edge_spec u v k c g Hal)
      as (g1 & E1 & A1 & _ & _ & Hcost & _).
    unfold add_edges in E. simpl in E. unfold bindS at 1 in E.
    rewrite E1 in E. fold (add_edges r g1) in E.
    rewrite (IH g1 g' a b A1 E) by (intros; apply Hne; now right).
    unfold cst. rewrite Hcost, edge_upd_twice.
    destruct (Hne (u, v, k, c) (or_introl eq_refl)) as [N1 N2].
    unfold endpoints, call_src, call_dst in N1, N2. simpl in N1, N2.
    assert (E2 : node_eqb v a && node_eqb u b = false).
    { destruct (node_eqb_spec v a), (node_eqb_spec u b); simpl; congruence. }
    assert (E3 : node_eqb u a && node_eqb v b = false).
    { destruct (node_eqb_spec u a), (node_eqb_spec v b); simpl; congruence. }
    now rewrite E2, E3.
Qed.

Lemma add_edges_cost calls : forall g g',
  aligned g -> add_edges calls g = (Ok tt, g') ->
  NoDup (map endpoints calls) -> no_antiparallel calls ->
  forall u v k c, In (u, v, k, c) calls -> cst g' u v = Some c.
Proof.
  induction calls as [|[[[u0 v0] k0] c0] r IH];
    intros g g' Hal E Hnd Hno u v k c Hin; [destruct Hin|].
  destruct (add_edge_spec u0 v0 k0 c0 g Hal)
    as (g1 & E1 & A1 & _ & _ & Hcost & _).
  unfold add_edges in E. simpl in E. unfold bindS at 1 in E.
  rewrite E1 in E. fold (add_edges r g1) in E.
  simpl in Hnd. inversion Hnd as [|? ? Hfresh Hnd']; subst.
  assert (Hno' : no_antiparallel r).
  { intros e1 e2 H1 H2. apply Hno; now right. }
  destruct Hin as [Heq|Hin]; [|now apply (IH g1 g' A1 E Hnd' Hno' u v k c)].
  injection Heq as -> -> -> ->.
  assert (Nuv : u <> v).
  { intros ->. apply (Hno (v, v, k, c) (v, v, k, c)); simpl; auto. }
  rewrite (add_edges_cost_keep r g1 g' u v A1 E).
  - unfold cst. rewrite Hcost, edge_upd_twice.
    rewrite (node_eqb_neq v u) by congruence. rewrite !node_eqb_refl.
    reflexivity.
  - intros e He. split.
    + intros Ee. apply Hfresh. apply in_map_iff. exists e.
      split; [exact Ee|exact He].
    + intros Ee. apply (Hno e (u, v, k, c)); [now right|now left|].
      unfold endpoints in Ee. injection Ee as -> ->. auto.
Qed.

Lemma good_calls_no_antiparallel calls :
  Forall good_call calls -> no_antiparallel calls.
Proof.
  intros Hg e1 e2 H1 H2 [Ha Hb]. rewrite Forall_forall in Hg.
  destruct (Hg e1 H1) as (_ & _ & L1). destruct (Hg e2 H2) as (_ & _ & L2).
  rewrite Ha, Hb in L1. lia.
Qed.

Lemma network_cost gr u v k c :
  wf gr -> In (u, v, k, c) (network_calls gr) -> cst (network gr) u v = Some c.
Proof.
  intros Hwf Hin. destruct (network_built gr Hwf) as (_ & _ & Ea).
  apply (add_edges_cost (network_calls gr) Graph.init (network gr)
                        aligned_init Ea (network_calls_nodup gr)
                        (good_calls_no_antiparallel _ (network_calls_good gr))
                        u v k c Hin).
Qed.

Lemma network_call_of_pair gr a b :
  in_bounds gr a -> in_bounds gr b -> is_even a = true ->
  valid_pair gr a b = true ->
  In (Cell a, Cell b, 1, pair_cost gr (a, b)) (network_calls gr).
Proof.
  intros Ha Hb Hev Hv.
  destruct (valid_pair_not_black gr a b Hv) as [Ba Bb].
  assert (Hd : exists d, In d SolverBellmanFord.directions
                         /\ b = (fst a + fst d, snd a + snd d)).
  { destruct a as [i j], b as [i' j']. simpl in *.
    destruct (valid_pair_adjacent gr (i, j) (i', j') Hv)
      as [[Hc [Hr|Hr]]|[Hr [Hc|Hc]]]; simpl in *.
    - exists (1, 0). split; [simpl; auto|]. simpl. f_equal; lia.
    - exists (-1, 0). split; [simpl; auto|]. simpl. f_equal; lia.
    - exists (0, 1). split; [simpl; auto|]. simpl. f_equal; lia.
    - exists (0, -1). split; [simpl; auto|]. simpl. f_equal; lia. }
  destruct Hd as (d & Hd & Eb).
  unfold network_calls. apply in_or_app. left. apply in_flat_map.
  exists a. split; [apply in_even_cells; auto|]. right.
  unfold nbr_calls. apply in_flat_map. exists d. split; [exact Hd|].
  unfold dir_call. cbv zeta. rewrite <- Eb.
  destruct Hb as [Hi Hj].
  assert (E1 : (0 <=? fst b) = true) by (apply Z.leb_le; lia).
  assert (E2 : (fst b <? Grid.n gr) = true) by (apply Z.ltb_lt; lia).
  assert (E3 : (0 <=? snd b) = true) by (apply Z.leb_le; lia).
  assert (E4 : (snd b <? Grid.m gr) = true) by (apply Z.ltb_lt; lia).
  unfold black. rewrite E1, E2, E3, E4, Bb, Hv. simpl. now left.
Qed.

Lemma network_cell_edge gr a b :
  wf gr ->
  cap (network gr) (Cell a) (Cell b) = Some 1 <->
  in_bounds gr a /\ in_bounds gr b /\ is_even a = true
  /\ valid_pair gr a b = true.
Proof.
  intros Hwf. destruct (network_built gr Hwf) as (_ & B & _). split.
  - intros Hc. apply (b_cap_one B) in Hc.
    destruct (network_cell_call gr a b Hc) as (Ha & Hb & Hv).
    split; [exact Ha|]. split; [exact Hb|]. split; [|exact Hv].
    destruct Hc as (k & c & Hin). apply in_network_calls in Hin
      as [(x & _ & E)|[(x & d & Hx & _ & Hd)|(x & _ & E)]]; try discriminate.
    apply in_dir_call in Hd as (E & _). injection E as Ea _ _ _. subst x.
    now apply in_even_cells in Hx.
  - intros (Ha & Hb & Hev & Hv). apply (b_call_cap B).
    exists 1, (pair_cost gr (a, b)). now apply network_call_of_pair.
Qed.

Lemma network_source_edge gr a :
  wf gr ->
  cap (network gr) Source (Cell a) = Some 1 <-> In a (even_cells gr).
Proof.
  intros Hwf. destruct (network_built gr Hwf) as (_ & B & _). split.
  - intros Hc. apply (b_cap_one B) in Hc. destruct Hc as (k & c & Hin).
    apply in_network_calls in Hin
      as [(x & Hx & E)|[(x & d & _ & _ & Hd)|(x & _ & E)]]; try discriminate.
    + injection E as -> _ _. exact Hx.
    + apply in_dir_call in Hd as (E & _). discriminate.
  - intros Ha. apply (b_call_cap B). exists 1, 0. unfold network_calls.
    apply in_or_app. left. apply in_flat_map. exists a. split; [exact Ha|].
    now left.
Qed.

Lemma network_sink_edge gr b :
  wf gr ->
  cap (network gr) (Cell b) Sink = Some 1 <-> In b (odd_cells gr).
Proof.
  intros Hwf. destruct (network_built gr Hwf) as (_ & B & _). split.
  - intros Hc. apply (b_cap_one B) in Hc. destruct Hc as (k & c & Hin).
    apply in_network_calls in Hin
      as [(x & _ & E)|[(x & d & _ & _ & Hd)|(x & Hx & E)]]; try discriminate.
    + apply in_dir_call in Hd as (E & _). discriminate.
    + injection E as -> _ _. exact Hx.
  - intros Hb. apply (b_call_cap B). exists 1, 0. unfold network_calls.
    apply in_or_app. right. apply in_map_iff. exists b. auto.
Qed.

Lemma get2_some {V} (d : Dict.t node (Dict.t node V)) u v x :
  get2 d u v = Ok x <-> entry d u v = Some x.
Proof.
  rewrite get2_entry. destruct (entry d u v); split; congruence.
Qed.

Lemma cell_status gr c :
  wf gr ->
  (In c (even_cells gr) <->
   in_bounds gr c /\ Grid.is_forbidden gr (fst c) (snd c) = Ok false
   /\ (fst c + snd c) mod 2 = 0)
  /\ (In c (odd_cells gr) <->
      in_bounds gr c /\ Grid.is_forbidden gr (fst c) (snd c) = Ok false
      /\ (fst c + snd c) mod 2 <> 0).
Proof.
  intros Hwf. rewrite in_even_cells, in_odd_cells. unfold black, is_even.
  split; split.
  - intros (Hb & Hk & He). rewrite (is_forbidden_wf gr c Hwf Hb), Hk.
    apply Z.eqb_eq in He. auto.
  - intros (Hb & Hf & He). rewrite (is_forbidden_wf gr c Hwf Hb) in Hf.
    split; [exact Hb|]. split; [congruence|]. now apply Z.eqb_eq.
  - intros (Hb & Hk & He). rewrite (is_forbidden_wf gr c Hwf Hb), Hk.
    apply Z.eqb_neq in He. auto.
  - intros (Hb & Hf & He). rewrite (is_forbidden_wf gr c Hwf Hb) in Hf.
    split; [exact Hb|]. split; [congruence|]. now apply Z.eqb_neq.
Qed.

(** X13: how [build_graph] encodes a well-formed grid.  Started from the
    empty graph with empty caches it returns normally, and in the network
    it builds:
    - the source has a unit edge to a cell exactly when the cell is in
      bounds, not black and [i + j] is even, and a cell has a unit edge to
      the sink exactly when it is in bounds, not black and [i + j] is odd;
    - a cell [a] has a unit edge to a cell [b] exactly when both are in
      bounds, [a] is even and [test_pair(a, b)] holds, and the cost of that
      edge is [grid.cost((a, b))];
    - source and sink edges cost 0; every edge has capacity 1 or 0, flow 0,
      and a reverse edge with the other capacity and the opposite cost, and
      a forward edge costs at least 0. *)
Theorem X13_network_encoding (gr : Grid.t) :
  wf gr ->
  let g := network gr in
  fst (SolverBellmanFord.build_graph (fresh gr)) = Ok tt
  /\ (forall a,
        get2 (Graph.capacity g) Source (Cell a) = Ok 1 <->
        in_bounds gr a /\ Grid.is_forbidden gr (fst a) (snd a) = Ok false
        /\ (fst a + snd a) mod 2 = 0)
  /\ (forall b,
        get2 (Graph.capacity g) (Cell b) Sink = Ok 1 <->
        in_bounds gr b /\ Grid.is_forbidden gr (fst b) (snd b) = Ok false
        /\ (fst b + snd b) mod 2 <> 0)
  /\ (forall a b,
        get2 (Graph.capacity g) (Cell a) (Cell b) = Ok 1 <->
        in_bounds gr a /\ in_bounds gr b /\ (fst a + snd a) mod 2 = 0
        /\ Grid.test_pair gr a b = Ok true)
  /\ (forall a b,
        get2 (Graph.capacity g) (Cell a) (Cell b) = Ok 1 ->
        get2 (Graph.cost g) (Cell a) (Cell b) = Grid.cost gr (a, b))
  /\ (forall a,
        get2 (Graph.capacity g) Source (Cell a) = Ok 1 ->
        get2 (Graph.cost g) Source (Cell a) = Ok 0)
  /\ (forall b,
        get2 (Graph.capacity g) (Cell b) Sink = Ok 1 ->
        get2 (Graph.cost g) (Cell b) Sink = Ok 0)
  /\ (forall x y k,
        get2 (Graph.capacity g) x y = Ok k ->
        (k = 1 \/ k = 0)
        /\ get2 (Graph.flow g) x y = Ok 0
        /\ get2 (Graph.capacity g) y x = Ok (1 - k)
        /\ exists c, get2 (Graph.cost g) x y = Ok c
                     /\ get2 (Graph.cost g) y x = Ok (- c)
                     /\ (k = 1 -> 0 <= c)).
Proof.
  intros Hwf g. destruct (network_built gr Hwf) as (Eb & B & _).
  fold g in B. pose proof (b_net B) as Hnet.
  split; [exact Eb|]. split; [|split; [|split; [|split; [|split; [|split]]]]].
  - intros a. rewrite get2_some. fold (cap g Source (Cell a)).
    unfold g. rewrite (network_source_edge gr a Hwf).
    apply (cell_status gr a Hwf).
  - intros b. rewrite get2_some. fold (cap g (Cell b) Sink).
    unfold g. rewrite (network_sink_edge gr b Hwf).
    apply (cell_status gr b Hwf).
  - intros a b. rewrite get2_some. fold (cap g (Cell a) (Cell b)).
    unfold g. rewrite (network_cell_edge gr a b Hwf). unfold is_even.
    rewrite Z.eqb_eq. split.
    + intros (Ha & Hb & He & Hv).
      rewrite (test_pair_wf gr a b Hwf Ha Hb), Hv. auto.
    + intros (Ha & Hb & He & Ht).
      rewrite (test_pair_wf gr a b Hwf Ha Hb) in Ht.
      split; [exact Ha|]. split; [exact Hb|]. split; [exact He|].
      congruence.
  - intros a b Hc. apply get2_some in Hc. fold (cap g (Cell a) (Cell b)) in Hc.
    apply (network_cell_edge gr a b Hwf) in Hc as (Ha & Hb & He & Hv).
    rewrite (cost_wf gr (a, b) Hwf Ha Hb). apply get2_some.
    apply (network_cost gr _ _ 1 _ Hwf).
    now apply network_call_of_pair.
  - intros a Hc. apply get2_some in Hc.
    apply (network_source_edge gr a Hwf) in Hc.
    apply get2_some. apply (network_cost gr _ _ 1 _ Hwf).
    unfold network_calls. apply in_or_app. left. apply in_flat_map.
    exists a. split; [exact Hc|now left].
  - intros b Hc. apply get2_some in Hc.
    apply (network_sink_edge gr b Hwf) in Hc.
    apply get2_some. apply (network_cost gr _ _ 1 _ Hwf).
    unfold network_calls. apply in_or_app. right. apply in_map_iff.
    exists b. auto.
  - intros x y k Hc. apply get2_some in Hc. fold (cap g x y) in Hc.
    assert (Hcn : cap g x y <> None) by congruence.
    pose proof (net_cap_sym Hnet x y Hcn) as Hsym.
    destruct (cap g y x) as [k'|] eqn:Ek'; [|congruence].
    pose proof (net_cost_dom Hnet x y Hcn) as Hcd.
    destruct (cst g x y) as [c|] eqn:Ec; [|congruence].
    pose proof (net_cost_anti Hnet x y c Ec) as Hanti.
    assert (Hcosts : get2 (Graph.cost g) x y = Ok c
                     /\ get2 (Graph.cost g) y x = Ok (- c)).
    { rewrite !get2_some. split; [exact Ec|exact Hanti]. }
    rewrite !get2_some. fold (flw g x y) (cap g y x).
    rewrite (b_flow_zero B x y Hcn), Ek'.
    destruct (net_layer Hnet x y k Hc) as [(-> & Hl & c' & Ec' & Hpos)|(-> & Hl)];
      destruct (net_layer Hnet y x k' Ek') as [(-> & Hl' & _)|(-> & Hl')];
      try lia.
    + split; [auto|]. split; [reflexivity|]. split; [reflexivity|].
      exists c. split; [apply Hcosts|]. split; [apply Hcosts|].
      intros _. congruence.
    + split; [auto|]. split; [reflexivity|]. split; [reflexivity|].
      exists c. split; [apply Hcosts|]. split; [apply Hcosts|].
      intros. lia.
Qed.

Lemma X13_witness :
  let gr := Grid.mk 2 3 [[0; 1; 2]; [3; 0; 4]] [[1; 5; 7]; [5; 5; 2]] in
  let g := network gr in
  wf gr
  /\ get2 (Graph.capacity g) (Cell (0, 2)) (Cell (0, 1)) = Ok 1
  /\ get2 (Graph.cost g) (Cell (0, 2)) (Cell (0, 1)) = Ok 2
  /\ (forall a b,
        get2 (Graph.capacity g) (Cell a) (Cell b) = Ok 1 <->
        in_bounds gr a /\ in_bounds gr b /\ (fst a + snd a) mod 2 = 0
        /\ Grid.test_pair gr a b = Ok true).
Proof.
  intros gr g. assert (Hwf : wf gr) by reflexivity.
  split; [exact Hwf|]. split; [reflexivity|]. split; [reflexivity|].
  apply (X13_network_encoding gr Hwf).
Defined.

(** ** What the shortest-path search returns ([Graph.bellman_ford]) *)

Lemma lookup_raises {K V} `{Key K} (d : Dict.t K V) k e :
  Dict.lookup d k = Raise e -> e = KeyError.
Proof. unfold Dict.lookup. destruct (Dict.get d k); congruence. Qed.

Lemma get2_raises {V} (d : Dict.t node (Dict.t node V)) u v e :
  get2 d u v = Raise e -> e = KeyError.
Proof. rewrite get2_entry. destruct (entry d u v); congruence. Qed.

Lemma relax_raises g u v st e :
  Graph.relax g u v st = Raise e -> e = KeyError.
Proof.
  unfold Graph.relax.
  destruct (get2 (Graph.capacity g) u v) as [k| |] eqn:E1; simpl;
    [|intros H; injection H as <-; now apply get2_raises in E1|discriminate].
  destruct (get2 (Graph.flow g) u v) as [f| |] eqn:E2; simpl;
    [|intros H; injection H as <-; now apply get2_raises in E2|discriminate].
  destruct (k >? f); [|discriminate].
  destruct (Dict.lookup (Graph.dist st) u) as [du| |] eqn:E3; simpl;
    [|intros H; injection H as <-; now apply lookup_raises in E3|discriminate].
  destruct (get2 (Graph.cost g) u v) as [c| |] eqn:E4; simpl;
    [|intros H; injection H as <-; now apply get2_raises in E4|discriminate].
  destruct (Dict.lookup (Graph.dist st) v) as [dv| |] eqn:E5; simpl;
    [|intros H; injection H as <-; now apply lookup_raises in E5|discriminate].
  destruct (ext_ltb (ext_add du c) dv); [|discriminate].
  destruct (Dict.lookup (Graph.in_queue st) v) as [inq| |] eqn:E6; simpl;
    [|intros H; injection H as <-; now apply lookup_raises in E6|discriminate].
  destruct (negb inq); discriminate.
Qed.

(** Every key of [dist] is a node of the graph. *)
Definition dist_known (g : Graph.t) (st : Graph.bf_state) : Prop :=
  forall x, Dict.get (Graph.dist st) x <> None -> In x (nodes g).

Lemma relax_dist_known g u v st st' :
  net g -> Graph.relax g u v st = Ok st' ->
  dist_known g st -> dist_known g st'.
Proof.
  intros Hnet E Hk. unfold Graph.relax in E.
  destruct (get2 (Graph.capacity g) u v) as [k| |] eqn:E1; simpl in E;
    try discriminate.
  assert (Hv : In v (nodes g)).
  { apply get2_some in E1. apply (net_cap_nodes Hnet u v).
    unfold cap. congruence. }
  destruct (get2 (Graph.flow g) u v) as [f| |]; simpl in E; try discriminate.
  destruct (k >? f); [|injection E as <-; exact Hk].
  destruct (Dict.lookup (Graph.dist st) u) as [du| |]; simpl in E;
    try discriminate.
  destruct (get2 (Graph.cost g) u v) as [c| |]; simpl in E; try discriminate.
  destruct (Dict.lookup (Graph.dist st) v) as [dv| |]; simpl in E;
    try discriminate.
  destruct (ext_ltb (ext_add du c) dv); [|injection E as <-; exact Hk].
  destruct (Dict.lookup (Graph.in_queue st) v) as [inq| |]; simpl in E;
    try discriminate.
  assert (Hset : forall x, Dict.get (Dict.set (Graph.dist st) v (ext_add du c)) x
                           <> None -> In x (nodes g)).
  { intros x. rewrite node_get_set.
    destruct (node_eqb_spec v x) as [<-|N]; [auto|apply Hk]. }
  destruct (negb inq); injection E as <-; exact Hset.
Qed.

Lemma relax_all_dist_known g u : forall l st,
  net g -> dist_known g st ->
  match for_each l (Graph.relax g u) st with
  | Ok st' => dist_known g st'
  | Raise e => e = KeyError
  | OutOfFuel => True
  end.
Proof.
  induction l as [|v r IH]; intros st Hnet Hk; simpl; [exact Hk|].
  destruct (Graph.relax g u v st) as [st1|e|] eqn:E; simpl.
  - apply IH; [exact Hnet|]. now apply (relax_dist_known g u v st st1).
  - now apply relax_raises in E.
  - exact I.
Qed.

Lemma bf_init_dist_known g source :
  In source (nodes g) -> dist_known g (Graph.bf_init g source).
Proof.
  intros Hs x. unfold Graph.bf_init. simpl.
  rewrite node_get_set, of_keys_get. fold (nodes g).
  destruct (node_eqb_spec source x) as [<-|N]; [auto|].
  destruct (existsb (node_eqb x) (nodes g)) eqn:E; [|congruence].
  intros _. now apply existsb_node_in.
Qed.

(** Without the sink among the nodes the search cannot return: the test
    [dist[sink] < INF], made when the queue runs empty, raises. *)
Lemma bf_loop_sink_missing g sink :
  net g -> ~ In sink (nodes g) ->
  forall fuel st, dist_known g st -> Graph.queue st <> [] ->
    match Graph.bf_loop fuel g sink st with
    | Ok _ => False
    | Raise e => e = KeyError
    | OutOfFuel => True
    end.
Proof.
  intros Hnet Hsink. induction fuel as [|fuel IH]; intros st Hk Hq.
  - simpl. destruct (Graph.queue st); [congruence|exact I].
  - simpl. destruct (Graph.queue st) as [|u q] eqn:Eq; [congruence|].
    destruct (Dict.lookup (Graph.adj_list g) u) as [l|e|] eqn:El; simpl;
      [|now apply lookup_raises in El|exact I].
    set (st1 := Graph.mk_bf (Graph.dist st) (Graph.pred st) q
                            (Dict.set (Graph.in_queue st) u false)).
    pose proof (relax_all_dist_known g u l st1 Hnet Hk) as H2.
    destruct (for_each l (Graph.relax g u) st1) as [st2|e|]; simpl;
      [|exact H2|exact I].
    destruct (Graph.queue st2) as [|w r] eqn:Eq2.
    + unfold Dict.lookup.
      destruct (Dict.get (Graph.dist st2) sink) eqn:Ed; simpl; [|reflexivity].
      exfalso. apply Hsink, H2. congruence.
    + simpl. apply IH; [exact H2|congruence].
Qed.

Section SearchResult.

Variable g : Graph.t.
Variable source sink : node.
Variable pot : node -> option Z.

Hypothesis Hnet : net g.
Hypothesis Hdom : forall x y, cap g x y <> None -> flw g x y <> None.
Hypothesis Hpot : feasible g source pot.
Hypothesis Hsink : In sink (nodes g).

(** With the sink among the nodes the search raises nothing. *)
Lemma bf_loop_no_raise : forall fuel st e,
  bf_inv g source pot None st -> Graph.bf_loop fuel g sink st <> Raise e.
Proof.
  induction fuel as [|fuel IH]; intros st e I.
  - simpl. destruct (Graph.queue st); discriminate.
  - simpl. destruct (Graph.queue st) as [|u q] eqn:Eq; [discriminate|].
    destruct (bf_pop_inv g source pot Hnet st u q I Eq) as (l & El & I1).
    set (st1 := Graph.mk_bf (Graph.dist st) (Graph.pred st) q
                            (Dict.set (Graph.in_queue st) u false)) in *.
    destruct (relax_all_inv g source pot Hnet Hdom Hpot u l st1 I1)
      as (st2 & E2 & I2 & _).
    { intros v Hv. now apply (net_adj_iff Hnet u l v El). }
    apply bf_inv_done in I2.
    unfold adj in El. unfold Dict.lookup at 1. rewrite El. simpl.
    rewrite E2. simpl.
    destruct (Graph.queue st2) as [|w r] eqn:Eq2.
    + destruct (bi_dom I2 sink Hsink) as [[d Hd] _].
      unfold dist_of in Hd. unfold Dict.lookup. rewrite Hd. simpl.
      destruct (ext_ltb d Inf); [discriminate|now apply IH].
    + simpl. now apply IH.
Qed.

End SearchResult.

(** X14: the shortest-path search is correct on a network without negative
    residual cycle.  Let [g] be a layered network with a capacity-bounded
    flow and a feasible potential, whose nodes include the source and the
    sink.  Then [bellman_ford] terminates and returns [dist] and [pred]
    such that: every node has a distance; [dist[source] = 0]; no residual
    edge [u -> v] can improve a distance ([dist[v] <= dist[u] + cost[u][v]]
    whenever [dist[u]] is finite); the edge from a recorded predecessor is
    residual and tight ([dist[v] = dist[pred[v]] + cost]); and following
    [pred] from any node with a finite distance leads to the source.  So
    the finite distances are the costs of shortest residual paths, and the
    nodes at distance [inf] are those no residual path reaches. *)
Theorem X14_bellman_ford_shortest
        (g : Graph.t) (source sink : node) (pot : node -> option Z) :
  net g -> flow_inv g -> feasible g source pot ->
  In source (nodes g) -> In sink (nodes g) ->
  exists fuel, forall fuel', (fuel <= fuel')%nat ->
    exists dist pred,
      Graph.bellman_ford fuel' g source sink = Ok (dist, pred)
      /\ (forall x, In x (nodes g) -> Dict.get dist x <> None)
      /\ Dict.get dist source = Some (Fin 0)
      /\ (forall u v du c,
            Dict.get dist u = Some (Fin du) -> residual g u v ->
            cst g u v = Some c ->
            exists dv, Dict.get dist v = Some (Fin dv) /\ dv <= du + c)
      /\ (forall v u,
            Dict.get pred v = Some (Some u) ->
            exists du dv c,
              Dict.get dist u = Some (Fin du)
              /\ Dict.get dist v = Some (Fin dv)
              /\ residual g u v /\ cst g u v = Some c /\ dv = du + c)
      /\ (forall v dv,
            Dict.get dist v = Some (Fin dv) ->
            exists n, chain pred n v = Some source).
Proof.
  intros Hnet Hflow Hpot Hsrc Hsink.
  destruct (bellman_ford_terminates g source pot Hnet (fi_dom Hflow) Hsrc
                                    Hpot sink) as [fuel H].
  exists fuel. intros fuel' Hle. specialize (H fuel' Hle).
  pose proof (bf_loop_no_raise g source sink pot Hnet (fi_dom Hflow) Hpot Hsink
                               fuel' (Graph.bf_init g source)) as Hnr.
  unfold Graph.bellman_ford in *.
  destruct (Graph.bf_loop fuel' g sink (Graph.bf_init g source))
    as [[dist pred]|e|]; simpl in H.
  - destruct H as (st & I & Eq & -> & ->).
    exists (Graph.dist st), (Graph.pred st). split; [reflexivity|].
    split; [|split; [|split; [|split]]].
    + intros x Hx. destruct (bi_dom I x Hx) as [[d Hd] _].
      unfold dist_of in Hd. congruence.
    + apply (bi_src I).
    + intros u v du c Hu Hres Hc.
      destruct (bf_final_relaxed g source pot st u du v I Eq Hu Hres)
        as (du' & dv & c' & Hu' & Hv & Hc' & Hle').
      unfold dist_of in *. exists dv. split; [exact Hv|].
      assert (du' = du) by congruence. assert (c' = c) by congruence.
      subst. exact Hle'.
    + intros v u Hp.
      apply (bf_final_tight g source pot st v u I Eq Hp).
    + intros v dv Hv. apply (bi_chain I v dv Hv).
  - exfalso. apply (Hnr e); [|reflexivity].
    apply bf_init_inv; assumption.
  - destruct H.
Qed.

Lemma X14_witness :
  let gr := Grid.mk 1 2 [[0; 0]] [[3; 5]] in
  let g := network gr in
  exists fuel, forall fuel', (fuel <= fuel')%nat ->
    exists dist pred,
      Graph.bellman_ford fuel' g Source Sink = Ok (dist, pred)
      /\ (forall x, In x (nodes g) -> Dict.get dist x <> None)
      /\ Dict.get dist Source = Some (Fin 0)
      /\ (forall u v du c,
            Dict.get dist u = Some (Fin du) -> residual g u v ->
            cst g u v = Some c ->
            exists dv, Dict.get dist v = Some (Fin dv) /\ dv <= du + c)
      /\ (forall v u,
            Dict.get pred v = Some (Some u) ->
            exists du dv c,
              Dict.get dist u = Some (Fin du)
              /\ Dict.get dist v = Some (Fin dv)
              /\ residual g u v /\ cst g u v = Some c /\ dv = du + c)
      /\ (forall v dv,
            Dict.get dist v = Some (Fin dv) ->
            exists n, chain pred n v = Some Source).
Proof.
  intros gr g.
  assert (Hwf : wf gr) by reflexivity.
  assert (B : built (network_calls gr) g) by apply (network_built gr Hwf).
  apply (X14_bellman_ford_shortest g Source Sink (fun _ => Some 0)
           (b_net B) (built_flow_inv _ _ B) (built_feasible _ _ B)).
  - vm_compute. auto.
  - vm_compute. auto.
Defined.

(** ** When the flow solver returns, and what it leaves unpaired *)

(** One iteration of the augmentation loop, by the distance of the sink. *)
Lemma mcf_iter_cases g pot :
  net g -> flow_inv g -> feasible g Source pot -> In Source (nodes g) ->
  exists fuel, forall fuel', (fuel <= fuel')%nat -> forall total,
    (~ In Sink (nodes g) ->
     Graph.mcf_iter fuel' Source Sink total g = (Raise KeyError, g))
    /\ (In Sink (nodes g) ->
        exists st,
          bf_inv g Source pot None st /\ Graph.queue st = []
          /\ match Dict.get (Graph.dist st) Sink with
             | Some Inf =>
                 Graph.mcf_iter fuel' Source Sink total g = (Ok None, g)
             | Some (Fin _) =>
                 exists total' g',
                   Graph.mcf_iter fuel' Source Sink total g
                   = (Ok (Some total'), g')
             | None => False
             end).
Proof.
  intros Hnet Hflow Hpot Hsrc.
  destruct (bellman_ford_terminates g Source pot Hnet (fi_dom Hflow) Hsrc
                                    Hpot Sink) as [fuel0 H0].
  exists (Nat.max fuel0 (length (nodes g))). intros fuel' Hle total.
  specialize (H0 fuel' ltac:(lia)). split.
  - intros Hns.
    pose proof (bf_loop_sink_missing g Sink Hnet Hns fuel'
                  (Graph.bf_init g Source) (bf_init_dist_known g Source Hsrc))
      as Hm.
    unfold Graph.mcf_iter, bindS, getS, liftS.
    unfold Graph.bellman_ford in *.
    destruct (Graph.bf_loop fuel' g Sink (Graph.bf_init g Source))
      as [dp|e|]; simpl in *.
    + exfalso. apply Hm. discriminate.
    + rewrite Hm; [reflexivity|discriminate].
    + destruct H0.
  - intros Hsink.
    pose proof (bf_loop_no_raise g Source Sink pot Hnet (fi_dom Hflow) Hpot
                  Hsink fuel' (Graph.bf_init g Source)) as Hnr.
    destruct (Graph.bellman_ford fuel' g Source Sink) as [[dist pred]|e|]
      eqn:EBF; simpl in H0.
    2:{ exfalso. apply (Hnr e); [now apply bf_init_inv|exact EBF]. }
    2:{ destruct H0. }
    destruct H0 as (st & I & Eq & -> & ->).
    exists st. split; [exact I|]. split; [exact Eq|].
    destruct (Dict.get (Graph.dist st) Sink) as [[d|]|] eqn:Ed.
    + destruct (bi_chain I Sink d Ed) as [n Hn].
      pose proof (chain_length_bound g pot st n Sink Hnet I Hn) as Hlen.
      assert (Hedge : forall e, In e (chain_edges (Graph.pred st) n Sink) ->
                                residual g (fst e) (snd e)).
      { intros [a b] He. simpl. apply chain_edges_pred in He.
        now destruct (bi_pred I b a He) as (_ & _ & _ & _ & _ & Hres & _). }
      assert (Ew : Graph.walk fuel' g (Graph.pred st) Source Sink [] Inf
                   = Ok (chain_edges (Graph.pred st) n Sink,
                         bottleneck g (chain_edges (Graph.pred st) n Sink)
                                    Inf)).
      { rewrite (walk_chain g (Graph.pred st) Source n fuel' Sink [] Inf).
        - reflexivity.
        - apply (bi_src I).
        - exact Hn.
        - lia.
        - intros e He. destruct (Hedge e He) as (k & x & Hk & Hx & _).
          split; congruence. }
      destruct (bottleneck_pos g (chain_edges (Graph.pred st) n Sink) Inf)
        as (f & Ef & Hf).
      { intros e He. destruct (Hedge e He) as (k & x & Hk & Hx & Hlt).
        unfold resid. rewrite Hk, Hx. lia. }
      { left. split; [reflexivity|].
        destruct n as [|n]; [simpl in Hn; discriminate|].
        simpl in *. destruct (Dict.get (Graph.pred st) Sink) as [[u|]|];
          discriminate. }
      destruct (push_path_spec f (chain_edges (Graph.pred st) n Sink) total g
                               (fi_anti Hflow))
        as (total' & g' & Ep & _).
      { intros e He. destruct (Hedge e He) as (k & x & Hk & Hx & _). split.
        - congruence.
        - apply (net_cost_dom Hnet). congruence. }
      exists total', g'.
      unfold Graph.mcf_iter, bindS, getS, liftS, retS. rewrite EBF. simpl.
      unfold Dict.lookup. rewrite Ed. simpl. rewrite Ew. simpl. rewrite Ef.
      destruct (Z.eqb_spec f 0) as [->|Hf0]; [lia|]. rewrite Ep. reflexivity.
    + unfold Graph.mcf_iter, bindS, getS, liftS, retS. rewrite EBF. simpl.
      unfold Dict.lookup. rewrite Ed. reflexivity.
    + destruct (bi_dom I Sink Hsink) as [[d Hd] _]. unfold dist_of in Hd.
      congruence.
Qed.

Lemma mcf_loop_returns : forall (k : nat) g total,
  net g -> flow_inv g -> (exists pot, feasible g Source pot) ->
  In Source (nodes g) -> In Sink (nodes g) ->
  Z.of_nat (source_degree g) - net_out g Source <= Z.of_nat k ->
  exists fuel, forall fuel' iters, (fuel <= fuel')%nat -> (k < iters)%nat ->
    exists z, fst (Graph.mcf_loop iters fuel' Source Sink total g) = Ok z.
Proof.
  induction k as [|k IH]; intros g total Hnet Hflow [pot Hpot] Hs Ht Hk.
  - destruct (mcf_iter_spec g pot Hnet Hflow Hpot Hs) as [fuelA HA].
    destruct (mcf_iter_cases g pot Hnet Hflow Hpot Hs) as [fuelB HB].
    exists (Nat.max fuelA fuelB). intros fuel' iters Hle Hit.
    destruct iters as [|iters]; [lia|]. simpl. unfold bindS.
    specialize (HA fuel' ltac:(lia) total). unfold iter_outcome in HA.
    destruct (proj2 (HB fuel' ltac:(lia) total) Ht) as (st & _ & _ & Hc).
    destruct (Graph.mcf_iter fuel' Source Sink total g) as [[[t|]| |] g'];
      simpl in *.
    + exfalso. destruct HA as (Hst & Hfl' & _ & (f & Hf & Hout & _)).
      pose proof (net_out_bound g' (net_static g g' (eq_sym Hst) Hnet) Hfl').
      rewrite (source_degree_static g g' Hst) in *. lia.
    + eauto.
    + destruct (Dict.get (Graph.dist st) Sink) as [[d|]|];
        [destruct Hc as (? & ? & Hc)| |]; try discriminate; contradiction.
    + destruct HA.
  - destruct (mcf_iter_spec g pot Hnet Hflow Hpot Hs) as [fuelA HA].
    destruct (mcf_iter_cases g pot Hnet Hflow Hpot Hs) as [fuelB HB].
    set (f0 := Nat.max fuelA fuelB).
    pose proof (HA f0 ltac:(lia) total) as H1. unfold iter_outcome in H1.
    destruct (proj2 (HB f0 ltac:(lia) total) Ht) as (st & _ & _ & Hc).
    destruct (Graph.mcf_iter f0 Source Sink total g) as [r g'] eqn:E.
    simpl in H1.
    assert (Hmono : forall fuel', (f0 <= fuel')%nat ->
               Graph.mcf_iter fuel' Source Sink total g = (r, g')).
    { intros fuel' Hle. rewrite <- E. apply mcf_iter_mono; auto.
      rewrite E. simpl. destruct r as [[t|]| |]; try discriminate.
      contradiction. }
    destruct r as [[t|]|e|]; try contradiction.
    + destruct H1 as (Hst & Hfl' & Hpot' & (f & Hf & Hout & _)).
      destruct (IH g' t (net_static g g' (eq_sym Hst) Hnet) Hfl' Hpot')
        as [fuel1 H2].
      { now rewrite (nodes_static g g' Hst). }
      { now rewrite (nodes_static g g' Hst). }
      { rewrite (source_degree_static g g' Hst). lia. }
      exists (Nat.max f0 fuel1). intros fuel' iters Hle Hit.
      destruct iters as [|iters]; [lia|]. simpl. unfold bindS.
      rewrite (Hmono fuel') by lia. apply H2; lia.
    + exists f0. intros fuel' iters Hle Hit.
      destruct iters as [|iters]; [lia|]. simpl. unfold bindS.
      rewrite (Hmono fuel') by lia. simpl. eauto.
    + exfalso.
      destruct (Dict.get (Graph.dist st) Sink) as [[d|]|];
        [destruct Hc as (? & ? & Hc)| |]; try discriminate; contradiction.
Qed.

Lemma network_nodes gr :
  wf gr ->
  (In Source (nodes (network gr)) <-> even_cells gr <> [])
  /\ (In Sink (nodes (network gr)) <-> odd_cells gr <> []).
Proof.
  intros Hwf. destruct (network_built gr Hwf) as (_ & _ & Ea).
  pose proof (add_edges_nodes (network_calls gr) Graph.init (network gr)
                              aligned_init Ea) as Hn.
  split; rewrite Hn; simpl; split.
  - intros [[]|(e & He & Hx)].
    apply in_network_calls in He
      as [(c & Hc & ->)|[(c & d & _ & _ & Hd)|(c & _ & ->)]].
    + intros E. rewrite E in Hc. destruct Hc.
    + apply in_dir_call in Hd as (-> & _).
      unfold call_src, call_dst in Hx. simpl in Hx.
      destruct Hx; discriminate.
    + unfold call_src, call_dst in Hx. simpl in Hx. destruct Hx; discriminate.
  - intros Hne. right. destruct (even_cells gr) as [|c r] eqn:E;
      [congruence|].
    exists (Source, Cell c, 1, 0). split; [|now left].
    unfold network_calls. rewrite E. simpl. now left.
  - intros [[]|(e & He & Hx)].
    apply in_network_calls in He
      as [(c & _ & ->)|[(c & d & _ & _ & Hd)|(c & Hc & ->)]].
    + unfold call_src, call_dst in Hx. simpl in Hx. destruct Hx; discriminate.
    + apply in_dir_call in Hd as (-> & _).
      unfold call_src, call_dst in Hx. simpl in Hx.
      destruct Hx; discriminate.
    + intros E. rewrite E in Hc. destruct Hc.
  - intros Hne. right. destruct (odd_cells gr) as [|c r] eqn:E;
      [congruence|].
    exists (Cell c, Sink, 1, 0). split; [|now right].
    unfold network_calls. rewrite E. apply in_or_app. right. simpl. now left.
Qed.

Lemma run_network fuel s :
  wf (SolverBellmanFord.grid s) ->
  let gr := SolverBellmanFord.grid s in
  let rg := Graph.mcf_loop fuel fuel Source Sink 0 (network gr) in
  mcf_inv (network gr) (snd rg)
  /\ match fst rg with
     | Ok _ =>
         exists ps,
           map node_pair ps = unit_flow_edges (snd rg) Source Sink
           /\ fst (SolverBellmanFord.run fuel s) = Ok (score_value gr ps)
           /\ SolverBellmanFord.pairs (snd (SolverBellmanFord.run fuel s)) = ps
           /\ SolverBellmanFord.graph (snd (SolverBellmanFord.run fuel s))
              = snd rg
     | Raise e =>
         fst (SolverBellmanFord.run fuel s) = Raise e
         /\ SolverBellmanFord.pairs (snd (SolverBellmanFord.run fuel s)) = []
     | OutOfFuel => fst (SolverBellmanFord.run fuel s) = OutOfFuel
     end.
Proof.
  intros Hwf gr rg.
  destruct (run_outcome fuel s Hwf) as (s1 & Eb & _ & _ & Hinv & Hm).
  destruct (build_graph_built gr (reset s) Hwf (reset_coherent s) eq_refl)
    as (s1' & Eb' & _ & Hp & _).
  rewrite Eb in Eb'. injection Eb' as <-.
  assert (Eg : SolverBellmanFord.graph s1 = network gr).
  { unfold network. change (fresh gr) with (reset s). now rewrite Eb. }
  cbv zeta in Hinv, Hm. rewrite Eg in Hinv, Hm. fold gr in Hm. fold rg in Hinv, Hm.
  split; [exact Hinv|].
  destruct (fst rg) as [z|e|].
  - destruct Hm as (ps & M & ->). exists ps. auto.
  - rewrite Hm. simpl. split; [reflexivity|exact Hp].
  - now rewrite Hm.
Qed.

(** X15: when the flow solver returns.  On a well-formed grid, with enough
    loop budget: if some non-black cell has [i + j] even and some non-black
    cell has [i + j] odd, [run] returns a score; if the grid has no
    non-black even cell, or no non-black odd cell, [run] raises [KeyError]
    (the source or the sink was never added to the network) and leaves
    [self.pairs] empty. *)
Theorem X15_run_returns_iff (s : SolverBellmanFord.t) :
  wf (SolverBellmanFord.grid s) ->
  let gr := SolverBellmanFord.grid s in
  let usable (parity : Z) :=
    exists c, in_bounds gr c
              /\ Grid.is_forbidden gr (fst c) (snd c) = Ok false
              /\ (fst c + snd c) mod 2 = parity in
  (usable 0 -> usable 1 ->
   exists fuel, forall fuel', (fuel <= fuel')%nat ->
     exists z, fst (SolverBellmanFord.run fuel' s) = Ok z)
  /\ (~ usable 0 \/ ~ usable 1 ->
      exists fuel, forall fuel', (fuel <= fuel')%nat ->
        fst (SolverBellmanFord.run fuel' s) = Raise KeyError
        /\ SolverBellmanFord.pairs (snd (SolverBellmanFord.run fuel' s)) = []).
Proof.
  intros Hwf gr usable.
  destruct (network_built gr Hwf) as (_ & B & _).
  destruct (network_nodes gr Hwf) as [Hsrc Hsnk].
  assert (Heven : usable 0 <-> even_cells gr <> []).
  { split.
    - intros (c & Hc) E.
      apply (proj1 (cell_status gr c Hwf)) in Hc. rewrite E in Hc. destruct Hc.
    - intros Hne. destruct (even_cells gr) as [|c r] eqn:E; [congruence|].
      exists c. apply (proj1 (cell_status gr c Hwf)). rewrite E. now left. }
  assert (Hodd : usable 1 <-> odd_cells gr <> []).
  { split.
    - intros (c & Hb & Hf & Hp) E.
      assert (Hc : In c (odd_cells gr)).
      { apply (proj2 (cell_status gr c Hwf)). repeat split; auto; try apply Hb.
        lia. }
      rewrite E in Hc. destruct Hc.
    - intros Hne. destruct (odd_cells gr) as [|c r] eqn:E; [congruence|].
      assert (Hc : In c (odd_cells gr)) by (rewrite E; now left).
      apply (proj2 (cell_status gr c Hwf)) in Hc as (Hb & Hf & Hp).
      exists c. split; [exact Hb|]. split; [exact Hf|].
      pose proof (Z.mod_pos_bound (fst c + snd c) 2). lia. }
  split.
  - intros He Ho. apply Heven, Hsrc in He. apply Hodd, Hsnk in Ho.
    destruct (mcf_loop_returns (length (even_cells gr)) (network gr) 0
                (b_net B) (built_flow_inv _ _ B)
                (ex_intro _ _ (built_feasible _ _ B)) He Ho) as [fuel Hf].
    { rewrite (built_even_degree gr _ B), (built_net_out_zero _ _ Source B).
      lia. }
    exists (Nat.max fuel (S (length (even_cells gr)))). intros fuel' Hle.
    destruct (Hf fuel' fuel' ltac:(lia) ltac:(lia)) as [z Hz].
    destruct (run_network fuel' s Hwf) as [_ Hm]. cbv zeta in Hm.
    fold gr in Hm. rewrite Hz in Hm. destruct Hm as (ps & _ & E & _). eauto.
  - intros Hmiss.
    assert (Hcase : ~ In Source (nodes (network gr))
                    \/ In Source (nodes (network gr))
                       /\ ~ In Sink (nodes (network gr))).
    { destruct (in_dec node_eq_dec Source (nodes (network gr))) as [Hs|Hs];
        [|now left].
      right. split; [exact Hs|]. intros Ht.
      apply Hsrc, Heven in Hs. apply Hsnk, Hodd in Ht. tauto. }
    destruct Hcase as [Hs|[Hs Ht]].
    + exists 1%nat. intros fuel' Hle. destruct fuel' as [|n]; [lia|].
      destruct (run_network (S n) s Hwf) as [_ Hm]. cbv zeta in Hm.
      fold gr in Hm.
      assert (E : Graph.mcf_loop (S n) (S n) Source Sink 0 (network gr)
                  = (Raise KeyError, network gr)).
      { simpl. unfold bindS.
        now rewrite (mcf_iter_no_source (network gr) n Sink 0 (b_net B) Hs). }
      rewrite E in Hm. exact Hm.
    + destruct (mcf_iter_cases (network gr) (fun _ => Some 0) (b_net B)
                  (built_flow_inv _ _ B) (built_feasible _ _ B) Hs)
        as [fuel Hf].
      exists (Nat.max fuel 1). intros fuel' Hle.
      destruct fuel' as [|n] eqn:En; [lia|]. rewrite <- En in *.
      destruct (run_network fuel' s Hwf) as [_ Hm]. cbv zeta in Hm.
      fold gr in Hm.
      assert (E : Graph.mcf_loop fuel' fuel' Source Sink 0 (network gr)
                  = (Raise KeyError, network gr)).
      { rewrite En at 1. simpl. unfold bindS.
        now rewrite (proj1 (Hf fuel' ltac:(lia) 0) Ht). }
      rewrite E in Hm. exact Hm.
Qed.

Lemma X15_witness :
  let s := fresh (Grid.mk 2 3 [[0; 1; 2]; [3; 0; 4]] [[1; 5; 7]; [5; 5; 2]]) in
  let gr := SolverBellmanFord.grid s in
  let usable (parity : Z) :=
    exists c, in_bounds gr c
              /\ Grid.is_forbidden gr (fst c) (snd c) = Ok false
              /\ (fst c + snd c) mod 2 = parity in
  wf gr /\ usable 0 /\ usable 1
  /\ exists fuel, forall fuel', (fuel <= fuel')%nat ->
       exists z, fst (SolverBellmanFord.run fuel' s) = Ok z.
Proof.
  intros s gr usable.
  assert (Hwf : wf gr) by reflexivity.
  assert (H0 : usable 0).
  { exists (0, 0). split; [unfold in_bounds; simpl; lia|]. split; reflexivity. }
  assert (H1 : usable 1).
  { exists (0, 1). split; [unfold in_bounds; simpl; lia|]. split; reflexivity. }
  split; [exact Hwf|]. split; [exact H0|]. split; [exact H1|].
  exact (proj1 (X15_run_returns_iff s Hwf) H0 H1).
Defined.

(** ** The flow solver leaves no pair that could be added *)

Lemma mcf_iter_break_unchanged fuel source sink total g :
  fst (Graph.mcf_iter fuel source sink total g) = Ok None ->
  snd (Graph.mcf_iter fuel source sink total g) = g.
Proof.
  unfold Graph.mcf_iter, bindS, getS, liftS, retS.
  destruct (Graph.bellman_ford fuel g source sink) as [dp| |]; simpl;
    try discriminate.
  destruct (Dict.lookup (fst dp) sink) as [ds| |]; simpl; try discriminate.
  destruct (ext_eqb ds Inf); [reflexivity|].
  destruct (Graph.walk fuel g (snd dp) source sink [] Inf) as [pf| |]; simpl;
    try discriminate.
  destruct (snd pf) as [f|]; [|discriminate].
  destruct (f =? 0); [reflexivity|].
  destruct (Graph.push_path f (fst pf) total g) as [[t| |] g']; simpl;
    discriminate.
Qed.

(** When the loop ends normally, its last iteration was a [break] taken in
    the final graph. *)
Lemma mcf_loop_last fuel source sink : forall iters total g z g',
  Graph.mcf_loop iters fuel source sink total g = (Ok z, g') ->
  Graph.mcf_iter fuel source sink z g' = (Ok None, g').
Proof.
  induction iters as [|iters IH]; intros total g z g'; simpl; [discriminate|].
  unfold bindS.
  destruct (Graph.mcf_iter fuel source sink total g) as [[[t|]| |] g1] eqn:E;
    try discriminate.
  - apply IH.
  - unfold retS. intros H. injection H as <- <-.
    pose proof (mcf_iter_break_unchanged fuel source sink total g) as Hu.
    rewrite E in Hu. simpl in Hu. rewrite (Hu eq_refl) in E |- *. exact E.
Qed.

Lemma zsum_single {A} (F : A -> Z) (l : list A) (v : A) :
  NoDup l -> In v l -> (forall x, In x l -> x <> v -> F x = 0) ->
  zsum (map F l) = F v.
Proof.
  induction l as [|a r IH]; intros Hnd Hin Hz; [destruct Hin|].
  inversion Hnd as [|? ? Ha Hr]; subst. simpl. destruct Hin as [->|Hin].
  - rewrite (zsum_map_zero F r); [lia|].
    intros x Hx. apply Hz; [now right|congruence].
  - rewrite (IH Hr Hin) by (intros; apply Hz; auto; now right).
    rewrite (Hz a); [lia|now left|congruence].
Qed.

Lemma lvl_one y : lvl y = 1 -> exists c, y = Cell c.
Proof. destruct y as [| |c]; simpl; try lia. eauto. Qed.

Lemma lvl_two y : lvl y = 2 -> exists c, y = Cell c.
Proof. destruct y as [| |c]; simpl; try lia. eauto. Qed.

Section Unmatched.

Variable g : Graph.t.
Hypothesis Hnet : net g.
Hypothesis Hflow : flow_inv g.

(** An even cell that sends no unit to a neighbour takes none from the
    source. *)
Lemma even_unmatched_source a :
  is_even a = true -> cap g Source (Cell a) = Some 1 ->
  (forall b, cap g (Cell a) (Cell b) <> None ->
             flw g (Cell a) (Cell b) <> Some 1) ->
  residual g Source (Cell a).
Proof.
  intros Hev Hc Hun.
  assert (Hcn : cap g Source (Cell a) <> None) by congruence.
  pose proof (net_cap_sym Hnet _ _ Hcn) as Hrev.
  destruct (net_cap_nodes Hnet _ _ Hcn) as [_ Hin].
  destruct (net_adj_some g _ Hnet Hin) as [l El].
  pose proof (fi_cons Hflow a) as Hcons. unfold net_out in Hcons.
  rewrite El in Hcons.
  assert (Hla : lvl (Cell a) = 1) by (rewrite lvl_cell, Hev; reflexivity).
  assert (Hz : zsum (map (flow_val g (Cell a)) l) = flow_val g (Cell a) Source).
  { apply zsum_single.
    - apply (net_adj_nodup Hnet _ l El).
    - now apply (net_adj_iff Hnet _ l Source El).
    - intros y Hy Ny. apply (net_adj_iff Hnet _ l y El) in Hy.
      destruct (flow_val_bounds g Hnet Hflow _ _ Hy) as [[Hl Hb]|[Hl _]].
      + rewrite Hla in Hl. destruct (lvl_two y Hl) as [b ->].
        unfold flow_val in *.
        destruct (flw g (Cell a) (Cell b)) as [f|] eqn:Ef; [|reflexivity].
        assert (f <> 1) by (intros ->; now apply (Hun b Hy)). lia.
      + exfalso. apply Ny. apply lvl_zero. lia. }
  rewrite Hz in Hcons. unfold flow_val in Hcons.
  pose proof (fi_dom Hflow _ _ Hrev) as Hd.
  destruct (flw g (Cell a) Source) as [f|] eqn:Ef; [|congruence]. subst f.
  pose proof (fi_anti Hflow _ _ _ Ef) as Er. fold (flw g Source (Cell a)) in Er.
  exists 1, (- 0). split; [exact Hc|]. split; [exact Er|]. lia.
Qed.

(** An odd cell that takes no unit from a neighbour sends none to the
    sink. *)
Lemma odd_unmatched_sink b :
  is_even b = false -> cap g (Cell b) Sink = Some 1 ->
  (forall a, cap g (Cell a) (Cell b) <> None ->
             flw g (Cell a) (Cell b) <> Some 1) ->
  residual g (Cell b) Sink.
Proof.
  intros Hev Hc Hun.
  assert (Hcn : cap g (Cell b) Sink <> None) by congruence.
  destruct (net_cap_nodes Hnet _ _ Hcn) as [Hin _].
  destruct (net_adj_some g _ Hnet Hin) as [l El].
  pose proof (fi_cons Hflow b) as Hcons. unfold net_out in Hcons.
  rewrite El in Hcons.
  assert (Hlb : lvl (Cell b) = 2) by (rewrite lvl_cell, Hev; reflexivity).
  assert (Hz : zsum (map (flow_val g (Cell b)) l) = flow_val g (Cell b) Sink).
  { apply zsum_single.
    - apply (net_adj_nodup Hnet _ l El).
    - now apply (net_adj_iff Hnet _ l Sink El).
    - intros y Hy Ny. apply (net_adj_iff Hnet _ l y El) in Hy.
      destruct (flow_val_bounds g Hnet Hflow _ _ Hy) as [[Hl _]|[Hl Hb]].
      + exfalso. apply Ny. apply lvl_three. lia.
      + rewrite Hlb in Hl. assert (Hl1 : lvl y = 1) by lia.
        destruct (lvl_one y Hl1) as [a ->].
        unfold flow_val in *.
        destruct (flw g (Cell b) (Cell a)) as [f|] eqn:Ef; [|reflexivity].
        pose proof (fi_anti Hflow _ _ _ Ef) as Er.
        fold (flw g (Cell a) (Cell b)) in Er.
        pose proof (net_cap_sym Hnet _ _ Hy) as Hy'.
        assert (- f <> 1) by (intros E; apply (Hun a Hy'); congruence).
        lia. }
  rewrite Hz in Hcons. unfold flow_val in Hcons.
  pose proof (fi_dom Hflow _ _ Hcn) as Hd.
  destruct (flw g (Cell b) Sink) as [f|] eqn:Ef; [|congruence]. subst f.
  exists 1, 0. split; [exact Hc|]. split; [exact Ef|]. lia.
Qed.

Lemma unsaturated_edge a b :
  cap g (Cell a) (Cell b) = Some 1 -> flw g (Cell a) (Cell b) <> Some 1 ->
  residual g (Cell a) (Cell b).
Proof.
  intros Hc Hf.
  assert (Hd : flw g (Cell a) (Cell b) <> None)
    by (apply (fi_dom Hflow); congruence).
  destruct (flw g (Cell a) (Cell b)) as [f|] eqn:Ef; [|congruence].
  pose proof (fi_cap Hflow _ _ f 1 Ef Hc).
  assert (f <> 1) by congruence.
  exists 1, f. split; [exact Hc|]. split; [exact Ef|]. lia.
Qed.

Variable pot : node -> option Z.
Variable st : Graph.bf_state.
Hypothesis Hinv : bf_inv g Source pot None st.
Hypothesis Hqueue : Graph.queue st = [].
Hypothesis Hsink : Dict.get (Graph.dist st) Sink = Some Inf.

(** The search found the sink out of reach: no residual path
    [S -> a -> b -> T]. *)
Lemma no_augmenting_path a b :
  residual g Source (Cell a) -> residual g (Cell a) (Cell b) ->
  residual g (Cell b) Sink -> False.
Proof.
  intros R1 R2 R3.
  destruct (bi_src Hinv) as [Hs _].
  destruct (bf_final_relaxed g Source pot st Source 0 _ Hinv Hqueue Hs R1)
    as (_ & da & _ & _ & Ha & _).
  destruct (bf_final_relaxed g Source pot st _ da _ Hinv Hqueue Ha R2)
    as (_ & db & _ & _ & Hb & _).
  destruct (bf_final_relaxed g Source pot st _ db _ Hinv Hqueue Hb R3)
    as (_ & dt & _ & _ & Ht & _).
  unfold dist_of in Ht. congruence.
Qed.

End Unmatched.

(** X16: the pairing of the flow solver is maximal.  When [run] returns on
    a well-formed grid, of any two in-bounds cells that pass [test_pair] at
    least one is used by a pair of [self.pairs]: no valid pair of two
    unpaired cells is left.  Every returned pair lists its even cell
    ([i + j] even) first. *)
Theorem X16_flow_pairing_maximal
        (fuel : nat) (s s' : SolverBellmanFord.t) (sc : Z) :
  wf (SolverBellmanFord.grid s) ->
  SolverBellmanFord.run fuel s = (Ok sc, s') ->
  let gr := SolverBellmanFord.grid s in
  let ps := SolverBellmanFord.pairs s' in
  (forall c1 c2, in_bounds gr c1 -> in_bounds gr c2 ->
     Grid.test_pair gr c1 c2 = Ok true ->
     In c1 (Solver.cells_of ps) \/ In c2 (Solver.cells_of ps))
  /\ (forall p, In p ps -> (fst (fst p) + snd (fst p)) mod 2 = 0
                           /\ (fst (snd p) + snd (snd p)) mod 2 = 1).
Proof.
  intros Hwf Hrun gr ps.
  destruct (network_built gr Hwf) as (_ & B & _).
  destruct (run_network fuel s Hwf) as [Hinv Hm]. cbv zeta in Hinv, Hm.
  fold gr in Hinv, Hm. rewrite Hrun in Hm. simpl in Hm.
  remember (Graph.mcf_loop fuel fuel Source Sink 0 (network gr)) as rg eqn:Erg.
  destruct rg as [r g2]. simpl in *.
  destruct r as [total|e|]; [|destruct Hm; discriminate|discriminate].
  destruct Hm as (ps' & M & _ & Eps & _). fold ps in Eps. subst ps'.
  pose proof (mcf_loop_last fuel Source Sink fuel 0 (network gr) total g2
                            (eq_sym Erg)) as Elast.
  destruct Hinv as (Hst & Hflow & pot & Hpot).
  assert (Hnet : net g2)
    by (apply (net_static (network gr)); [now symmetry|apply (b_net B)]).
  assert (Hmatched : forall a b,
             cap g2 (Cell a) (Cell b) <> None ->
             flw g2 (Cell a) (Cell b) = Some 1 ->
             In a (Solver.cells_of ps) /\ In b (Solver.cells_of ps)).
  { intros a b Hc Hf.
    assert (Hin : In (Cell a, Cell b) (unit_flow_edges g2 Source Sink)).
    { apply in_unit_flow_edges.
      destruct (net_cap_nodes Hnet _ _ Hc) as [Ha _].
      split; [exact Ha|]. split; [discriminate|]. split; [discriminate|].
      split; [|split; [discriminate|split; [discriminate|exact Hf]]].
      destruct (net_adj_some g2 _ Hnet Ha) as [l El].
      unfold adj_or_nil. rewrite El. now apply (net_adj_iff Hnet _ l _ El). }
    rewrite <- M in Hin. apply in_map_iff in Hin as (p & Ep & Hp).
    unfold node_pair in Ep. injection Ep as <- <-.
    unfold Solver.cells_of. split; apply in_flat_map; exists p; simpl; auto. }
  split.
  - (* no augmenting path in the final graph *)
    assert (Hsrc : In Source (nodes g2)).
    { destruct (in_dec node_eq_dec Source (nodes g2)) as [H|H]; [exact H|].
      exfalso. destruct fuel as [|n]; [simpl in Erg; discriminate|].
      rewrite (mcf_iter_no_source g2 n Sink total Hnet H) in Elast.
      discriminate. }
    destruct (mcf_iter_cases g2 pot Hnet Hflow Hpot Hsrc) as [fuelC HC].
    assert (Ebig : Graph.mcf_iter (Nat.max fuel fuelC) Source Sink total g2
                   = (Ok None, g2)).
    { rewrite <- Elast. apply mcf_iter_mono; [lia|].
      rewrite Elast. discriminate. }
    destruct (HC (Nat.max fuel fuelC) ltac:(lia) total) as [Hmiss Hthere].
    assert (Hsnk : In Sink (nodes g2)).
    { destruct (in_dec node_eq_dec Sink (nodes g2)) as [H|H]; [exact H|].
      rewrite (Hmiss H) in Ebig. discriminate. }
    destruct (Hthere Hsnk) as (st & I & Eq & Hd).
    assert (Hinf : Dict.get (Graph.dist st) Sink = Some Inf).
    { destruct (Dict.get (Graph.dist st) Sink) as [[d|]|];
        [destruct Hd as (t & g' & Hd); rewrite Hd in Ebig; discriminate
        |reflexivity|destruct Hd]. }
    assert (Hgo : forall a b,
               in_bounds gr a -> in_bounds gr b -> is_even a = true ->
               valid_pair gr a b = true ->
               In a (Solver.cells_of ps) \/ In b (Solver.cells_of ps)).
    { intros a b Ha Hb Hev Hv.
      destruct (valid_pair_not_black gr a b Hv) as [Ba Bb].
      assert (Hodd : is_even b = false).
      { apply (network_call_of_pair gr a b Ha Hb Hev) in Hv.
        pose proof (network_calls_good gr) as Hg. rewrite Forall_forall in Hg.
        destruct (Hg _ Hv) as (_ & _ & Hl).
        unfold call_src, call_dst in Hl. simpl fst in Hl. simpl snd in Hl.
        rewrite !lvl_cell, Hev in Hl. destruct (is_even b); [lia|reflexivity]. }
      assert (C1 : cap g2 Source (Cell a) = Some 1).
      { rewrite (cap_static (network gr) g2 _ _ Hst).
        apply (network_source_edge gr a Hwf). apply in_even_cells. auto. }
      assert (C2 : cap g2 (Cell a) (Cell b) = Some 1).
      { rewrite (cap_static (network gr) g2 _ _ Hst).
        apply (network_cell_edge gr a b Hwf). auto. }
      assert (C3 : cap g2 (Cell b) Sink = Some 1).
      { rewrite (cap_static (network gr) g2 _ _ Hst).
        apply (network_sink_edge gr b Hwf). apply in_odd_cells. auto. }
      destruct (cell_in a (Solver.cells_of ps)) eqn:Ia;
        [left; now apply cell_in_spec|].
      destruct (cell_in b (Solver.cells_of ps)) eqn:Ib;
        [right; now apply cell_in_spec|].
      exfalso.
      assert (Na : ~ In a (Solver.cells_of ps))
        by (intros H; apply cell_in_spec in H; congruence).
      assert (Nb : ~ In b (Solver.cells_of ps))
        by (intros H; apply cell_in_spec in H; congruence).
      apply (no_augmenting_path g2 pot st I Eq Hinf a b).
      - apply (even_unmatched_source g2 Hnet Hflow a Hev C1).
        intros b' Hc Hf. now apply Na, (Hmatched a b' Hc Hf).
      - apply (unsaturated_edge g2 Hflow a b C2).
        intros Hf. apply Na. apply (Hmatched a b); congruence.
      - apply (odd_unmatched_sink g2 Hnet Hflow b Hodd C3).
        intros a' Hc Hf. now apply Nb, (Hmatched a' b Hc Hf). }
    intros c1 c2 H1 H2 Ht.
    rewrite (test_pair_wf gr c1 c2 Hwf H1 H2) in Ht.
    assert (Hv : valid_pair gr c1 c2 = true) by congruence.
    destruct (is_even c1) eqn:E1.
    + now apply Hgo.
    + assert (Hv' : valid_pair gr c2 c1 = true)
        by (now rewrite <- (valid_pair_sym gr c1 c2 Hwf H1 H2)).
      assert (E2 : is_even c2 = true).
      { destruct (is_even c2) eqn:E2; [reflexivity|exfalso].
        assert (Hdir : exists d, In d SolverBellmanFord.directions
                                 /\ c2 = (fst c1 + fst d, snd c1 + snd d)).
        { destruct c1 as [i j], c2 as [i' j'].
          destruct (valid_pair_adjacent gr (i, j) (i', j') Hv)
            as [[Hc [Hr|Hr]]|[Hr [Hc|Hc]]]; simpl in *.
          - exists (1, 0). split; [simpl; auto|]. simpl. f_equal; lia.
          - exists (-1, 0). split; [simpl; auto|]. simpl. f_equal; lia.
          - exists (0, 1). split; [simpl; auto|]. simpl. f_equal; lia.
          - exists (0, -1). split; [simpl; auto|]. simpl. f_equal; lia. }
        destruct Hdir as (d & Hdir & ->).
        rewrite (neighbour_parity c1 d Hdir), E1 in E2. discriminate. }
      destruct (Hgo c2 c1 H2 H1 E2 Hv'); auto.
  - intros [a b] Hp. simpl.
    assert (Hin : In (Cell a, Cell b) (unit_flow_edges g2 Source Sink)).
    { rewrite <- M. apply (in_map node_pair _ _ Hp). }
    destruct (unit_edge_facts gr (network gr) g2 B
                (conj Hst (conj Hflow (ex_intro _ pot Hpot))) a b Hin)
      as (_ & _ & Ha & Hb & _).
    unfold is_even in Ha, Hb. apply Z.eqb_eq in Ha. apply Z.eqb_neq in Hb.
    split; [exact Ha|].
    pose proof (Z.mod_pos_bound (fst b + snd b) 2). lia.
Qed.

Lemma X16_witness :
  let s := fresh (Grid.mk 2 3 [[0; 1; 2]; [3; 0; 4]] [[1; 5; 7]; [5; 5; 2]]) in
  let gr := SolverBellmanFord.grid s in
  let s' := snd (SolverBellmanFord.run 30 s) in
  let ps := SolverBellmanFord.pairs s' in
  wf gr
  /\ SolverBellmanFord.run 30 s = (Ok 3, s')
  /\ (forall c1 c2, in_bounds gr c1 -> in_bounds gr c2 ->
        Grid.test_pair gr c1 c2 = Ok true ->
        In c1 (Solver.cells_of ps) \/ In c2 (Solver.cells_of ps))
  /\ (forall p, In p ps -> (fst (fst p) + snd (fst p)) mod 2 = 0
                           /\ (fst (snd p) + snd (snd p)) mod 2 = 1).
Proof.
  intros s gr s' ps.
  split; [reflexivity|]. split; [vm_compute; reflexivity|].
  apply (X16_flow_pairing_maximal 30 s s' 3);
    [reflexivity|vm_compute; reflexivity].
Defined.

(** ** The caches of the flow solver *)

Lemma cell_get_set {V} (d : Dict.t cell V) (k : cell) (v : V) :
  Dict.get (Dict.set d k v) k = Some v.
Proof. apply dict_get_set_same. Qed.

Lemma pair_get_set {V} (d : Dict.t pair V) (k : pair) (v : V) :
  Dict.get (Dict.set d k v) k = Some v.
Proof. apply dict_get_set_same. Qed.

(** X17: the two caches answer from memory.  In any state of the solver:
    a cell (a pair) that is in the cache gets the cached answer and nothing
    changes, whatever the grid holds at that place, also out of bounds; a
    call that misses asks the grid, and if the grid raises, the exception
    passes through and the cache stays as it was; after a call that
    returned, the same call returns the same answer again and changes
    nothing.  The grid is never modified. *)
Theorem X17_cached_queries (s : SolverBellmanFord.t) (i j : Z) (p : pair) :
  let f := SolverBellmanFord.is_forbidden_cached i j in
  let c := SolverBellmanFord.get_cost_cached p in
  (forall b, Dict.get (SolverBellmanFord.forbidden_cache s) (i, j) = Some b ->
             f s = (Ok b, s))
  /\ (Dict.get (SolverBellmanFord.forbidden_cache s) (i, j) = None ->
      match Grid.is_forbidden (SolverBellmanFord.grid s) i j with
      | Ok b => f s = (Ok b,
                       SolverBellmanFord.set_forbidden_cache s
                         (Dict.set (SolverBellmanFord.forbidden_cache s)
                                   (i, j) b))
      | Raise e => f s = (Raise e, s)
      | OutOfFuel => f s = (OutOfFuel, s)
      end)
  /\ (forall b, fst (f s) = Ok b -> f (snd (f s)) = (Ok b, snd (f s)))
  /\ (forall k, Dict.get (SolverBellmanFord.cost_cache s) p = Some k ->
                c s = (Ok k, s))
  /\ (Dict.get (SolverBellmanFord.cost_cache s) p = None ->
      match Grid.cost (SolverBellmanFord.grid s) p with
      | Ok k => c s = (Ok k,
                       SolverBellmanFord.set_cost_cache s
                         (Dict.set (SolverBellmanFord.cost_cache s) p k))
      | Raise e => c s = (Raise e, s)
      | OutOfFuel => c s = (OutOfFuel, s)
      end)
  /\ (forall k, fst (c s) = Ok k -> c (snd (c s)) = (Ok k, snd (c s)))
  /\ SolverBellmanFord.grid (snd (f s)) = SolverBellmanFord.grid s
  /\ SolverBellmanFord.grid (snd (c s)) = SolverBellmanFord.grid s.
Proof.
  intros f c.
  assert (Fhit : forall s0 b,
             Dict.get (SolverBellmanFord.forbidden_cache s0) (i, j) = Some b ->
             f s0 = (Ok b, s0)).
  { intros s0 b E. unfold f, SolverBellmanFord.is_forbidden_cached,
      bindS, getS, liftS, retS, Dict.mem, Dict.lookup.
    rewrite E. simpl. rewrite E. reflexivity. }
  assert (Fmiss : forall s0,
             Dict.get (SolverBellmanFord.forbidden_cache s0) (i, j) = None ->
             match Grid.is_forbidden (SolverBellmanFord.grid s0) i j with
             | Ok b => f s0 = (Ok b,
                         SolverBellmanFord.set_forbidden_cache s0
                           (Dict.set (SolverBellmanFord.forbidden_cache s0)
                                     (i, j) b))
             | Raise e => f s0 = (Raise e, s0)
             | OutOfFuel => f s0 = (OutOfFuel, s0)
             end).
  { intros s0 E. unfold f, SolverBellmanFord.is_forbidden_cached,
      bindS, getS, liftS, retS, modifyS, Dict.mem, Dict.lookup.
    rewrite E. simpl.
    destruct (Grid.is_forbidden (SolverBellmanFord.grid s0) i j) as [b|e|];
      simpl; try reflexivity.
    rewrite cell_get_set. reflexivity. }
  assert (Chit : forall s0 k,
             Dict.get (SolverBellmanFord.cost_cache s0) p = Some k ->
             c s0 = (Ok k, s0)).
  { intros s0 k E. unfold c, SolverBellmanFord.get_cost_cached,
      bindS, getS, liftS, retS, Dict.mem, Dict.lookup.
    rewrite E. simpl. rewrite E. reflexivity. }
  assert (Cmiss : forall s0,
             Dict.get (SolverBellmanFord.cost_cache s0) p = None ->
             match Grid.cost (SolverBellmanFord.grid s0) p with
             | Ok k => c s0 = (Ok k,
                         SolverBellmanFord.set_cost_cache s0
                           (Dict.set (SolverBellmanFord.cost_cache s0) p k))
             | Raise e => c s0 = (Raise e, s0)
             | OutOfFuel => c s0 = (OutOfFuel, s0)
             end).
  { intros s0 E. unfold c, SolverBellmanFord.get_cost_cached,
      bindS, getS, liftS, retS, modifyS, Dict.mem, Dict.lookup.
    rewrite E. simpl.
    destruct (Grid.cost (SolverBellmanFord.grid s0) p) as [k|e|];
      simpl; try reflexivity.
    rewrite pair_get_set. reflexivity. }
  split; [apply Fhit|]. split; [apply Fmiss|]. split; [|split; [apply Chit|]].
  2: split; [apply Cmiss|]. 2: split; [|split].
  - intros b Hb.
    destruct (Dict.get (SolverBellmanFord.forbidden_cache s) (i, j))
      as [b0|] eqn:E.
    + rewrite (Fhit s b0 E) in Hb |- *. simpl in *. injection Hb as ->.
      now apply Fhit.
    + pose proof (Fmiss s E) as H.
      destruct (Grid.is_forbidden (SolverBellmanFord.grid s) i j) as [b0|e|];
        rewrite H in Hb |- *; simpl in Hb; try discriminate.
      injection Hb as ->. simpl. apply Fhit. simpl. apply cell_get_set.
  - intros k Hk.
    destruct (Dict.get (SolverBellmanFord.cost_cache s) p) as [k0|] eqn:E.
    + rewrite (Chit s k0 E) in Hk |- *. simpl in *. injection Hk as ->.
      now apply Chit.
    + pose proof (Cmiss s E) as H.
      destruct (Grid.cost (SolverBellmanFord.grid s) p) as [k0|e|];
        rewrite H in Hk |- *; simpl in Hk; try discriminate.
      injection Hk as ->. simpl. apply Chit. simpl. apply pair_get_set.
  - destruct (Dict.get (SolverBellmanFord.forbidden_cache s) (i, j))
      as [b0|] eqn:E.
    + now rewrite (Fhit s b0 E).
    + pose proof (Fmiss s E) as H.
      destruct (Grid.is_forbidden (SolverBellmanFord.grid s) i j);
        rewrite H; reflexivity.
  - destruct (Dict.get (SolverBellmanFord.cost_cache s) p) as [k0|] eqn:E.
    + now rewrite (Chit s k0 E).
    + pose proof (Cmiss s E) as H.
      destruct (Grid.cost (SolverBellmanFord.grid s) p);
        rewrite H; reflexivity.
Qed.

(** ** The score shown by the interface ([ui_pygame.calculate_score]) *)

Module UiPygame.

(** Body of the inner loop: a paired cell is skipped before the grid is
    asked whether it is forbidden. *)
Definition score_cell (g : Grid.t) (paired : list cell) (i j : Z) (score : Z)
  : result Z :=
  if negb (cell_in (i, j) paired) then
    f <- Grid.is_forbidden g i j ;;
    if negb f then v <- Grid.value_at g i j ;; Ok (score + v)
    else Ok score
  else Ok score.

(** [calculate_score(pairs)]; the module's global [grid] is a parameter. *)
Definition calculate_score (g : Grid.t) (pairs : list pair) : result Z :=
  score <- match pairs with
           | [] => Ok 0
           | _ :: _ =>
               s <- for_each pairs
                      (fun p s => c <- Grid.cost g p ;; Ok (s + c)) 0 ;;
               Ok (0 + s)
           end ;;
  let paired := match pairs with
                | [] => []
                | _ :: _ => Solver.cells_of pairs
                end in
  for_each (range (Grid.n g))
    (fun i s => for_each (range (Grid.m g)) (score_cell g paired i) s) score.

End UiPygame.

Lemma for_each_ok_impl {A S} (b1 b2 : A -> S -> result S) (l : list A) :
  (forall x s s', In x l -> b1 x s = Ok s' -> b2 x s = Ok s') ->
  forall s s', for_each l b1 s = Ok s' -> for_each l b2 s = Ok s'.
Proof.
  induction l as [|a r IH]; intros H s s'; simpl; [auto|].
  destruct (b1 a s) as [s1| |] eqn:E; simpl; try discriminate.
  rewrite (H a s s1 (or_introl eq_refl) E). simpl.
  apply IH. intros; eapply H; eauto. now right.
Qed.

(** X18: the interface computes the same score as the solver.  Whenever
    [Solver.score] returns a value for a grid and a list of pairs,
    [calculate_score] returns that value for the same grid and pairs. *)
Theorem X18_calculate_score_agrees (g : Grid.t) (ps : list pair) (z : Z) :
  Solver.score (Solver.mk g ps) = Ok z ->
  UiPygame.calculate_score g ps = Ok z.
Proof.
  intros H.
  assert (Ec : UiPygame.calculate_score g ps
               = (s <- for_each ps
                         (fun p s => c <- Grid.cost g p ;; Ok (s + c)) 0 ;;
                  for_each (range (Grid.n g))
                    (fun i s =>
                       for_each (range (Grid.m g))
                         (UiPygame.score_cell g (Solver.cells_of ps) i) s)
                    s)).
  { unfold UiPygame.calculate_score. destruct ps as [|p r]; [reflexivity|].
    destruct (for_each (p :: r)
                (fun p s => c <- Grid.cost g p ;; Ok (s + c)) 0);
      reflexivity. }
  rewrite Ec. unfold Solver.score, Solver.score_of in H.
  cbn [Solver.grid Solver.pairs] in H.
  destruct (for_each ps (fun p s => c <- Grid.cost g p ;; Ok (s + c)) 0)
    as [s0| |]; try discriminate H.
  cbn [bind] in *. revert H.
  apply for_each_ok_impl. intros i s s' _.
  apply for_each_ok_impl. intros j t t' _.
  unfold Solver.score_cell, UiPygame.score_cell.
  destruct (Grid.is_forbidden g i j) as [f| |]; simpl; try discriminate.
  destruct (cell_in (i, j) (Solver.cells_of ps)), f; simpl; auto.
Qed.

Lemma X18_witness :
  let g := Grid.mk 1 4 [[0; 4; 0; 0]] [[1; 100; 100; 1]] in
  let ps := [((0, 2), (0, 3))] in
  Solver.score (Solver.mk g ps) = Ok 100
  /\ UiPygame.calculate_score g ps = Ok 100.
Proof.
  intros g ps. split; [reflexivity|].
  apply (X18_calculate_score_agrees g ps 100). reflexivity.
Defined.

(** ** The flow solver pairs as many cells as any pairing can *)

Lemma run_final_state fuel s s' sc :
  wf (SolverBellmanFord.grid s) ->
  SolverBellmanFord.run fuel s = (Ok sc, s') ->
  let gr := SolverBellmanFord.grid s in
  exists g2 pot st,
    static_part g2 = static_part (network gr)
    /\ net g2 /\ flow_inv g2
    /\ map node_pair (SolverBellmanFord.pairs s')
       = unit_flow_edges g2 Source Sink
    /\ bf_inv g2 Source pot None st
    /\ Graph.queue st = []
    /\ Dict.get (Graph.dist st) Sink = Some Inf.
Proof.
  intros Hwf Hrun gr.
  destruct (network_built gr Hwf) as (_ & B & _).
  destruct (run_network fuel s Hwf) as [Hinv Hm]. cbv zeta in Hinv, Hm.
  fold gr in Hinv, Hm. rewrite Hrun in Hm. simpl in Hm.
  remember (Graph.mcf_loop fuel fuel Source Sink 0 (network gr)) as rg eqn:Erg.
  destruct rg as [r g2]. simpl in *.
  destruct r as [total|e|]; [|destruct Hm; discriminate|discriminate].
  destruct Hm as (ps' & M & _ & Eps & _). subst ps'.
  pose proof (mcf_loop_last fuel Source Sink fuel 0 (network gr) total g2
                            (eq_sym Erg)) as Elast.
  destruct Hinv as (Hst & Hflow & pot & Hpot).
  assert (Hnet : net g2)
    by (apply (net_static (network gr)); [now symmetry|apply (b_net B)]).
  assert (Hsrc : In Source (nodes g2)).
  { destruct (in_dec node_eq_dec Source (nodes g2)) as [H|H]; [exact H|].
    exfalso. destruct fuel as [|n]; [simpl in Erg; discriminate|].
    rewrite (mcf_iter_no_source g2 n Sink total Hnet H) in Elast.
    discriminate. }
  destruct (mcf_iter_cases g2 pot Hnet Hflow Hpot Hsrc) as [fuelC HC].
  assert (Ebig : Graph.mcf_iter (Nat.max fuel fuelC) Source Sink total g2
                 = (Ok None, g2)).
  { rewrite <- Elast. apply mcf_iter_mono; [lia|].
    rewrite Elast. discriminate. }
  destruct (HC (Nat.max fuel fuelC) ltac:(lia) total) as [Hmiss Hthere].
  assert (Hsnk : In Sink (nodes g2)).
  { destruct (in_dec node_eq_dec Sink (nodes g2)) as [H|H]; [exact H|].
    rewrite (Hmiss H) in Ebig. discriminate. }
  destruct (Hthere Hsnk) as (st & I & Eq & Hd).
  exists g2, pot, st. repeat (split; [assumption|]).
  destruct (Dict.get (Graph.dist st) Sink) as [[d|]|];
    [destruct Hd as (t & g' & Hd); rewrite Hd in Ebig; discriminate
    |reflexivity|destruct Hd].
Qed.

Lemma zsum_ge_member {A} (F : A -> Z) (l : list A) (v : A) :
  (forall x, In x l -> 0 <= F x) -> In v l -> F v <= zsum (map F l).
Proof.
  induction l as [|a r IH]; intros Hpos Hin; [destruct Hin|]. simpl.
  assert (0 <= zsum (map F r)).
  { apply zsum_nonneg. intros x Hx. apply in_map_iff in Hx as (y & <- & Hy).
    apply Hpos. now right. }
  assert (0 <= F a) by (apply Hpos; now left).
  destruct Hin as [->|Hin]; [lia|].
  specialize (IH (fun x Hx => Hpos x (or_intror Hx)) Hin). lia.
Qed.

Section Cover.

Variable g : Graph.t.
Variable pot : node -> option Z.
Variable st : Graph.bf_state.

Hypothesis Hnet : net g.
Hypothesis Hflow : flow_inv g.
Hypothesis Hinv : bf_inv g Source pot None st.
Hypothesis Hqueue : Graph.queue st = [].

(** The nodes the final search reached from the source. *)
Definition reached (x : node) : bool :=
  match Dict.get (Graph.dist st) x with
  | Some (Fin _) => true
  | _ => false
  end.

Lemma reached_fin x : reached x = true <-> exists d, dist_of st x = Some (Fin d).
Proof.
  unfold reached, dist_of.
  destruct (Dict.get (Graph.dist st) x) as [[d|]|]; split;
    try discriminate; eauto; intros [d' H]; discriminate.
Qed.

Lemma reached_source : reached Source = true.
Proof. apply reached_fin. exists 0. apply (bi_src Hinv). Qed.

Lemma reached_residual x y :
  reached x = true -> residual g x y -> reached y = true.
Proof.
  intros Hx Hr. apply reached_fin in Hx as [d Hd].
  destruct (bf_final_relaxed g Source pot st x d y Hinv Hqueue Hd Hr)
    as (_ & dy & _ & _ & Hy & _).
  apply reached_fin. eauto.
Qed.

Lemma reached_pred v :
  reached v = true -> v <> Source ->
  exists u, reached u = true /\ residual g u v.
Proof.
  intros Hv Ns. apply reached_fin in Hv as [d Hd].
  destruct (bi_chain Hinv v d Hd) as [n Hn].
  destruct n as [|n]; [simpl in Hn; congruence|]. simpl in Hn.
  destruct (Dict.get (Graph.pred st) v) as [[u|]|] eqn:Ep; try discriminate.
  destruct (bi_pred Hinv v u Ep) as (du & _ & _ & Hu & _ & Hres & _).
  exists u. split; [apply reached_fin; eauto|exact Hres].
Qed.

(** An even cell that sends a unit took it from the source. *)
Lemma even_sender_fed a b :
  is_even a = true -> cap g (Cell a) (Cell b) <> None ->
  flw g (Cell a) (Cell b) = Some 1 -> flw g Source (Cell a) = Some 1.
Proof.
  intros Hev Hc Hf.
  destruct (net_cap_nodes Hnet _ _ Hc) as [Hin _].
  destruct (net_adj_some g _ Hnet Hin) as [l El].
  pose proof (fi_cons Hflow a) as Hcons. unfold net_out in Hcons.
  rewrite El in Hcons.
  assert (Hla : lvl (Cell a) = 1) by (rewrite lvl_cell, Hev; reflexivity).
  assert (Hb : In (Cell b) l) by now apply (net_adj_iff Hnet _ l _ El).
  set (F := fun y => if node_eqb y Source then 0 else flow_val g (Cell a) y).
  assert (HF : forall y, In y l -> 0 <= F y).
  { intros y Hy. unfold F. destruct (node_eqb_spec y Source) as [|N]; [lia|].
    apply (net_adj_iff Hnet _ l y El) in Hy.
    destruct (flow_val_bounds g Hnet Hflow _ _ Hy) as [[_ H]|[Hl _]]; [lia|].
    exfalso. apply N. apply lvl_zero. lia. }
  assert (H1 : 1 <= zsum (map F l)).
  { pose proof (zsum_ge_member F l (Cell b) HF Hb) as H.
    unfold F in H at 1. simpl in H. unfold flow_val in H. rewrite Hf in H.
    exact H. }
  destruct (in_dec node_eq_dec Source l) as [Hs|Hs].
  - pose proof (zsum_update_at F (flow_val g (Cell a)) l Source
                  (net_adj_nodup Hnet _ l El) Hs) as Hu.
    rewrite Hu in Hcons.
    2:{ intros x Nx. unfold F. now rewrite (node_eqb_neq x Source Nx). }
    unfold F in Hcons at 2. simpl in Hcons.
    apply (net_adj_iff Hnet _ l Source El) in Hs.
    destruct (flow_val_bounds g Hnet Hflow _ _ Hs) as [[Hl _]|[_ Hbd]];
      [rewrite Hla in Hl; simpl in Hl; lia|].
    assert (Hv : flow_val g (Cell a) Source = -1) by lia.
    unfold flow_val in Hv.
    pose proof (fi_dom Hflow _ _ Hs) as Hd.
    destruct (flw g (Cell a) Source) as [f|] eqn:Ef; [|congruence]. subst f.
    apply (fi_anti Hflow) in Ef. exact Ef.
  - exfalso.
    assert (E : map (flow_val g (Cell a)) l = map F l).
    { apply map_ext_in. intros y Hy. unfold F.
      rewrite node_eqb_neq; [reflexivity|]. intros ->. contradiction. }
    rewrite E in Hcons. lia.
Qed.

Lemma matched_even_reached a b :
  is_even a = true -> cap g (Cell a) (Cell b) <> None ->
  flw g (Cell a) (Cell b) = Some 1 ->
  reached (Cell a) = true -> reached (Cell b) = true.
Proof.
  intros Hev Hc Hf Hr.
  destruct (reached_pred (Cell a) Hr ltac:(discriminate))
    as (u & Hu & (k & f & Hk & Hfu & Hlt)).
  assert (Hla : lvl (Cell a) = 1) by (rewrite lvl_cell, Hev; reflexivity).
  destruct (net_layer Hnet u (Cell a) k Hk) as [(-> & Hl & _)|(-> & Hl)].
  - assert (u = Source) by (apply lvl_zero; lia). subst u.
    rewrite (even_sender_fed a b Hev Hc Hf) in Hfu. injection Hfu as <-. lia.
  - assert (Hl2 : lvl u = 2) by lia. destruct (lvl_two u Hl2) as [b' ->].
    pose proof (fi_anti Hflow _ _ _ Hfu) as Er.
    fold (flw g (Cell a) (Cell b')) in Er.
    assert (Hc' : cap g (Cell a) (Cell b') <> None).
    { apply (net_cap_sym Hnet). congruence. }
    destruct (flow_val_bounds g Hnet Hflow _ _ Hc') as [[_ Hb]|[Hlv _]];
      [|rewrite Hla in Hlv; lia].
    unfold flow_val in Hb. rewrite Er in Hb.
    assert (Ef : - f = 1) by lia. rewrite Ef in Er.
    pose proof (even_cell_one_out g Hnet Hflow a _ _ Hev Hc Hc' Hf Er) as E.
    injection E as ->. exact Hu.
Qed.

Lemma reached_odd_matched a b :
  cap g (Cell a) (Cell b) <> None -> flw g (Cell a) (Cell b) = Some 1 ->
  reached (Cell b) = true -> reached (Cell a) = true.
Proof.
  intros Hc Hf Hr.
  destruct (unit_flow_forward g Hnet Hflow _ _ Hc Hf) as [Hk Hl].
  pose proof (net_cap_sym Hnet _ _ Hc) as Hrev.
  destruct (cap g (Cell b) (Cell a)) as [k'|] eqn:Ek'; [|congruence].
  destruct (net_layer Hnet _ _ k' Ek') as [(-> & Hl' & _)|(-> & _)]; [lia|].
  apply (reached_residual (Cell b) (Cell a) Hr).
  exists 0, (- 1). split; [exact Ek'|]. split; [|lia].
  apply (fi_anti Hflow _ _ _ Hf).
Qed.

End Cover.

Lemma nodup_cells_nodup (Q : list pair) :
  NoDup (Solver.cells_of Q) -> NoDup Q.
Proof.
  induction Q as [|q r IH]; intros H; [constructor|].
  simpl in H. inversion H as [|? ? H1 H2]; subst.
  inversion H2 as [|? ? H3 H4]; subst.
  constructor; [|now apply IH].
  intros Hq. apply H1. right. unfold Solver.cells_of.
  apply in_flat_map. exists q. split; [exact Hq|]. now left.
Qed.

Lemma nodup_cells_disjoint (Q : list pair) q q' c :
  NoDup (Solver.cells_of Q) -> In q Q -> In q' Q -> q <> q' ->
  In c [fst q; snd q] -> In c [fst q'; snd q'] -> False.
Proof.
  induction Q as [|x r IH]; intros Hnd Hq Hq' Hne Hc Hc'; [destruct Hq|].
  change (Solver.cells_of (x :: r))
    with ([fst x; snd x] ++ Solver.cells_of r) in Hnd.
  assert (Hin : forall y, In y r -> forall d, In d [fst y; snd y] ->
                          In d (Solver.cells_of r)).
  { intros y Hy d Hd. unfold Solver.cells_of. apply in_flat_map. eauto. }
  assert (Hsep : forall d, In d [fst x; snd x] ->
                           ~ In d (Solver.cells_of r)).
  { intros d Hd Hr. revert Hnd Hd Hr. clear. simpl.
    intros Hnd Hd Hr. inversion Hnd as [|? ? H1 H2]; subst.
    inversion H2 as [|? ? H3 H4]; subst.
    destruct Hd as [<-|[<-|[]]]; [apply H1; now right|now apply H3]. }
  destruct Hq as [->|Hq], Hq' as [->|Hq'].
  - congruence.
  - apply (Hsep c Hc). now apply (Hin q').
  - apply (Hsep c Hc'). now apply (Hin q).
  - apply (IH (NoDup_app_remove_l _ _ Hnd) Hq Hq' Hne Hc Hc').
Qed.

Lemma injective_count {A B} (f : A -> option B) (l : list A) :
  forall l' : list B,
  NoDup l ->
  (forall x, In x l -> exists y, f x = Some y /\ In y l') ->
  (forall x x', In x l -> In x' l -> f x = f x' -> x = x') ->
  (length l <= length l')%nat.
Proof.
  induction l as [|x r IH]; intros l' Hnd Hin Hinj; [simpl; lia|].
  inversion Hnd as [|? ? Hx Hr]; subst.
  destruct (Hin x (or_introl eq_refl)) as (y & Ey & Hy).
  apply in_split in Hy as (l1 & l2 & ->).
  assert (H : (length r <= length (l1 ++ l2))%nat).
  { apply IH; [exact Hr| |].
    - intros x' Hx'. destruct (Hin x' (or_intror Hx')) as (y' & Ey' & Hy').
      exists y'. split; [exact Ey'|].
      apply in_app_or in Hy' as [Hy'|[<-|Hy']];
        [apply in_or_app; now left| |apply in_or_app; now right].
      exfalso. apply Hx.
      rewrite (Hinj x x' (or_introl eq_refl) (or_intror Hx')); [exact Hx'|].
      congruence.
    - intros a b Ha Hb. apply Hinj; now right. }
  rewrite length_app in *. simpl. lia.
Qed.

Section Maximum.

Variable gr : Grid.t.
Variable g2 : Graph.t.
Variable pot : node -> option Z.
Variable st : Graph.bf_state.
Variable ps : list pair.

Hypothesis Hwf : wf gr.
Hypothesis Hst : static_part g2 = static_part (network gr).
Hypothesis Hnet : net g2.
Hypothesis Hflow : flow_inv g2.
Hypothesis HM : map node_pair ps = unit_flow_edges g2 Source Sink.
Hypothesis Hinv : bf_inv g2 Source pot None st.
Hypothesis Hqueue : Graph.queue st = [].
Hypothesis Hinf : Dict.get (Graph.dist st) Sink = Some Inf.

Lemma unit_edge_pair a b :
  cap g2 (Cell a) (Cell b) <> None -> flw g2 (Cell a) (Cell b) = Some 1 ->
  In (a, b) ps.
Proof.
  intros Hc Hf.
  assert (Hin : In (Cell a, Cell b) (unit_flow_edges g2 Source Sink)).
  { apply in_unit_flow_edges.
    destruct (net_cap_nodes Hnet _ _ Hc) as [Ha _].
    split; [exact Ha|]. split; [discriminate|]. split; [discriminate|].
    split; [|split; [discriminate|split; [discriminate|exact Hf]]].
    destruct (net_adj_some g2 _ Hnet Ha) as [l El].
    unfold adj_or_nil. rewrite El. now apply (net_adj_iff Hnet _ l _ El). }
  rewrite <- HM in Hin. apply in_map_iff in Hin as ([a' b'] & Ep & Hp).
  unfold node_pair in Ep. simpl in Ep. now injection Ep as -> ->.
Qed.

Lemma pair_unit_edge p :
  In p ps ->
  cap g2 (Cell (fst p)) (Cell (snd p)) <> None
  /\ flw g2 (Cell (fst p)) (Cell (snd p)) = Some 1
  /\ is_even (fst p) = true /\ is_even (snd p) = false.
Proof.
  intros Hp.
  assert (Hin : In (Cell (fst p), Cell (snd p))
                   (unit_flow_edges g2 Source Sink)).
  { rewrite <- HM. apply (in_map node_pair _ _ Hp). }
  apply in_unit_flow_edges in Hin as (Hn & _ & _ & Hv & _ & _ & Hf).
  assert (Hc : cap g2 (Cell (fst p)) (Cell (snd p)) <> None).
  { unfold adj_or_nil in Hv.
    destruct (adj g2 (Cell (fst p))) as [l|] eqn:El; [|destruct Hv].
    now apply (net_adj_iff Hnet _ l _ El). }
  split; [exact Hc|]. split; [exact Hf|].
  destruct (unit_flow_forward g2 Hnet Hflow _ _ Hc Hf) as [_ Hl].
  rewrite !lvl_cell in Hl.
  destruct (is_even (fst p)), (is_even (snd p)); try lia; auto.
Qed.

Lemma sink_not_reached : reached st Sink = false.
Proof. unfold reached. now rewrite Hinf. Qed.

Lemma cover_even a :
  In a (even_cells gr) -> reached st (Cell a) = false ->
  exists p, In p ps /\ fst p = a.
Proof.
  intros Ha Hr.
  destruct (existsb (fun p => cell_eqb (fst p) a) ps) eqn:Ex.
  - apply existsb_exists in Ex as (p & Hp & E).
    destruct (cell_eqb_spec (fst p) a); [eauto|discriminate].
  - exfalso.
    assert (C1 : cap g2 Source (Cell a) = Some 1).
    { rewrite (cap_static (network gr) g2 _ _ Hst).
      now apply (network_source_edge gr a Hwf). }
    assert (Hev : is_even a = true) by now apply in_even_cells in Ha.
    assert (Hres : residual g2 Source (Cell a)).
    { apply (even_unmatched_source g2 Hnet Hflow a Hev C1).
      intros b Hc Hf. pose proof (unit_edge_pair a b Hc Hf) as Hp.
      assert (Ht : existsb (fun p => cell_eqb (fst p) a) ps = true).
      { apply existsb_exists. exists (a, b). split; [exact Hp|]. simpl.
        destruct (cell_eqb_spec a a); congruence. }
      congruence. }
    pose proof (reached_residual g2 pot st Hinv Hqueue _ _
                  (reached_source g2 pot st Hinv) Hres).
    congruence.
Qed.

Lemma cover_odd b :
  In b (odd_cells gr) -> reached st (Cell b) = true ->
  exists p, In p ps /\ snd p = b.
Proof.
  intros Hb Hr.
  destruct (existsb (fun p => cell_eqb (snd p) b) ps) eqn:Ex.
  - apply existsb_exists in Ex as (p & Hp & E).
    destruct (cell_eqb_spec (snd p) b); [eauto|discriminate].
  - exfalso.
    assert (C3 : cap g2 (Cell b) Sink = Some 1).
    { rewrite (cap_static (network gr) g2 _ _ Hst).
      now apply (network_sink_edge gr b Hwf). }
    assert (Hodd : is_even b = false) by now apply in_odd_cells in Hb.
    assert (Hres : residual g2 (Cell b) Sink).
    { apply (odd_unmatched_sink g2 Hnet Hflow b Hodd C3).
      intros a Hc Hf. pose proof (unit_edge_pair a b Hc Hf) as Hp.
      assert (Ht : existsb (fun p => cell_eqb (snd p) b) ps = true).
      { apply existsb_exists. exists (a, b). split; [exact Hp|]. simpl.
        destruct (cell_eqb_spec b b); congruence. }
      congruence. }
    pose proof (reached_residual g2 pot st Hinv Hqueue _ _ Hr Hres) as H.
    rewrite sink_not_reached in H. discriminate.
Qed.

(** The cell of a pair that the vertex cover holds: the even cell if the
    search did not reach it, else the odd cell. *)
Definition cover_cell (q : pair) : cell :=
  let a := if is_even (fst q) then fst q else snd q in
  let b := if is_even (fst q) then snd q else fst q in
  if reached st (Cell a) then b else a.

Definition in_cover (c : cell) : Prop :=
  (is_even c = true /\ reached st (Cell c) = false)
  \/ (is_even c = false /\ reached st (Cell c) = true).

Lemma cover_cell_in q : In (cover_cell q) [fst q; snd q].
Proof.
  unfold cover_cell. simpl.
  destruct (is_even (fst q)), (reached st _); auto.
Qed.

Lemma cover_cell_good q :
  in_bounds gr (fst q) -> in_bounds gr (snd q) ->
  valid_pair gr (fst q) (snd q) = true ->
  in_cover (cover_cell q)
  /\ exists p, In p ps /\ (fst p = cover_cell q \/ snd p = cover_cell q).
Proof.
  intros H1 H2 Hv.
  assert (Hor : exists a b,
             in_bounds gr a /\ in_bounds gr b /\ is_even a = true
             /\ is_even b = false /\ valid_pair gr a b = true
             /\ cover_cell q = if reached st (Cell a) then b else a).
  { assert (Hd : exists d, In d SolverBellmanFord.directions
                           /\ snd q = (fst (fst q) + fst d,
                                       snd (fst q) + snd d)).
    { destruct q as [[i j] [i' j']].
      destruct (valid_pair_adjacent gr (i, j) (i', j') Hv)
        as [[Hc [Hr|Hr]]|[Hr [Hc|Hc]]]; simpl in *.
      - exists (1, 0). split; [simpl; auto|]. simpl. f_equal; lia.
      - exists (-1, 0). split; [simpl; auto|]. simpl. f_equal; lia.
      - exists (0, 1). split; [simpl; auto|]. simpl. f_equal; lia.
      - exists (0, -1). split; [simpl; auto|]. simpl. f_equal; lia. }
    destruct Hd as (d & Hd & Ed).
    pose proof (neighbour_parity (fst q) d Hd) as Hp. rewrite <- Ed in Hp.
    unfold cover_cell. destruct (is_even (fst q)) eqn:E1; simpl in Hp.
    - exists (fst q), (snd q). auto 10.
    - exists (snd q), (fst q).
      rewrite (valid_pair_sym gr (fst q) (snd q) Hwf H1 H2) in Hv. auto 10. }
  destruct Hor as (a & b & Ha & Hb & Hev & Hodd & Hvab & ->).
  destruct (valid_pair_not_black gr a b Hvab) as [Ba Bb].
  assert (Hae : In a (even_cells gr)) by (apply in_even_cells; auto).
  assert (Hbo : In b (odd_cells gr)) by (apply in_odd_cells; auto).
  destruct (reached st (Cell a)) eqn:Ra.
  - assert (C2 : cap g2 (Cell a) (Cell b) = Some 1).
    { rewrite (cap_static (network gr) g2 _ _ Hst).
      apply (network_cell_edge gr a b Hwf). auto. }
    assert (Rb : reached st (Cell b) = true).
    { destruct (flw g2 (Cell a) (Cell b)) as [f|] eqn:Ef.
      - destruct (Z.eq_dec f 1) as [->|Nf].
        + apply (matched_even_reached g2 pot st Hnet Hflow Hinv a b Hev);
            [congruence|exact Ef|exact Ra].
        + apply (reached_residual g2 pot st Hinv Hqueue (Cell a) _ Ra).
          apply (unsaturated_edge g2 Hflow a b C2). congruence.
      - apply (reached_residual g2 pot st Hinv Hqueue (Cell a) _ Ra).
        apply (unsaturated_edge g2 Hflow a b C2). congruence. }
    split; [right; auto|].
    destruct (cover_odd b Hbo Rb) as (p & Hp & E). eauto.
  - split; [left; auto|].
    destruct (cover_even a Hae Ra) as (p & Hp & E). eauto.
Qed.

Definition holder (q : pair) : option pair :=
  find (fun p => cell_eqb (fst p) (cover_cell q)
                 || cell_eqb (snd p) (cover_cell q)) ps.

Lemma holder_spec q p :
  holder q = Some p ->
  In p ps /\ (fst p = cover_cell q \/ snd p = cover_cell q).
Proof.
  unfold holder. intros H. apply find_some in H as [Hp E].
  split; [exact Hp|]. apply orb_true_iff in E.
  destruct E as [E|E]; [left|right];
    destruct (cell_eqb_spec (fst p) (cover_cell q));
    destruct (cell_eqb_spec (snd p) (cover_cell q)); auto; discriminate.
Qed.

Lemma more_pairs_impossible (Q : list pair) :
  NoDup (Solver.cells_of Q) ->
  (forall q, In q Q ->
     in_bounds gr (fst q) /\ in_bounds gr (snd q)
     /\ valid_pair gr (fst q) (snd q) = true) ->
  (length Q <= length ps)%nat.
Proof.
  intros Hnd Hval.
  apply (injective_count holder Q ps (nodup_cells_nodup Q Hnd)).
  - intros q Hq. destruct (Hval q Hq) as (H1 & H2 & Hv).
    destruct (cover_cell_good q H1 H2 Hv) as (_ & p & Hp & E).
    unfold holder.
    destruct (find (fun p0 => cell_eqb (fst p0) (cover_cell q)
                              || cell_eqb (snd p0) (cover_cell q)) ps)
      as [p'|] eqn:Ef.
    + exists p'. split; [reflexivity|]. now apply find_some in Ef.
    + exfalso. pose proof (find_none _ _ Ef p Hp) as Hn. simpl in Hn.
      apply orb_false_iff in Hn as [N1 N2].
      destruct E as [E|E]; rewrite E in *;
        destruct (cell_eqb_spec (cover_cell q) (cover_cell q)); congruence.
  - intros q q' Hq Hq' E.
    destruct (pair_eq_dec q q') as [|Hne]; [assumption|exfalso].
    destruct (Hval q Hq) as (H1 & H2 & Hv).
    destruct (Hval q' Hq') as (H1' & H2' & Hv').
    destruct (cover_cell_good q H1 H2 Hv) as (Hc & p & Hp & Ep).
    destruct (cover_cell_good q' H1' H2' Hv') as (Hc' & _).
    destruct (holder q) as [h|] eqn:Eh.
    2:{ unfold holder in Eh. pose proof (find_none _ _ Eh p Hp) as Hn.
        simpl in Hn. apply orb_false_iff in Hn as [N1 N2].
        destruct Ep as [Ep|Ep]; rewrite Ep in *;
          destruct (cell_eqb_spec (cover_cell q) (cover_cell q)); congruence. }
    symmetry in E.
    destruct (holder_spec q h Eh) as (Hh & Eq).
    destruct (holder_spec q' h E) as (_ & Eq').
    destruct (pair_unit_edge h Hh) as (Hcap & Hf & Hev & Hodd).
    assert (Hdiff : cover_cell q <> cover_cell q').
    { intros Ec.
      apply (nodup_cells_disjoint Q q q' (cover_cell q) Hnd Hq Hq' Hne).
      - apply cover_cell_in.
      - rewrite Ec. apply cover_cell_in. }
    assert (Hboth : reached st (Cell (fst h)) = false
                    /\ reached st (Cell (snd h)) = true).
    { destruct Eq as [Eq|Eq], Eq' as [Eq'|Eq']; try congruence.
      - rewrite <- Eq in Hc. rewrite <- Eq' in Hc'.
        destruct Hc as [[_ Hc]|[Hc _]]; [|congruence].
        destruct Hc' as [[Hc' _]|[_ Hc']]; [congruence|]. auto.
      - rewrite <- Eq in Hc. rewrite <- Eq' in Hc'.
        destruct Hc' as [[_ Hc']|[Hc' _]]; [|congruence].
        destruct Hc as [[Hc _]|[_ Hc]]; [congruence|]. auto. }
    destruct Hboth as [Rf Rs].
    pose proof (reached_odd_matched g2 pot st Hnet Hflow Hinv Hqueue
                  _ _ Hcap Hf Rs).
    congruence.
Qed.

End Maximum.

(** X19: the flow solver returns a pairing of maximum size.  When [run]
    returns on a well-formed grid, no list of pairs of in-bounds cells that
    pass [test_pair] and share no cell is longer than [self.pairs]. *)
Theorem X19_flow_pairing_maximum
        (fuel : nat) (s s' : SolverBellmanFord.t) (sc : Z) (Q : list pair) :
  wf (SolverBellmanFord.grid s) ->
  SolverBellmanFord.run fuel s = (Ok sc, s') ->
  NoDup (Solver.cells_of Q) ->
  (forall q, In q Q ->
     in_bounds (SolverBellmanFord.grid s) (fst q)
     /\ in_bounds (SolverBellmanFord.grid s) (snd q)
     /\ Grid.test_pair (SolverBellmanFord.grid s) (fst q) (snd q) = Ok true) ->
  (length Q <= length (SolverBellmanFord.pairs s'))%nat.
Proof.
  intros Hwf Hrun Hnd Hval.
  destruct (run_final_state fuel s s' sc Hwf Hrun)
    as (g2 & pot & st & Hst & Hnet & Hflow & M & I & Eq & Hinf).
  apply (more_pairs_impossible (SolverBellmanFord.grid s) g2 pot st
           (SolverBellmanFord.pairs s') Hwf Hst Hnet Hflow M I Eq Hinf Q Hnd).
  intros q Hq. destruct (Hval q Hq) as (H1 & H2 & Ht).
  split; [exact H1|]. split; [exact H2|].
  rewrite (test_pair_wf _ _ _ Hwf H1 H2) in Ht. congruence.
Qed.

Lemma X19_witness :
  let s := fresh (Grid.mk 1 4 [[0; 0; 0; 0]] [[1; 100; 100; 1]]) in
  let s' := snd (SolverBellmanFord.run 30 s) in
  let Q := [((0, 1), (0, 2))] in
  SolverBellmanFord.run 30 s = (Ok 198, s')
  /\ length (SolverBellmanFord.pairs s') = 2%nat
  /\ (length Q <= length (SolverBellmanFord.pairs s'))%nat.
Proof.
  intros s s' Q.
  assert (Hrun : SolverBellmanFord.run 30 s = (Ok 198, s'))
    by (vm_compute; reflexivity).
  split; [exact Hrun|]. split; [vm_compute; reflexivity|].
  apply (X19_flow_pairing_maximum 30 s s' 198 Q); [reflexivity|exact Hrun| |].
  - simpl. repeat constructor; simpl; intuition congruence.
  - intros q [<-|[]]. split; [unfold in_bounds; simpl; lia|].
    split; [unfold in_bounds; simpl; lia|reflexivity].
Defined.

(** ** The pairing of the flow solver, for every grid *)

Lemma usable_parity gr :
  wf gr ->
  ((exists c, in_bounds gr c
              /\ Grid.is_forbidden gr (fst c) (snd c) = Ok false
              /\ (fst c + snd c) mod 2 = 0) <-> even_cells gr <> [])
  /\ ((exists c, in_bounds gr c
                 /\ Grid.is_forbidden gr (fst c) (snd c) = Ok false
                 /\ (fst c + snd c) mod 2 = 1) <-> odd_cells gr <> []).
Proof.
  intros Hwf. split; split.
  - intros (c & Hc) E.
    apply (proj1 (cell_status gr c Hwf)) in Hc. rewrite E in Hc. destruct Hc.
  - intros Hne. destruct (even_cells gr) as [|c r] eqn:E; [congruence|].
    exists c. apply (proj1 (cell_status gr c Hwf)). rewrite E. now left.
  - intros (c & Hb & Hf & Hp) E.
    assert (Hc : In c (odd_cells gr)).
    { apply (proj2 (cell_status gr c Hwf)). split; [exact Hb|].
      split; [exact Hf|lia]. }
    rewrite E in Hc. destruct Hc.
  - intros Hne. destruct (odd_cells gr) as [|c r] eqn:E; [congruence|].
    assert (Hc : In c (odd_cells gr)) by (rewrite E; now left).
    apply (proj2 (cell_status gr c Hwf)) in Hc as (Hb & Hf & Hp).
    exists c. split; [exact Hb|]. split; [exact Hf|].
    pose proof (Z.mod_pos_bound (fst c + snd c) 2). lia.
Qed.

(** With enough budget the augmentation loop on the network of a grid ends:
    with a total when both sentinels are in the network, and otherwise with
    [KeyError] in its first iteration, the network left as built. *)
Lemma network_loop_ends gr :
  wf gr ->
  exists fuel0, forall fuel, (fuel0 <= fuel)%nat ->
    let rg := Graph.mcf_loop fuel fuel Source Sink 0 (network gr) in
    (even_cells gr <> [] /\ odd_cells gr <> [] /\ exists z, fst rg = Ok z)
    \/ ((even_cells gr = [] \/ odd_cells gr = [])
        /\ rg = (Raise KeyError, network gr)).
Proof.
  intros Hwf.
  destruct (network_built gr Hwf) as (_ & B & _).
  destruct (network_nodes gr Hwf) as [Hsrc Hsnk].
  destruct (in_dec node_eq_dec Source (nodes (network gr))) as [Hs|Hs];
    [destruct (in_dec node_eq_dec Sink (nodes (network gr))) as [Ht|Ht]|].
  - destruct (mcf_loop_returns (length (even_cells gr)) (network gr) 0
                (b_net B) (built_flow_inv _ _ B)
                (ex_intro _ _ (built_feasible _ _ B)) Hs Ht) as [fuel Hf].
    { rewrite (built_even_degree gr _ B), (built_net_out_zero _ _ Source B).
      lia. }
    exists (Nat.max fuel (S (length (even_cells gr)))). intros fuel' Hle rg.
    left. split; [now apply Hsrc|]. split; [now apply Hsnk|].
    apply (Hf fuel' fuel'); lia.
  - destruct (mcf_iter_cases (network gr) (fun _ => Some 0) (b_net B)
                (built_flow_inv _ _ B) (built_feasible _ _ B) Hs)
      as [fuel Hf].
    exists (Nat.max fuel 1). intros fuel' Hle rg. right. split.
    + right. destruct (odd_cells gr); [reflexivity|].
      exfalso. apply Ht, Hsnk. discriminate.
    + subst rg. destruct fuel' as [|n] eqn:En; [lia|]. rewrite <- En in *.
      rewrite En at 1. simpl. unfold bindS.
      now rewrite (proj1 (Hf fuel' ltac:(lia) 0) Ht).
  - exists 1%nat. intros fuel' Hle rg. right. split.
    + left. destruct (even_cells gr); [reflexivity|].
      exfalso. apply Hs, Hsrc. discriminate.
    + subst rg. destruct fuel' as [|n]; [lia|]. simpl. unfold bindS.
      now rewrite (mcf_iter_no_source (network gr) n Sink 0 (b_net B) Hs).
Qed.

Lemma built_no_unit_flow calls g :
  built calls g -> unit_flow_edges g Source Sink = [].
Proof.
  intros B.
  destruct (unit_flow_edges g Source Sink) as [|[u v] r] eqn:E; [reflexivity|].
  exfalso.
  assert (Hin : In (u, v) (unit_flow_edges g Source Sink))
    by (rewrite E; now left).
  apply in_unit_flow_edges in Hin as (_ & _ & _ & _ & _ & _ & Hf).
  assert (Hc : cap g u v <> None) by (apply (b_flow_dom B); congruence).
  rewrite (b_flow_zero B _ _ Hc) in Hf. discriminate.
Qed.

(** C3: on every well-formed grid [SolverBellmanFord.run] ends, given
    enough loop budget, and the list it leaves in [self.pairs] is a valid
    pairing.  If the grid has a non-black cell with [i + j] even and one
    with [i + j] odd, [run] returns, and what it returns is the score of
    that list; otherwise it raises [KeyError] with the list empty.  In both
    cases the list has no repetition, two different pairs share no cell and
    no pair repeats a cell, every pair passes [Grid.test_pair], and the
    pairs are exactly the edges [(u, v)] of the network the solver holds,
    with neither end a sentinel, whose flow [flow[u][v]] is 1 (listed in the
    order of the final double loop of [min_cost_flow]). *)
Theorem C3_flow_pairing_valid (s : SolverBellmanFord.t) :
  wf (SolverBellmanFord.grid s) ->
  let gr := SolverBellmanFord.grid s in
  let usable (parity : Z) :=
    exists c, in_bounds gr c
              /\ Grid.is_forbidden gr (fst c) (snd c) = Ok false
              /\ (fst c + snd c) mod 2 = parity in
  exists fuel0, forall fuel, (fuel0 <= fuel)%nat ->
    let r := SolverBellmanFord.run fuel s in
    let ps := SolverBellmanFord.pairs (snd r) in
    let g := SolverBellmanFord.graph (snd r) in
    (usable 0 /\ usable 1 /\ fst r = Ok (score_value gr ps)
     \/ (~ usable 0 \/ ~ usable 1) /\ fst r = Raise KeyError /\ ps = [])
    /\ NoDup ps
    /\ (forall p q, In p ps -> In q ps -> p <> q -> cell_disjoint p q)
    /\ (forall p, In p ps -> fst p <> snd p)
    /\ (forall p, In p ps -> Grid.test_pair gr (fst p) (snd p) = Ok true)
    /\ (forall u v,
          In (u, v) (map node_pair ps) <->
          u <> Source /\ u <> Sink /\ v <> Source /\ v <> Sink
          /\ (exists l, Dict.get (Graph.adj_list g) u = Some l /\ In v l)
          /\ get2 (Graph.flow g) u v = Ok 1)
    /\ map node_pair ps = unit_flow_edges g Source Sink.
Proof.
  intros Hwf gr usable.
  destruct (usable_parity gr Hwf) as [Heven Hodd].
  fold (usable 0) in Heven. fold (usable 1) in Hodd.
  destruct (network_loop_ends gr Hwf) as [fuel0 Hends].
  exists fuel0. intros fuel Hle r ps g.
  specialize (Hends fuel Hle). cbv zeta in Hends.
  destruct (run_outcome fuel s Hwf) as (s1 & Eb & Hbuilt & _ & _ & Hm).
  destruct (build_graph_built gr (reset s) Hwf (reset_coherent s) eq_refl)
    as (s1' & Eb' & _ & Hp & _).
  rewrite Eb in Eb'. injection Eb' as <-.
  assert (Eg : SolverBellmanFord.graph s1 = network gr).
  { unfold network. change (fresh gr) with (reset s). now rewrite Eb. }
  cbv zeta in Hm. rewrite Eg in Hm, Hbuilt. fold gr in Hm, Hbuilt.
  destruct Hends as [(He & Ho & z & Hz)|(Hmiss & Erg)].
  - rewrite Hz in Hm. destruct Hm as (ps' & _ & Erun).
    fold r in Erun.
    assert (Eps : ps = ps') by (subst ps; rewrite Erun; reflexivity).
    assert (Erun' : SolverBellmanFord.run fuel s
                    = (Ok (score_value gr ps), snd r)).
    { fold r. rewrite Eps. rewrite Erun at 1. now rewrite Erun. }
    destruct (run_ok_pairing fuel s (snd r) _ Hwf Erun')
      as (H1 & H2 & H3 & H4 & H5 & H6 & _).
    fold gr ps g in H1, H2, H3, H4, H5, H6.
    split; [left; split; [now apply Heven|split; [now apply Hodd|]]|].
    { fold r in Erun'. rewrite Erun'. reflexivity. }
    auto 10.
  - rewrite Erg in Hm. cbn [fst snd] in Hm. fold r in Hm.
    assert (Eps : ps = []) by (subst ps; rewrite Hm; exact Hp).
    assert (Egr : g = network gr) by (subst g; rewrite Hm; reflexivity).
    pose proof (built_no_unit_flow _ _ Hbuilt) as Hnone.
    split.
    { right. split; [|split; [rewrite Hm; reflexivity|exact Eps]].
      destruct Hmiss as [E|E]; [left|right]; intros Hu.
      - now apply Heven in Hu.
      - now apply Hodd in Hu. }
    rewrite Eps, Egr. simpl.
    split; [constructor|]. split; [intros p q []|]. split; [intros p []|].
    split; [intros p []|]. split; [|now symmetry].
    intros u v. split; [intros []|].
    intros (Hu1 & Hu2 & Hv1 & Hv2 & (l & El & Hin) & Hf).
    rewrite get2_entry in Hf. fold (flw (network gr) u v) in Hf.
    assert (Hc : cap (network gr) u v <> None).
    { apply (b_flow_dom Hbuilt). destruct (flw (network gr) u v); discriminate. }
    rewrite (b_flow_zero Hbuilt _ _ Hc) in Hf. discriminate.
Qed.

Lemma C3_witness :
  let gr := Grid.mk 2 3 [[0; 1; 2]; [3; 0; 4]] [[1; 5; 7]; [5; 5; 2]] in
  let s := SolverBellmanFord.mk gr [] Graph.init Dict.empty Dict.empty in
  let usable (parity : Z) :=
    exists c, in_bounds gr c
              /\ Grid.is_forbidden gr (fst c) (snd c) = Ok false
              /\ (fst c + snd c) mod 2 = parity in
  wf gr
  /\ SolverBellmanFord.pairs (snd (SolverBellmanFord.run 30 s))
     = [((0, 2), (0, 1)); ((1, 1), (1, 0))]
  /\ exists fuel0, forall fuel, (fuel0 <= fuel)%nat ->
       let r := SolverBellmanFord.run fuel s in
       let ps := SolverBellmanFord.pairs (snd r) in
       let g := SolverBellmanFord.graph (snd r) in
       (usable 0 /\ usable 1 /\ fst r = Ok (score_value gr ps)
        \/ (~ usable 0 \/ ~ usable 1) /\ fst r = Raise KeyError /\ ps = [])
       /\ NoDup ps
       /\ (forall p q, In p ps -> In q ps -> p <> q -> cell_disjoint p q)
       /\ (forall p, In p ps -> fst p <> snd p)
       /\ (forall p, In p ps -> Grid.test_pair gr (fst p) (snd p) = Ok true)
       /\ (forall u v,
             In (u, v) (map node_pair ps) <->
             u <> Source /\ u <> Sink /\ v <> Source /\ v <> Sink
             /\ (exists l, Dict.get (Graph.adj_list g) u = Some l /\ In v l)
             /\ get2 (Graph.flow g) u v = Ok 1)
       /\ map node_pair ps = unit_flow_edges g Source Sink.
Proof.
  intros gr s usable.
  assert (Hwf : wf gr) by reflexivity.
  split; [exact Hwf|]. split; [vm_compute; reflexivity|].
  exact (C3_flow_pairing_valid s Hwf).
Defined.
